(** * A shallow embedding of the JKQ decision-diagram package

    The development follows the sources of the package: the float pool
    ([ComplexTable]), the cache lane of scratch complex numbers
    ([ComplexNumbers]), the unique tables ([UniqueTable]), the compute
    tables and the recursive operators of [Package].

    Conventions.
    - Pointers are values of small inductive types; [nullptr] is a
      constructor of its own.  Dereferencing it is the failure [Segfault].
    - Singly linked chains whose only use is traversal (bucket chains, the
      free lists of the arenas) are lists, head first.
    - [fp] arithmetic is a parameter of the development (class [FpOps]);
      [QFp] instantiates it with exact rationals so that the model runs.
    - Stateful code is written in a state-and-failure monad [M]. *)

From Stdlib Require Import ZArith QArith Qround Qabs Lia Lqa Bool.
From stdpp Require Import base option list gmap.

Set Default Proof Using "Type".
Open Scope Z_scope.

(** ** Failures *)

(** The debug assertions of the sources that the development tracks. *)
Inductive assertion :=
  | CacheBalance      (* assert(after == before) on cn.cacheCount *)
  | CacheAvailable    (* assert(cacheCount >= 2) *)
  | CacheOverflow     (* assert(cacheCount <= CACHE_SIZE) *)
  | ReleaseStatic     (* assert(c != ZERO); assert(c != ONE) *)
  | ReleaseReferenced (* assert(c.r->ref == 0); assert(c.i->ref == 0) *)
  | LookupNaN         (* assert(!std::isnan(val)) *)
  | HashNegative      (* assert(val >= 0) *)
  | NodeRefZero       (* assert(e.p->ref == 0) *)
  | LevelOrder        (* assert(var - 1 == edge.p->v || isTerminal(edge)) and the like *)
  | RefUnderflow.     (* assert(entryPtr->refCount > 0) *)

Inductive failure :=
  | Assert (a : assertion)
  | InvalidArgument   (* std::invalid_argument *)
  | RuntimeError      (* std::runtime_error *)
  | Segfault          (* dereference of nullptr, of a dangling or of a tagged pointer *)
  | Unmodelled        (* a step whose effect the model does not represent: a write to
                         a static entry, or to the next field or the reference
                         count of an entry of the other lane *)
  | OutOfFuel.        (* the recursion bound of the model was too small *)

(** A run returns a value and the final state, or stops with a failure in
    the state that it had reached. *)
Inductive result (S A : Type) :=
  | Ok (a : A) (s : S)
  | Err (f : failure) (s : S).
Arguments Ok {S A} a s.
Arguments Err {S A} f s.

(** ** The state-and-failure monad *)

Definition M (S A : Type) : Type := S -> result S A.

Definition ret {S A} (a : A) : M S A := fun s => Ok a s.
Definition bind {S A B} (m : M S A) (k : A -> M S B) : M S B :=
  fun s => match m s with
           | Ok a s' => k a s'
           | Err f s' => Err f s'
           end.
Definition fail {S A} (f : failure) : M S A := fun s => Err f s.
Definition get {S} : M S S := fun s => Ok s s.
Definition gets {S A} (f : S -> A) : M S A := fun s => Ok (f s) s.
Definition put {S} (s : S) : M S unit := fun _ => Ok tt s.
Definition modify {S} (f : S -> S) : M S unit := fun s => Ok tt (f s).
Definition assert {S} (a : assertion) (b : bool) : M S unit :=
  if b then ret tt else fail (Assert a).
Definition deref {S A} (o : option A) : M S A :=
  match o with Some a => ret a | None => fail Segfault end.
Definition when {S} (b : bool) (m : M S unit) : M S unit :=
  if b then m else ret tt.

Declare Scope m_scope.
Delimit Scope m_scope with M.
Notation "x <- c1 ;; c2" := (bind c1 (fun x => c2))
  (at level 100, c1 at next level, right associativity) : m_scope.
Notation "c1 ;;; c2" := (bind c1 (fun _ => c2))
  (at level 100, right associativity) : m_scope.
Open Scope m_scope.

(** Running a sub-component's action on a field of a larger state. *)
Definition zoom {S T A} (proj : S -> T) (upd : T -> S -> S) (m : M T A) : M S A :=
  fun s => match m (proj s) with
           | Ok a t => Ok a (upd t s)
           | Err f t => Err f (upd t s)
           end.

(** [count_from a n] is [a; a + 1; ...; a + n - 1]. *)
Fixpoint count_up (a : Z) (n : nat) : list Z :=
  match n with
  | O => []
  | S n => a :: count_up (a + 1) n
  end.

Definition count_from (a n : Z) : list Z := count_up a (Z.to_nat n).

(** ** Outcomes

    [wp m s Q E]: running [m] from [s] either returns a value and a state
    that satisfy [Q], or fails with a failure that satisfies [E]. *)

Definition wp {S A} (m : M S A) (s : S) (Q : A -> S -> Prop) (E : failure -> Prop) : Prop :=
  match m s with
  | Ok a s' => Q a s'
  | Err f _ => E f
  end.

(** ** Floating-point arithmetic as an interface

    [fp] is a build-time alias of the sources (Definitions.hpp is not among
    them).  Its operations are the fields of [FpOps]; [tolerance] is the
    run-time settable [TOLERANCE]. *)

Class FpOps (F : Type) := {
  fp0 : F;
  fp1 : F;
  fadd : F -> F -> F;
  fsub : F -> F -> F;
  fmul : F -> F -> F;
  fdiv : F -> F -> F;
  fneg : F -> F;
  fabs : F -> F;            (* std::abs *)
  fsqrt : F -> F;           (* std::sqrt *)
  fltb : F -> F -> bool;    (* a < b *)
  fleb : F -> F -> bool;    (* a <= b *)
  feqb : F -> F -> bool;    (* a == b *)
  fisnan : F -> bool;       (* std::isnan *)
  ftrunc : F -> Z;          (* static_cast<std::size_t> *)
  fofZ : Z -> F;            (* conversion of an integer constant *)
  SQRT2_2 : F;              (* the constant 1/sqrt(2) of Definitions.hpp *)
  tolerance : F
}.

(** Exact rationals: every operation but [fsqrt] is exact (sums, differences,
    products and quotients are kept in lowest terms); [fsqrt] is exact on
    squares of rationals and rounds down at the 20th decimal otherwise.  Division by
    zero yields zero, there are no NaNs. *)
Definition Qsqrt (q : Q) : Q :=
  Qred (Z.sqrt (Qnum q * Zpos (Qden q) * 10 ^ 40) # (Qden q * 10 ^ 20)).

Definition Qtol : Q := 1 # 10000000000000.

#[export] Instance QFp : FpOps Q := {|
  fp0 := 0%Q;
  fp1 := 1%Q;
  fadd a b := Qred (a + b);
  fsub a b := Qred (a - b);
  fmul a b := Qred (a * b);
  fdiv a b := Qred (a / b);
  fneg := Qopp;
  fabs := Qabs;
  fsqrt := Qsqrt;
  fltb a b := match (a ?= b)%Q with Lt => true | _ => false end;
  fleb a b := match (a ?= b)%Q with Gt => false | _ => true end;
  feqb := Qeq_bool;
  fisnan _ := false;
  ftrunc q := Z.quot (Qnum q) (Zpos (Qden q));
  fofZ := inject_Z;
  SQRT2_2 := 7071067811865475244 # 10000000000000000000;
  tolerance := Qtol
|}.

(** ** The float pool: [ComplexTable] (include/dd/ComplexTable.hpp) *)

Module ComplexTable.

(** [Entry*]: the two static entries and the entries of the chunks, named by
    chunk number and index in the chunk. *)
Inductive EntryPtr :=
  | zeroE                       (* &zero *)
  | oneE                        (* &one *)
  | chunkE (chunk index : Z).

#[global] Instance EntryPtr_eq_dec : EqDecision EntryPtr.
Proof. solve_decision. Defined.

Section WithFp.
Context {F : Type} {ops : FpOps F}.

Definition NBUCKET : Z := 32768.
Definition INITIAL_ALLOCATION_SIZE : Z := 2048.
Definition GROWTH_FACTOR : Z := 2.
Definition INITIAL_GC_LIMIT : Z := 50000.
Definition MASK : Z := NBUCKET - 1.

(** [struct Entry]; the [next] field is the tail of the list the entry is on. *)
Record Entry := mkEntry { value : F; refCount : Z }.

Record t := mkTable {
  table : gmap Z (list EntryPtr);  (* bucket chains; no binding: nullptr *)
  mem : gmap (Z * Z) Entry;        (* contents of the chunk entries written so far *)
  available : list EntryPtr;
  chunks : list Z;                 (* sizes of the allocated chunks *)
  chunkID : Z;
  chunkIt : Z;                     (* index in chunk [chunkID]; chunkEndIt is its size *)
  allocationSize : Z;
  allocations : Z;
  count : Z;
  peakCount : Z;
  collisions : Z;
  hits : Z;
  lookups : Z;
  gcCalls : Z;
  gcRuns : Z;
  gcLimit : Z;
  probes : list Z                  (* ghost: keys of the buckets handed to find, oldest first *)
}.

Definition set_table f s := mkTable (f (table s)) (mem s) (available s) (chunks s) (chunkID s)
  (chunkIt s) (allocationSize s) (allocations s) (count s) (peakCount s) (collisions s) (hits s)
  (lookups s) (gcCalls s) (gcRuns s) (gcLimit s) (probes s).
Definition set_mem f s := mkTable (table s) (f (mem s)) (available s) (chunks s) (chunkID s)
  (chunkIt s) (allocationSize s) (allocations s) (count s) (peakCount s) (collisions s) (hits s)
  (lookups s) (gcCalls s) (gcRuns s) (gcLimit s) (probes s).
Definition set_available f s := mkTable (table s) (mem s) (f (available s)) (chunks s) (chunkID s)
  (chunkIt s) (allocationSize s) (allocations s) (count s) (peakCount s) (collisions s) (hits s)
  (lookups s) (gcCalls s) (gcRuns s) (gcLimit s) (probes s).
Definition set_count f s := mkTable (table s) (mem s) (available s) (chunks s) (chunkID s)
  (chunkIt s) (allocationSize s) (allocations s) (f (count s)) (peakCount s) (collisions s) (hits s)
  (lookups s) (gcCalls s) (gcRuns s) (gcLimit s) (probes s).
Definition set_peakCount f s := mkTable (table s) (mem s) (available s) (chunks s) (chunkID s)
  (chunkIt s) (allocationSize s) (allocations s) (count s) (f (peakCount s)) (collisions s) (hits s)
  (lookups s) (gcCalls s) (gcRuns s) (gcLimit s) (probes s).
Definition set_collisions f s := mkTable (table s) (mem s) (available s) (chunks s) (chunkID s)
  (chunkIt s) (allocationSize s) (allocations s) (count s) (peakCount s) (f (collisions s)) (hits s)
  (lookups s) (gcCalls s) (gcRuns s) (gcLimit s) (probes s).
Definition set_hits f s := mkTable (table s) (mem s) (available s) (chunks s) (chunkID s)
  (chunkIt s) (allocationSize s) (allocations s) (count s) (peakCount s) (collisions s) (f (hits s))
  (lookups s) (gcCalls s) (gcRuns s) (gcLimit s) (probes s).
Definition set_lookups f s := mkTable (table s) (mem s) (available s) (chunks s) (chunkID s)
  (chunkIt s) (allocationSize s) (allocations s) (count s) (peakCount s) (collisions s) (hits s)
  (f (lookups s)) (gcCalls s) (gcRuns s) (gcLimit s) (probes s).
Definition set_probes f s := mkTable (table s) (mem s) (available s) (chunks s) (chunkID s)
  (chunkIt s) (allocationSize s) (allocations s) (count s) (peakCount s) (collisions s) (hits s)
  (lookups s) (gcCalls s) (gcRuns s) (gcLimit s) (f (probes s)).

Definition bucket (s : t) (key : Z) : list EntryPtr := default [] (table s !! key).

(** [static inline Entry zero{0., nullptr, 1}] and [one{1., nullptr, 1}]. *)
Definition zeroEntry : Entry := mkEntry fp0 1.
Definition oneEntry : Entry := mkEntry fp1 1.

Definition chunk_valid (s : t) (c i : Z) : bool :=
  match chunks s !! Z.to_nat c with
  | Some size => (0 <=? c) && (0 <=? i) && (i <? size)
  | None => false
  end.

(** [*p] for an [Entry* p]; chunk entries are value-initialised. *)
Definition entry_at (s : t) (p : EntryPtr) : option Entry :=
  match p with
  | zeroE => Some zeroEntry
  | oneE => Some oneEntry
  | chunkE c i =>
      if chunk_valid s c i then Some (default (mkEntry fp0 0) (mem s !! (c, i))) else None
  end.

Definition read (p : EntryPtr) : M t Entry := s <- get ;; deref (entry_at s p).

(** Writes to the static entries do not occur in the sources. *)
Definition write (p : EntryPtr) (e : Entry) : M t unit :=
  match p with
  | chunkE c i =>
      s <- get ;;
      if chunk_valid s c i then modify (set_mem (<[(c, i) := e]>)) else fail Segfault
  | _ => fail Segfault
  end.

(** [hash]: linear, clipped. *)
Definition hash_key (val : F) : Z :=
  let key := ftrunc (fmul val (fofZ MASK)) in
  Z.min key MASK.

Definition hash (val : F) : M t Z :=
  assert HashNegative (fleb fp0 val) ;;;
  ret (hash_key val).

(** [find]: the first entry of the chain within [tolerance] of [val]. *)
Fixpoint find_chain (chain : list EntryPtr) (val : F) : M t (option EntryPtr) :=
  match chain with
  | [] => ret None
  | p :: rest =>
      e <- read p ;;
      if fltb (fabs (fsub (value e) val)) tolerance
      then modify (set_hits (Z.succ)) ;;; ret (Some p)
      else modify (set_collisions (Z.succ)) ;;; find_chain rest val
  end.

Definition find (key : Z) (val : F) : M t (option EntryPtr) :=
  modify (set_probes (fun l => l ++ [key])) ;;;
  s <- get ;;
  find_chain (bucket s key) val.

Definition getEntry : M t EntryPtr :=
  s <- get ;;
  match available s with
  | entry :: rest =>
      put (set_available (fun _ => rest) s) ;;;
      e <- read entry ;;
      write entry (mkEntry (value e) 0) ;;;
      ret entry
  | [] =>
      s <- (if chunkIt s =? default 0 (chunks s !! Z.to_nat (chunkID s))
            then ret (mkTable (table s) (mem s) (available s)
                        (chunks s ++ [allocationSize s]) (chunkID s + 1) 0
                        (allocationSize s * GROWTH_FACTOR)
                        (allocations s + allocationSize s)
                        (count s) (peakCount s) (collisions s) (hits s) (lookups s)
                        (gcCalls s) (gcRuns s) (gcLimit s) (probes s))
            else ret s) ;;
      put (mkTable (table s) (mem s) (available s) (chunks s) (chunkID s) (chunkIt s + 1)
             (allocationSize s) (allocations s) (count s) (peakCount s) (collisions s)
             (hits s) (lookups s) (gcCalls s) (gcRuns s) (gcLimit s) (probes s)) ;;;
      ret (chunkE (chunkID s) (chunkIt s))
  end.

Definition returnEntry (entry : EntryPtr) : M t unit :=
  modify (set_available (fun l => entry :: l)).

Definition lookup (val : F) : M t EntryPtr :=
  assert LookupNaN (negb (fisnan val)) ;;;
  if fltb (fabs val) tolerance then ret zeroE
  else if fltb (fabs (fsub val fp1)) tolerance then ret oneE
  else
    modify (set_lookups Z.succ) ;;;
    (* search in intended bucket *)
    key <- hash val ;;
    p <- find key val ;;
    match p with
    | Some p => ret p
    | None =>
      (* search in (potentially) lower bucket *)
      p <- (if fleb fp0 (fsub val tolerance)
            then lowerKey <- hash (fsub val tolerance) ;;
                 if negb (lowerKey =? key) then find lowerKey val else ret None
            else ret None) ;;
      match p with
      | Some p => ret p
      | None =>
        (* search in (potentially) higher bucket *)
        upperKey <- hash (fsub val tolerance) ;;
        p <- (if negb (upperKey =? key) then find upperKey val else ret None) ;;
        match p with
        | Some p => ret p
        | None =>
          (* value was not found in the table *)
          entry <- getEntry ;;
          e <- read entry ;;
          write entry (mkEntry val (refCount e)) ;;;
          modify (set_table (fun tb => <[key := entry :: default [] (tb !! key)]> tb)) ;;;
          modify (set_count Z.succ) ;;;
          modify (fun s => set_peakCount (fun pk => Z.max pk (count s)) s) ;;;
          ret entry
        end
      end
    end.

(** The constructor: first chunk, the static entries in their buckets, and the
    pinned entries for 1/2 and 1/sqrt(2). *)
Definition unallocated : t :=
  mkTable ∅ ∅ [] [] 0 0 0 0 0 0 0 0 0 0 0 100000 [].

Definition pin (p : EntryPtr) : M t unit :=
  e <- read p ;; write p (mkEntry (value e) (refCount e + 1)).

Definition construct : M t unit :=
  put (mkTable (<[NBUCKET - 1 := [oneE]]> (<[0 := [zeroE]]> ∅)) ∅ []
         [INITIAL_ALLOCATION_SIZE] 0 0 (INITIAL_ALLOCATION_SIZE * GROWTH_FACTOR)
         INITIAL_ALLOCATION_SIZE 2 2 0 0 0 0 0 INITIAL_GC_LIMIT []) ;;;
  p <- lookup (fdiv fp1 (fofZ 2)) ;;
  pin p ;;;
  p <- lookup SQRT2_2 ;;
  pin p.

(** [incRef] and [decRef] on an aligned pointer; [None] is nullptr. *)
Definition static (p : EntryPtr) : bool :=
  match p with chunkE _ _ => false | _ => true end.

Definition REFCOUNT_MAX : Z := 4294967295.

Definition incRef (entry : option EntryPtr) : M t unit :=
  match entry with
  | None => ret tt
  | Some entryPtr =>
      if static entryPtr then ret tt
      else
        e <- read entryPtr ;;
        if refCount e =? REFCOUNT_MAX then ret tt
        else write entryPtr (mkEntry (value e) (refCount e + 1))
  end.

Definition decRef (entry : option EntryPtr) : M t unit :=
  match entry with
  | None => ret tt
  | Some entryPtr =>
      if static entryPtr then ret tt
      else
        e <- read entryPtr ;;
        assert RefUnderflow (0 <? refCount e) ;;;
        write entryPtr (mkEntry (value e) (refCount e - 1))
  end.

(** One bucket of [garbageCollect]: unlink the entries with [refCount == 0];
    returns the chain that stays and the number of entries collected. *)
Fixpoint collect_chain (chain : list EntryPtr) : M t (list EntryPtr * Z) :=
  match chain with
  | [] => ret ([], 0)
  | p :: rest =>
      e <- read p ;;
      if refCount e =? 0
      then returnEntry p ;;;
           r <- collect_chain rest ;;
           ret (fst r, snd r + 1)
      else r <- collect_chain rest ;;
           ret (p :: fst r, snd r)
  end.

Fixpoint collect_buckets (keys : list Z) : M t (Z * Z) :=
  match keys with
  | [] => ret (0, 0)
  | key :: keys =>
      s <- get ;;
      r <- collect_chain (bucket s key) ;;
      modify (set_table (fun tb => match fst r with
                                   | [] => delete key tb
                                   | chain => <[key := chain]> tb
                                   end)) ;;;
      cr <- collect_buckets keys ;;
      ret (fst cr + snd r, snd cr + Z.of_nat (length (fst r)))
  end.

Definition garbageCollect (force : bool) : M t Z :=
  s <- get ;;
  put (mkTable (table s) (mem s) (available s) (chunks s) (chunkID s) (chunkIt s)
         (allocationSize s) (allocations s) (count s) (peakCount s) (collisions s)
         (hits s) (lookups s) (gcCalls s + 1) (gcRuns s) (gcLimit s) (probes s)) ;;;
  if (negb force && (count s <? gcLimit s)) || (count s =? 0) then ret 0
  else
    cr <- collect_buckets (count_from 0 NBUCKET) ;;
    let collected := fst cr in
    let remaining := snd cr in
    s <- get ;;
    let limit :=
      if gcLimit s * 9 / 10 <? remaining then remaining + INITIAL_GC_LIMIT
      else if remaining <? gcLimit s / 16 then gcLimit s / 8
      else gcLimit s in
    put (mkTable (table s) (mem s) (available s) (chunks s) (chunkID s) (chunkIt s)
           (allocationSize s) (allocations s) remaining (peakCount s) (collisions s)
           (hits s) (lookups s) (gcCalls s) (gcRuns s + 1) limit (probes s)) ;;;
    ret collected.

Definition clear : M t unit :=
  modify (fun s =>
    mkTable ∅ (mem s) [] (take 1 (chunks s)) 0 0
      (INITIAL_ALLOCATION_SIZE * GROWTH_FACTOR) INITIAL_ALLOCATION_SIZE
      0 0 0 0 0 0 0 INITIAL_GC_LIMIT (probes s)).

End WithFp.
End ComplexTable.


(** ** Complex weights and the cache lane: [ComplexNumbers]
    (the second file of include/dd/ComplexValue.hpp, i.e. DDcomplex.hpp) *)

Module CN.

(** An aligned [ComplexTableEntry*]: an entry of the pool or an entry of the
    cache lane. *)
Inductive EntryRef :=
  | poolE (p : ComplexTable.EntryPtr)
  | cacheE (k : Z).

(** A pointer with the sign of the number in its least significant bit. *)
Record TaggedPtr := tag { aligned : EntryRef; negative : bool }.

(** [struct Complex]. *)
Record Complex := mkComplex { r : TaggedPtr; i : TaggedPtr }.

#[global] Instance EntryRef_eq_dec : EqDecision EntryRef.
Proof. solve_decision. Defined.
#[global] Instance TaggedPtr_eq_dec : EqDecision TaggedPtr.
Proof. solve_decision. Defined.
#[global] Instance Complex_eq_dec : EqDecision Complex.
Proof. solve_decision. Defined.

Definition zeroEntry : TaggedPtr := tag (poolE ComplexTable.zeroE) false.
Definition oneEntry : TaggedPtr := tag (poolE ComplexTable.oneE) false.
Definition ZERO : Complex := mkComplex zeroEntry zeroEntry.
Definition ONE : Complex := mkComplex oneEntry zeroEntry.

Definition getAlignedPointer (entry : TaggedPtr) : TaggedPtr := tag (aligned entry) false.
Definition getNegativePointer (entry : TaggedPtr) : TaggedPtr := tag (aligned entry) true.
Definition flipPointerSign (entry : TaggedPtr) : TaggedPtr :=
  tag (aligned entry) (negb (negative entry)).
Definition isNegativePointer (entry : TaggedPtr) : bool := negative entry.

(** [a == b] and [a != b] on [Complex]: equality of both pointers. *)
Definition ceq (a b : Complex) : bool := bool_decide (a = b).
Definition cne (a b : Complex) : bool := negb (ceq a b).

Definition CACHE_SIZE : Z := 1800.

Section WithFp.
Context {F : Type} {ops : FpOps F}.

(** [struct ComplexValue] (the Cartesian one; the fields are [r] and [i] in
    the sources). *)
Record ComplexValue := mkCV { re : F; im : F }.

Record t := mkCN {
  pool : ComplexTable.t (F:=F);
  cacheVal : gmap Z F;          (* val of the cache entries written so far *)
  cacheNext : gmap Z EntryRef;  (* next of the cache entries; no binding: nullptr *)
  Cache_Avail : option EntryRef;
  cacheCount : Z
}.

Definition set_pool f s :=
  mkCN (f (pool s)) (cacheVal s) (cacheNext s) (Cache_Avail s) (cacheCount s).
Definition set_cacheVal f s :=
  mkCN (pool s) (f (cacheVal s)) (cacheNext s) (Cache_Avail s) (cacheCount s).
Definition set_cacheNext f s :=
  mkCN (pool s) (cacheVal s) (f (cacheNext s)) (Cache_Avail s) (cacheCount s).
Definition set_Cache_Avail f s :=
  mkCN (pool s) (cacheVal s) (cacheNext s) (f (Cache_Avail s)) (cacheCount s).
Definition set_cacheCount f s :=
  mkCN (pool s) (cacheVal s) (cacheNext s) (Cache_Avail s) (f (cacheCount s)).

Definition in_pool {A} (m : M (ComplexTable.t (F:=F)) A) : M t A :=
  zoom pool (fun p s => set_pool (fun _ => p) s) m.

Definition cache_valid (k : Z) : bool := (0 <=? k) && (k <? CACHE_SIZE).

(** [x->val] for an aligned [x]. *)
Definition entry_val (s : t) (x : EntryRef) : option F :=
  match x with
  | poolE p => ComplexTable.value <$> ComplexTable.entry_at (pool s) p
  | cacheE k => if cache_valid k then Some (default fp0 (cacheVal s !! k)) else None
  end.

(** [x->ref] for an aligned [x]; the entries of the cache lane are never
    referenced. *)
Definition entry_ref (s : t) (x : EntryRef) : option Z :=
  match x with
  | poolE p => ComplexTable.refCount <$> ComplexTable.entry_at (pool s) p
  | cacheE k => if cache_valid k then Some 0 else None
  end.

(** [val]: the number a tagged pointer stands for. *)
Definition val_in (s : t) (x : TaggedPtr) : option F :=
  if isNegativePointer x then fneg <$> entry_val s (aligned x)
  else entry_val s (aligned x).

Definition val (x : TaggedPtr) : M t F := s <- get ;; deref (val_in s x).

(** A field access [x->...] is defined on untagged pointers only. *)
Definition untagged (x : TaggedPtr) : M t EntryRef :=
  if negative x then fail Segfault else ret (aligned x).

(** [x->val], the field itself. *)
Definition get_val (x : TaggedPtr) : M t F :=
  x <- untagged x ;; s <- get ;; deref (entry_val s x).

(** [x->val = v]. *)
Definition set_val (x : TaggedPtr) (v : F) : M t unit :=
  x <- untagged x ;;
  match x with
  | cacheE k =>
      if cache_valid k then modify (set_cacheVal (<[k := v]>)) else fail Segfault
  | poolE (ComplexTable.chunkE c j) =>
      e <- in_pool (ComplexTable.read (ComplexTable.chunkE c j)) ;;
      in_pool (ComplexTable.write (ComplexTable.chunkE c j)
                 (ComplexTable.mkEntry v (ComplexTable.refCount e)))
  | poolE _ => fail Unmodelled
  end.

(** [x->next]. *)
Definition next (x : EntryRef) : M t (option EntryRef) :=
  match x with
  | cacheE k => if cache_valid k then s <- get ;; ret (cacheNext s !! k) else fail Segfault
  | poolE _ => fail Unmodelled
  end.

(** [x->next = n]. *)
Definition set_next (x : TaggedPtr) (n : option EntryRef) : M t unit :=
  x <- untagged x ;;
  match x with
  | cacheE k =>
      if cache_valid k
      then modify (set_cacheNext (fun m => match n with
                                           | Some n => <[k := n]> m
                                           | None => delete k m
                                           end))
      else fail Segfault
  | poolE _ => fail Unmodelled
  end.

Definition value_of (c : Complex) : M t ComplexValue :=
  vr <- val (r c) ;; vi <- val (i c) ;; ret (mkCV vr vi).

Definition equals (a b : Complex) : M t bool :=
  ar <- val (r a) ;; br <- val (r b) ;; ai <- val (i a) ;; bi <- val (i b) ;;
  ret (fltb (fabs (fsub ar br)) tolerance && fltb (fabs (fsub ai bi)) tolerance).

Definition equalsCV (a b : ComplexValue) : bool :=
  fltb (fabs (fsub (re a) (re b))) tolerance && fltb (fabs (fsub (im a) (im b))) tolerance.

Definition equalsZeroCV (c : ComplexValue) : bool :=
  fltb (fabs (re c)) tolerance && fltb (fabs (im c)) tolerance.

Definition equalsOneCV (c : ComplexValue) : bool :=
  fltb (fabs (fsub (re c) fp1)) tolerance && fltb (fabs (im c)) tolerance.

Definition equalsZero (c : Complex) : M t bool :=
  if ceq c ZERO then ret true
  else v <- value_of c ;; ret (equalsZeroCV v).

Definition equalsOne (c : Complex) : M t bool :=
  if ceq c ONE then ret true
  else v <- value_of c ;; ret (equalsOneCV v).

Definition mag2CV (a : ComplexValue) : F := fadd (fmul (re a) (re a)) (fmul (im a) (im a)).

Definition mag2 (a : Complex) : M t F := v <- value_of a ;; ret (mag2CV v).

Definition mag (a : Complex) : M t F := m <- mag2 a ;; ret (fsqrt m).

(** Modelled from the spec: the arithmetic of DDcomplex.cpp, which is not
    among the sources ("Operations: add, sub, mul, div, conj, neg ...
    double-precision arithmetic on un-tagged values").  The operands are read
    before the result is written. *)
Definition addCV (a b : ComplexValue) : ComplexValue :=
  mkCV (fadd (re a) (re b)) (fadd (im a) (im b)).
Definition subCV (a b : ComplexValue) : ComplexValue :=
  mkCV (fsub (re a) (re b)) (fsub (im a) (im b)).
Definition mulCV (a b : ComplexValue) : ComplexValue :=
  mkCV (fsub (fmul (re a) (re b)) (fmul (im a) (im b)))
       (fadd (fmul (re a) (im b)) (fmul (im a) (re b))).
Definition divCV (a b : ComplexValue) : ComplexValue :=
  let cmag := fadd (fmul (re b) (re b)) (fmul (im b) (im b)) in
  mkCV (fdiv (fadd (fmul (re a) (re b)) (fmul (im a) (im b))) cmag)
       (fdiv (fsub (fmul (im a) (re b)) (fmul (re a) (im b))) cmag).

Definition store (res : Complex) (v : ComplexValue) : M t unit :=
  set_val (r res) (re v) ;;; set_val (i res) (im v).

Definition binop (f : ComplexValue -> ComplexValue -> ComplexValue)
    (res a b : Complex) : M t unit :=
  va <- value_of a ;; vb <- value_of b ;; store res (f va vb).

Definition add := binop addCV.
Definition sub := binop subCV.
Definition mul := binop mulCV.
Definition div := binop divCV.

(** Modelled from the spec: [conj] flips the sign tag of the imaginary part
    and [neg] of both parts; a pointer to the zero entry stays untagged. *)
Definition flip_unless_zero (x : TaggedPtr) : TaggedPtr :=
  if bool_decide (aligned x = poolE ComplexTable.zeroE) then x else flipPointerSign x.
Definition conj (a : Complex) : Complex := mkComplex (r a) (flip_unless_zero (i a)).
Definition neg (a : Complex) : Complex :=
  mkComplex (flip_unless_zero (r a)) (flip_unless_zero (i a)).

(** The cache lane. *)
Definition getTempCachedComplex : M t Complex :=
  s <- get ;;
  assert CacheAvailable (2 <=? cacheCount s) ;;;
  a <- deref (Cache_Avail s) ;;
  b <- next a ;;
  b <- deref b ;;
  ret (mkComplex (tag a false) (tag b false)).

Definition getTempCachedComplex2 (vr vi : F) : M t Complex :=
  c <- getTempCachedComplex ;;
  set_val (r c) vr ;;;
  set_val (i c) vi ;;;
  ret c.

Definition getTempCachedComplexCV (c : ComplexValue) : M t Complex :=
  getTempCachedComplex2 (re c) (im c).

Definition getCachedComplex : M t Complex :=
  s <- get ;;
  assert CacheAvailable (2 <=? cacheCount s) ;;;
  modify (set_cacheCount (fun n => n - 2)) ;;;
  a <- deref (Cache_Avail s) ;;
  b <- next a ;;
  b <- deref b ;;
  n <- next b ;;
  modify (set_Cache_Avail (fun _ => n)) ;;;
  ret (mkComplex (tag a false) (tag b false)).

Definition getCachedComplex2 (vr vi : F) : M t Complex :=
  s <- get ;;
  assert CacheAvailable (2 <=? cacheCount s) ;;;
  modify (set_cacheCount (fun n => n - 2)) ;;;
  a <- deref (Cache_Avail s) ;;
  b <- next a ;;
  b <- deref b ;;
  let c := mkComplex (tag a false) (tag b false) in
  set_val (r c) vr ;;;
  set_val (i c) vi ;;;
  n <- next b ;;
  modify (set_Cache_Avail (fun _ => n)) ;;;
  ret c.

Definition getCachedComplexCV (c : ComplexValue) : M t Complex :=
  getCachedComplex2 (re c) (im c).

Definition addCached (a b : Complex) : M t Complex :=
  c <- getCachedComplex ;; add c a b ;;; ret c.
Definition subCached (a b : Complex) : M t Complex :=
  c <- getCachedComplex ;; sub c a b ;;; ret c.
Definition mulCached (a b : Complex) : M t Complex :=
  c <- getCachedComplex ;; mul c a b ;;; ret c.
Definition divCached (a b : Complex) : M t Complex :=
  c <- getCachedComplex ;; div c a b ;;; ret c.

Definition releaseCached (c : Complex) : M t unit :=
  assert ReleaseStatic (cne c ZERO) ;;;
  assert ReleaseStatic (cne c ONE) ;;;
  s <- get ;;
  cr <- untagged (r c) ;;
  ref_r <- deref (entry_ref s cr) ;;
  assert ReleaseReferenced (ref_r =? 0) ;;;
  ci <- untagged (i c) ;;
  ref_i <- deref (entry_ref s ci) ;;
  assert ReleaseReferenced (ref_i =? 0) ;;;
  set_next (i c) (Cache_Avail s) ;;;
  modify (set_Cache_Avail (fun _ => Some cr)) ;;;
  modify (set_cacheCount (fun n => n + 2)) ;;;
  s <- get ;;
  assert CacheOverflow (cacheCount s <=? CACHE_SIZE).

(** Modelled from the spec: [lookup] of DDcomplex.cpp, which is not among
    the sources ("splits each component into magnitude and sign; looks up
    magnitude; returns the reference with the tag bit set iff the sign was
    negative.  ZERO is always untagged"), over the pool's [lookup]. *)
Definition lookupVal (v : F) : M t TaggedPtr :=
  p <- in_pool (ComplexTable.lookup (fabs v)) ;;
  ret (tag (poolE p)
         (fltb v fp0 && negb (bool_decide (p = ComplexTable.zeroE)))).

Definition lookup2 (vr vi : F) : M t Complex :=
  pr <- lookupVal vr ;;
  pi <- lookupVal vi ;;
  ret (mkComplex pr pi).

Definition lookup (c : Complex) : M t Complex :=
  v <- value_of c ;; lookup2 (re v) (im v).

Definition lookupCV (c : ComplexValue) : M t Complex := lookup2 (re c) (im c).

(** Modelled from the spec: reference counting and garbage collection
    delegate to the pool. *)
Definition pool_ptr (x : TaggedPtr) : M t (option ComplexTable.EntryPtr) :=
  match aligned x with
  | poolE p => ret (Some p)
  | cacheE _ => fail Unmodelled
  end.

Definition incRef (c : Complex) : M t unit :=
  pr <- pool_ptr (r c) ;; in_pool (ComplexTable.incRef pr) ;;;
  pi <- pool_ptr (i c) ;; in_pool (ComplexTable.incRef pi).

Definition decRef (c : Complex) : M t unit :=
  pr <- pool_ptr (r c) ;; in_pool (ComplexTable.decRef pr) ;;;
  pi <- pool_ptr (i c) ;; in_pool (ComplexTable.decRef pi).

Definition garbageCollect (force : bool) : M t Z :=
  in_pool (ComplexTable.garbageCollect force).

(** Modelled from the spec: the constructor threads the [CACHE_SIZE] entries
    of the cache lane into one chain. *)
Definition initial_chain : gmap Z EntryRef :=
  list_to_map ((fun k => (k, cacheE (k + 1))) <$> count_from 0 (CACHE_SIZE - 1)).

Definition construct : M t unit :=
  put (mkCN ComplexTable.unallocated ∅ initial_chain (Some (cacheE 0)) CACHE_SIZE) ;;;
  in_pool ComplexTable.construct.

Definition unconstructed : t := mkCN ComplexTable.unallocated ∅ ∅ None 0.

End WithFp.
End CN.

(** ** Nodes and edges (the structs of DDpackage.hpp; Edge.hpp is not among
       the sources) *)

(** [vNode*] and [mNode*]: nullptr, the static terminal node, or a node of an
    arena, named by its position in the arena. *)
Inductive NodePtr :=
  | nullptr
  | terminal
  | nodeP (a : Z).

#[global] Instance NodePtr_eq_dec : EqDecision NodePtr.
Proof. solve_decision. Defined.

(** [Edge<Node>]. *)
Record Edge := mkEdge { p : NodePtr; w : CN.Complex }.

#[global] Instance Edge_eq_dec : EqDecision Edge.
Proof. solve_decision. Defined.

(** [vNode] and [mNode] in one record: [symm] and [ident] are the flags of
    [mNode] and stay [false] in vector nodes; [next] is the tail of the chain
    the node is on. *)
Record Node := mkNode {
  e : list Edge;     (* std::array<Edge, RADIX> or <Edge, NEDGE> *)
  ref : Z;
  v : Z;             (* Qubit; -1 for the terminal *)
  symm : bool;
  ident : bool
}.

Inductive Kind := Vec | Mat.

Definition RADIX : Z := 2.
Definition NEDGE : Z := 4.

(** The number of edges of a node. *)
Definition arity (k : Kind) : Z :=
  match k with Vec => RADIX | Mat => NEDGE end.

(** [vNode::terminalNode] and [mNode::terminalNode]. *)
Definition terminalNode (k : Kind) : Node :=
  match k with
  | Vec => mkNode (replicate 2 (mkEdge nullptr CN.ZERO)) 0 (-1) false false
  | Mat => mkNode (replicate 4 (mkEdge nullptr CN.ZERO)) 0 (-1) true true
  end.

(** A value-initialised node of a fresh chunk.  Its edges hold null pointers
    only, also as weights; the model gives it no edges at all, so that reading
    one before it is assigned is a [Segfault]. *)
Definition freshNode : Node := mkNode [] 0 0 false false.

(** [static_cast<Qubit>]: [Qubit] is a signed 8-bit integer. *)
Definition to_Qubit (z : Z) : Z := (z + 128) mod 256 - 128.

(** What the sources leave to headers that are not among them, and to the
    memory layout. *)
Class Params (F : Type) := {
  (* reinterpret_cast<std::uintptr_t> of a node pointer and of a weight pointer *)
  node_addr : NodePtr -> Z;
  entry_addr : CN.TaggedPtr -> Z;
  (* the slot of a compute table that an operand pair falls into *)
  slot_edges : Edge -> Edge -> Z;
  slot_cached : NodePtr * CN.ComplexValue (F:=F) -> NodePtr * CN.ComplexValue (F:=F) -> Z;
  slot_edge : Edge -> Z;
  (* the target of the zero edges [vZero] and [mZero] *)
  zero_target : NodePtr
}.

(** ** The unique tables: [UniqueTable] (src/unnamed/part_004) *)

Module UniqueTable.

Definition NBUCKET : Z := 32768.
Definition ALLOCATION_SIZE : Z := 2000.
Definition MASK : Z := NBUCKET - 1.
Definition REFCOUNT_MAX : Z := 4294967295.

Section WithParams.
Context {F : Type} {ops : FpOps F} {params : Params F}.

Record t := mkUT {
  nvars : Z;
  tables : gmap (Z * Z) (list Z);  (* tables[v][key]: the chain of bucket key of variable v *)
  heap : gmap Z Node;  (* contents of the arena nodes written so far *)
  available : list Z;
  chunks : Z;  (* number of chunks; chunk c holds the nodes c*ALLOCATION_SIZE ... *)
  allocations : Z;
  nodeCount : Z;
  peakNodeCount : Z;
  collisions : Z;
  hits : Z;
  lookups : Z;
  active : list Z;
  activeNodeCount : Z;
  maxActive : Z;
  gcCalls : Z;
  gcRuns : Z;
  gcInitialLimit : Z;
  gcLimit : Z;
  gcIncrement : Z
}.

Definition set_nvars f s := mkUT (f (nvars s)) (tables s) (heap s) (available s) (chunks s)
  (allocations s) (nodeCount s) (peakNodeCount s) (collisions s) (hits s) (lookups s) (active s)
  (activeNodeCount s) (maxActive s) (gcCalls s) (gcRuns s) (gcInitialLimit s) (gcLimit s)
  (gcIncrement s).
Definition set_tables f s := mkUT (nvars s) (f (tables s)) (heap s) (available s) (chunks s)
  (allocations s) (nodeCount s) (peakNodeCount s) (collisions s) (hits s) (lookups s) (active s)
  (activeNodeCount s) (maxActive s) (gcCalls s) (gcRuns s) (gcInitialLimit s) (gcLimit s)
  (gcIncrement s).
Definition set_heap f s := mkUT (nvars s) (tables s) (f (heap s)) (available s) (chunks s)
  (allocations s) (nodeCount s) (peakNodeCount s) (collisions s) (hits s) (lookups s) (active s)
  (activeNodeCount s) (maxActive s) (gcCalls s) (gcRuns s) (gcInitialLimit s) (gcLimit s)
  (gcIncrement s).
Definition set_available f s := mkUT (nvars s) (tables s) (heap s) (f (available s)) (chunks s)
  (allocations s) (nodeCount s) (peakNodeCount s) (collisions s) (hits s) (lookups s) (active s)
  (activeNodeCount s) (maxActive s) (gcCalls s) (gcRuns s) (gcInitialLimit s) (gcLimit s)
  (gcIncrement s).
Definition set_chunks f s := mkUT (nvars s) (tables s) (heap s) (available s) (f (chunks s))
  (allocations s) (nodeCount s) (peakNodeCount s) (collisions s) (hits s) (lookups s) (active s)
  (activeNodeCount s) (maxActive s) (gcCalls s) (gcRuns s) (gcInitialLimit s) (gcLimit s)
  (gcIncrement s).
Definition set_allocations f s := mkUT (nvars s) (tables s) (heap s) (available s) (chunks s) (f
  (allocations s)) (nodeCount s) (peakNodeCount s) (collisions s) (hits s) (lookups s) (active
  s) (activeNodeCount s) (maxActive s) (gcCalls s) (gcRuns s) (gcInitialLimit s) (gcLimit s)
  (gcIncrement s).
Definition set_nodeCount f s := mkUT (nvars s) (tables s) (heap s) (available s) (chunks s)
  (allocations s) (f (nodeCount s)) (peakNodeCount s) (collisions s) (hits s) (lookups s)
  (active s) (activeNodeCount s) (maxActive s) (gcCalls s) (gcRuns s) (gcInitialLimit s)
  (gcLimit s) (gcIncrement s).
Definition set_peakNodeCount f s := mkUT (nvars s) (tables s) (heap s) (available s) (chunks s)
  (allocations s) (nodeCount s) (f (peakNodeCount s)) (collisions s) (hits s) (lookups s)
  (active s) (activeNodeCount s) (maxActive s) (gcCalls s) (gcRuns s) (gcInitialLimit s)
  (gcLimit s) (gcIncrement s).
Definition set_collisions f s := mkUT (nvars s) (tables s) (heap s) (available s) (chunks s)
  (allocations s) (nodeCount s) (peakNodeCount s) (f (collisions s)) (hits s) (lookups s)
  (active s) (activeNodeCount s) (maxActive s) (gcCalls s) (gcRuns s) (gcInitialLimit s)
  (gcLimit s) (gcIncrement s).
Definition set_hits f s := mkUT (nvars s) (tables s) (heap s) (available s) (chunks s)
  (allocations s) (nodeCount s) (peakNodeCount s) (collisions s) (f (hits s)) (lookups s)
  (active s) (activeNodeCount s) (maxActive s) (gcCalls s) (gcRuns s) (gcInitialLimit s)
  (gcLimit s) (gcIncrement s).
Definition set_lookups f s := mkUT (nvars s) (tables s) (heap s) (available s) (chunks s)
  (allocations s) (nodeCount s) (peakNodeCount s) (collisions s) (hits s) (f (lookups s))
  (active s) (activeNodeCount s) (maxActive s) (gcCalls s) (gcRuns s) (gcInitialLimit s)
  (gcLimit s) (gcIncrement s).
Definition set_active f s := mkUT (nvars s) (tables s) (heap s) (available s) (chunks s)
  (allocations s) (nodeCount s) (peakNodeCount s) (collisions s) (hits s) (lookups s) (f (active
  s)) (activeNodeCount s) (maxActive s) (gcCalls s) (gcRuns s) (gcInitialLimit s) (gcLimit s)
  (gcIncrement s).
Definition set_activeNodeCount f s := mkUT (nvars s) (tables s) (heap s) (available s) (chunks
  s) (allocations s) (nodeCount s) (peakNodeCount s) (collisions s) (hits s) (lookups s) (active
  s) (f (activeNodeCount s)) (maxActive s) (gcCalls s) (gcRuns s) (gcInitialLimit s) (gcLimit s)
  (gcIncrement s).
Definition set_maxActive f s := mkUT (nvars s) (tables s) (heap s) (available s) (chunks s)
  (allocations s) (nodeCount s) (peakNodeCount s) (collisions s) (hits s) (lookups s) (active s)
  (activeNodeCount s) (f (maxActive s)) (gcCalls s) (gcRuns s) (gcInitialLimit s) (gcLimit s)
  (gcIncrement s).
Definition set_gcCalls f s := mkUT (nvars s) (tables s) (heap s) (available s) (chunks s)
  (allocations s) (nodeCount s) (peakNodeCount s) (collisions s) (hits s) (lookups s) (active s)
  (activeNodeCount s) (maxActive s) (f (gcCalls s)) (gcRuns s) (gcInitialLimit s) (gcLimit s)
  (gcIncrement s).
Definition set_gcRuns f s := mkUT (nvars s) (tables s) (heap s) (available s) (chunks s)
  (allocations s) (nodeCount s) (peakNodeCount s) (collisions s) (hits s) (lookups s) (active s)
  (activeNodeCount s) (maxActive s) (gcCalls s) (f (gcRuns s)) (gcInitialLimit s) (gcLimit s)
  (gcIncrement s).
Definition set_gcInitialLimit f s := mkUT (nvars s) (tables s) (heap s) (available s) (chunks s)
  (allocations s) (nodeCount s) (peakNodeCount s) (collisions s) (hits s) (lookups s) (active s)
  (activeNodeCount s) (maxActive s) (gcCalls s) (gcRuns s) (f (gcInitialLimit s)) (gcLimit s)
  (gcIncrement s).
Definition set_gcLimit f s := mkUT (nvars s) (tables s) (heap s) (available s) (chunks s)
  (allocations s) (nodeCount s) (peakNodeCount s) (collisions s) (hits s) (lookups s) (active s)
  (activeNodeCount s) (maxActive s) (gcCalls s) (gcRuns s) (gcInitialLimit s) (f (gcLimit s))
  (gcIncrement s).
Definition set_gcIncrement f s := mkUT (nvars s) (tables s) (heap s) (available s) (chunks s)
  (allocations s) (nodeCount s) (peakNodeCount s) (collisions s) (hits s) (lookups s) (active s)
  (activeNodeCount s) (maxActive s) (gcCalls s) (gcRuns s) (gcInitialLimit s) (gcLimit s) (f
  (gcIncrement s)).

(** [UniqueTable(nvars, gcLimit, gcIncrement)]. *)
Definition construct (nv gcLim gcInc : Z) : t :=
  mkUT nv ∅ ∅ [] 0 0 0 0 0 0 0 (replicate (Z.to_nat nv) 0) 0 0 0 0 gcLim gcLim gcInc.

Definition resize (nq : Z) : M t unit :=
  modify (fun s =>
    let act := take (Z.to_nat nq) (active s) ++
               replicate (Z.to_nat nq - length (active s)) 0 in
    mkUT nq (tables s) (heap s) (available s) (chunks s) (allocations s) (nodeCount s)
      (peakNodeCount s) (collisions s) (hits s) (lookups s) act
      (foldr Z.add 0 act) (maxActive s) (gcCalls s) (gcRuns s) (gcInitialLimit s)
      (gcLimit s) (gcIncrement s)).

Definition allocated (s : t) (a : Z) : bool :=
  (0 <=? a) && (a <? chunks s * ALLOCATION_SIZE).

(** [*p] for a node pointer of kind [k]. *)
Definition node_at (k : Kind) (s : t) (p : NodePtr) : option Node :=
  match p with
  | nullptr => None
  | terminal => Some (terminalNode k)
  | nodeP a => if allocated s a then Some (default freshNode (heap s !! a)) else None
  end.

Definition node (k : Kind) (p : NodePtr) : M t Node := s <- get ;; deref (node_at k s p).

(** Assignments to the fields of [*p]; the terminal nodes are never written. *)
Definition update (k : Kind) (p : NodePtr) (f : Node -> Node) : M t unit :=
  n <- node k p ;;
  match p with
  | nodeP a => modify (set_heap (<[a := f n]>))
  | _ => fail Unmodelled
  end.

(** [tables[v][key]]. *)
Definition bucket (lvl key : Z) : M t (list Z) :=
  s <- get ;;
  if (0 <=? lvl) && (lvl <? nvars s) then ret (default [] (tables s !! (lvl, key)))
  else fail Segfault.

Definition set_bucket (lvl key : Z) (chain : list Z) : M t unit :=
  modify (set_tables (fun tb => match chain with
                                | [] => delete (lvl, key) tb
                                | _ => <[(lvl, key) := chain]> tb
                                end)).

(** [hash]: a spread over the addresses of the child nodes and weights. *)
Definition hash_edge (i : Z) (ed : Edge) : Z :=
  Z.land (Z.shiftr (node_addr (p ed)) i +
          Z.shiftr (entry_addr (CN.r (w ed))) i +
          Z.shiftr (entry_addr (CN.i (w ed))) (i + 1)) MASK.

Fixpoint hash_from (i : Z) (edges : list Edge) (key : Z) : Z :=
  match edges with
  | [] => key
  | ed :: edges => hash_from (i + 1) edges (Z.land (key + hash_edge i ed) MASK)
  end.

Definition hash (n : Node) : Z := hash_from 0 (e n) 0.

Definition returnNode (p : Z) : M t unit :=
  modify (set_available (fun l => p :: l)).

Definition getNode (k : Kind) : M t NodePtr :=
  s <- get ;;
  r <- match available s with
       | r :: rest => put (set_available (fun _ => rest) s) ;;; ret r
       | [] =>
           let r := chunks s * ALLOCATION_SIZE in
           put (mkUT (nvars s) (tables s) (heap s) (count_from (r + 1) (ALLOCATION_SIZE - 1))
                  (chunks s + 1) (allocations s + ALLOCATION_SIZE) (nodeCount s)
                  (peakNodeCount s) (collisions s) (hits s) (lookups s) (active s)
                  (activeNodeCount s) (maxActive s) (gcCalls s) (gcRuns s)
                  (gcInitialLimit s) (gcLimit s) (gcIncrement s)) ;;;
           ret r
       end ;;
  update k (nodeP r) (fun n => mkNode (e n) 0 (v n) (symm n) (ident n)) ;;;
  ret (nodeP r).

(** [assert(edge.p->v == v - 1 || isTerminal(edge))] for every successor of
    the node; [isTerminal] of the table is [e.p->v == -1]. *)
Fixpoint assert_successors (k : Kind) (lvl : Z) (edges : list Edge) : M t unit :=
  match edges with
  | [] => ret tt
  | ed :: edges =>
      c <- node k (p ed) ;;
      assert LevelOrder ((v c =? lvl - 1) || (v c =? -1)) ;;;
      assert_successors k lvl edges
  end.

(** The walk along one chain in [lookup]. *)
Fixpoint search (k : Kind) (ed : Edge) (keepNode : bool) (chain : list Z)
    : M t (option Edge) :=
  match chain with
  | [] => ret None
  | q :: rest =>
      n <- node k (p ed) ;;
      qn <- node k (nodeP q) ;;
      if bool_decide (e n = e qn) then
        (* Match found *)
        when (negb (bool_decide (p ed = nodeP q)) && negb keepNode)
          (match p ed with
           | nodeP a => returnNode a
           | _ => fail Unmodelled
           end) ;;;
        modify (set_hits Z.succ) ;;;
        (* variables should stay the same *)
        qn <- node k (nodeP q) ;;
        n <- node k (p ed) ;;
        assert LevelOrder (v qn =? v n) ;;;
        assert_successors k (v n) (e n) ;;;
        ret (Some (mkEdge (nodeP q) (w ed)))
      else
        modify (set_collisions Z.succ) ;;;
        search k ed keepNode rest
  end.

Definition lookup (k : Kind) (ed : Edge) (keepNode : bool) : M t Edge :=
  n <- node k (p ed) ;;
  (* there are unique terminal nodes *)
  if v n =? -1 then ret ed
  else
    modify (set_lookups Z.succ) ;;;
    let key := hash n in
    let lvl := v n in
    (* successors of a node shall either have successive variable numbers or be terminals *)
    assert_successors k lvl (e n) ;;;
    chain <- bucket lvl key ;;
    found <- search k ed keepNode chain ;;
    match found with
    | Some r => ret r
    | None =>
        (* node was not found -> add it to front of available space chain *)
        match p ed with
        | nodeP a =>
            set_bucket lvl key (a :: chain) ;;;
            modify (set_nodeCount Z.succ) ;;;
            modify (fun s => set_peakNodeCount (fun pk => Z.max pk (nodeCount s)) s) ;;;
            ret ed
        | _ => fail Unmodelled
        end
    end.

(** One chain of [garbageCollect]; returns the chain that stays and the
    number of nodes collected. *)
Fixpoint collect_chain (k : Kind) (chain : list Z) : M t (list Z * Z) :=
  match chain with
  | [] => ret ([], 0)
  | q :: rest =>
      n <- node k (nodeP q) ;;
      if ref n =? 0 then
        (if v n =? -1 then fail RuntimeError else ret tt) ;;;
        returnNode q ;;;
        r <- collect_chain k rest ;;
        ret (fst r, snd r + 1)
      else
        r <- collect_chain k rest ;;
        ret (q :: fst r, snd r)
  end.

Fixpoint collect_buckets (k : Kind) (keys : list (Z * Z)) : M t (Z * Z) :=
  match keys with
  | [] => ret (0, 0)
  | (lvl, key) :: keys =>
      chain <- bucket lvl key ;;
      r <- collect_chain k chain ;;
      set_bucket lvl key (fst r) ;;;
      cr <- collect_buckets k keys ;;
      ret (fst cr + snd r, snd cr + Z.of_nat (length (fst r)))
  end.

(** The buckets in the order of the two nested loops. *)
Definition all_buckets (nv : Z) : list (Z * Z) :=
  lvl ← count_from 0 nv; (fun key => (lvl, key)) <$> count_from 0 NBUCKET.

Definition garbageCollect (k : Kind) (force : bool) : M t Z :=
  modify (set_gcCalls Z.succ) ;;;
  s <- get ;;
  if negb force && (nodeCount s <? gcLimit s) then ret 0
  else
    modify (set_gcRuns Z.succ) ;;;
    cr <- collect_buckets k (all_buckets (nvars s)) ;;
    modify (fun s => set_gcLimit (fun l => l + gcIncrement s) s) ;;;
    modify (set_nodeCount (fun _ => snd cr)) ;;;
    ret (fst cr).

Fixpoint clear_buckets (keys : list (Z * Z)) : M t unit :=
  match keys with
  | [] => ret tt
  | (lvl, key) :: keys =>
      chain <- bucket lvl key ;;
      modify (set_available (fun l => rev chain ++ l)) ;;;
      set_bucket lvl key [] ;;;
      clear_buckets keys
  end.

Definition clear : M t unit :=
  s <- get ;;
  clear_buckets (all_buckets (nvars s)) ;;;
  modify (fun s =>
    mkUT (nvars s) (tables s) (heap s) (available s) (chunks s) (allocations s) 0 0 0 0 0
      (replicate (length (active s)) 0) 0 0 0 0 (gcInitialLimit s) (gcInitialLimit s)
      (gcIncrement s)).

Definition getActiveNodeCount (s : t) : Z := activeNodeCount s.

End WithParams.
End UniqueTable.

(** ** The compute tables *)

Module ComputeTable.
Section WithParams.
Context {F : Type} {ops : FpOps F} {params : Params F}.

(** [CachedEdge<Node>]: a node pointer with a weight held by value; the pair
    is [(p, w)]. *)
Definition CachedEdge : Type := NodePtr * CN.ComplexValue (F:=F).

Definition cv_eqb (a b : CN.ComplexValue (F:=F)) : bool :=
  feqb (CN.re a) (CN.re b) && feqb (CN.im a) (CN.im b).

Definition cached_eqb (a b : CachedEdge) : bool :=
  bool_decide (fst a = fst b) && cv_eqb (snd a) (snd b).

Definition edge_eqb (a b : Edge) : bool := bool_decide (a = b).

(** Modelled from the spec: ComputeTable.hpp and UnaryComputeTable.hpp are not
    among the sources ("Bounded, fixed-capacity memo caches keyed by the
    identity ... of the argument edges", "Single-slot direct-mapped: any hash
    collision overwrites").  A table maps a slot to the operands and the
    result last inserted there; a lookup that misses returns a result with a
    null node pointer. *)
Definition t (K1 K2 R : Type) : Type := gmap Z (K1 * K2 * R).

Definition lookup {K1 K2 R} (slot : K1 -> K2 -> Z)
    (eqb1 : K1 -> K1 -> bool) (eqb2 : K2 -> K2 -> bool) (miss : R)
    (k1 : K1) (k2 : K2) (tb : t K1 K2 R) : R :=
  match tb !! slot k1 k2 with
  | Some (a, b, res) => if eqb1 a k1 && eqb2 b k2 then res else miss
  | None => miss
  end.

Definition insert {K1 K2 R} (slot : K1 -> K2 -> Z)
    (k1 : K1) (k2 : K2) (res : R) (tb : t K1 K2 R) : t K1 K2 R :=
  <[slot k1 k2 := (k1, k2, res)]> tb.

Definition clear {K1 K2 R} (tb : t K1 K2 R) : t K1 K2 R := ∅.

Definition missCached : CachedEdge := (nullptr, CN.mkCV fp0 fp0).
Definition missEdge : Edge := mkEdge nullptr CN.ZERO.

(** The three shapes of table that [Package] declares. *)
Definition lookupCC := lookup slot_cached cached_eqb cached_eqb missCached.
Definition insertCC := insert (R:=CachedEdge) slot_cached.
Definition lookupEE := lookup slot_edges edge_eqb edge_eqb missCached.
Definition insertEE := insert (R:=CachedEdge) slot_edges.
Definition lookupUnary (a : Edge) := lookup (fun x _ => slot_edge x) edge_eqb edge_eqb missEdge a a.
Definition insertUnary (a res : Edge) := insert (R:=Edge) (fun x _ => slot_edge x) a a res.

End WithParams.
End ComputeTable.

(** ** The Toffoli table (src/include/ToffoliTable.hpp) *)

Module ToffoliTable.

(** [dd::Control] (Control.hpp is not among the sources): a qubit and the
    polarity of the control. *)
Inductive ControlType := pos | neg.
Record Control := mkControl { qubit : Z; type : ControlType }.

#[global] Instance ControlType_eq_dec : EqDecision ControlType.
Proof. solve_decision. Defined.
#[global] Instance Control_eq_dec : EqDecision Control.
Proof. solve_decision. Defined.

Definition NBUCKET : Z := 2048.
Definition MASK : Z := NBUCKET - 1.

(** [struct Entry]; [std::set<Control>] is the list of its elements in
    ascending order. *)
Record Entry := mkEntry {
  n : Z;
  controls : list Control;
  target : Z;
  e : Edge
}.

Record t := mkTT {
  table : gmap Z Entry;   (* no binding: a value-initialised entry *)
  hits : Z;
  lookups : Z;
  count : Z
}.

Definition empty : t := mkTT ∅ 0 0 0.

(** [std::size_t] arithmetic wraps at [2^64], [unsigned] arithmetic at
    [2^32], the unsigned version of an 8-bit [Qubit] at [2^8]. *)
Definition size_t (z : Z) : Z := z mod 2 ^ 64.
Definition unsigned (z : Z) : Z := z mod 2 ^ 32.

Definition hash (ctrls : list Control) (tgt : Z) : Z :=
  let key := foldl (fun key c =>
                      match type c with
                      | pos => size_t (key * unsigned (29 * qubit c))
                      | neg => size_t (key * unsigned (71 * qubit c))
                      end) (tgt mod 256) ctrls in
  Z.land key MASK.

Definition insert (nq : Z) (ctrls : list Control) (tgt : Z) (ed : Edge) (s : t) : t :=
  mkTT (<[hash ctrls tgt := mkEntry nq ctrls tgt ed]> (table s))
       (hits s) (lookups s) (size_t (count s + 1)).

Definition lookup (nq : Z) (ctrls : list Control) (tgt : Z) (s : t) : Edge * t :=
  let s1 := mkTT (table s) (hits s) (lookups s + 1) (count s) in
  let r := mkEdge nullptr CN.ZERO in
  match table s !! hash ctrls tgt with
  | None => (r, s1)
  | Some entry =>
      if bool_decide (p (e entry) = nullptr) then (r, s1)
      else if negb (n entry =? nq) then (r, s1)
      else if negb (target entry =? tgt) then (r, s1)
      else if negb (bool_decide (controls entry = ctrls)) then (r, s1)
      else (e entry, mkTT (table s) (hits s + 1) (lookups s + 1) (count s))
  end.

Definition clear (s : t) : t :=
  let tb := if 0 <? count s
            then (fun entry => mkEntry (n entry) (controls entry) (target entry)
                                 (mkEdge nullptr (w (e entry)))) <$> table s
            else table s in
  mkTT tb 0 0 (if 0 <? count s then 0 else count s).

End ToffoliTable.

(** ** The table of noise operations *)

Module OperationTable.

(** Modelled from the spec: OperationTable.hpp is not among the sources
    ("direct-mapped cache keyed by (operationKind, qubitSet, nQubits)").  The
    key is kept abstract as the slot and a fingerprint of the operands. *)
Definition t : Type := gmap Z (Z * Edge).

Definition clear (tb : t) : t := ∅.

End OperationTable.

(** ** The package: [Package] (src/unnamed/part_002, the member functions;
       src/unnamed/part_003, the class and its templates) *)

Module Package.
Section WithParams.
Context {F : Type} {ops : FpOps F} {params : Params F}.

Local Abbreviation CachedEdge := (ComputeTable.CachedEdge (F:=F)).

Record t := mkPackage {
  cn : CN.t (F:=F);
  nqubits : Z;
  vUniqueTable : UniqueTable.t;
  mUniqueTable : UniqueTable.t;
  vectorAdd : ComputeTable.t CachedEdge CachedEdge CachedEdge;
  matrixAdd : ComputeTable.t CachedEdge CachedEdge CachedEdge;
  matrixTranspose : ComputeTable.t Edge Edge Edge;
  conjugateMatrixTranspose : ComputeTable.t Edge Edge Edge;
  matrixMultiplication : ComputeTable.t Edge Edge CachedEdge;
  matrixVectorMultiplication : ComputeTable.t Edge Edge CachedEdge;
  vectorInnerProduct : ComputeTable.t Edge Edge CachedEdge;
  vectorKronecker : ComputeTable.t Edge Edge CachedEdge;
  matrixKronecker : ComputeTable.t Edge Edge CachedEdge;
  toffoliTable : ToffoliTable.t;
  IdTable : list Edge;
  operations : OperationTable.t
}.

Definition set_cn f s := mkPackage (f (cn s)) (nqubits s) (vUniqueTable s) (mUniqueTable s)
  (vectorAdd s) (matrixAdd s) (matrixTranspose s) (conjugateMatrixTranspose s)
  (matrixMultiplication s) (matrixVectorMultiplication s) (vectorInnerProduct s)
  (vectorKronecker s) (matrixKronecker s) (toffoliTable s) (IdTable s) (operations s).
Definition set_nqubits f s := mkPackage (cn s) (f (nqubits s)) (vUniqueTable s) (mUniqueTable s)
  (vectorAdd s) (matrixAdd s) (matrixTranspose s) (conjugateMatrixTranspose s)
  (matrixMultiplication s) (matrixVectorMultiplication s) (vectorInnerProduct s)
  (vectorKronecker s) (matrixKronecker s) (toffoliTable s) (IdTable s) (operations s).
Definition set_vUniqueTable f s := mkPackage (cn s) (nqubits s) (f (vUniqueTable s))
  (mUniqueTable s) (vectorAdd s) (matrixAdd s) (matrixTranspose s) (conjugateMatrixTranspose s)
  (matrixMultiplication s) (matrixVectorMultiplication s) (vectorInnerProduct s)
  (vectorKronecker s) (matrixKronecker s) (toffoliTable s) (IdTable s) (operations s).
Definition set_mUniqueTable f s := mkPackage (cn s) (nqubits s) (vUniqueTable s) (f
  (mUniqueTable s)) (vectorAdd s) (matrixAdd s) (matrixTranspose s) (conjugateMatrixTranspose s)
  (matrixMultiplication s) (matrixVectorMultiplication s) (vectorInnerProduct s)
  (vectorKronecker s) (matrixKronecker s) (toffoliTable s) (IdTable s) (operations s).
Definition set_vectorAdd f s := mkPackage (cn s) (nqubits s) (vUniqueTable s) (mUniqueTable s)
  (f (vectorAdd s)) (matrixAdd s) (matrixTranspose s) (conjugateMatrixTranspose s)
  (matrixMultiplication s) (matrixVectorMultiplication s) (vectorInnerProduct s)
  (vectorKronecker s) (matrixKronecker s) (toffoliTable s) (IdTable s) (operations s).
Definition set_matrixAdd f s := mkPackage (cn s) (nqubits s) (vUniqueTable s) (mUniqueTable s)
  (vectorAdd s) (f (matrixAdd s)) (matrixTranspose s) (conjugateMatrixTranspose s)
  (matrixMultiplication s) (matrixVectorMultiplication s) (vectorInnerProduct s)
  (vectorKronecker s) (matrixKronecker s) (toffoliTable s) (IdTable s) (operations s).
Definition set_matrixTranspose f s := mkPackage (cn s) (nqubits s) (vUniqueTable s)
  (mUniqueTable s) (vectorAdd s) (matrixAdd s) (f (matrixTranspose s)) (conjugateMatrixTranspose
  s) (matrixMultiplication s) (matrixVectorMultiplication s) (vectorInnerProduct s)
  (vectorKronecker s) (matrixKronecker s) (toffoliTable s) (IdTable s) (operations s).
Definition set_conjugateMatrixTranspose f s := mkPackage (cn s) (nqubits s) (vUniqueTable s)
  (mUniqueTable s) (vectorAdd s) (matrixAdd s) (matrixTranspose s) (f (conjugateMatrixTranspose
  s)) (matrixMultiplication s) (matrixVectorMultiplication s) (vectorInnerProduct s)
  (vectorKronecker s) (matrixKronecker s) (toffoliTable s) (IdTable s) (operations s).
Definition set_matrixMultiplication f s := mkPackage (cn s) (nqubits s) (vUniqueTable s)
  (mUniqueTable s) (vectorAdd s) (matrixAdd s) (matrixTranspose s) (conjugateMatrixTranspose s)
  (f (matrixMultiplication s)) (matrixVectorMultiplication s) (vectorInnerProduct s)
  (vectorKronecker s) (matrixKronecker s) (toffoliTable s) (IdTable s) (operations s).
Definition set_matrixVectorMultiplication f s := mkPackage (cn s) (nqubits s) (vUniqueTable s)
  (mUniqueTable s) (vectorAdd s) (matrixAdd s) (matrixTranspose s) (conjugateMatrixTranspose s)
  (matrixMultiplication s) (f (matrixVectorMultiplication s)) (vectorInnerProduct s)
  (vectorKronecker s) (matrixKronecker s) (toffoliTable s) (IdTable s) (operations s).
Definition set_vectorInnerProduct f s := mkPackage (cn s) (nqubits s) (vUniqueTable s)
  (mUniqueTable s) (vectorAdd s) (matrixAdd s) (matrixTranspose s) (conjugateMatrixTranspose s)
  (matrixMultiplication s) (matrixVectorMultiplication s) (f (vectorInnerProduct s))
  (vectorKronecker s) (matrixKronecker s) (toffoliTable s) (IdTable s) (operations s).
Definition set_vectorKronecker f s := mkPackage (cn s) (nqubits s) (vUniqueTable s)
  (mUniqueTable s) (vectorAdd s) (matrixAdd s) (matrixTranspose s) (conjugateMatrixTranspose s)
  (matrixMultiplication s) (matrixVectorMultiplication s) (vectorInnerProduct s) (f
  (vectorKronecker s)) (matrixKronecker s) (toffoliTable s) (IdTable s) (operations s).
Definition set_matrixKronecker f s := mkPackage (cn s) (nqubits s) (vUniqueTable s)
  (mUniqueTable s) (vectorAdd s) (matrixAdd s) (matrixTranspose s) (conjugateMatrixTranspose s)
  (matrixMultiplication s) (matrixVectorMultiplication s) (vectorInnerProduct s)
  (vectorKronecker s) (f (matrixKronecker s)) (toffoliTable s) (IdTable s) (operations s).
Definition set_toffoliTable f s := mkPackage (cn s) (nqubits s) (vUniqueTable s) (mUniqueTable
  s) (vectorAdd s) (matrixAdd s) (matrixTranspose s) (conjugateMatrixTranspose s)
  (matrixMultiplication s) (matrixVectorMultiplication s) (vectorInnerProduct s)
  (vectorKronecker s) (matrixKronecker s) (f (toffoliTable s)) (IdTable s) (operations s).
Definition set_IdTable f s := mkPackage (cn s) (nqubits s) (vUniqueTable s) (mUniqueTable s)
  (vectorAdd s) (matrixAdd s) (matrixTranspose s) (conjugateMatrixTranspose s)
  (matrixMultiplication s) (matrixVectorMultiplication s) (vectorInnerProduct s)
  (vectorKronecker s) (matrixKronecker s) (toffoliTable s) (f (IdTable s)) (operations s).
Definition set_operations f s := mkPackage (cn s) (nqubits s) (vUniqueTable s) (mUniqueTable s)
  (vectorAdd s) (matrixAdd s) (matrixTranspose s) (conjugateMatrixTranspose s)
  (matrixMultiplication s) (matrixVectorMultiplication s) (vectorInnerProduct s)
  (vectorKronecker s) (matrixKronecker s) (toffoliTable s) (IdTable s) (f (operations s)).

Definition P (A : Type) : Type := M t A.

Definition in_cn {A} (m : M (CN.t (F:=F)) A) : P A :=
  zoom cn (fun c s => set_cn (fun _ => c) s) m.

Definition uniqueTable (k : Kind) (s : t) : UniqueTable.t :=
  match k with Vec => vUniqueTable s | Mat => mUniqueTable s end.

Definition set_uniqueTable (k : Kind) (u : UniqueTable.t) (s : t) : t :=
  match k with
  | Vec => set_vUniqueTable (fun _ => u) s
  | Mat => set_mUniqueTable (fun _ => u) s
  end.

Definition in_ut {A} (k : Kind) (m : M UniqueTable.t A) : P A :=
  zoom (uniqueTable k) (set_uniqueTable k) m.

(** The distinguished edges.  Modelled from the spec: Edge.hpp is not among
    the sources ("vZero/mZero edges carry ZERO weight", "vOne/mOne carry ONE
    weight and target the terminal"); the target of the zero edges is the
    parameter [zero_target]. *)
Definition zero : Edge := mkEdge zero_target CN.ZERO.
Definition one : Edge := mkEdge terminal CN.ONE.

Definition isTerminal (ed : Edge) : bool := bool_decide (p ed = terminal).

(** Reads and writes of [*p]. *)
Definition node (k : Kind) (ptr : NodePtr) : P Node := in_ut k (UniqueTable.node k ptr).

Definition edge_at (k : Kind) (ptr : NodePtr) (j : nat) : P Edge :=
  n <- node k ptr ;; deref (e n !! j).

Definition set_edge (k : Kind) (ptr : NodePtr) (j : nat) (ed : Edge) : P unit :=
  in_ut k (UniqueTable.update k ptr
             (fun n => mkNode (<[j := ed]> (e n)) (ref n) (v n) (symm n) (ident n))).

Definition set_weight (k : Kind) (ptr : NodePtr) (j : nat) (wt : CN.Complex) : P unit :=
  ed <- edge_at k ptr j ;; set_edge k ptr j (mkEdge (p ed) wt).

Definition returnNode (k : Kind) (ptr : NodePtr) : P unit :=
  match ptr with
  | nodeP a => in_ut k (UniqueTable.returnNode a)
  | _ => fail Unmodelled
  end.

(** Loops over the indices of the edges. *)
Fixpoint for_each {S} (l : list nat) (body : nat -> M S unit) : M S unit :=
  match l with
  | [] => ret tt
  | j :: l => body j ;;; for_each l body
  end.

Fixpoint fold_each {S A} (l : list nat) (body : A -> nat -> M S A) (a : A) : M S A :=
  match l with
  | [] => ret a
  | j :: l => a <- body a j ;; fold_each l body a
  end.

Fixpoint map_each {S A B} (l : list A) (body : A -> M S B) : M S (list B) :=
  match l with
  | [] => ret []
  | x :: l => y <- body x ;; ys <- map_each l body ;; ret (y :: ys)
  end.

(** *** [normalize(vEdge, cached)] *)

(** The loop that determines [argmax], [sum] and [div]. *)
Definition vpivot (ptr : NodePtr) (zero_ : list bool) : P (option nat * F * F) :=
  fold_each [0; 1]%nat
    (fun acc (j : nat) =>
       let '(argmax, sum, div) := acc in
       ej <- edge_at Vec ptr j ;;
       if bool_decide (p ej = nullptr) || (zero_ !!! j) then ret acc
       else
         m <- in_cn (CN.mag2 (w ej)) ;;
         match argmax with
         | None => ret (Some j, m, m)
         | Some _ => ret (argmax, fadd sum m, div)
         end)
    (None, fp0, fp0).

Definition normalizeV (ed : Edge) (cached : bool) : P Edge :=
  e0 <- edge_at Vec (p ed) 0 ;;
  z0 <- in_cn (CN.equalsZero (w e0)) ;;
  e1 <- edge_at Vec (p ed) 1 ;;
  z1 <- in_cn (CN.equalsZero (w e1)) ;;
  let zero_ := [z0; z1] in
  for_each [0; 1]%nat
    (fun j : nat =>
       ej <- edge_at Vec (p ed) j ;;
       when ((zero_ !!! j) && CN.cne (w ej) CN.ZERO)
         (in_cn (CN.releaseCached (w ej)) ;;; set_edge Vec (p ed) j zero)) ;;;
  acc <- vpivot (p ed) zero_ ;;
  let '(argmax, sum, div) := acc in
  match argmax with
  | None =>
      (if cached then
         for_each [0; 1]%nat
           (fun j : nat =>
              ej <- edge_at Vec (p ed) j ;;
              when (bool_decide (p ej = nullptr) && CN.cne (w ej) CN.ZERO)
                (in_cn (CN.releaseCached (w ej))))
       else
         when (negb (bool_decide (p ed = terminal))) (returnNode Vec (p ed))) ;;;
      ret zero
  | Some argmax =>
      let sum := fsqrt (fdiv sum div) in
      max <- edge_at Vec (p ed) argmax ;;
      rw <- (if cached && CN.cne (w max) CN.ONE then
               vr <- in_cn (CN.get_val (CN.r (w max))) ;;
               in_cn (CN.set_val (CN.r (w max)) (fmul vr sum)) ;;;
               vi <- in_cn (CN.get_val (CN.i (w max))) ;;
               in_cn (CN.set_val (CN.i (w max)) (fmul vi sum)) ;;;
               ret (Some (w max))
             else
               vr <- in_cn (CN.val (CN.r (w max))) ;;
               vi <- in_cn (CN.val (CN.i (w max))) ;;
               rw <- in_cn (CN.lookup2 (fmul vr sum) (fmul vi sum)) ;;
               z <- in_cn (CN.equalsZero rw) ;;
               if z then ret None else ret (Some rw)) ;;
      match rw with
      | None => ret zero
      | Some rw =>
          mw <- in_cn (CN.lookup2 (fdiv fp1 sum) fp0) ;;
          set_weight Vec (p ed) argmax mw ;;;
          when (CN.ceq mw CN.ZERO) (set_edge Vec (p ed) argmax zero) ;;;
          let argmin := ((argmax + 1) mod 2)%nat in
          when (negb (zero_ !!! argmin))
            (min <- edge_at Vec (p ed) argmin ;;
             nw <- (if cached then
                      in_cn (CN.releaseCached (w min)) ;;;
                      in_cn (CN.div (w min) (w min) rw) ;;;
                      in_cn (CN.lookup (w min))
                    else
                      c <- in_cn CN.getTempCachedComplex ;;
                      in_cn (CN.div c (w min) rw) ;;;
                      in_cn (CN.lookup c)) ;;
             set_weight Vec (p ed) argmin nw ;;;
             when (CN.ceq nw CN.ZERO) (set_edge Vec (p ed) argmin zero)) ;;;
          ret (mkEdge (p ed) rw)
      end
  end.

(** *** [normalize(mEdge, cached)] *)

(** The loop that determines [argmax], [max] and [maxc]. *)
Definition mpivot (ptr : NodePtr) (zero_ : list bool) : P (option nat * F * CN.Complex) :=
  fold_each [0; 1; 2; 3]%nat
    (fun acc (j : nat) =>
       let '(argmax, max, maxc) := acc in
       if (zero_ !!! j : bool) then ret acc
       else
         ej <- edge_at Mat ptr j ;;
         mag <- in_cn (CN.mag2 (w ej)) ;;
         match argmax with
         | None => ret (Some j, mag, w ej)
         | Some _ =>
             if fltb tolerance (fsub mag max) then ret (Some j, mag, w ej)
             else ret acc
         end)
    (None, fp0, CN.ONE).

Definition normalizeM (ed : Edge) (cached : bool) : P Edge :=
  zero_ <- map_each [0; 1; 2; 3]%nat
             (fun j => ej <- edge_at Mat (p ed) j ;; in_cn (CN.equalsZero (w ej))) ;;
  for_each [0; 1; 2; 3]%nat
    (fun j : nat =>
       ej <- edge_at Mat (p ed) j ;;
       when ((zero_ !!! j) && CN.cne (w ej) CN.ZERO)
         (in_cn (CN.releaseCached (w ej)) ;;; set_edge Mat (p ed) j zero)) ;;;
  (* determine max amplitude *)
  acc <- mpivot (p ed) zero_ ;;
  let '(argmax, _, maxc) := acc in
  match argmax with
  | None =>
      (* all equal to zero *)
      (if cached then
         for_each [0; 1; 2; 3]%nat
           (fun j : nat =>
              ej <- edge_at Mat (p ed) j ;;
              when (CN.cne (w ej) CN.ZERO) (in_cn (CN.releaseCached (w ej))))
       else
         when (negb (bool_decide (p ed = terminal))) (returnNode Mat (p ed))) ;;;
      ret zero
  | Some argmax =>
      (* divide each entry by max *)
      rw <- fold_each [0; 1; 2; 3]%nat
              (fun (rw : CN.Complex) (j : nat) =>
                 if bool_decide (j = argmax) then
                   rw <- (if cached then
                            if CN.ceq rw CN.ONE then ret maxc
                            else in_cn (CN.mul rw rw maxc) ;;; ret rw
                          else
                            if CN.ceq rw CN.ONE then ret maxc
                            else
                              c <- in_cn CN.getTempCachedComplex ;;
                              in_cn (CN.mul c rw maxc) ;;;
                              in_cn (CN.lookup c)) ;;
                   set_weight Mat (p ed) j CN.ONE ;;;
                   ret rw
                 else if (zero_ !!! j : bool) then
                   ej <- edge_at Mat (p ed) j ;;
                   when (cached && CN.cne (w ej) CN.ZERO) (in_cn (CN.releaseCached (w ej))) ;;;
                   set_edge Mat (p ed) j zero ;;;
                   ret rw
                 else
                   ej <- edge_at Mat (p ed) j ;;
                   when (cached && negb (zero_ !!! j) && CN.cne (w ej) CN.ONE)
                     (in_cn (CN.releaseCached (w ej))) ;;;
                   isOne <- in_cn (CN.equalsOne (w ej)) ;;
                   when isOne (set_weight Mat (p ed) j CN.ONE) ;;;
                   ej <- edge_at Mat (p ed) j ;;
                   c <- in_cn CN.getTempCachedComplex ;;
                   in_cn (CN.div c (w ej) maxc) ;;;
                   nw <- in_cn (CN.lookup c) ;;
                   set_weight Mat (p ed) j nw ;;;
                   ret rw)
              (w ed) ;;
      ret (mkEdge (p ed) rw)
  end.

Definition normalize (k : Kind) : Edge -> bool -> P Edge :=
  match k with Vec => normalizeV | Mat => normalizeM end.

(** *** [checkSpecialMatrices], [makeDDNode] (the template of part_003; it is
        [makeVectorNode] and [makeMatrixNode] of part_002) and [transpose] *)

Definition set_flags (ptr : NodePtr) (f : Node -> Node) : P unit :=
  in_ut Mat (UniqueTable.update Mat ptr f).

(** [tr] is [transpose]; the two functions call each other. *)
Definition checkSpecialMatrices (tr : Edge -> P Edge) (ptr : NodePtr) : P unit :=
  n <- node Mat ptr ;;
  if v n =? -1 then ret tt
  else
    set_flags ptr (fun n => mkNode (e n) (ref n) (v n) false false) ;;;
    (* check if matrix is symmetric *)
    e0 <- edge_at Mat ptr 0 ;;
    c0 <- node Mat (p e0) ;;
    if negb (symm c0) then ret tt
    else
      e3 <- edge_at Mat ptr 3 ;;
      c3 <- node Mat (p e3) ;;
      if negb (symm c3) then ret tt
      else
        e1 <- edge_at Mat ptr 1 ;;
        t1 <- tr e1 ;;
        e2 <- edge_at Mat ptr 2 ;;
        if negb (bool_decide (t1 = e2)) then ret tt
        else
          set_flags ptr (fun n => mkNode (e n) (ref n) (v n) true (ident n)) ;;;
          (* check if matrix resembles identity *)
          e0 <- edge_at Mat ptr 0 ;;
          c0 <- node Mat (p e0) ;;
          e1 <- edge_at Mat ptr 1 ;;
          e2 <- edge_at Mat ptr 2 ;;
          e3 <- edge_at Mat ptr 3 ;;
          if negb (ident c0) || CN.cne (w e1) CN.ZERO || CN.cne (w e2) CN.ZERO
             || CN.cne (w e0) CN.ONE || CN.cne (w e3) CN.ONE
          then ret tt
          else
            c3 <- node Mat (p e3) ;;
            if negb (ident c3) then ret tt
            else set_flags ptr (fun n => mkNode (e n) (ref n) (v n) (symm n) true).

(** [assert(var - 1 == edge.p->v || isTerminal(edge))] for every edge. *)
Definition assert_children (k : Kind) (var : Z) (edges : list Edge) : P unit :=
  for_each (seq 0 (length edges))
    (fun j =>
       ed <- deref (edges !! j) ;;
       c <- node k (p ed) ;;
       assert LevelOrder ((var - 1 =? v c) || isTerminal ed)).

Definition assert_level (k : Kind) (var : Z) (ed : Edge) : P unit :=
  n <- node k (p ed) ;;
  assert LevelOrder ((v n =? var) || isTerminal ed).

Definition makeDDNode_with (tr : Edge -> P Edge) (k : Kind) (var : Z)
    (edges : list Edge) (cached : bool) : P Edge :=
  ptr <- in_ut k (UniqueTable.getNode k) ;;
  in_ut k (UniqueTable.update k ptr
             (fun n => mkNode edges (ref n) var (symm n) (ident n))) ;;;
  n <- node k ptr ;;
  assert NodeRefZero (ref n =? 0) ;;;
  assert_children k var edges ;;;
  (* normalize it *)
  ed <- normalize k (mkEdge ptr CN.ONE) cached ;;
  assert_level k var ed ;;;
  (* look it up in the unique tables *)
  l <- in_ut k (UniqueTable.lookup k ed false) ;;
  assert_level k var l ;;;
  (* set specific node properties for matrices *)
  match k with
  | Mat => when (bool_decide (p l = p ed)) (checkSpecialMatrices tr (p l))
  | Vec => ret tt
  end ;;;
  ret l.

(** The operands of the two-level loops [e[RADIX * i + j] = f(a.p->e[RADIX * j + i])]. *)
Definition transposed_indices : list nat := [0; 2; 1; 3]%nat.

Fixpoint transpose (fuel : nat) (a : Edge) : P Edge :=
  match fuel with
  | O => fail OutOfFuel
  | S fuel =>
      if bool_decide (p a = nullptr) || isTerminal a then ret a
      else
        n <- node Mat (p a) ;;
        if symm n then ret a
        else
          (* check in compute table *)
          s <- get ;;
          let r := ComputeTable.lookupUnary a (matrixTranspose s) in
          if negb (bool_decide (p r = nullptr)) then ret r
          else
            (* transpose sub-matrices and rearrange as required *)
            edges <- map_each transposed_indices
                       (fun j => ej <- edge_at Mat (p a) j ;; transpose fuel ej) ;;
            (* create new top node *)
            n <- node Mat (p a) ;;
            r <- makeDDNode_with (transpose fuel) Mat (v n) edges false ;;
            (* adjust top weight *)
            c <- in_cn CN.getTempCachedComplex ;;
            in_cn (CN.mul c (w r) (w a)) ;;;
            rw <- in_cn (CN.lookup c) ;;
            let r := mkEdge (p r) rw in
            (* put in compute table *)
            modify (set_matrixTranspose (ComputeTable.insertUnary a r)) ;;;
            ret r
  end.

Definition makeDDNode (fuel : nat) : Kind -> Z -> list Edge -> bool -> P Edge :=
  makeDDNode_with (transpose fuel).

Fixpoint conjugateTranspose (fuel : nat) (a : Edge) : P Edge :=
  match fuel with
  | O => fail OutOfFuel
  | S fuel =>
      if bool_decide (p a = nullptr) then ret a
      else if isTerminal a then ret (mkEdge (p a) (CN.conj (w a)))
      else
        (* check if in compute table *)
        s <- get ;;
        let r := ComputeTable.lookupUnary a (conjugateMatrixTranspose s) in
        if negb (bool_decide (p r = nullptr)) then ret r
        else
          edges <- map_each transposed_indices
                     (fun j => ej <- edge_at Mat (p a) j ;; conjugateTranspose fuel ej) ;;
          n <- node Mat (p a) ;;
          r <- makeDDNode fuel Mat (v n) edges false ;;
          c <- in_cn CN.getTempCachedComplex ;;
          (* adjust top weight including conjugate *)
          in_cn (CN.mul c (w r) (CN.conj (w a))) ;;;
          rw <- in_cn (CN.lookup c) ;;
          let r := mkEdge (p r) rw in
          modify (set_conjugateMatrixTranspose (ComputeTable.insertUnary a r)) ;;;
          ret r
  end.

(** *** Identity matrices *)

(** [IdTable[q]]; an index outside of the vector is a [Segfault]. *)
Definition idTable (q : Z) : P Edge :=
  s <- get ;;
  if q <? 0 then fail Segfault else deref (IdTable s !! Z.to_nat q).

Definition set_idTable (q : Z) (ed : Edge) : P unit :=
  s <- get ;;
  if (0 <=? q) && (q <? Z.of_nat (length (IdTable s)))
  then modify (set_IdTable (<[Z.to_nat q := ed]>))
  else fail Segfault.

Definition identity_block (ed : Edge) : list Edge := [ed; zero; zero; ed].

(** The tail of [makeIdent]: the chain of nodes built from the terminal. *)
Definition buildIdent (fuel : nat) (leastSignificantQubit mostSignificantQubit : Z) : P Edge :=
  ed <- makeDDNode fuel Mat leastSignificantQubit (identity_block one) false ;;
  ed <- fold_each
          (Z.to_nat <$> count_from ((leastSignificantQubit + 1) mod 256)
                           (mostSignificantQubit - (leastSignificantQubit + 1) mod 256 + 1))
          (fun (ed : Edge) (q : nat) =>
             makeDDNode fuel Mat (to_Qubit (Z.of_nat q)) (identity_block ed) false)
          ed ;;
  when (leastSignificantQubit =? 0) (set_idTable mostSignificantQubit ed) ;;;
  ret ed.

Definition makeIdent (fuel : nat) (leastSignificantQubit mostSignificantQubit : Z) : P Edge :=
  if mostSignificantQubit <? 0 then ret one
  else
    hit <- (if leastSignificantQubit =? 0
            then id <- idTable mostSignificantQubit ;;
                 ret (negb (bool_decide (p id = nullptr)))
            else ret false) ;;
    if hit : bool then idTable mostSignificantQubit
    else
      below <- (if 1 <=? mostSignificantQubit
                then id <- idTable (mostSignificantQubit - 1) ;;
                     ret (negb (bool_decide (p id = nullptr)))
                else ret false) ;;
      if below : bool then
        id <- idTable (mostSignificantQubit - 1) ;;
        ed <- makeDDNode fuel Mat mostSignificantQubit (identity_block id) false ;;
        set_idTable mostSignificantQubit ed ;;;
        idTable mostSignificantQubit
      else buildIdent fuel leastSignificantQubit mostSignificantQubit.

(** [makeIdent(QubitCount n)] of part_003. *)
Definition makeIdentN (fuel : nat) (n : Z) : P Edge := makeIdent fuel 0 (to_Qubit (n - 1)).

(** The one-argument [makeIdent(Qubit)] that part_002 calls.  Its declaration
    is in a header that is not among the sources; the calls fix its meaning:
    [makeGateDD] passes [makeIdent(z - 1)] as a child of a node of variable
    [z], and children have the variable [z - 1]. *)
Definition makeIdentUpTo (fuel : nat) (mostSignificantQubit : Z) : P Edge :=
  makeIdent fuel 0 mostSignificantQubit.

(** *** Quantum states *)

Definition makeZeroState (fuel : nat) (mostSignificantQubit : Z) : P Edge :=
  fold_each (seq 0 (Z.to_nat (mostSignificantQubit mod 256 + 1)))
    (fun (f : Edge) (q : nat) => makeDDNode fuel Vec (to_Qubit (Z.of_nat q)) [f; zero] false)
    one.

(** [makeBasisState(Qubit, const std::bitset<MAXN>&)]; the bits are a list,
    bits that the list does not hold are 0. *)
Definition makeBasisStateBits (fuel : nat) (mostSignificantQubit : Z) (state : list bool)
    : P Edge :=
  fold_each (seq 0 (Z.to_nat (mostSignificantQubit mod 256 + 1)))
    (fun (f : Edge) (q : nat) =>
       if default false (state !! q)
       then makeDDNode fuel Vec (to_Qubit (Z.of_nat q)) [zero; f] false
       else makeDDNode fuel Vec (to_Qubit (Z.of_nat q)) [f; zero] false)
    one.

Inductive BasisStates := bs_zero | bs_one | bs_plus | bs_minus | bs_right | bs_left.

Definition size_t (z : Z) : Z := z mod 2 ^ 64.

(** [makeBasisState(Qubit, const std::vector<BasisStates>&)]. *)
Definition makeBasisState (fuel : nat) (mostSignificantQubit : Z) (state : list BasisStates)
    : P Edge :=
  when (Z.of_nat (length state) <? size_t (mostSignificantQubit + 1))
    (fail InvalidArgument) ;;;
  fold_each (seq 0 (Z.to_nat (mostSignificantQubit mod 256 + 1)))
    (fun (f : Edge) (q : nat) =>
       st <- deref (state !! q) ;;
       let var := to_Qubit (Z.of_nat q) in
       match st with
       | bs_zero => makeDDNode fuel Vec var [f; zero] false
       | bs_one => makeDDNode fuel Vec var [zero; f] false
       | bs_plus =>
           a <- in_cn (CN.lookup2 SQRT2_2 fp0) ;;
           b <- in_cn (CN.lookup2 SQRT2_2 fp0) ;;
           makeDDNode fuel Vec var [mkEdge (p f) a; mkEdge (p f) b] false
       | bs_minus =>
           a <- in_cn (CN.lookup2 SQRT2_2 fp0) ;;
           b <- in_cn (CN.lookup2 (fneg SQRT2_2) fp0) ;;
           makeDDNode fuel Vec var [mkEdge (p f) a; mkEdge (p f) b] false
       | bs_right =>
           a <- in_cn (CN.lookup2 SQRT2_2 fp0) ;;
           b <- in_cn (CN.lookup2 fp0 SQRT2_2) ;;
           makeDDNode fuel Vec var [mkEdge (p f) a; mkEdge (p f) b] false
       | bs_left =>
           a <- in_cn (CN.lookup2 SQRT2_2 fp0) ;;
           b <- in_cn (CN.lookup2 fp0 (fneg SQRT2_2)) ;;
           makeDDNode fuel Vec var [mkEdge (p f) a; mkEdge (p f) b] false
       end)
    one.

(** *** Addition *)

Definition addTable (k : Kind) (s : t) : ComputeTable.t CachedEdge CachedEdge CachedEdge :=
  match k with Vec => vectorAdd s | Mat => matrixAdd s end.

Definition set_addTable (k : Kind)
    (f : ComputeTable.t CachedEdge CachedEdge CachedEdge ->
         ComputeTable.t CachedEdge CachedEdge CachedEdge) (s : t) : t :=
  match k with Vec => set_vectorAdd f s | Mat => set_matrixAdd f s end.

(** [{x.p, x.w}] as a [CachedEdge]: the weight is read. *)
Definition cachedEdge (x : Edge) : P CachedEdge :=
  xv <- in_cn (CN.value_of (w x)) ;; ret (p x, xv).

(** [!isTerminal(x) && x.p->v == w]. *)
Definition at_level (k : Kind) (x : Edge) (lvl : Z) : P bool :=
  if isTerminal x then ret false
  else n <- node k (p x) ;; ret (v n =? lvl).

Definition indices (k : Kind) : list nat := seq 0 (Z.to_nat (arity k)).

Fixpoint add2 (fuel : nat) (k : Kind) (x y : Edge) : P Edge :=
  match fuel with
  | O => fail OutOfFuel
  | S fuel =>
      if bool_decide (p x = nullptr) then ret y
      else if bool_decide (p y = nullptr) then ret x
      else if CN.ceq (w x) CN.ZERO then
        if CN.ceq (w y) CN.ZERO then ret y
        else
          yv <- in_cn (CN.value_of (w y)) ;;
          c <- in_cn (CN.getCachedComplexCV yv) ;;
          ret (mkEdge (p y) c)
      else if CN.ceq (w y) CN.ZERO then
        xv <- in_cn (CN.value_of (w x)) ;;
        c <- in_cn (CN.getCachedComplexCV xv) ;;
        ret (mkEdge (p x) c)
      else if bool_decide (p x = p y) then
        c <- in_cn (CN.addCached (w x) (w y)) ;;
        z <- in_cn (CN.equalsZero c) ;;
        if z : bool then in_cn (CN.releaseCached c) ;;; ret zero
        else ret (mkEdge (p y) c)
      else
        kx <- cachedEdge x ;;
        ky <- cachedEdge y ;;
        s <- get ;;
        let r := ComputeTable.lookupCC kx ky (addTable k s) in
        if negb (bool_decide (fst r = nullptr)) then
          if CN.equalsZeroCV (snd r) then ret zero
          else c <- in_cn (CN.getCachedComplexCV (snd r)) ;; ret (mkEdge (fst r) c)
        else
          lvl <- (if isTerminal x then yn <- node k (p y) ;; ret (v yn)
                  else
                    xn <- node k (p x) ;;
                    if isTerminal y then ret (v xn)
                    else yn <- node k (p y) ;;
                         ret (if v xn <? v yn then v yn else v xn)) ;;
          edges <- map_each (indices k)
            (fun j : nat =>
               xl <- at_level k x lvl ;;
               e1 <- (if xl : bool then
                        e1 <- edge_at k (p x) j ;;
                        if CN.cne (w e1) CN.ZERO
                        then c <- in_cn (CN.mulCached (w e1) (w x)) ;; ret (mkEdge (p e1) c)
                        else ret e1
                      else
                        yj <- edge_at k (p y) j ;;
                        if bool_decide (p yj = nullptr) then ret (mkEdge nullptr CN.ZERO)
                        else ret x) ;;
               yl <- at_level k y lvl ;;
               e2 <- (if yl : bool then
                        e2 <- edge_at k (p y) j ;;
                        if CN.cne (w e2) CN.ZERO
                        then c <- in_cn (CN.mulCached (w e2) (w y)) ;; ret (mkEdge (p e2) c)
                        else ret e2
                      else
                        xj <- edge_at k (p x) j ;;
                        if bool_decide (p xj = nullptr) then ret (mkEdge nullptr CN.ZERO)
                        else ret y) ;;
               ej <- add2 fuel k e1 e2 ;;
               xl <- at_level k x lvl ;;
               when (xl && CN.cne (w e1) CN.ZERO) (in_cn (CN.releaseCached (w e1))) ;;;
               yl <- at_level k y lvl ;;
               when (yl && CN.cne (w e2) CN.ZERO) (in_cn (CN.releaseCached (w e2))) ;;;
               ret ej) ;;
          ed <- makeDDNode fuel k lvl edges true ;;
          kx <- cachedEdge x ;;
          ky <- cachedEdge y ;;
          ke <- cachedEdge ed ;;
          modify (set_addTable k (ComputeTable.insertCC kx ky ke)) ;;;
          ret ed
  end.

Definition cacheCount_ : P Z := s <- get ;; ret (CN.cacheCount (cn s)).

Definition add (fuel : nat) (k : Kind) (x y : Edge) : P Edge :=
  before <- cacheCount_ ;;
  result <- add2 fuel k x y ;;
  result <- (if CN.cne (w result) CN.ZERO then
               in_cn (CN.releaseCached (w result)) ;;;
               rw <- in_cn (CN.lookup (w result)) ;;
               ret (mkEdge (p result) rw)
             else ret result) ;;
  after <- cacheCount_ ;;
  assert CacheBalance (after =? before) ;;;
  ret result.

(** *** Multiplication *)

(** The kind of the right operand (and of the result): [Vec] for
    [multiply2(mEdge, vEdge)], [Mat] for [multiply2(mEdge, mEdge)]. *)
Definition mulTable (k : Kind) (s : t) : ComputeTable.t Edge Edge CachedEdge :=
  match k with Vec => matrixVectorMultiplication s | Mat => matrixMultiplication s end.

Definition set_mulTable (k : Kind)
    (f : ComputeTable.t Edge Edge CachedEdge -> ComputeTable.t Edge Edge CachedEdge)
    (s : t) : t :=
  match k with
  | Vec => set_matrixVectorMultiplication f s
  | Mat => set_matrixMultiplication f s
  end.

(** The pairs [(index in x, index in y)] whose products are summed into the
    edge [j] of the result: [x.p->e[RADIX * i + k]] and [y.p->e[k]] for
    vectors, [x.p->e[i + k]] and [y.p->e[j + RADIX * k]] for matrices. *)
Definition products (k : Kind) (j : nat) : list (nat * nat) :=
  match k with
  | Vec => [(2 * j, 0); (2 * j + 1, 1)]%nat
  | Mat => [(2 * (j / 2), j mod 2); (2 * (j / 2) + 1, j mod 2 + 2)]%nat
  end.

(** The tail of both [multiply2]: rescale by the operand weights. *)
Definition rescale (x y ed : Edge) : P Edge :=
  if CN.cne (w ed) CN.ZERO && (CN.cne (w x) CN.ONE || CN.cne (w y) CN.ONE) then
    ed <- (if CN.ceq (w ed) CN.ONE then
             c <- in_cn (CN.mulCached (w x) (w y)) ;; ret (mkEdge (p ed) c)
           else
             in_cn (CN.mul (w ed) (w ed) (w x)) ;;;
             in_cn (CN.mul (w ed) (w ed) (w y)) ;;;
             ret ed) ;;
    z <- in_cn (CN.equalsZero (w ed)) ;;
    if z : bool then in_cn (CN.releaseCached (w ed)) ;;; ret zero
    else ret ed
  else ret ed.

(** The identity fast paths return an operand scaled by both weights. *)
Definition scaled (x y ed : Edge) (k : Kind) (xCopy yCopy : Edge) : P Edge :=
  ke <- cachedEdge ed ;;
  modify (set_mulTable k (ComputeTable.insertEE xCopy yCopy ke)) ;;;
  c <- in_cn (CN.mulCached (w x) (w y)) ;;
  z <- in_cn (CN.equalsZero c) ;;
  if z : bool then in_cn (CN.releaseCached c) ;;; ret zero
  else ret (mkEdge (p ed) c).

Fixpoint multiply2 (fuel : nat) (k : Kind) (x y : Edge) (var : Z) : P Edge :=
  match fuel with
  | O => fail OutOfFuel
  | S fuel =>
      if bool_decide (p x = nullptr)
      then ret (match k with Vec => mkEdge nullptr CN.ZERO | Mat => x end)
      else if bool_decide (p y = nullptr) then ret y
      else if CN.ceq (w x) CN.ZERO || CN.ceq (w y) CN.ZERO then ret zero
      else if var =? -1 then
        c <- in_cn (CN.mulCached (w x) (w y)) ;; ret (mkEdge terminal c)
      else
        let xCopy := mkEdge (p x) CN.ONE in
        let yCopy := mkEdge (p y) CN.ONE in
        s <- get ;;
        let r := ComputeTable.lookupEE xCopy yCopy (mulTable k s) in
        if negb (bool_decide (fst r = nullptr)) then
          if CN.equalsZeroCV (snd r) then ret zero
          else
            c <- in_cn (CN.getCachedComplexCV (snd r)) ;;
            in_cn (CN.mul c c (w x)) ;;;
            in_cn (CN.mul c c (w y)) ;;;
            z <- in_cn (CN.equalsZero c) ;;
            if z : bool then in_cn (CN.releaseCached c) ;;; ret zero
            else ret (mkEdge (fst r) c)
        else
          xn <- node Mat (p x) ;;
          yn <- node k (p y) ;;
          let same := (v xn =? var) && (v xn =? v yn) in
          if same && ident xn then
            match k with
            | Vec => scaled x y yCopy k xCopy yCopy
            | Mat =>
                ed <- (if ident yn then makeIdentUpTo fuel var else ret yCopy) ;;
                scaled x y ed k xCopy yCopy
            end
          else if same && match k with Mat => ident yn | Vec => false end then
            scaled x y xCopy k xCopy yCopy
          else
            edges <- map_each (indices k)
              (fun j : nat =>
                 fold_each [0; 1]%nat
                   (fun (acc : Edge) (l : nat) =>
                      let '(jx, jy) := default (0, 0)%nat (products k j !! l) in
                      xl <- at_level Mat x var ;;
                      e1 <- (if xl : bool then edge_at Mat (p x) jx else ret xCopy) ;;
                      yl <- at_level k y var ;;
                      e2 <- (if yl : bool then edge_at k (p y) jy else ret yCopy) ;;
                      m <- multiply2 fuel k e1 e2 (to_Qubit (var - 1)) ;;
                      if (l =? 0)%nat || CN.ceq (w acc) CN.ZERO then ret m
                      else if CN.cne (w m) CN.ZERO then
                        r <- add2 fuel k acc m ;;
                        in_cn (CN.releaseCached (w acc)) ;;;
                        in_cn (CN.releaseCached (w m)) ;;;
                        ret r
                      else ret acc)
                   zero) ;;
            ed <- makeDDNode fuel k var edges true ;;
            ke <- cachedEdge ed ;;
            modify (set_mulTable k (ComputeTable.insertEE xCopy yCopy ke)) ;;;
            rescale x y ed
  end.

Definition multiply (fuel : nat) (k : Kind) (x y : Edge) : P Edge :=
  before <- cacheCount_ ;;
  var <- (if negb (isTerminal x) then xn <- node Mat (p x) ;; ret (v xn) else ret (-1)) ;;
  var <- (if negb (isTerminal y) then
            yn <- node k (p y) ;; ret (if var <? v yn then v yn else var)
          else ret var) ;;
  ed <- multiply2 fuel k x y var ;;
  ed <- (if CN.cne (w ed) CN.ZERO && CN.cne (w ed) CN.ONE then
           in_cn (CN.releaseCached (w ed)) ;;;
           rw <- in_cn (CN.lookup (w ed)) ;;
           ret (mkEdge (p ed) rw)
         else ret ed) ;;
  after <- cacheCount_ ;;
  assert CacheBalance (before =? after) ;;;
  ret ed.

(** *** Inner product and fidelity *)

(** [{c.r->val, c.i->val}] and [{CN::val(c.r), CN::val(c.i)}]. *)
Definition fields_of (c : CN.Complex) : P (CN.ComplexValue (F:=F)) :=
  vr <- in_cn (CN.get_val (CN.r c)) ;;
  vi <- in_cn (CN.get_val (CN.i c)) ;;
  ret (CN.mkCV vr vi).

Definition zeroCV : CN.ComplexValue (F:=F) := CN.mkCV fp0 fp0.

Definition zero_case (x y : Edge) : P bool :=
  if bool_decide (p x = nullptr) || bool_decide (p y = nullptr) then ret true
  else
    zx <- in_cn (CN.equalsZero (w x)) ;;
    if zx : bool then ret true else in_cn (CN.equalsZero (w y)).

Fixpoint innerProduct3 (fuel : nat) (x y : Edge) (var : Z) : P (CN.ComplexValue (F:=F)) :=
  match fuel with
  | O => fail OutOfFuel
  | S fuel =>
      z <- zero_case x y ;;
      if z : bool then ret zeroCV (* the 0 case *)
      else if var =? 0 then
        c <- in_cn CN.getTempCachedComplex ;;
        in_cn (CN.mul c (w x) (w y)) ;;;
        fields_of c
      else
        let xCopy := mkEdge (p x) CN.ONE in
        let yCopy := mkEdge (p y) CN.ONE in
        s <- get ;;
        let r := ComputeTable.lookupEE xCopy yCopy (vectorInnerProduct s) in
        if negb (bool_decide (fst r = nullptr)) then
          c <- in_cn (CN.getTempCachedComplexCV (snd r)) ;;
          in_cn (CN.mul c c (w x)) ;;;
          in_cn (CN.mul c c (w y)) ;;;
          in_cn (CN.value_of c)
        else
          let lvl := to_Qubit (var - 1) in
          sum <- fold_each [0; 1]%nat
            (fun (sum : CN.ComplexValue) (j : nat) =>
               xl <- at_level Vec x lvl ;;
               e1 <- (if xl : bool then edge_at Vec (p x) j else ret xCopy) ;;
               yl <- at_level Vec y lvl ;;
               e2 <- (if yl : bool then
                        e2 <- edge_at Vec (p y) j ;;
                        ret (mkEdge (p e2) (CN.conj (w e2)))
                      else ret yCopy) ;;
               cv <- innerProduct3 fuel e1 e2 lvl ;;
               ret (CN.mkCV (fadd (CN.re sum) (CN.re cv)) (fadd (CN.im sum) (CN.im cv))))
            zeroCV ;;
          modify (set_vectorInnerProduct
                    (ComputeTable.insertEE xCopy yCopy (terminal, sum))) ;;;
          c <- in_cn (CN.getTempCachedComplexCV sum) ;;
          in_cn (CN.mul c c (w x)) ;;;
          in_cn (CN.mul c c (w y)) ;;;
          in_cn (CN.value_of c)
  end.

Definition innerProduct (fuel : nat) (x y : Edge) : P (CN.ComplexValue (F:=F)) :=
  z <- zero_case x y ;;
  if z : bool then ret zeroCV
  else
    before <- cacheCount_ ;;
    xn <- node Vec (p x) ;;
    yn <- node Vec (p y) ;;
    let lvl := if v xn <? v yn then v yn else v xn in
    ip <- innerProduct3 fuel x y (to_Qubit (lvl + 1)) ;;
    after <- cacheCount_ ;;
    assert CacheBalance (after =? before) ;;;
    ret ip.


(** *** (Partial) trace *)

(** [r.w = a.w] if [r.w == ONE], the interned product otherwise. *)
Definition times_weight (r a : Edge) : P Edge :=
  if CN.ceq (w r) CN.ONE then ret (mkEdge (p r) (w a))
  else
    c <- in_cn CN.getTempCachedComplex ;;
    in_cn (CN.mul c (w r) (w a)) ;;;
    rw <- in_cn (CN.lookup c) ;;
    ret (mkEdge (p r) rw).

(** [eliminate] is the list of the bits of the [std::bitset<MAXN>]; bits that
    the list does not hold are 0. *)
Definition bit (eliminate : list bool) (q : Z) : bool :=
  if q <? 0 then false else default false (eliminate !! Z.to_nat q).

Definition popcount (eliminate : list bool) : Z :=
  Z.of_nat (length (filter (fun b => b = true) eliminate)).

Fixpoint trace3 (fuel : nat) (a : Edge) (eliminate : list bool) (alreadyEliminated : Z)
    : P Edge :=
  match fuel with
  | O => fail OutOfFuel
  | S fuel =>
      n <- node Mat (p a) ;;
      let var := v n in
      z <- in_cn (CN.equalsZero (w a)) ;;
      if z : bool then ret zero
      else if popcount eliminate =? 0 then ret a
      else if var =? -1 then
        (* Base case *)
        if isTerminal a then ret a else fail RuntimeError
      else if bit eliminate var then
        let elims := alreadyEliminated + 1 in
        e0 <- edge_at Mat (p a) 0 ;;
        t0 <- trace3 fuel e0 eliminate elims ;;
        r1 <- add2 fuel Mat zero t0 ;;
        e3 <- edge_at Mat (p a) 3 ;;
        t1 <- trace3 fuel e3 eliminate elims ;;
        r2 <- add2 fuel Mat r1 t1 ;;
        r <- times_weight r2 a ;;
        when (CN.cne (w r1) CN.ZERO) (in_cn (CN.releaseCached (w r1))) ;;;
        when (CN.cne (w r2) CN.ZERO) (in_cn (CN.releaseCached (w r2))) ;;;
        ret r
      else
        let adjustedV := to_Qubit (var - (popcount eliminate - alreadyEliminated)) in
        edges <- map_each (indices Mat)
                   (fun j : nat =>
                      ej <- edge_at Mat (p a) j ;;
                      trace3 fuel ej eliminate alreadyEliminated) ;;
        r <- makeDDNode fuel Mat adjustedV edges false ;;
        times_weight r a
  end.

Definition partialTrace (fuel : nat) (a : Edge) (eliminate : list bool) : P Edge :=
  before <- cacheCount_ ;;
  result <- trace3 fuel a eliminate 0 ;;
  after <- cacheCount_ ;;
  assert CacheBalance (before =? after) ;;;
  ret result.

Definition MAXN : nat := 128.

Definition trace (fuel : nat) (a : Edge) : P (CN.ComplexValue (F:=F)) :=
  let eliminate := replicate MAXN true in
  before <- cacheCount_ ;;
  res <- partialTrace fuel a eliminate ;;
  after <- cacheCount_ ;;
  assert CacheBalance (before =? after) ;;;
  in_cn (CN.value_of (w res)).

(** *** Kronecker product *)

Definition kroneckerTable (k : Kind) (s : t) : ComputeTable.t Edge Edge CachedEdge :=
  match k with Vec => vectorKronecker s | Mat => matrixKronecker s end.

Definition set_kroneckerTable (k : Kind)
    (f : ComputeTable.t Edge Edge CachedEdge -> ComputeTable.t Edge Edge CachedEdge)
    (s : t) : t :=
  match k with
  | Vec => set_vectorKronecker f s
  | Mat => set_matrixKronecker f s
  end.

Fixpoint kronecker2 (fuel : nat) (k : Kind) (x y : Edge) : P Edge :=
  match fuel with
  | O => fail OutOfFuel
  | S fuel =>
      z <- in_cn (CN.equalsZero (w x)) ;;
      if z : bool then ret zero
      else if isTerminal x then
        c <- in_cn (CN.mulCached (w x) (w y)) ;; ret (mkEdge (p y) c)
      else
        s <- get ;;
        let r := ComputeTable.lookupEE x y (kroneckerTable k s) in
        if negb (bool_decide (fst r = nullptr)) then
          if CN.equalsZeroCV (snd r) then ret zero
          else c <- in_cn (CN.getCachedComplexCV (snd r)) ;; ret (mkEdge (fst r) c)
        else
          xn <- node k (p x) ;;
          yn <- node k (p y) ;;
          if match k with Mat => ident xn | Vec => false end then
            (* special case handling for matrices *)
            ed <- makeDDNode fuel Mat (to_Qubit (v yn + 1)) [y; zero; zero; y] false ;;
            ed <- fold_each (seq 0 (Z.to_nat (v xn)))
                    (fun (ed : Edge) (_ : nat) =>
                       en <- node Mat (p ed) ;;
                       makeDDNode fuel Mat (to_Qubit (v en + 1)) [ed; zero; zero; ed] false)
                    ed ;;
            yv <- in_cn (CN.value_of (w y)) ;;
            c <- in_cn (CN.getCachedComplexCV yv) ;;
            let ed := mkEdge (p ed) c in
            ke <- cachedEdge ed ;;
            modify (set_kroneckerTable k (ComputeTable.insertEE x y ke)) ;;;
            ret ed
          else
            edges <- map_each (indices k)
                       (fun j : nat => ej <- edge_at k (p x) j ;; kronecker2 fuel k ej y) ;;
            ed <- makeDDNode fuel k (to_Qubit (v yn + v xn + 1)) edges true ;;
            in_cn (CN.mul (w ed) (w ed) (w x)) ;;;
            ke <- cachedEdge ed ;;
            modify (set_kroneckerTable k (ComputeTable.insertEE x y ke)) ;;;
            ret ed
  end.

Definition kronecker (fuel : nat) (k : Kind) (x y : Edge) : P Edge :=
  ed <- kronecker2 fuel k x y ;;
  if CN.cne (w ed) CN.ZERO && CN.cne (w ed) CN.ONE then
    in_cn (CN.releaseCached (w ed)) ;;;
    rw <- in_cn (CN.lookup (w ed)) ;;
    ret (mkEdge (p ed) rw)
  else ret ed.

(** *** Garbage collection and the clearing of the tables *)

Definition clearIdentityTable : P unit :=
  modify (set_IdTable (fmap (fun entry : Edge => mkEdge nullptr (w entry)))).

Definition clearComputeTables : P unit :=
  modify (set_vectorAdd ComputeTable.clear) ;;;
  modify (set_matrixAdd ComputeTable.clear) ;;;
  modify (set_matrixTranspose ComputeTable.clear) ;;;
  modify (set_conjugateMatrixTranspose ComputeTable.clear) ;;;
  modify (set_matrixMultiplication ComputeTable.clear) ;;;
  modify (set_matrixVectorMultiplication ComputeTable.clear) ;;;
  modify (set_vectorInnerProduct ComputeTable.clear) ;;;
  modify (set_vectorKronecker ComputeTable.clear) ;;;
  modify (set_matrixKronecker ComputeTable.clear) ;;;
  modify (set_toffoliTable ToffoliTable.clear) ;;;
  clearIdentityTable ;;;
  modify (set_operations OperationTable.clear).

Definition garbageCollect (force : bool) : P unit :=
  vCollect <- in_ut Vec (UniqueTable.garbageCollect Vec force) ;;
  mCollect <- in_ut Mat (UniqueTable.garbageCollect Mat force) ;;
  cCollect <- in_cn (CN.garbageCollect force) ;;
  (* IMPORTANT clear all compute tables *)
  clearComputeTables.

Definition clearUniqueTables : P unit :=
  in_ut Vec UniqueTable.clear ;;; in_ut Mat UniqueTable.clear.

Definition reset : P unit := clearUniqueTables ;;; clearComputeTables.

Definition maxPossibleQubits : Z := 128.

Definition resize (nq : Z) : P unit :=
  when (maxPossibleQubits <? nq) (fail InvalidArgument) ;;;
  modify (set_nqubits (fun _ => nq)) ;;;
  in_ut Vec (UniqueTable.resize nq) ;;;
  in_ut Mat (UniqueTable.resize nq) ;;;
  modify (set_IdTable (fun tb => take (Z.to_nat nq) tb ++
                                  replicate (Z.to_nat nq - length tb) (mkEdge nullptr CN.ZERO))).

(** [Package(nq)]. *)
Definition unconstructed : t :=
  mkPackage CN.unconstructed 0 (UniqueTable.construct 0 250000 0)
    (UniqueTable.construct 0 250000 0) ∅ ∅ ∅ ∅ ∅ ∅ ∅ ∅ ∅ ToffoliTable.empty [] ∅.

Definition construct (nq : Z) : P unit :=
  in_cn CN.construct ;;; resize nq.

End WithParams.
End Package.

(** ** Well-formedness conditions used by the theorems *)

Module Inv.
Section WithParams.
Context {F : Type} {ops : FpOps F} {params : Params F}.

(** A node on a chain of a unique table can be collected or kept: it is in
    the arena, and it is not a terminal-level node without references. *)
Definition collectable (k : Kind) (s : UniqueTable.t) (q : Z) : bool :=
  match UniqueTable.node_at k s (nodeP q) with
  | Some n => negb ((ref n =? 0) && (v n =? -1))
  | None => false
  end.

Definition ut_safe (k : Kind) (s : UniqueTable.t) : Prop :=
  map_Forall (fun _ chain => Forall (fun q => collectable k s q = true) chain)
    (UniqueTable.tables s).

(** Every entry on a chain of the pool is an entry of a chunk or static. *)
Definition pool_safe (s : ComplexTable.t (F:=F)) : Prop :=
  map_Forall (fun _ chain => Forall (fun q => is_Some (ComplexTable.entry_at s q)) chain)
    (ComplexTable.table s).

(** The count of the Toffoli table is zero only when no slot is in use. *)
Definition toffoli_counted (s : ToffoliTable.t) : Prop :=
  ToffoliTable.count s <= 0 ->
  map_Forall (fun _ entry => p (ToffoliTable.e entry) = nullptr) (ToffoliTable.table s).

Definition gc_safe (s : Package.t (F:=F)) : Prop :=
  ut_safe Vec (Package.vUniqueTable s) /\
  ut_safe Mat (Package.mUniqueTable s) /\
  pool_safe (CN.pool (Package.cn s)) /\
  toffoli_counted (Package.toffoliTable s).

(** Every compute table is clear: the tables of the binary and unary
    operators and of the noise operations hold no entry, and no slot of the
    Toffoli table holds an edge. *)
Definition compute_tables_clear (s : Package.t (F:=F)) : Prop :=
  Package.vectorAdd s = ∅ /\
  Package.matrixAdd s = ∅ /\
  Package.matrixTranspose s = ∅ /\
  Package.conjugateMatrixTranspose s = ∅ /\
  Package.matrixMultiplication s = ∅ /\
  Package.matrixVectorMultiplication s = ∅ /\
  Package.vectorInnerProduct s = ∅ /\
  Package.vectorKronecker s = ∅ /\
  Package.matrixKronecker s = ∅ /\
  map_Forall (fun _ entry => p (ToffoliTable.e entry) = nullptr)
    (ToffoliTable.table (Package.toffoliTable s)) /\
  Package.operations s = ∅.

Definition identity_table_clear (s : Package.t (F:=F)) : Prop :=
  Forall (fun entry => p entry = nullptr) (Package.IdTable s).

End WithParams.
End Inv.

(** ** The discipline of the weights

    The operators keep two kinds of weights apart: interned weights (entries
    of the pool, as [lookup] returns them) and cached weights (a pair of
    entries taken from the cache lane).  The conditions below say what the
    package relies on. *)

Module WF.
Section WithFp.
Context {F : Type} {ops : FpOps F}.

(** The failures that the theorems on the cache lane rule out; the others
    (a null or dangling pointer, a NaN, an exhausted cache, ...) stop the
    program before it returns. *)
Definition tolerated (f : failure) : Prop :=
  match f with
  | Assert CacheBalance | Assert CacheOverflow
  | Assert ReleaseStatic | Assert ReleaseReferenced
  | Unmodelled => False
  | _ => True
  end.

(** What the arguments use of the arithmetic: the sign does not matter for
    the comparison with zero, and one is not within the tolerance of zero. *)
Class FpLaws := {
  fabs_fneg_small : forall v : F,
    fltb (fabs (fneg v)) tolerance = fltb (fabs v) tolerance;
  one_not_small : fltb (fabs (fp1 : F)) tolerance = false
}.

Definition written (pl : ComplexTable.t (F:=F)) (q : ComplexTable.EntryPtr) : Prop :=
  match q with
  | ComplexTable.chunkE c j => is_Some (ComplexTable.mem pl !! (c, j))
  | _ => True
  end.

(** No number of the pool is within the tolerance of zero ([lookup] returns
    the static zero entry for those), and the entries on the chains have
    been written. *)
Definition pool_ok (pl : ComplexTable.t (F:=F)) : Prop :=
  (forall k en, ComplexTable.mem pl !! k = Some en ->
     fltb (fabs (ComplexTable.value en)) tolerance = false) /\
  (forall key chain q, ComplexTable.table pl !! key = Some chain ->
     q ∈ chain -> written pl q).

Definition pool_le (pl pl' : ComplexTable.t (F:=F)) : Prop :=
  forall q, written pl q -> written pl' q.

(** The free list of the cache lane runs through the cache lane. *)
Definition cache_shape (c : CN.t (F:=F)) : Prop :=
  (forall x, CN.Cache_Avail c = Some x -> exists a, x = CN.cacheE a) /\
  (forall k x, CN.cacheNext c !! k = Some x -> exists b, x = CN.cacheE b).

Definition cn_ok (c : CN.t (F:=F)) : Prop :=
  pool_ok (CN.pool c) /\ cache_shape c /\ CN.cacheCount c <= CN.CACHE_SIZE.

(** [c'] is a later state of [c]: [d] more entries of the cache lane are
    available. *)
Definition cstep (d : Z) (c c' : CN.t (F:=F)) : Prop :=
  cn_ok c' /\ pool_le (CN.pool c) (CN.pool c') /\
  CN.cacheCount c' = CN.cacheCount c + d.

(** An interned weight: both parts are entries of the pool, and the zero
    entry is not tagged. *)
Definition comp_ok (c : CN.t (F:=F)) (x : CN.TaggedPtr) : Prop :=
  match CN.aligned x with
  | CN.poolE q => written (CN.pool c) q /\
                  (q = ComplexTable.zeroE -> CN.negative x = false)
  | CN.cacheE _ => False
  end.

Definition interned (c : CN.t (F:=F)) (wt : CN.Complex) : Prop :=
  comp_ok c (CN.r wt) /\ comp_ok c (CN.i wt).

(** A cached weight: a pair of untagged entries of the cache lane. *)
Definition is_cached (wt : CN.Complex) : bool :=
  match CN.aligned (CN.r wt), CN.aligned (CN.i wt) with
  | CN.cacheE _, CN.cacheE _ => negb (CN.negative (CN.r wt)) && negb (CN.negative (CN.i wt))
  | _, _ => false
  end.

(** What an operator returns: the zero weight or a cached weight that the
    caller has to release. *)
Definition held (wt : CN.Complex) : Prop := wt = CN.ZERO \/ is_cached wt = true.

(** The number of cache entries that a weight, and the weights of a list of
    edges, hold. *)
Definition holds (wt : CN.Complex) : Z := if is_cached wt then 2 else 0.

Definition holding (edges : list Edge) : Z :=
  foldr (fun ed n => holds (w ed) + n) 0 edges.

End WithFp.

Section WithParams.
Context {F : Type} {ops : FpOps F} {params : Params F}.

(** An edge as the nodes of the unique tables hold it: it points to a node
    and its weight is interned. *)
Definition edge_ok (c : CN.t (F:=F)) (ed : Edge) : Prop :=
  p ed <> nullptr /\ interned c (w ed).

(** Every node of the arena of kind [k], but the one at [a], holds such
    edges; [a] is the node that [makeDDNode] is about to normalize. *)
Definition nodes_but (k : Kind) (a : option Z) (s : Package.t (F:=F)) : Prop :=
  forall a' n, Some a' <> a ->
    UniqueTable.heap (Package.uniqueTable k s) !! a' = Some n ->
    Forall (edge_ok (Package.cn s)) (e n).

Definition nodes_ok (k : Kind) (s : Package.t (F:=F)) : Prop := nodes_but k None s.

Definition other (k : Kind) : Kind := match k with Vec => Mat | Mat => Vec end.

(** The keys of a table of a binary operator are stripped: both operand
    edges carry the weight ONE. *)
Definition stripped {R} (tb : ComputeTable.t Edge Edge R) : Prop :=
  map_Forall (fun _ ent => w (fst (fst ent)) = CN.ONE /\ w (snd (fst ent)) = CN.ONE) tb.

Definition tables_ok (s : Package.t (F:=F)) : Prop :=
  map_Forall (fun _ ent => interned (Package.cn s) (w (snd ent))) (Package.matrixTranspose s) /\
  Forall (fun ed => interned (Package.cn s) (w ed)) (Package.IdTable s) /\
  stripped (Package.matrixMultiplication s) /\
  stripped (Package.matrixVectorMultiplication s) /\
  stripped (Package.vectorInnerProduct s).

(** The state of the package between two operations, but for the node at
    [a] of kind [k]. *)
Definition inv_but (k : Kind) (a : option Z) (s : Package.t (F:=F)) : Prop :=
  cn_ok (Package.cn s) /\
  nodes_but k a s /\
  nodes_ok (other k) s /\
  tables_ok s.

Definition inv (s : Package.t (F:=F)) : Prop := inv_but Vec None s.

(** [s'] is a later state of [s]: [d] more entries of the cache lane are
    available. *)
Definition pstep (d : Z) (s s' : Package.t (F:=F)) : Prop :=
  pool_le (CN.pool (Package.cn s)) (CN.pool (Package.cn s')) /\
  CN.cacheCount (Package.cn s') = CN.cacheCount (Package.cn s) + d.

(** The pool of [s'] holds the entries of the pool of [s]. *)
Definition ple (s s' : Package.t (F:=F)) : Prop :=
  pool_le (CN.pool (Package.cn s)) (CN.pool (Package.cn s')).

(** The state [s'] differs from [s] in the complex numbers only. *)
Definition cn_only (s s' : Package.t (F:=F)) : Prop :=
  s' = Package.set_cn (fun _ => Package.cn s') s.

(** The state [s'] differs from [s] in the unique table of kind [k] only,
    and there in the node at [a] at most (and in the chains and counters). *)
Definition ut_only (k : Kind) (a : option Z) (s s' : Package.t (F:=F)) : Prop :=
  s' = Package.set_uniqueTable k (Package.uniqueTable k s') s /\
  forall a', Some a' <> a ->
    UniqueTable.heap (Package.uniqueTable k s') !! a' =
    UniqueTable.heap (Package.uniqueTable k s) !! a'.

(** The edges of the node at [a]. *)
Definition cand (k : Kind) (a : Z) (s : Package.t (F:=F)) (edges : list Edge) : Prop :=
  exists n, UniqueTable.heap (Package.uniqueTable k s) !! a = Some n /\ e n = edges.

(** While the node at [a] is normalized: the state [s] is a later state of
    [s0] with [d] more available cache entries, and the node holds [edges]. *)
Definition nst (k : Kind) (a : Z) (s0 : Package.t (F:=F)) (d : Z) (edges : list Edge)
    (s : Package.t (F:=F)) : Prop :=
  inv_but k (Some a) s /\ pstep d s0 s /\ cand k a s edges.

(** The weights that [makeDDNode] is handed: cached or zero from the
    operators, interned from the builders. *)
Definition wkind (cached : bool) (c : CN.t (F:=F)) (wt : CN.Complex) : Prop :=
  if cached then held wt else interned c wt.

(** The first loop of [normalize] turns an edge with a weight near zero
    into the zero edge. *)
Definition clean (z : bool) (x : Edge) : Edge :=
  if z && CN.cne (w x) CN.ZERO then Package.zero else x.

(** *** Nodes in use

    A node is in use when it is in the arena and not on the list of the
    available nodes.  The operators rely on the nodes they are handed, and
    the nodes below them, being in use: [getNode] hands out available nodes,
    and a node that is handed out is overwritten. *)
Definition live (u : UniqueTable.t) (a : Z) : Prop :=
  UniqueTable.allocated u a = true /\ a ∉ UniqueTable.available u.

Definition tlive (u : UniqueTable.t) (ptr : NodePtr) : Prop :=
  match ptr with
  | nullptr => False
  | terminal => True
  | nodeP a => live u a
  end.

(** [*p] for a node of the arena. *)
Definition node_of (u : UniqueTable.t) (a : Z) : Node :=
  default freshNode (UniqueTable.heap u !! a).

(** The nodes other than the one at [a] are as they were, in use or not. *)
Definition ut_rel (a : option Z) (u u' : UniqueTable.t) : Prop :=
  (forall a', Some a' <> a -> UniqueTable.heap u' !! a' = UniqueTable.heap u !! a') /\
  (forall a', Some a' <> a -> (live u' a' <-> live u a')).

(** The nodes in use stay in use and keep their edges and their variable. *)
Definition keeps (u u' : UniqueTable.t) : Prop :=
  forall a, live u a ->
    live u' a /\ e (node_of u' a) = e (node_of u a) /\ v (node_of u' a) = v (node_of u a).

(** The edges of the nodes in use point to nodes in use, the chains hold
    nodes in use, and no node is twice on the list of the available nodes. *)
Definition closed (u : UniqueTable.t) : Prop :=
  (forall a, live u a -> Forall (fun ed => tlive u (p ed)) (e (node_of u a))) /\
  (forall key chain q, UniqueTable.tables u !! key = Some chain -> q ∈ chain -> live u q) /\
  NoDup (UniqueTable.available u).

(** The results that the tables hold are nodes in use. *)
Definition tables_live (s : Package.t (F:=F)) : Prop :=
  map_Forall (fun _ ent => tlive (Package.mUniqueTable s) (p (snd ent)))
    (Package.matrixTranspose s) /\
  Forall (fun ed => p ed = nullptr \/ tlive (Package.mUniqueTable s) (p ed))
    (Package.IdTable s) /\
  map_Forall (fun _ ent => tlive (Package.vUniqueTable s) (fst (snd ent)))
    (Package.vectorAdd s) /\
  map_Forall (fun _ ent => tlive (Package.mUniqueTable s) (fst (snd ent)))
    (Package.matrixAdd s) /\
  map_Forall (fun _ ent => tlive (Package.mUniqueTable s) (fst (snd ent)))
    (Package.matrixMultiplication s) /\
  map_Forall (fun _ ent => tlive (Package.vUniqueTable s) (fst (snd ent)))
    (Package.matrixVectorMultiplication s).

Definition linv (s : Package.t (F:=F)) : Prop :=
  closed (Package.vUniqueTable s) /\ closed (Package.mUniqueTable s) /\ tables_live s.

Definition sext (s s' : Package.t (F:=F)) : Prop :=
  keeps (Package.vUniqueTable s) (Package.vUniqueTable s') /\
  keeps (Package.mUniqueTable s) (Package.mUniqueTable s').

(** While the node at [r] of kind [k] is normalized, only this node and the
    complex numbers change; the edges of the node point to nodes in [T].
    [ldead] is the state after the node has been handed back. *)
Definition ldead (k : Kind) (r : Z) (s0 s : Package.t (F:=F)) : Prop :=
  (exists c u, s = Package.set_cn (fun _ => c) (Package.set_uniqueTable k u s0)) /\
  ut_rel (Some r) (Package.uniqueTable k s0) (Package.uniqueTable k s) /\
  UniqueTable.tables (Package.uniqueTable k s) = UniqueTable.tables (Package.uniqueTable k s0) /\
  NoDup (UniqueTable.available (Package.uniqueTable k s)).

Definition lstate (k : Kind) (r : Z) (T : NodePtr -> Prop) (s0 s : Package.t (F:=F)) : Prop :=
  ldead k r s0 s /\
  live (Package.uniqueTable k s) r /\
  exists edges, cand k r s edges /\ Forall (fun x => T (p x)) edges.

Definition anyF (f : failure) : Prop := True.

(** What [makeDDNode] needs of [transpose] as to the nodes in use. *)
Definition lpreserving (f : Edge -> Package.P (F:=F) Edge) : Prop :=
  forall s x, linv s -> tlive (Package.mUniqueTable s) (p x) ->
    wp (f x) s
      (fun r s' => linv s' /\ sext s s' /\ tlive (Package.mUniqueTable s') (p r))
      anyF.

(** A function on edges that [makeDDNode] can call back ([transpose]): it
    keeps the state well-formed and the cache lane as it is, and returns an
    edge as the nodes hold them. *)
Definition preserving (f : Edge -> Package.P (F:=F) Edge) : Prop :=
  forall s x, inv s -> edge_ok (Package.cn s) x ->
    wp (f x) s
      (fun r s' => inv s' /\ pstep 0 s s' /\ edge_ok (Package.cn s') r)
      tolerated.

(** [framed R m]: whenever [m] returns, the state it leaves is related by
    [R] to the state it started in. *)
Definition framed (R : Package.t (F:=F) -> Package.t (F:=F) -> Prop) {A}
    (m : Package.P (F:=F) A) : Prop :=
  forall s, wp m s (fun _ s' => R s s') anyF.

(** The tables of the products hold stripped keys only. *)
Definition stripped_products (s : Package.t (F:=F)) : Prop :=
  stripped (Package.matrixMultiplication s) /\
  stripped (Package.matrixVectorMultiplication s) /\
  stripped (Package.vectorInnerProduct s).

(** [x] with its weight rewritten to ONE. *)
Definition strip (x : Edge) : Edge := mkEdge (p x) CN.ONE.

(** What [multiply2] returns when the table holds the result [r] for the
    stripped operands: [r] scaled by the weights of the operands. *)
Definition mul_hit (r : ComputeTable.CachedEdge (F:=F)) (x y : Edge) : Package.P (F:=F) Edge :=
  if CN.equalsZeroCV (snd r) then ret Package.zero
  else
    c <- Package.in_cn (CN.getCachedComplexCV (snd r)) ;;
    Package.in_cn (CN.mul c c (w x)) ;;;
    Package.in_cn (CN.mul c c (w y)) ;;;
    z <- Package.in_cn (CN.equalsZero c) ;;
    if z : bool then Package.in_cn (CN.releaseCached c) ;;; ret Package.zero
    else ret (mkEdge (fst r) c).

(** The same for [innerProduct]. *)
Definition ip_hit (r : ComputeTable.CachedEdge (F:=F)) (x y : Edge)
    : Package.P (F:=F) (CN.ComplexValue (F:=F)) :=
  c <- Package.in_cn (CN.getTempCachedComplexCV (snd r)) ;;
  Package.in_cn (CN.mul c c (w x)) ;;;
  Package.in_cn (CN.mul c c (w y)) ;;;
  Package.in_cn (CN.value_of c).

End WithParams.
End WF.

(** ** Checking a state

    The conditions on the weights are finite: a boolean function decides
    them for a state at hand. *)

Module WFcheck.
Section WithParams.
Context {F : Type} {ops : FpOps F} {params : Params F}.

Definition written_b (pl : ComplexTable.t (F:=F)) (q : ComplexTable.EntryPtr) : bool :=
  match q with
  | ComplexTable.chunkE c j => bool_decide (is_Some (ComplexTable.mem pl !! (c, j)))
  | _ => true
  end.

Definition pool_ok_b (pl : ComplexTable.t (F:=F)) : bool :=
  forallb (fun ken => negb (fltb (fabs (ComplexTable.value (snd ken))) tolerance))
    (map_to_list (ComplexTable.mem pl)) &&
  forallb (fun kc => forallb (written_b pl) (snd kc))
    (map_to_list (ComplexTable.table pl)).

Definition is_cacheE (x : CN.EntryRef) : bool :=
  match x with CN.cacheE _ => true | CN.poolE _ => false end.

Definition cache_shape_b (c : CN.t (F:=F)) : bool :=
  match CN.Cache_Avail c with Some x => is_cacheE x | None => true end &&
  forallb (fun kx => is_cacheE (snd kx)) (map_to_list (CN.cacheNext c)).

Definition cn_ok_b (c : CN.t (F:=F)) : bool :=
  pool_ok_b (CN.pool c) && cache_shape_b c && (CN.cacheCount c <=? CN.CACHE_SIZE).

Definition comp_ok_b (c : CN.t (F:=F)) (x : CN.TaggedPtr) : bool :=
  match CN.aligned x with
  | CN.poolE q => written_b (CN.pool c) q &&
                  (negb (bool_decide (q = ComplexTable.zeroE)) || negb (CN.negative x))
  | CN.cacheE _ => false
  end.

Definition interned_b (c : CN.t (F:=F)) (wt : CN.Complex) : bool :=
  comp_ok_b c (CN.r wt) && comp_ok_b c (CN.i wt).

Definition edge_ok_b (c : CN.t (F:=F)) (ed : Edge) : bool :=
  negb (bool_decide (p ed = nullptr)) && interned_b c (w ed).

Definition nodes_ok_b (k : Kind) (s : Package.t (F:=F)) : bool :=
  forallb (fun an => forallb (edge_ok_b (Package.cn s)) (e (snd an)))
    (map_to_list (UniqueTable.heap (Package.uniqueTable k s))).

Definition stripped_b {R} (tb : ComputeTable.t Edge Edge R) : bool :=
  forallb (fun kent => bool_decide (w (fst (fst (snd kent))) = CN.ONE) &&
                       bool_decide (w (snd (fst (snd kent))) = CN.ONE))
    (map_to_list tb).

Definition tables_ok_b (s : Package.t (F:=F)) : bool :=
  forallb (fun kent => interned_b (Package.cn s) (w (snd (snd kent))))
    (map_to_list (Package.matrixTranspose s)) &&
  forallb (fun ed => interned_b (Package.cn s) (w ed)) (Package.IdTable s) &&
  stripped_b (Package.matrixMultiplication s) &&
  stripped_b (Package.matrixVectorMultiplication s) &&
  stripped_b (Package.vectorInnerProduct s).

Definition inv_b (s : Package.t (F:=F)) : bool :=
  cn_ok_b (Package.cn s) && nodes_ok_b Vec s && nodes_ok_b Mat s && tables_ok_b s.

End WithParams.
End WFcheck.

(** ** What an operator leaves as it is *)

Module Frame.
Section WithFp.
Context {F : Type} {ops : FpOps F}.

(** The parts of the package that an addition has no business with. *)
Definition beside_add (s s' : Package.t (F:=F)) : Prop :=
  Package.nqubits s' = Package.nqubits s /\
  Package.conjugateMatrixTranspose s' = Package.conjugateMatrixTranspose s /\
  Package.matrixMultiplication s' = Package.matrixMultiplication s /\
  Package.matrixVectorMultiplication s' = Package.matrixVectorMultiplication s /\
  Package.vectorInnerProduct s' = Package.vectorInnerProduct s /\
  Package.vectorKronecker s' = Package.vectorKronecker s /\
  Package.matrixKronecker s' = Package.matrixKronecker s /\
  Package.toffoliTable s' = Package.toffoliTable s /\
  Package.IdTable s' = Package.IdTable s /\
  Package.operations s' = Package.operations s.

(** The same for a multiplication, which adds and builds identities. *)
Definition beside_multiply (s s' : Package.t (F:=F)) : Prop :=
  Package.nqubits s' = Package.nqubits s /\
  Package.conjugateMatrixTranspose s' = Package.conjugateMatrixTranspose s /\
  Package.vectorInnerProduct s' = Package.vectorInnerProduct s /\
  Package.vectorKronecker s' = Package.vectorKronecker s /\
  Package.matrixKronecker s' = Package.matrixKronecker s /\
  Package.toffoliTable s' = Package.toffoliTable s /\
  Package.operations s' = Package.operations s.

End WithFp.
End Frame.

(** ** The root weights in an inner product *)

Module IP.
Section WithParams.
Context {F : Type} {ops : FpOps F} {params : Params F}.



(** [c] with the number [v] written to the entries [a] and [b]. *)
Definition stored (a b : Z) (v : CN.ComplexValue (F:=F)) (c : CN.t (F:=F)) : CN.t (F:=F) :=
  CN.set_cacheVal (<[b := CN.im v]>) (CN.set_cacheVal (<[a := CN.re v]>) c).

(** [c'] differs from [c] in the numbers that the entries of the cache lane
    hold at most: the pool, the free chain and [cacheCount] are the same. *)
Definition same_lane (c c' : CN.t (F:=F)) : Prop :=
  CN.pool c' = CN.pool c /\ CN.cacheNext c' = CN.cacheNext c /\
  CN.Cache_Avail c' = CN.Cache_Avail c /\ CN.cacheCount c' = CN.cacheCount c.





(** The table of the inner products and the complex numbers but for the
    numbers in the cache lane are as they were. *)
Definition lane_only (s s' : Package.t (F:=F)) : Prop :=
  same_lane (Package.cn s) (Package.cn s') /\
  Package.vectorInnerProduct s' = Package.vectorInnerProduct s.


End WithParams.
End IP.

(** ** Concrete inputs used by the examples *)

Module Scenario.
Import ComplexTable.

(** Two doubles on either side of the boundary 16384/32767 between the
    buckets 16383 and 16384, [2^-44] apart (less than the tolerance). *)
Definition above_boundary : Q := 17592722931713 # 35184372088832.
Definition below_boundary : Q := 17592722931711 # 35184372088832.

(** A fresh pool, [lookup(above_boundary)], then [lookup(below_boundary)];
    the ghost trace is reset before the second lookup. *)
Definition two_lookups : M (t (F:=Q)) (EntryPtr * EntryPtr) :=
  construct ;;;
  pe <- lookup above_boundary ;;
  modify (set_probes (fun _ => [])) ;;;
  pv <- lookup below_boundary ;;
  ret (pe, pv).

(** The pool as its constructor leaves it. *)
Definition fresh_pool : t (F:=Q) :=
  match construct unallocated with Ok _ s => s | Err _ s => s end.

(** A memory layout and compute-table slots for running the package. *)
Definition node_address (ptr : NodePtr) : Z :=
  match ptr with
  | nullptr => 0
  | terminal => 4096
  | nodeP a => 8192 + 64 * a
  end.

Definition entry_address (x : CN.TaggedPtr) : Z :=
  match CN.aligned x with
  | CN.poolE zeroE => 16
  | CN.poolE oneE => 48
  | CN.poolE (chunkE c j) => 1048576 * (c + 1) + 32 * j
  | CN.cacheE k => 1073741824 + 32 * k
  end + (if CN.negative x then 1 else 0).

#[export] Instance QParams : Params Q := {|
  node_addr := node_address;
  entry_addr := entry_address;
  slot_edges a b := (node_address (p a) / 64 + 31 * (node_address (p b) / 64)) mod 16384;
  slot_cached a b := (node_address (fst a) / 64 + 31 * (node_address (fst b) / 64)) mod 16384;
  slot_edge a := (node_address (p a) / 64) mod 16384;
  zero_target := terminal
|}.

(** A package for [nq] qubits. *)
Definition package (nq : Z) : result (Package.t (F:=Q)) unit :=
  Package.construct nq Package.unconstructed.

(** Run [m] in a fresh package for [nq] qubits. *)
Definition run {A} (nq : Z) (m : Package.P (F:=Q) A) : result (Package.t (F:=Q)) A :=
  (Package.construct nq ;;; m) Package.unconstructed.

Definition final_state {A} (r : result (Package.t (F:=Q)) A) : Package.t (F:=Q) :=
  match r with Ok _ s => s | Err _ s => s end.

(** The unique table of the vectors of a package for two qubits, with two
    nodes taken from the arena and given the same edges and variable. *)
Definition twin_edges : list Edge := [Package.one; Package.zero].

Definition twin_nodes : M UniqueTable.t unit :=
  a <- UniqueTable.getNode Vec ;;
  b <- UniqueTable.getNode Vec ;;
  UniqueTable.update Vec a (fun n => mkNode twin_edges (ref n) 0 (symm n) (ident n)) ;;;
  UniqueTable.update Vec b (fun n => mkNode twin_edges (ref n) 0 (symm n) (ident n)).

Definition twin_table : UniqueTable.t :=
  match twin_nodes (Package.vUniqueTable (final_state (run 2 (ret tt)))) with
  | Ok _ u => u
  | Err _ u => u
  end.

(** A package for three qubits after some work: the identity on two qubits,
    a basis state, their product and a sum; no reference was taken, so that
    every node is garbage. *)
Definition busy_package : Package.t (F:=Q) :=
  final_state
    (run 3 (x <- Package.makeIdentN 10 2 ;;
            y <- Package.makeBasisState 10 1 [Package.bs_plus; Package.bs_one] ;;
            z <- Package.makeZeroState 10 1 ;;
            r <- Package.multiply 10 Vec x y ;;
            u <- Package.add 10 Vec y z ;;
            g <- Package.add 10 Mat x x ;;
            ret tt)).

Definition returned {A} (r : result (Package.t (F:=Q)) A) : option A :=
  match r with Ok a _ => Some a | Err _ _ => None end.



(** [|0>], [|1>] and the sum [|0> + |0>] on one qubit; the sum is added to
    [|1>] and multiplied (Kronecker) with [|1>]. *)
Definition scaled_operands : Package.P (F:=Q) (Edge * Edge) :=
  z <- Package.makeZeroState 10 0 ;;
  o <- Package.makeBasisState 10 0 [Package.bs_one] ;;
  d <- Package.add 10 Vec z z ;;
  _ <- Package.add 10 Vec d o ;;
  _ <- Package.kronecker 10 Vec d o ;;
  ret (d, o).

Definition scaled_package : Package.t (F:=Q) := final_state (run 2 scaled_operands).

(** The matrix of the NOT gate on one qubit times the state [|+>], and the
    inner product of [|+>] with itself. *)
Definition products_done : Package.P (F:=Q) (Edge * Edge) :=
  m <- Package.makeDDNode 10 Mat 0 [Package.zero; Package.one; Package.one; Package.zero] false ;;
  y <- Package.makeBasisState 10 0 [Package.bs_plus] ;;
  _ <- Package.multiply 10 Vec m y ;;
  _ <- Package.innerProduct 10 y y ;;
  ret (m, y).

Definition products_package : Package.t (F:=Q) := final_state (run 1 products_done).

(** Two weights taken from the cache lane, as an operator holds them while
    it builds a node, and the edges to the terminal that carry them. *)
Definition held_pair : Package.P (F:=Q) (CN.Complex * CN.Complex) :=
  a <- Package.in_cn (CN.getCachedComplexCV (CN.mkCV (1 # 2) 0%Q)) ;;
  b <- Package.in_cn (CN.getCachedComplexCV (CN.mkCV (1 # 4) 0%Q)) ;;
  ret (a, b).

Definition held_package : Package.t (F:=Q) := final_state (run 1 held_pair).

Definition cache_weight (a b : Z) : CN.Complex :=
  CN.mkComplex (CN.tag (CN.cacheE a) false) (CN.tag (CN.cacheE b) false).

Definition held_edges : list Edge :=
  [mkEdge terminal (cache_weight 0 1); mkEdge terminal (cache_weight 2 3)].


(** A matrix that is not symmetric: the node of [[0 1] [0 0]] on one qubit,
    the only node of its package, and the edge to it. *)
Definition lopsided_package : Package.t (F:=Q) :=
  final_state
    (run 1 (Package.makeDDNode 10 Mat 0
              [Package.zero; Package.one; Package.zero; Package.zero] false)).

Definition lopsided : Edge := mkEdge (nodeP 0) CN.ONE.






End Scenario.

(** * Part II: facts *)

(** ** The weakest-precondition calculus for [M] *)

Lemma wp_Ok {S A} (m : M S A) s Q E a s' :
  wp m s Q E -> m s = Ok a s' -> Q a s'.
Proof. unfold wp. intros H Hm. rewrite Hm in H. exact H. Qed.

Lemma wp_Err {S A} (m : M S A) s Q E f s' :
  wp m s Q E -> m s = Err f s' -> E f.
Proof. unfold wp. intros H Hm. rewrite Hm in H. exact H. Qed.


Lemma wp_mono {S A} (m : M S A) s (Q Q' : A -> S -> Prop) (E E' : failure -> Prop) :
  wp m s Q E ->
  (forall a s', Q a s' -> Q' a s') ->
  (forall f, E f -> E' f) ->
  wp m s Q' E'.
Proof. unfold wp. destruct (m s) as [a s'|f s']; eauto. Qed.


Lemma wp_bind {S A B} (m : M S A) (k : A -> M S B) s Q E :
  wp m s (fun a s1 => wp (k a) s1 Q E) E -> wp (bind m k) s Q E.
Proof. unfold wp, bind. destruct (m s) as [a s1|f s1]; auto. Qed.

Lemma wp_bind_assoc {S A B C} (m : M S A) (f : A -> M S B) (g : B -> M S C) s Q E :
  wp (bind (bind m f) g) s Q E -> wp (bind m (fun x => bind (f x) g)) s Q E.
Proof. unfold wp, bind. destruct (m s) as [a s1|e s1]; auto. Qed.

Lemma wp_ret {S A} (a : A) (s : S) (Q : A -> S -> Prop) E : Q a s -> wp (ret a) s Q E.
Proof. auto. Qed.

Lemma wp_fail {S A} f (s : S) (Q : A -> S -> Prop) (E : failure -> Prop) :
  E f -> wp (fail f) s Q E.
Proof. auto. Qed.

Lemma wp_get {S} (s : S) (Q : S -> S -> Prop) E : Q s s -> wp get s Q E.
Proof. auto. Qed.

Lemma wp_gets {S A} (f : S -> A) (s : S) (Q : A -> S -> Prop) E :
  Q (f s) s -> wp (gets f) s Q E.
Proof. auto. Qed.

Lemma wp_put {S} (s0 s : S) (Q : unit -> S -> Prop) E : Q tt s0 -> wp (put s0) s Q E.
Proof. auto. Qed.

Lemma wp_modify {S} (f : S -> S) (s : S) (Q : unit -> S -> Prop) E :
  Q tt (f s) -> wp (modify f) s Q E.
Proof. auto. Qed.

Lemma wp_assert {S} a b (s : S) (Q : unit -> S -> Prop) (E : failure -> Prop) :
  (b = true -> Q tt s) -> (b = false -> E (Assert a)) -> wp (assert a b) s Q E.
Proof. destruct b; cbn; auto. Qed.

Lemma wp_deref {S A} (o : option A) (s : S) (Q : A -> S -> Prop) (E : failure -> Prop) :
  (forall a, o = Some a -> Q a s) -> (o = None -> E Segfault) -> wp (deref o) s Q E.
Proof. destruct o; cbn; auto. Qed.

Lemma wp_when {S} b (m : M S unit) (s : S) (Q : unit -> S -> Prop) E :
  (b = true -> wp m s Q E) -> (b = false -> Q tt s) -> wp (when b m) s Q E.
Proof. destruct b; cbn; auto. Qed.

Lemma wp_zoom {S T A} (proj : S -> T) (upd : T -> S -> S) (m : M T A) (s : S) Q E :
  wp m (proj s) (fun a t => Q a (upd t s)) E -> wp (zoom proj upd m) s Q E.
Proof. unfold wp, zoom. destruct (m (proj s)) as [a t|f t]; auto. Qed.

Lemma wp_total {S A} (m : M S A) s (Q : A -> S -> Prop) :
  wp m s Q (fun _ => False) -> exists a s', m s = Ok a s' /\ Q a s'.
Proof. unfold wp. destruct (m s) as [a s'|f s']; [eauto | tauto]. Qed.

(** One step of symbolic execution. *)
Ltac wp_step :=
  lazymatch goal with
  | |- wp (bind _ _) _ _ _ => apply wp_bind
  | |- wp (ret _) _ _ _ => apply wp_ret
  | |- wp (fail _) _ _ _ => apply wp_fail; try exact I
  | |- wp get _ _ _ => apply wp_get
  | |- wp (gets _) _ _ _ => apply wp_gets
  | |- wp (put _) _ _ _ => apply wp_put
  | |- wp (modify _) _ _ _ => apply wp_modify
  | |- wp (assert _ _) _ _ _ => apply wp_assert; intros ?; [| try exact I]
  | |- wp (deref _) _ _ _ => apply wp_deref; [intros ? ? | intros ?; try exact I]
  | |- wp (zoom _ _ _) _ _ _ => apply wp_zoom
  end.
Ltac wp_steps := repeat (wp_step; cbv beta).

(** Use a proved specification [H] of the action that is next in line. *)
Ltac wp_use H :=
  lazymatch goal with
  | |- wp (bind _ _) _ _ _ =>
      apply wp_bind; eapply wp_mono; [eapply H | cbv beta | cbv beta]
  | |- wp _ _ _ _ => eapply wp_mono; [eapply H | cbv beta | cbv beta]
  end.

(** Use a proved specification [H] of the whole action. *)
Ltac wp_whole H := eapply wp_mono; [eapply H | cbv beta | cbv beta].

(** Decide a closed proposition by evaluation. *)
Ltac by_compute :=
  lazymatch goal with
  | |- ?G => refine (@bool_decide_unpack G _ _); vm_compute; exact I
  end.

(** *** Loops *)

Section Loops.
Import Package.

Lemma wp_fold_each {S A} (l : list nat) (body : A -> nat -> M S A) (a0 : A) (s : S)
    (I : list nat -> A -> S -> Prop) (E : failure -> Prop) :
  I [] a0 s ->
  (forall done j rest a s, l = done ++ j :: rest -> I done a s ->
     wp (body a j) s (fun a' s' => I (done ++ [j]) a' s') E) ->
  wp (fold_each l body a0) s (fun a s' => I l a s') E.
Proof.
  intros H0 Hstep.
  assert (H : forall rest done a s, l = done ++ rest -> I done a s ->
            wp (fold_each rest body a) s (fun a s' => I l a s') E).
  { induction rest as [|j rest IH]; intros done a s1 Hl Ha; cbn [fold_each].
    - apply wp_ret. rewrite app_nil_r in Hl. subst done. exact Ha.
    - apply wp_bind. eapply wp_mono; [eapply Hstep; eauto | cbv beta | auto].
      intros a' s' Ha'. apply (IH (done ++ [j])); [|exact Ha'].
      rewrite <- app_assoc. exact Hl. }
  apply (H l [] a0 s); [reflexivity | exact H0].
Qed.

Lemma wp_for_each {S} (l : list nat) (body : nat -> M S unit) (s : S)
    (I : list nat -> S -> Prop) (E : failure -> Prop) :
  I [] s ->
  (forall done j rest s, l = done ++ j :: rest -> I done s ->
     wp (body j) s (fun _ s' => I (done ++ [j]) s') E) ->
  wp (for_each l body) s (fun _ s' => I l s') E.
Proof.
  intros H0 Hstep.
  assert (H : forall rest done s, l = done ++ rest -> I done s ->
            wp (for_each rest body) s (fun _ s' => I l s') E).
  { induction rest as [|j rest IH]; intros done s1 Hl Ha; cbn [for_each].
    - apply wp_ret. rewrite app_nil_r in Hl. subst done. exact Ha.
    - apply wp_bind. eapply wp_mono; [eapply Hstep; eauto | cbv beta | auto].
      intros _ s' Ha'. apply (IH (done ++ [j])); [|exact Ha'].
      rewrite <- app_assoc. exact Hl. }
  apply (H l [] s); [reflexivity | exact H0].
Qed.

Lemma wp_map_each {S A B} (l : list A) (body : A -> M S B) (s : S)
    (I : list A -> list B -> S -> Prop) (E : failure -> Prop) :
  I [] [] s ->
  (forall done x rest ys s, l = done ++ x :: rest -> I done ys s ->
     wp (body x) s (fun y s' => I (done ++ [x]) (ys ++ [y]) s') E) ->
  wp (map_each l body) s (fun ys s' => I l ys s') E.
Proof.
  intros H0 Hstep.
  assert (H : forall rest done ys s, l = done ++ rest -> I done ys s ->
            wp (map_each rest body) s (fun zs s' => I l (ys ++ zs) s') E).
  { induction rest as [|x rest IH]; intros done ys s1 Hl Ha; cbn [map_each].
    - apply wp_ret. rewrite app_nil_r in Hl |- *. subst done. exact Ha.
    - apply wp_bind. eapply wp_mono; [eapply Hstep; eauto | cbv beta | auto].
      intros y s' Ha'. apply wp_bind.
      eapply wp_mono; [apply (IH (done ++ [x]) (ys ++ [y])); [|exact Ha'] | cbv beta | auto].
      + rewrite <- app_assoc. exact Hl.
      + intros zs s'' Hz. apply wp_ret. rewrite <- app_assoc in Hz. exact Hz. }
  apply (H l [] [] s); [reflexivity | exact H0].
Qed.

End Loops.

(** ** Facts about the float pool *)

Section ComplexTableFacts.
Context {F : Type} {ops : FpOps F}.
Import ComplexTable.

Let anyF : failure -> Prop := fun _ => True.

Lemma CT_read_spec (p : EntryPtr) (s : t (F:=F)) :
  wp (read p) s (fun e s' => s' = s /\ entry_at s p = Some e) anyF.
Proof. unfold read. wp_steps; unfold anyF; auto. Qed.

Lemma CT_write_probes (p : EntryPtr) (e : Entry (F:=F)) s :
  wp (write p e) s (fun _ s' => probes s' = probes s) anyF.
Proof.
  unfold write. destruct p; try exact I. wp_steps.
  destruct (chunk_valid _ _ _); wp_steps; unfold anyF; auto.
Qed.

Lemma CT_hash_spec (val : F) (s : t (F:=F)) :
  wp (hash val) s (fun k s' => k = hash_key val /\ s' = s) anyF.
Proof. unfold hash. wp_steps; unfold anyF; auto. Qed.

Lemma CT_find_chain_probes chain (val : F) s :
  wp (find_chain chain val) s (fun _ s' => probes s' = probes s) anyF.
Proof.
  revert s. induction chain as [|p rest IH]; intros s; cbn [find_chain].
  - wp_steps. reflexivity.
  - wp_use CT_read_spec; [|auto]. intros e s' [-> _].
    destruct (fltb _ _); wp_steps; [reflexivity|].
    wp_use IH; auto.
Qed.

Lemma CT_find_probes key (val : F) s :
  wp (find key val) s (fun _ s' => probes s' = probes s ++ [key]) anyF.
Proof.
  unfold find. wp_steps. wp_use CT_find_chain_probes; auto.
Qed.

Lemma CT_getEntry_probes (s : t (F:=F)) :
  wp getEntry s (fun _ s' => probes s' = probes s) anyF.
Proof.
  unfold getEntry. wp_steps. destruct (available s) as [|entry rest].
  - wp_steps. destruct (_ =? _); wp_steps; reflexivity.
  - wp_steps. wp_use CT_read_spec; [|auto]. intros e s' [-> _].
    wp_use CT_write_probes; [|auto]. intros _ s' Hw. wp_steps. exact Hw.
Qed.

(** The buckets that one [lookup] hands to [find]: the key bucket first, and
    after it only the bucket of [val - tolerance] (once or twice).  The
    bucket of [val + tolerance] is visited only when it is one of these. *)
Lemma CT_lookup_probes (val : F) s :
  wp (lookup val) s
    (fun _ s' => exists l, probes s' = probes s ++ l /\
       (l = [] \/ exists l', l = hash_key val :: l' /\
                    Forall (eq (hash_key (fsub val tolerance))) l'))
    anyF.
Proof.
  unfold lookup. wp_steps.
  destruct (fltb (fabs val) tolerance).
  { wp_steps. exists []. rewrite app_nil_r. auto. }
  destruct (fltb (fabs (fsub val fp1)) tolerance).
  { wp_steps. exists []. rewrite app_nil_r. auto. }
  wp_steps.
  wp_use CT_hash_spec; [|auto]. intros k s1 [-> ->]. cbn [set_lookups probes].
  wp_use CT_find_probes; [|auto]. intros p1 s1 Hp1. cbn [set_lookups probes] in Hp1.
  destruct p1 as [q|].
  { wp_steps. exists [hash_key val]. split; [exact Hp1|]. right. eauto. }
  apply wp_bind.
  apply wp_mono with
    (Q := fun (_ : option EntryPtr) s2 =>
            exists l', probes s2 = probes s ++ hash_key val :: l' /\
                       Forall (eq (hash_key (fsub val tolerance))) l')
    (E := anyF); [| |auto].
  { destruct (fleb fp0 (fsub val tolerance)).
    - wp_use CT_hash_spec; [|auto]. intros k s2 [-> ->].
      destruct (negb (_ =? _)).
      + wp_use CT_find_probes; [|auto]. intros _ s2 Hf. rewrite Hf, Hp1, <- app_assoc.
        exists [hash_key (fsub val tolerance)]. split; [reflexivity|]. repeat constructor.
      + wp_steps. exists []. split; [exact Hp1 | constructor].
    - wp_steps. exists []. split; [exact Hp1 | constructor]. }
  intros p2 s2 (l2 & Hp2 & Hl2). destruct p2 as [q|].
  { wp_steps. eauto 6. }
  wp_use CT_hash_spec; [|auto]. intros k s3 [-> ->].
  apply wp_bind.
  apply wp_mono with
    (Q := fun (_ : option EntryPtr) s3 =>
            exists l', probes s3 = probes s ++ hash_key val :: l' /\
                       Forall (eq (hash_key (fsub val tolerance))) l')
    (E := anyF); [| |auto].
  { destruct (negb (_ =? _)).
    - wp_use CT_find_probes; [|auto]. intros _ s3 Hf. rewrite Hf, Hp2, <- app_assoc.
      exists (l2 ++ [hash_key (fsub val tolerance)]). split; [reflexivity|].
      apply Forall_app. split; [exact Hl2 | repeat constructor].
    - wp_steps. eauto. }
  intros p3 s3 (l3 & Hp3 & Hl3). destruct p3 as [q|].
  { wp_steps. eauto 6. }
  wp_use CT_getEntry_probes; [|auto]. intros entry s4 Hp4.
  wp_use CT_read_spec; [|auto]. intros e s5 [-> _].
  wp_use CT_write_probes; [|auto]. intros _ s5 Hp5.
  wp_steps. cbn. rewrite Hp5, Hp4, Hp3. eauto 6.
Qed.

End ComplexTableFacts.

(** ** The float pool on a concrete input *)

Section ComplexTableRun.
Import ComplexTable Scenario.

(** C4 (failing input).  In a fresh pool that holds [above_boundary] (bucket
    16384), [lookup(below_boundary)] hands only its key bucket 16383 to
    [find]: the bucket of [val - tolerance] is 16383 again and the bucket
    16384 of [val + tolerance] is never searched, although the entry in it is
    within the tolerance of the value.  The lookup allocates a second entry
    for the same number and puts it at the head of bucket 16383. *)
Theorem C4_upper_bucket_not_searched :
  match two_lookups unallocated with
  | Ok (pe, pv) s =>
      hash_key below_boundary = 16383 /\
      hash_key (fsub below_boundary tolerance) = 16383 /\
      hash_key (fadd below_boundary tolerance) = 16384 /\
      bucket s 16384 = [pe] /\
      entry_at s pe = Some (mkEntry above_boundary 0) /\
      fltb (fabs (fsub above_boundary below_boundary)) tolerance = true /\
      probes s = [16383] /\
      pv <> pe /\
      entry_at s pv = Some (mkEntry below_boundary 0) /\
      head (bucket s 16383) = Some pv
  | Err _ _ => False
  end.
Proof. vm_compute. repeat split; discriminate. Qed.

End ComplexTableRun.

(** ** The package: construction of basis states *)

Section PackageBasics.
Context {F : Type} {ops : FpOps F} {params : Params F}.
Import Package.

(** C9.  [makeBasisState(n, state)] with fewer than [n + 1] designators
    throws [std::invalid_argument] at once: the state of the package at the
    throw is the state at the call, so no node was constructed. *)
Theorem C9_makeBasisState_short_state
    (fuel : nat) (n : Z) (state : list BasisStates) (s : Package.t) :
  -1 <= n <= 127 ->
  Z.of_nat (length state) < n + 1 ->
  makeBasisState fuel n state s = Err InvalidArgument s.
Proof.
  intros Hn Hlen. unfold makeBasisState, bind, when, size_t.
  rewrite Z.mod_small by lia.
  destruct (Z.ltb_spec (Z.of_nat (length state)) (n + 1)) as [_|]; [|lia].
  reflexivity.
Qed.

End PackageBasics.

Section PackageBasicsRun.
Import Package Scenario.

Lemma C9_makeBasisState_short_state_witness :
  (-1 <= 2 <= 127) /\ Z.of_nat (length [bs_zero; bs_plus]) < 2 + 1 /\
  makeBasisState (F:=Q) 5 2 [bs_zero; bs_plus] unconstructed
  = Err InvalidArgument unconstructed.
Proof.
  split; [lia|]. split; [cbn; lia|].
  apply (C9_makeBasisState_short_state 5 2 [bs_zero; bs_plus] unconstructed); cbn; lia.
Defined.

End PackageBasicsRun.

(** ** Garbage collection *)

Section GarbageCollection.
Context {F : Type} {ops : FpOps F} {params : Params F}.

Let noF : failure -> Prop := fun _ => False.

Lemma count_up_range a n x : x ∈ count_up a n -> a <= x < a + Z.of_nat n.
Proof.
  revert a. induction n as [|n IH]; intros a; cbn [count_up].
  - intros H. inversion H.
  - intros [->|H]%elem_of_cons; [lia|]. apply IH in H. lia.
Qed.

Lemma count_from_range a n x : x ∈ count_from a n -> a <= x < a + Z.max 0 n.
Proof. unfold count_from. intros H%count_up_range. lia. Qed.

(** *** The unique tables *)

Import UniqueTable.

Definition same_arena (s s' : UniqueTable.t) : Prop :=
  heap s' = heap s /\ chunks s' = chunks s /\ nvars s' = nvars s.

Lemma same_arena_refl s : same_arena s s.
Proof. repeat split. Qed.

Lemma same_arena_trans s1 s2 s3 : same_arena s1 s2 -> same_arena s2 s3 -> same_arena s1 s3.
Proof. unfold same_arena. intros (?&?&?) (?&?&?). repeat split; congruence. Qed.

Lemma node_at_same_arena k s s' ptr : same_arena s s' -> node_at k s' ptr = node_at k s ptr.
Proof.
  intros (Hh & Hc & _). destruct ptr; cbn; try reflexivity.
  unfold allocated. rewrite Hh, Hc. reflexivity.
Qed.

Lemma collectable_same_arena k s s' q :
  same_arena s s' -> Inv.collectable k s' q = Inv.collectable k s q.
Proof. intros H. unfold Inv.collectable. rewrite (node_at_same_arena _ _ _ _ H). reflexivity. Qed.

Lemma UT_node_spec k ptr (s : UniqueTable.t) :
  wp (node k ptr) s (fun n s' => s' = s /\ node_at k s ptr = Some n)
    (fun _ => node_at k s ptr = None).
Proof. unfold node. wp_steps; auto. Qed.

Lemma UT_collect_chain_total k chain s :
  Forall (fun q => Inv.collectable k s q = true) chain ->
  wp (collect_chain k chain) s
    (fun r s' => same_arena s s' /\ tables s' = tables s /\
                 Forall (fun q => Inv.collectable k s q = true) (fst r))
    noF.
Proof.
  revert s. induction chain as [|q rest IH]; intros s Hall; cbn [collect_chain].
  - wp_steps. split; [apply same_arena_refl|]. split; [reflexivity | constructor].
  - inversion Hall as [|? ? Hq Hrest]; subst.
    unfold Inv.collectable in Hq.
    wp_use UT_node_spec.
    2:{ intros f Hn. rewrite Hn in Hq. discriminate. }
    intros n s' [Hs Hn]; subst s'. rewrite Hn in Hq.
    destruct (ref n =? 0) eqn:Href.
    + destruct (v n =? -1) eqn:Hv; [discriminate|].
      wp_steps. unfold returnNode. wp_steps.
      wp_use IH; [exact Hrest | | auto].
      intros r s' (Hs & Ht & Hr). wp_steps. cbn. split; [exact Hs|].
      split; [exact Ht | exact Hr].
    + wp_use IH; [exact Hrest | | auto].
      intros r s' (Hs & Ht & Hr). wp_steps. cbn. split; [exact Hs|].
      split; [exact Ht|]. constructor; [|exact Hr].
      unfold Inv.collectable. rewrite Hn, Href. reflexivity.
Qed.

Lemma UT_bucket_spec lvl key (s : UniqueTable.t) :
  0 <= lvl < nvars s ->
  wp (bucket lvl key) s
    (fun chain s' => s' = s /\ chain = default [] (tables s !! (lvl, key))) noF.
Proof.
  intros Hl. unfold bucket. wp_steps.
  destruct (Z.leb_spec 0 lvl); [|lia]. destruct (Z.ltb_spec lvl (nvars s)); [|lia].
  cbn. wp_steps. auto.
Qed.

Lemma ut_safe_chain k s lk : 
  Inv.ut_safe k s ->
  Forall (fun q => Inv.collectable k s q = true) (default [] (tables s !! lk)).
Proof.
  intros Hs. destruct (tables s !! lk) as [chain|] eqn:Hc; cbn; [|constructor].
  exact (Hs _ _ Hc).
Qed.

Lemma ut_safe_set_bucket k s lvl key chain :
  Inv.ut_safe k s ->
  Forall (fun q => Inv.collectable k s q = true) chain ->
  wp (set_bucket lvl key chain) s
    (fun _ s' => same_arena s s' /\ Inv.ut_safe k s') noF.
Proof.
  intros Hs Hc. unfold set_bucket. wp_steps. split; [repeat split|].
  unfold Inv.ut_safe. cbn.
  assert (Hsame : forall q, Inv.collectable k (set_tables
            (fun tb => match chain with [] => delete (lvl, key) tb
                       | _ :: _ => <[(lvl, key):=chain]> tb end) s) q
          = Inv.collectable k s q).
  { intros q. apply collectable_same_arena. repeat split. }
  eapply map_Forall_impl with (P := fun _ ch => Forall (fun q => Inv.collectable k s q = true) ch).
  - destruct chain as [|q0 chain'].
    + apply map_Forall_delete. exact Hs.
    + apply map_Forall_insert_2; [exact Hc | exact Hs].
  - intros kk ch Hch. eapply Forall_impl; [exact Hch|].
    intros q Hq. cbn beta. rewrite Hsame. exact Hq.
Qed.

Lemma ut_safe_same k s s' :
  same_arena s s' -> tables s' = tables s -> Inv.ut_safe k s -> Inv.ut_safe k s'.
Proof.
  intros Ha Ht Hs. unfold Inv.ut_safe. rewrite Ht.
  eapply map_Forall_impl; [exact Hs|].
  intros kk ch Hch. eapply Forall_impl; [exact Hch|].
  intros q Hq. cbn beta. rewrite (collectable_same_arena _ _ _ _ Ha). exact Hq.
Qed.

Lemma UT_collect_buckets_total k keys s :
  Inv.ut_safe k s ->
  Forall (fun lk : Z * Z => 0 <= fst lk < nvars s) keys ->
  wp (collect_buckets k keys) s
    (fun _ s' => same_arena s s' /\ Inv.ut_safe k s') noF.
Proof.
  revert s. induction keys as [|[lvl key] keys IH]; intros s Hs Hk; cbn [collect_buckets].
  - wp_steps. split; [apply same_arena_refl | exact Hs].
  - inversion Hk as [|? ? Hl Hrest]; subst. cbn in Hl.
    wp_use UT_bucket_spec; [exact Hl | | auto].
    intros chain s1 [Hs1 Hc]; subst s1 chain.
    wp_use UT_collect_chain_total; [apply ut_safe_chain; exact Hs | | auto].
    intros r s1 (Ha1 & Ht1 & Hr).
    assert (Hs1 : Inv.ut_safe k s1) by (eapply ut_safe_same; eauto).
    wp_use (ut_safe_set_bucket k s1 lvl key (fst r)); [exact Hs1 | | | auto].
    { eapply Forall_impl; [exact Hr|]. intros q Hq. cbn beta.
      rewrite (collectable_same_arena _ _ _ _ Ha1). exact Hq. }
    intros _ s2 (Ha2 & Hs2).
    wp_use IH; [exact Hs2 | | | auto].
    { eapply Forall_impl; [exact Hrest|]. intros lk Hlk. cbn beta.
      destruct Ha1 as (_ & _ & Hn1). destruct Ha2 as (_ & _ & Hn2). rewrite Hn2, Hn1. exact Hlk. }
    intros cr s3 (Ha3 & Hs3). wp_steps. split; [|exact Hs3].
    eapply same_arena_trans; [|exact Ha3]. eapply same_arena_trans; eassumption.
Qed.

Lemma all_buckets_range nv :
  Forall (fun lk : Z * Z => 0 <= fst lk < nv) (all_buckets nv).
Proof.
  apply Forall_forall. intros [lvl key] Hin. unfold all_buckets in Hin.
  apply list_elem_of_bind in Hin as (l & Hin & Hl).
  apply list_elem_of_fmap in Hin as (key' & [= -> ->] & _).
  apply count_from_range in Hl. cbn. lia.
Qed.

Lemma UT_garbageCollect_total k force s :
  Inv.ut_safe k s ->
  wp (garbageCollect k force) s (fun _ s' => True) noF.
Proof.
  intros Hs. unfold garbageCollect. wp_steps.
  destruct (negb force && _); wp_steps; [exact I|].
  wp_use UT_collect_buckets_total; [ | | | auto].
  - eapply ut_safe_same; [| |exact Hs]; repeat split.
  - apply all_buckets_range.
  - intros cr s' _. wp_steps. exact I.
Qed.

(** *** The pool *)

Definition same_chunks (s s' : ComplexTable.t (F:=F)) : Prop :=
  ComplexTable.mem s' = ComplexTable.mem s /\ ComplexTable.chunks s' = ComplexTable.chunks s.

Lemma entry_at_same_chunks s s' q :
  same_chunks s s' -> ComplexTable.entry_at s' q = ComplexTable.entry_at s q.
Proof.
  intros [Hm Hc]. destruct q; cbn; try reflexivity.
  unfold ComplexTable.chunk_valid. rewrite Hm, Hc. reflexivity.
Qed.

Lemma CT_read_total q (s : ComplexTable.t (F:=F)) :
  is_Some (ComplexTable.entry_at s q) ->
  wp (ComplexTable.read q) s (fun _ s' => s' = s) noF.
Proof.
  intros [en Hen]. unfold ComplexTable.read. wp_steps; [reflexivity|]. congruence.
Qed.

Lemma CT_collect_chain_total chain (s : ComplexTable.t (F:=F)) :
  Forall (fun q => is_Some (ComplexTable.entry_at s q)) chain ->
  wp (ComplexTable.collect_chain chain) s
    (fun r s' => same_chunks s s' /\ ComplexTable.table s' = ComplexTable.table s /\
                 Forall (fun q => is_Some (ComplexTable.entry_at s q)) (fst r))
    noF.
Proof.
  revert s. induction chain as [|q rest IH]; intros s Hall; cbn [ComplexTable.collect_chain].
  - wp_steps. repeat split. constructor.
  - inversion Hall as [|? ? Hq Hrest]; subst.
    wp_use CT_read_total; [exact Hq | | auto].
    intros en s' Hs; subst s'.
    destruct (ComplexTable.refCount en =? 0).
    + unfold ComplexTable.returnEntry. wp_steps.
      wp_use IH; [exact Hrest | | auto].
      intros r s' (Hs & Ht & Hr). wp_steps. cbn. auto.
    + wp_use IH; [exact Hrest | | auto].
      intros r s' (Hs & Ht & Hr). wp_steps. cbn. split; [exact Hs|].
      split; [exact Ht|]. constructor; assumption.
Qed.

Lemma pool_safe_same (s s' : ComplexTable.t (F:=F)) :
  same_chunks s s' -> 
  map_Forall (fun _ chain => Forall (fun q => is_Some (ComplexTable.entry_at s q)) chain)
    (ComplexTable.table s') ->
  Inv.pool_safe s'.
Proof.
  intros Ha Hs. unfold Inv.pool_safe.
  eapply map_Forall_impl; [exact Hs|].
  intros kk ch Hch. eapply Forall_impl; [exact Hch|].
  intros q Hq. cbn beta. rewrite (entry_at_same_chunks _ _ _ Ha). exact Hq.
Qed.

Lemma CT_collect_buckets_total keys (s : ComplexTable.t (F:=F)) :
  Inv.pool_safe s ->
  wp (ComplexTable.collect_buckets keys) s (fun _ s' => True) noF.
Proof.
  revert s. induction keys as [|key keys IH]; intros s Hs; cbn [ComplexTable.collect_buckets].
  - wp_steps. exact I.
  - wp_steps.
    assert (Hc : Forall (fun q => is_Some (ComplexTable.entry_at s q)) (ComplexTable.bucket s key)).
    { unfold ComplexTable.bucket.
      destruct (ComplexTable.table s !! key) as [chain|] eqn:Hc; cbn; [|constructor].
      exact (Hs _ _ Hc). }
    wp_use CT_collect_chain_total; [exact Hc | | auto].
    intros r s1 (Ha1 & Ht1 & Hr). wp_steps.
    wp_use IH; [ | | auto].
    + eapply pool_safe_same.
      * destruct Ha1 as [Hm Hch]. split; [exact Hm | exact Hch].
      * cbn. rewrite Ht1. destruct (fst r) as [|q0 l0] eqn:Hfst.
        -- apply map_Forall_delete. exact Hs.
        -- apply map_Forall_insert_2; [exact Hr | exact Hs].
    + intros cr s2 _. wp_steps. exact I.
Qed.

Lemma CT_garbageCollect_total force (s : ComplexTable.t (F:=F)) :
  Inv.pool_safe s ->
  wp (ComplexTable.garbageCollect force) s (fun _ s' => True) noF.
Proof.
  intros Hs. unfold ComplexTable.garbageCollect. wp_steps.
  destruct (_ || _); wp_steps; [exact I|].
  wp_use CT_collect_buckets_total; [ | | auto].
  - eapply pool_safe_same; [|exact Hs]. repeat split.
  - intros cr s' _. wp_steps. exact I.
Qed.

(** *** The package *)

Lemma clearComputeTables_spec (s : Package.t (F:=F)) :
  Inv.toffoli_counted (Package.toffoliTable s) ->
  wp Package.clearComputeTables s
    (fun _ s' => Inv.compute_tables_clear s' /\ Inv.identity_table_clear s' /\
                 Package.cn s' = Package.cn s /\
                 Package.vUniqueTable s' = Package.vUniqueTable s /\
                 Package.mUniqueTable s' = Package.mUniqueTable s /\
                 length (Package.IdTable s') = length (Package.IdTable s))
    noF.
Proof.
  intros Ht. unfold Package.clearComputeTables, Package.clearIdentityTable. wp_steps.
  split; [|split].
  - unfold Inv.compute_tables_clear. cbn. repeat (split; [reflexivity|]).
    split; [|reflexivity].
    unfold ToffoliTable.clear. cbn.
    destruct (Z.ltb_spec 0 (ToffoliTable.count (Package.toffoliTable s))) as [Hc|Hc].
    + apply map_Forall_fmap. intros kk entry _. reflexivity.
    + apply Ht. exact Hc.
  - unfold Inv.identity_table_clear. cbn. apply Forall_fmap, Forall_forall.
    intros entry _. reflexivity.
  - cbn. repeat split. apply length_fmap.
Qed.

Lemma garbageCollect_spec force (s : Package.t (F:=F)) :
  Inv.gc_safe s ->
  wp (Package.garbageCollect force) s
    (fun _ s' => Inv.compute_tables_clear s' /\ Inv.identity_table_clear s' /\
                 length (Package.IdTable s') = length (Package.IdTable s))
    noF.
Proof.
  intros (Hv & Hm & Hp & Ht). unfold Package.garbageCollect, Package.in_ut, Package.in_cn.
  apply wp_bind, wp_zoom. wp_use (UT_garbageCollect_total Vec); [exact Hv | | auto].
  intros _ tv _.
  apply wp_bind, wp_zoom. wp_use (UT_garbageCollect_total Mat); [exact Hm | | auto].
  intros _ tm _.
  apply wp_bind, wp_zoom. unfold CN.garbageCollect, CN.in_pool. apply wp_zoom.
  wp_use CT_garbageCollect_total; [exact Hp | | auto].
  intros _ tp _.
  wp_use clearComputeTables_spec; [exact Ht | | auto].
  intros _ s' (Hc & Hi & _ & _ & _ & Hl). auto.
Qed.

(** C6.  A call of [garbageCollect], forced or not, on a package whose
    tables can be walked ([gc_safe]) returns, and when it returns every
    compute table is clear: vector and matrix addition, transpose and
    conjugate transpose, both multiplications, inner product, both Kronecker
    products, the Toffoli table and the table of noise operations.  This does
    not depend on whether a node was collected. *)
Theorem C6_garbageCollect_clears_compute_tables (force : bool) (s : Package.t (F:=F)) :
  Inv.gc_safe s ->
  exists s', Package.garbageCollect force s = Ok tt s' /\ Inv.compute_tables_clear s'.
Proof.
  intros Hs. destruct (wp_total _ _ _ (garbageCollect_spec force s Hs)) as ([] & s' & Hrun & Hc & _).
  eauto.
Qed.



End GarbageCollection.

Section GarbageCollectionRun.
Import Scenario.

Lemma busy_package_gc_safe : Inv.gc_safe busy_package.
Proof.
  unfold Inv.gc_safe, Inv.ut_safe, Inv.pool_safe, Inv.toffoli_counted.
  split; [|split; [|split]].
  - by_compute.
  - by_compute.
  - by_compute.
  - intros _. by_compute.
Defined.

Lemma C6_garbageCollect_clears_compute_tables_witness :
  Inv.gc_safe busy_package /\
  Package.matrixVectorMultiplication busy_package <> ∅ /\
  exists s', Package.garbageCollect false busy_package = Ok tt s' /\
             Inv.compute_tables_clear s'.
Proof.
  split; [exact busy_package_gc_safe|]. split.
  - intros H. apply (f_equal size) in H. vm_compute in H. discriminate H.
  - exact (C6_garbageCollect_clears_compute_tables false busy_package busy_package_gc_safe).
Defined.


End GarbageCollectionRun.

(** ** Inner product and fidelity *)

Section LaneCN.
Context {F : Type} {ops : FpOps F}.
Import CN IP.

Lemma same_lane_refl (c : CN.t (F:=F)) : same_lane c c.
Proof. repeat split. Qed.

















End LaneCN.

Section LanePackage.
Context {F : Type} {ops : FpOps F} {params : Params F}.
Import Package IP.




Lemma lane_only_refl (s : t (F:=F)) : lane_only s s.
Proof. split; [apply same_lane_refl|reflexivity]. Qed.






















End LanePackage.

Section FidelityRun.
Import Package IP Scenario.
Open Scope Q_scope.










End FidelityRun.

(** ** What the operators leave alone

    [framed R m]: whenever [m] returns, the state it leaves is related by
    [R] to the state it started in.  For a reflexive and transitive [R] that
    the elementary steps respect, the builders and operators do. *)

Lemma ct_insert_Forall {K1 K2 R} (P : K1 * K2 * R -> Prop) slot (x1 : K1) (x2 : K2)
    (res : R) (tb : gmap Z (K1 * K2 * R)) :
  P (x1, x2, res) -> map_Forall (fun _ => P) tb ->
  map_Forall (fun _ => P) (ComputeTable.insert slot x1 x2 res tb).
Proof.
  intros H1 H2. unfold ComputeTable.insert, ComputeTable.t.
  apply map_Forall_insert_2; assumption.
Qed.

Section Framed.
Context {F : Type} {ops : FpOps F} {params : Params F}.
Import Package.
Set Default Proof Using "All".

Variable R : Package.t (F:=F) -> Package.t (F:=F) -> Prop.
Hypothesis R_refl : forall s, R s s.
Hypothesis R_trans : forall s1 s2 s3, R s1 s2 -> R s2 s3 -> R s1 s3.
Hypothesis R_cn : forall s c, R s (set_cn (fun _ => c) s).
Hypothesis R_ut : forall k u s, R s (set_uniqueTable k u s).

Local Abbreviation framed := (WF.framed R).

Lemma framed_ret {A} (a : A) : framed (ret a).
Proof. intros s. apply wp_ret, R_refl. Qed.

Lemma framed_fail {A} f : framed (fail f : P A).
Proof. intros s. exact I. Qed.

Lemma framed_get : framed get.
Proof. intros s. apply wp_get, R_refl. Qed.

Lemma framed_assert a b : framed (assert a b).
Proof. intros s. destruct b; [apply R_refl | exact I]. Qed.

Lemma framed_deref {A} (o : option A) : framed (deref o).
Proof. intros s. destruct o; [apply R_refl | exact I]. Qed.

Lemma framed_bind {A B} (m : P A) (k : A -> P B) :
  framed m -> (forall a, framed (k a)) -> framed (bind m k).
Proof.
  intros Hm Hk s. apply wp_bind. eapply wp_mono; [apply Hm | cbv beta | auto].
  intros a s1 H1. eapply wp_mono; [apply Hk | cbv beta | auto].
  intros b s2 H2. eapply R_trans; eauto.
Qed.

Lemma framed_when b (m : P unit) : framed m -> framed (when b m).
Proof. intros Hm. destruct b; [exact Hm | apply framed_ret]. Qed.

Lemma framed_in_cn {A} (m : M CN.t A) : framed (in_cn m).
Proof.
  intros s. unfold in_cn. apply wp_zoom. unfold wp.
  destruct (m (cn s)); [apply R_cn | exact I].
Qed.

Lemma framed_in_ut {A} k (m : M UniqueTable.t A) : framed (in_ut k m).
Proof.
  intros s. unfold in_ut. apply wp_zoom. unfold wp.
  destruct (m (uniqueTable k s)); [apply R_ut | exact I].
Qed.

Lemma framed_for_each (l : list nat) (body : nat -> P unit) :
  (forall j, framed (body j)) -> framed (for_each l body).
Proof.
  intros Hb. induction l as [|j l IH]; cbn [for_each]; [apply framed_ret|].
  apply framed_bind; auto.
Qed.

Lemma framed_fold_each {A} (l : list nat) (body : A -> nat -> P A) (a : A) :
  (forall a j, framed (body a j)) -> framed (fold_each l body a).
Proof.
  intros Hb. revert a. induction l as [|j l IH]; intros a; cbn [fold_each];
    [apply framed_ret|].
  apply framed_bind; auto.
Qed.

Lemma framed_map_each {A B} (l : list A) (body : A -> P B) :
  (forall x, framed (body x)) -> framed (map_each l body).
Proof.
  intros Hb. induction l as [|j l IH]; cbn [map_each]; [apply framed_ret|].
  apply framed_bind; [auto|]. intros y. apply framed_bind; [auto|].
  intros ys. apply framed_ret.
Qed.

Lemma framed_modify (f : Package.t -> Package.t) :
  (forall s, R s (f s)) -> framed (modify f).
Proof. intros H s. apply wp_modify, H. Qed.

Ltac framed_step :=
  lazymatch goal with
  | |- framed (bind _ _) => apply framed_bind; [|intros ?]
  | |- framed (ret _) => apply framed_ret
  | |- framed (fail _) => apply framed_fail
  | |- framed get => apply framed_get
  | |- framed (assert _ _) => apply framed_assert
  | |- framed (deref _) => apply framed_deref
  | |- framed (when _ _) => apply framed_when
  | |- framed (in_cn _) => apply framed_in_cn
  | |- framed (in_ut _ _) => apply framed_in_ut
  | |- framed (modify _) => apply framed_modify; intros ?; auto
  | |- framed (for_each _ _) => apply framed_for_each; intros ?
  | |- framed (fold_each _ _ _) => apply framed_fold_each; intros ? ?
  | |- framed (map_each _ _) => apply framed_map_each; intros ?
  | |- framed (if ?b then _ else _) => destruct b
  | |- framed (match ?x with _ => _ end) => destruct x
  | |- framed _ =>
      progress unfold node, edge_at, set_edge, set_weight, returnNode, cachedEdge, at_level,
        set_flags, assert_children, assert_level, vpivot, mpivot, idTable, set_idTable,
        rescale, scaled, fields_of, zero_case, times_weight, cacheCount_
  end.
Ltac framed_auto := repeat (first [solve [auto 2] | framed_step]).

Lemma normalize_framed k ed cached : framed (normalize k ed cached).
Proof. destruct k; unfold normalize, normalizeV, normalizeM; framed_auto. Qed.

Lemma checkSpecialMatrices_framed tr ptr :
  (forall x, framed (tr x)) -> framed (checkSpecialMatrices tr ptr).
Proof. intros Htr. unfold checkSpecialMatrices. framed_auto. Qed.

Lemma makeDDNode_with_framed tr k var edges cached :
  (forall x, framed (tr x)) -> framed (makeDDNode_with tr k var edges cached).
Proof.
  intros Htr. pose proof normalize_framed. pose proof (checkSpecialMatrices_framed tr).
  unfold makeDDNode_with. framed_auto.
Qed.

Hypothesis R_transpose : forall f s, R s (set_matrixTranspose f s).

Lemma transpose_framed fuel x : framed (transpose fuel x).
Proof.
  revert x. induction fuel as [|fuel IH]; intros x; cbn [transpose]; [apply framed_fail|].
  pose proof (makeDDNode_with_framed (transpose fuel)). framed_auto.
Qed.

Lemma makeDDNode_framed fuel k var edges cached : framed (makeDDNode fuel k var edges cached).
Proof. apply makeDDNode_with_framed, transpose_framed. Qed.

Hypothesis R_add : forall k f s, R s (set_addTable k f s).

Lemma add2_framed fuel k x y : framed (add2 fuel k x y).
Proof.
  revert x y. induction fuel as [|fuel IH]; intros x y; cbn [add2]; [apply framed_fail|].
  pose proof (makeDDNode_framed fuel). framed_auto.
Qed.

Lemma add_framed fuel k x y : framed (add fuel k x y).
Proof. pose proof (add2_framed fuel k). unfold add. framed_auto. Qed.

Hypothesis R_IdTable : forall f s, R s (set_IdTable f s).

Lemma makeIdent_framed fuel l m : framed (makeIdent fuel l m).
Proof.
  pose proof (makeDDNode_framed fuel). unfold makeIdent, buildIdent. framed_auto.
Qed.

Hypothesis R_mul : forall k (x y : Edge) ke s,
  R s (set_mulTable k (ComputeTable.insertEE (mkEdge (p x) CN.ONE) (mkEdge (p y) CN.ONE) ke) s).

Lemma multiply2_framed fuel k x y var : framed (multiply2 fuel k x y var).
Proof.
  revert x y var. induction fuel as [|fuel IH]; intros x y var; cbn [multiply2];
    [apply framed_fail|].
  pose proof (makeDDNode_framed fuel). pose proof (add2_framed fuel).
  pose proof (makeIdent_framed fuel). unfold makeIdentUpTo. framed_auto.
Qed.

Lemma multiply_framed fuel k x y : framed (multiply fuel k x y).
Proof. pose proof (multiply2_framed fuel k). unfold multiply. framed_auto. Qed.

Hypothesis R_ip : forall (x y : Edge) ke s,
  R s (set_vectorInnerProduct
         (ComputeTable.insertEE (mkEdge (p x) CN.ONE) (mkEdge (p y) CN.ONE) ke) s).

Lemma innerProduct3_framed fuel x y var : framed (innerProduct3 fuel x y var).
Proof.
  revert x y var. induction fuel as [|fuel IH]; intros x y var; cbn [innerProduct3];
    [apply framed_fail|].
  framed_auto.
Qed.

End Framed.
Set Default Proof Using "Type".

(** ** The keys of the compute tables *)

Section StrippedKeys.
Context {F : Type} {ops : FpOps F} {params : Params F}.
Import Package WF.

Lemma stripped_insert {R} (x y : Edge) (res : R) slot (tb : gmap Z (Edge * Edge * R)) :
  stripped tb -> stripped (ComputeTable.insert slot (strip x) (strip y) res tb).
Proof.
  intros H. unfold stripped.
  apply (ct_insert_Forall
           (fun ent => w (fst (fst ent)) = CN.ONE /\ w (snd (fst ent)) = CN.ONE));
    [split; reflexivity | exact H].
Qed.

(** The operators keep the keys of the tables of the products stripped. *)
Definition keeps_stripped (s s' : Package.t (F:=F)) : Prop :=
  stripped_products s -> stripped_products s'.

Lemma keeps_stripped_mul k (a b : Edge) ke s :
  keeps_stripped s (set_mulTable k (ComputeTable.insertEE (strip a) (strip b) ke) s).
Proof.
  intros (Hmm & Hmv & Hip). destruct k; cbn.
  - split; [exact Hmm|]. split; [|exact Hip]. apply (stripped_insert a b), Hmv.
  - split; [|split; assumption]. apply (stripped_insert a b), Hmm.
Qed.

Lemma keeps_stripped_ip (a b : Edge) ke s :
  keeps_stripped s
    (set_vectorInnerProduct (ComputeTable.insertEE (strip a) (strip b) ke) s).
Proof.
  intros (Hmm & Hmv & Hip). cbn. split; [exact Hmm|]. split; [exact Hmv|].
  apply (stripped_insert a b), Hip.
Qed.

Lemma multiply2_stripped fuel k x y var : framed keeps_stripped (multiply2 fuel k x y var).
Proof.
  apply multiply2_framed.
  - intros s H. exact H.
  - intros s1 s2 s3 H12 H23 H. exact (H23 (H12 H)).
  - intros s c H. exact H.
  - intros k0 u s H. destruct k0; exact H.
  - intros f s H. exact H.
  - intros k0 f s H. destruct k0; exact H.
  - intros f s H. exact H.
  - intros k0 a b ke s. apply keeps_stripped_mul.
Qed.

Lemma innerProduct3_stripped fuel x y var :
  framed keeps_stripped (innerProduct3 fuel x y var).
Proof.
  apply innerProduct3_framed.
  - intros s H. exact H.
  - intros s1 s2 s3 H12 H23 H. exact (H23 (H12 H)).
  - intros s c H. exact H.
  - intros k0 u s H. destruct k0; exact H.
  - intros f s H. exact H.
  - intros k0 f s H. destruct k0; exact H.
  - intros f s H. exact H.
  - intros k0 a b ke s. apply keeps_stripped_mul.
  - intros a b ke s. apply keeps_stripped_ip.
Qed.

(** A hit of [multiply2]: the entry for the stripped operands decides. *)
Lemma multiply2_hit fuel k x y var s :
  p x <> nullptr -> p y <> nullptr ->
  CN.ceq (w x) CN.ZERO = false -> CN.ceq (w y) CN.ZERO = false -> var <> -1 ->
  fst (ComputeTable.lookupEE (strip x) (strip y) (mulTable k s)) <> nullptr ->
  multiply2 (S fuel) k x y var s =
  mul_hit (ComputeTable.lookupEE (strip x) (strip y) (mulTable k s)) x y s.
Proof.
  intros Hx Hy Hwx Hwy Hvar Hhit. cbn [multiply2].
  rewrite (bool_decide_eq_false_2 _ Hx), (bool_decide_eq_false_2 _ Hy), Hwx, Hwy.
  cbn [orb]. destruct (Z.eqb_spec var (-1)) as [|_]; [contradiction|].
  unfold bind at 1. unfold get. fold (strip x) (strip y).
  rewrite (bool_decide_eq_false_2 _ Hhit). reflexivity.
Qed.

(** A hit of [innerProduct]. *)
Lemma innerProduct3_hit fuel x y var s s1 :
  zero_case x y s = Ok false s1 -> var <> 0 ->
  fst (ComputeTable.lookupEE (strip x) (strip y) (vectorInnerProduct s1)) <> nullptr ->
  innerProduct3 (S fuel) x y var s =
  ip_hit (ComputeTable.lookupEE (strip x) (strip y) (vectorInnerProduct s1)) x y s1.
Proof.
  intros Hz Hvar Hhit. cbn [innerProduct3]. unfold bind at 1. rewrite Hz.
  destruct (Z.eqb_spec var 0) as [|_]; [contradiction|].
  unfold bind at 1. unfold get. fold (strip x) (strip y).
  rewrite (bool_decide_eq_false_2 _ Hhit). reflexivity.
Qed.

(** C5, as amended.  The tables of the products (matrix times matrix,
    matrix times vector, inner product) are written and read with both
    operand weights rewritten to ONE: [multiply2] and [innerProduct] keep
    every key of these tables stripped, and when the table holds an entry for
    the stripped operands, that entry and the weights of the operands decide
    the result, whatever the weights are. *)
Theorem C5_products_use_stripped_operands
    (fuel : nat) (k : Kind) (x y : Edge) (var : Z) (s : Package.t (F:=F)) :
  stripped_products s ->
  wp (multiply2 fuel k x y var) s (fun _ s' => stripped_products s') anyF /\
  wp (innerProduct3 fuel x y var) s (fun _ s' => stripped_products s') anyF /\
  (forall wx wy, CN.ceq wx CN.ZERO = false -> CN.ceq wy CN.ZERO = false ->
     p x <> nullptr -> p y <> nullptr -> var <> -1 ->
     fst (ComputeTable.lookupEE (strip x) (strip y) (mulTable k s)) <> nullptr ->
     multiply2 (S fuel) k (mkEdge (p x) wx) (mkEdge (p y) wy) var s =
     mul_hit (ComputeTable.lookupEE (strip x) (strip y) (mulTable k s))
       (mkEdge (p x) wx) (mkEdge (p y) wy) s) /\
  (forall wx wy s1, zero_case (mkEdge (p x) wx) (mkEdge (p y) wy) s = Ok false s1 ->
     var <> 0 ->
     fst (ComputeTable.lookupEE (strip x) (strip y) (vectorInnerProduct s1)) <> nullptr ->
     innerProduct3 (S fuel) (mkEdge (p x) wx) (mkEdge (p y) wy) var s =
     ip_hit (ComputeTable.lookupEE (strip x) (strip y) (vectorInnerProduct s1))
       (mkEdge (p x) wx) (mkEdge (p y) wy) s1).
Proof.
  intros Hs. split; [|split; [|split]].
  - eapply wp_mono; [apply multiply2_stripped | cbv beta | auto].
    intros _ s' H. exact (H Hs).
  - eapply wp_mono; [apply innerProduct3_stripped | cbv beta | auto].
    intros _ s' H. exact (H Hs).
  - intros wx wy Hwx Hwy Hx Hy Hvar Hhit.
    apply (multiply2_hit fuel k (mkEdge (p x) wx) (mkEdge (p y) wy)); assumption.
  - intros wx wy s1 Hz Hvar Hhit.
    apply (innerProduct3_hit fuel (mkEdge (p x) wx) (mkEdge (p y) wy)); assumption.
Qed.

End StrippedKeys.

Section StrippedKeysRun.
Import Package WF Scenario.

(** C5, counterexample.  After [add(d, o)] and [kronecker(d, o)], where [d]
    is [|0> + |0>] (the node of [|0>] with the weight 2), the addition table
    holds an entry whose first operand carries the value 2 and the Kronecker
    table an entry whose first operand carries a weight other than ONE. *)
Lemma C5_counterexample :
  (exists ent, vectorAdd scaled_package !! 4127 = Some ent /\
               fst (fst ent) = (nodeP 0, CN.mkCV (2 # 1) (0 # 1))) /\
  (exists ent, vectorKronecker scaled_package !! 4127 = Some ent /\
               p (fst (fst ent)) = nodeP 0 /\ w (fst (fst ent)) <> CN.ONE).
Proof.
  split.
  - eexists. split; [vm_compute; reflexivity | reflexivity].
  - eexists. split; [vm_compute; reflexivity|]. split; [reflexivity|]. cbn. discriminate.
Qed.

Lemma stripped_by_list {R} (tb : gmap Z (Edge * Edge * R)) :
  forallb (fun ent => CN.ceq (w (fst (fst (snd ent)))) CN.ONE &&
                      CN.ceq (w (snd (fst (snd ent)))) CN.ONE) (map_to_list tb) = true ->
  stripped tb.
Proof.
  intros H. rewrite forallb_forall in H. intros slot ent Hent.
  apply (elem_of_map_to_list (M:=gmap Z)) in Hent. apply list_elem_of_In, H in Hent.
  apply andb_prop in Hent as [H1 H2]. unfold CN.ceq in *.
  split; eapply bool_decide_eq_true_1; eassumption.
Qed.

Lemma products_package_stripped : stripped_products products_package.
Proof.
  split; [|split]; apply stripped_by_list; vm_compute; reflexivity.
Qed.

Lemma C5_products_use_stripped_operands_witness :
  let m := mkEdge (nodeP 0) CN.ONE in
  stripped_products products_package /\
  fst (ComputeTable.lookupEE (strip m) (strip m) (mulTable Vec products_package)) <> nullptr /\
  wp (multiply2 3 Vec m m 0) products_package (fun _ s' => stripped_products s') anyF /\
  multiply2 3 Vec m m 0 products_package =
    mul_hit (ComputeTable.lookupEE (strip m) (strip m) (mulTable Vec products_package))
      m m products_package.
Proof.
  intros m.
  pose proof (C5_products_use_stripped_operands 3 Vec m m 0 products_package
                products_package_stripped) as (H1 & _ & _ & _).
  pose proof (C5_products_use_stripped_operands 2 Vec m m 0 products_package
                products_package_stripped) as (_ & _ & H3 & _).
  assert (Hhit : fst (ComputeTable.lookupEE (strip m) (strip m)
                        (mulTable Vec products_package)) <> nullptr).
  { vm_compute. discriminate. }
  split; [exact products_package_stripped|]. split; [exact Hhit|]. split; [exact H1|].
  apply (H3 CN.ONE CN.ONE);
    [reflexivity | reflexivity | discriminate | discriminate | lia | exact Hhit].
Defined.

End StrippedKeysRun.

(** ** Facts about the weights and the cache lane *)

Section PoolDiscipline.
Context {F : Type} {ops : FpOps F}.
Import ComplexTable WF.

Ltac ct_simpl :=
  cbn [table mem set_table set_mem set_available set_count set_peakCount
       set_collisions set_hits set_lookups set_probes] in *.

Lemma pool_le_refl (pl : t (F:=F)) : pool_le pl pl.
Proof. intros q Hq. exact Hq. Qed.

Lemma pool_le_trans (a b c : t (F:=F)) : pool_le a b -> pool_le b c -> pool_le a c.
Proof. intros H1 H2 q Hq. auto. Qed.

Lemma CT_write_spec (q : EntryPtr) (en : Entry (F:=F)) s :
  wp (write q en) s
    (fun _ s' => exists c j, q = chunkE c j /\ s' = set_mem (<[(c, j) := en]>) s)
    tolerated.
Proof.
  unfold write. destruct q as [| |c j]; try exact I. wp_steps.
  destruct (chunk_valid _ _ _); wp_steps. eauto.
Qed.

Lemma CT_hash_ok (val : F) (s : t (F:=F)) :
  wp (hash val) s (fun k s' => k = hash_key val /\ s' = s) tolerated.
Proof. unfold hash. wp_steps. auto. Qed.

Lemma CT_read_same (q : EntryPtr) (s : t (F:=F)) :
  wp (read q) s (fun _ s' => s' = s) tolerated.
Proof. unfold read. wp_steps. auto. Qed.

Lemma CT_find_chain_ok chain (val : F) s :
  wp (find_chain chain val) s
    (fun r s' => mem s' = mem s /\ table s' = table s /\
                 forall q, r = Some q -> q ∈ chain)
    tolerated.
Proof.
  revert s. induction chain as [|q rest IH]; intros s; cbn [find_chain].
  - wp_steps. repeat split; intros; discriminate.
  - wp_use CT_read_same; [|auto]. intros en s' Hs. subst s'.
    destruct (fltb _ _); wp_steps.
    + repeat split. intros q' [= <-]. left.
    + wp_use IH; [|auto]. cbn. intros r s' (Hm & Ht & Hr).
      repeat split; auto. intros q' Hq'. right. auto.
Qed.

Lemma CT_find_ok key (val : F) s :
  pool_ok s ->
  wp (find key val) s
    (fun r s' => mem s' = mem s /\ table s' = table s /\
                 forall q, r = Some q -> written s q)
    tolerated.
Proof.
  intros [_ Hch]. unfold find. wp_steps.
  wp_use CT_find_chain_ok; [|auto]. cbn. intros r s' (Hm & Ht & Hr).
  repeat split; auto. intros q Hq. specialize (Hr q Hq).
  unfold bucket in Hr. cbn in Hr.
  destruct (table s !! key) as [chain|] eqn:Hk; cbn in Hr.
  - eapply Hch; eauto.
  - inversion Hr.
Qed.

Lemma CT_getEntry_ok (s : t (F:=F)) :
  wp getEntry s
    (fun entry s' => table s' = table s /\
       (mem s' = mem s \/
        exists c j e0, entry = chunkE c j /\ mem s' = <[(c, j) := e0]> (mem s)))
    tolerated.
Proof.
  unfold getEntry. wp_steps. destruct (available s) as [|entry rest].
  - wp_steps. destruct (_ =? _); wp_steps; auto.
  - wp_steps. wp_use CT_read_same; [|auto]. intros en s' Hs. subst s'.
    wp_use CT_write_spec; [|auto]. intros _ s' (c & j & Hq & Hs). subst s'.
    wp_steps. split; [reflexivity|]. right. eauto.
Qed.

(** What the searches of [lookup] leave: the same pool, and an entry that has
    been written. *)
Let found (s : t (F:=F)) (r : option EntryPtr) (s' : t (F:=F)) : Prop :=
  mem s' = mem s /\ table s' = table s /\ forall q, r = Some q -> written s q.

Lemma pool_ok_found (s s' : t (F:=F)) r :
  pool_ok s -> found s r s' -> pool_ok s' /\ pool_le s s'.
Proof.
  intros [Hbig Hch] (Hm & Ht & _). split; [split|].
  - rewrite Hm. exact Hbig.
  - rewrite Ht. intros key chain q Hk Hq. specialize (Hch key chain q Hk Hq).
    destruct q; cbn in *; auto. rewrite Hm. exact Hch.
  - intros q Hq. destruct q; cbn in *; auto. rewrite Hm. exact Hq.
Qed.

Lemma CT_lookup_ok (val : F) s :
  pool_ok s ->
  wp (lookup val) s
    (fun q s' => pool_ok s' /\ pool_le s s' /\ written s' q)
    tolerated.
Proof.
  intros Hok. unfold lookup. wp_steps.
  destruct (fltb (fabs val) tolerance) eqn:Hsmall.
  { wp_steps. repeat split; try apply Hok. apply pool_le_refl. }
  destruct (fltb (fabs (fsub val fp1)) tolerance).
  { wp_steps. repeat split; try apply Hok. apply pool_le_refl. }
  wp_steps.
  assert (Hok1 : pool_ok (set_lookups Z.succ s)) by exact Hok.
  set (s0 := set_lookups Z.succ s) in *.
  wp_use CT_hash_ok; [|auto]. intros key s1 [-> ->].
  wp_use CT_find_ok; [exact Hok1| |auto]. intros p1 s1 Hf1.
  assert (Hfound : forall r s', found s0 r s' -> forall q, r = Some q ->
            pool_ok s' /\ pool_le s s' /\ written s' q).
  { intros r s' Hf q ->. destruct (pool_ok_found _ _ _ Hok1 Hf) as [H1 H2].
    repeat split; try apply H1; [exact H2|]. apply H2. apply Hf. reflexivity. }
  destruct p1 as [q|].
  { wp_steps. eapply Hfound; eauto. }
  destruct (pool_ok_found _ _ _ Hok1 Hf1) as [Hok2 _].
  apply wp_bind.
  apply wp_mono with (Q := fun r s2 => found s0 r s2) (E := tolerated); [| |auto].
  { destruct (fleb fp0 (fsub val tolerance)).
    - wp_use CT_hash_ok; [|auto]. intros k s2 [-> ->].
      destruct (negb (_ =? _)).
      + wp_use CT_find_ok; [exact Hok2| |auto]. intros r s2 (Hm & Ht & Hr).
        destruct Hf1 as (Hm1 & Ht1 & _).
        repeat split; [congruence|congruence|]. intros q Hq.
        specialize (Hr q Hq). destruct q; cbn in *; auto. rewrite <- Hm1. exact Hr.
      + wp_steps. destruct Hf1 as (Hm1 & Ht1 & _). repeat split; auto. discriminate.
    - wp_steps. destruct Hf1 as (Hm1 & Ht1 & _). repeat split; auto. discriminate. }
  intros p2 s2 Hf2. destruct p2 as [q|].
  { wp_steps. eapply Hfound; eauto. }
  destruct (pool_ok_found _ _ _ Hok1 Hf2) as [Hok3 _].
  wp_use CT_hash_ok; [|auto]. intros k s3 [-> ->].
  apply wp_bind.
  apply wp_mono with (Q := fun r s3 => found s0 r s3) (E := tolerated); [| |auto].
  { destruct (negb (_ =? _)).
    - wp_use CT_find_ok; [exact Hok3| |auto]. intros r s3 (Hm & Ht & Hr).
      destruct Hf2 as (Hm1 & Ht1 & _).
      repeat split; [congruence|congruence|]. intros q Hq.
      specialize (Hr q Hq). destruct q; cbn in *; auto. rewrite <- Hm1. exact Hr.
    - wp_steps. destruct Hf2 as (Hm1 & Ht1 & _). repeat split; auto. discriminate. }
  intros p3 s3 Hf3. destruct p3 as [q|].
  { wp_steps. eapply Hfound; eauto. }
  destruct (pool_ok_found _ _ _ Hok1 Hf3) as [[Hbig Hch] _].
  destruct Hf3 as (Hm3 & Ht3 & _).
  wp_use CT_getEntry_ok; [|auto]. intros entry s4 [Ht4 Hm4].
  wp_use CT_read_same; [|auto]. intros en s5 Hs5. subst s5.
  wp_use CT_write_spec; [|auto]. intros _ s5 (c & j & Hentry & Hs5). subst s5 entry.
  wp_steps. cbn.
  assert (Hmem : forall k e1, (<[(c, j) := mkEntry val (refCount en)]> (mem s4)) !! k = Some e1 ->
            fltb (fabs (value e1)) tolerance = false).
  { intros k e1 Hk. destruct (decide (k = (c, j))) as [->|Hne].
    - rewrite lookup_insert_eq in Hk. injection Hk as <-. exact Hsmall.
    - rewrite lookup_insert_ne in Hk by congruence.
      destruct Hm4 as [Hm4|(c' & j' & e0 & Heq & Hm4)]; rewrite Hm4 in Hk.
      + eapply Hbig; eauto.
      + injection Heq as <- <-. rewrite lookup_insert_ne in Hk by congruence.
        eapply Hbig; eauto. }
  assert (Hle : forall q, written s3 q ->
            is_Some (mem s4 !! (c, j)) \/ True ->
            match q with
            | chunkE c' j' => is_Some ((<[(c, j) := mkEntry val (refCount en)]> (mem s4)) !! (c', j'))
            | _ => True
            end).
  { intros q Hq _. destruct q as [| |c' j']; auto. cbn in Hq.
    destruct (decide ((c', j') = (c, j))) as [->|Hne].
    - rewrite lookup_insert_eq. eauto.
    - rewrite lookup_insert_ne by congruence.
      destruct Hm4 as [Hm4|(c'' & j'' & e0 & Heq & Hm4)]; rewrite Hm4.
      + exact Hq.
      + injection Heq as <- <-. rewrite lookup_insert_ne by congruence. exact Hq. }
  repeat split.
  - exact Hmem.
  - intros key' chain q Hk Hq. unfold written. ct_simpl.
    destruct (decide (key' = hash_key val)) as [->|Hne].
    + rewrite lookup_insert_eq in Hk. injection Hk as <-.
      apply elem_of_cons in Hq as [->|Hq].
      * rewrite lookup_insert_eq. eauto.
      * assert (Hw : written s3 q).
        { rewrite Ht4 in Hq. destruct (table s3 !! hash_key val) as [ch|] eqn:Hb; cbn in Hq.
          - eapply Hch; eauto.
          - inversion Hq. }
        specialize (Hle q Hw (or_intror I)). exact Hle.
    + rewrite lookup_insert_ne in Hk by congruence. rewrite Ht4 in Hk.
      specialize (Hch _ _ _ Hk Hq). specialize (Hle q Hch (or_intror I)).
      exact Hle.
  - intros q Hq. assert (Hw : written s3 q).
    { destruct q; cbn in *; auto. rewrite Hm3. exact Hq. }
    specialize (Hle q Hw (or_intror I)). exact Hle.
  - unfold written. ct_simpl. rewrite lookup_insert_eq. eauto.
Qed.

End PoolDiscipline.

Section CNDiscipline.
Context {F : Type} {ops : FpOps F} {laws : WF.FpLaws (F:=F)}.
Import WF.
Set Default Proof Using "All".

Ltac cn_simpl :=
  cbn [CN.pool CN.cacheVal CN.cacheNext CN.Cache_Avail CN.cacheCount CN.set_pool
       CN.set_cacheVal CN.set_cacheNext CN.set_Cache_Avail CN.set_cacheCount
       CN.r CN.i CN.aligned CN.negative] in *.

Lemma cstep_refl (c : CN.t (F:=F)) : cn_ok c -> cstep 0 c c.
Proof. intros H. split; [exact H|]. split; [apply pool_le_refl | lia]. Qed.

Lemma cstep_trans d1 d2 (a b c : CN.t (F:=F)) :
  cstep d1 a b -> cstep d2 b c -> cstep (d1 + d2) a c.
Proof.
  intros (_ & Hl1 & Hc1) (Hok & Hl2 & Hc2). split; [exact Hok|]. split.
  - eapply pool_le_trans; eauto.
  - lia.
Qed.

Lemma cstep_ok d (c c' : CN.t (F:=F)) : cstep d c c' -> cn_ok c'.
Proof. intros H. apply H. Qed.

Lemma interned_le (c c' : CN.t (F:=F)) wt :
  pool_le (CN.pool c) (CN.pool c') -> interned c wt -> interned c' wt.
Proof.
  intros Hle [Hr Hi]. unfold interned, comp_ok in *.
  destruct (CN.aligned (CN.r wt)), (CN.aligned (CN.i wt)); intuition auto.
Qed.

Lemma interned_step d (c c' : CN.t (F:=F)) wt :
  cstep d c c' -> interned c wt -> interned c' wt.
Proof. intros H. apply interned_le, H. Qed.

Lemma interned_ZERO (c : CN.t (F:=F)) : interned c CN.ZERO.
Proof. repeat split. Qed.

Lemma interned_ONE (c : CN.t (F:=F)) : interned c CN.ONE.
Proof. repeat split; discriminate. Qed.

Lemma is_cached_inv wt :
  is_cached wt = true ->
  exists a b, wt = CN.mkComplex (CN.tag (CN.cacheE a) false) (CN.tag (CN.cacheE b) false).
Proof.
  destruct wt as [[[q|a] [|]] [[q'|b] [|]]]; cbn; try discriminate. eauto.
Qed.

Lemma is_cached_not_static wt :
  is_cached wt = true -> wt <> CN.ZERO /\ wt <> CN.ONE.
Proof. intros H. split; intros ->; discriminate. Qed.

Lemma interned_not_cached (c : CN.t (F:=F)) wt : interned c wt -> is_cached wt = false.
Proof.
  intros [Hr _]. unfold comp_ok, is_cached in *.
  destruct (CN.aligned (CN.r wt)); [reflexivity | contradiction].
Qed.

Lemma holds_cached wt : is_cached wt = true -> holds wt = 2.
Proof. unfold holds. intros ->. reflexivity. Qed.

Lemma holds_interned (c : CN.t (F:=F)) wt : interned c wt -> holds wt = 0.
Proof. unfold holds. intros H. rewrite (interned_not_cached _ _ H). reflexivity. Qed.

Lemma CN_val_spec (x : CN.TaggedPtr) (c : CN.t (F:=F)) :
  wp (CN.val x) c (fun v c' => c' = c /\ CN.val_in c x = Some v) tolerated.
Proof. unfold CN.val. wp_steps. auto. Qed.

Lemma CN_value_of_spec (wt : CN.Complex) (c : CN.t (F:=F)) :
  wp (CN.value_of wt) c
    (fun v c' => c' = c /\ CN.val_in c (CN.r wt) = Some (CN.re v) /\
                 CN.val_in c (CN.i wt) = Some (CN.im v))
    tolerated.
Proof.
  unfold CN.value_of.
  wp_use CN_val_spec; [|auto]. intros vr c1 [-> Hr].
  wp_use CN_val_spec; [|auto]. intros vi c1 [-> Hi].
  wp_steps. auto.
Qed.

(** The only interned number within the tolerance of zero is the zero entry. *)
Lemma comp_small (c : CN.t (F:=F)) x v :
  cn_ok c -> comp_ok c x -> CN.val_in c x = Some v ->
  fltb (fabs v) tolerance = true -> x = CN.zeroEntry.
Proof.
  intros [[Hbig _] _] Hx Hv Hs. destruct x as [al ng]. unfold comp_ok in Hx. cbn in Hx.
  destruct al as [q|k]; [|contradiction]. destruct Hx as [Hw Hz].
  assert (Hsmall : forall u, CN.entry_val c (CN.poolE q) = Some u ->
            fltb (fabs u) tolerance = true -> q = ComplexTable.zeroE).
  { intros u Hu Hus. destruct q as [| |ch j]; [reflexivity| |]; exfalso.
    - cbn in Hu. injection Hu as <-. rewrite one_not_small in Hus. discriminate.
    - cbn in Hu. destruct (ComplexTable.chunk_valid _ _ _); [|discriminate].
      destruct Hw as [en Hen]. rewrite Hen in Hu. cbn in Hu. injection Hu as <-.
      rewrite (Hbig _ _ Hen) in Hus. discriminate. }
  unfold CN.val_in in Hv. cbn [CN.isNegativePointer CN.negative CN.aligned] in Hv.
  destruct ng.
  - destruct (CN.entry_val c (CN.poolE q)) as [u|] eqn:Hu; [|discriminate].
    cbn in Hv. injection Hv as <-. rewrite fabs_fneg_small in Hs.
    specialize (Hsmall u eq_refl Hs). specialize (Hz Hsmall). discriminate.
  - rewrite (Hsmall v Hv Hs). reflexivity.
Qed.

Lemma CN_equalsZero_spec (wt : CN.Complex) (c : CN.t (F:=F)) :
  wp (CN.equalsZero wt) c
    (fun b c' => c' = c /\ (b = false -> wt <> CN.ZERO) /\
                 (cn_ok c -> interned c wt -> b = true -> wt = CN.ZERO))
    tolerated.
Proof.
  unfold CN.equalsZero, CN.ceq. destruct (bool_decide_reflect (wt = CN.ZERO)) as [->|Hne].
  - wp_steps. repeat split; auto; discriminate.
  - wp_use CN_value_of_spec; [|auto]. intros v c1 (-> & Hr & Hi). wp_steps.
    repeat split; auto. intros Hok [Hcr Hci] Hz.
    unfold CN.equalsZeroCV in Hz. apply andb_prop in Hz as [Hzr Hzi].
    destruct wt as [xr xi]. cbn in *.
    rewrite (comp_small c xr _ Hok Hcr Hr Hzr), (comp_small c xi _ Hok Hci Hi Hzi).
    reflexivity.
Qed.

Lemma CN_equalsOne_same (wt : CN.Complex) (c : CN.t (F:=F)) :
  wp (CN.equalsOne wt) c (fun _ c' => c' = c) tolerated.
Proof.
  unfold CN.equalsOne. destruct (CN.ceq _ _).
  - wp_steps. reflexivity.
  - wp_use CN_value_of_spec; [|auto]. intros v c1 (-> & _). wp_steps. reflexivity.
Qed.

Lemma CN_mag2_same (wt : CN.Complex) (c : CN.t (F:=F)) :
  wp (CN.mag2 wt) c (fun _ c' => c' = c) tolerated.
Proof.
  unfold CN.mag2. wp_use CN_value_of_spec; [|auto]. intros v c1 (-> & _).
  wp_steps. reflexivity.
Qed.

Lemma CN_get_val_same (x : CN.TaggedPtr) (c : CN.t (F:=F)) :
  wp (CN.get_val x) c (fun _ c' => c' = c) tolerated.
Proof.
  unfold CN.get_val, CN.untagged. destruct (CN.negative x); wp_steps. reflexivity.
Qed.

(** Writing the value of a cache entry changes nothing else. *)
Lemma cstep_set_cacheVal f (c : CN.t (F:=F)) :
  cn_ok c -> cstep 0 c (CN.set_cacheVal f c).
Proof.
  intros (Hp & Hs & Hc). split; [split; [exact Hp|split; [exact Hs|exact Hc]]|].
  split; [apply pool_le_refl | cn_simpl; lia].
Qed.

Lemma CN_set_val_cached k v (c : CN.t (F:=F)) :
  cn_ok c ->
  wp (CN.set_val (CN.tag (CN.cacheE k) false) v) c (fun _ c' => cstep 0 c c') tolerated.
Proof.
  intros Hok. unfold CN.set_val, CN.untagged. cn_simpl. wp_steps.
  destruct (CN.cache_valid k); wp_steps. apply cstep_set_cacheVal, Hok.
Qed.

Lemma CN_store_cached res v (c : CN.t (F:=F)) :
  cn_ok c -> is_cached res = true ->
  wp (CN.store res v) c (fun _ c' => cstep 0 c c') tolerated.
Proof.
  intros Hok Hres. apply is_cached_inv in Hres as (a & b & ->). unfold CN.store. cn_simpl.
  wp_use CN_set_val_cached; [exact Hok| |auto]. intros _ c1 H1.
  wp_use CN_set_val_cached; [apply H1| |auto]. intros _ c2 H2.
  apply (cstep_trans 0 0 _ _ _ H1 H2).
Qed.

Lemma CN_binop_cached f res a b (c : CN.t (F:=F)) :
  cn_ok c -> is_cached res = true ->
  wp (CN.binop f res a b) c (fun _ c' => cstep 0 c c') tolerated.
Proof.
  intros Hok Hres. unfold CN.binop.
  wp_use CN_value_of_spec; [|auto]. intros va c1 (-> & _).
  wp_use CN_value_of_spec; [|auto]. intros vb c1 (-> & _).
  apply CN_store_cached; assumption.
Qed.

Lemma CN_next_shape x (c : CN.t (F:=F)) :
  cn_ok c -> (exists a, x = CN.cacheE a) ->
  wp (CN.next x) c
    (fun n c' => c' = c /\ forall y, n = Some y -> exists b, y = CN.cacheE b)
    tolerated.
Proof.
  intros (_ & [_ Hnext] & _) [a ->]. unfold CN.next.
  destruct (CN.cache_valid a); wp_steps. split; [reflexivity|]. apply Hnext.
Qed.

Lemma CN_getTempCachedComplex_spec (c : CN.t (F:=F)) :
  cn_ok c ->
  wp CN.getTempCachedComplex c (fun wt c' => c' = c /\ is_cached wt = true) tolerated.
Proof.
  intros Hok. unfold CN.getTempCachedComplex. wp_steps.
  pose proof Hok as (Hpool & [Hav Hnext] & Hcnt). destruct (Hav _ H0) as [ka ->].
  wp_use CN_next_shape; [exact Hok | eauto | | auto].
  intros n c1 [-> Hn]. wp_steps. destruct (Hn _ H1) as [kb ->]. auto.
Qed.

Lemma CN_getTempCachedComplex2_spec vr vi (c : CN.t (F:=F)) :
  cn_ok c ->
  wp (CN.getTempCachedComplex2 vr vi) c
    (fun wt c' => cstep 0 c c' /\ is_cached wt = true) tolerated.
Proof.
  intros Hok. unfold CN.getTempCachedComplex2.
  wp_use CN_getTempCachedComplex_spec; [exact Hok| |auto]. intros wt c1 [-> Hwt].
  destruct (is_cached_inv _ Hwt) as (a & b & ->). cn_simpl.
  wp_use CN_set_val_cached; [exact Hok| |auto]. intros _ c1 H1.
  wp_use CN_set_val_cached; [apply H1| |auto]. intros _ c2 H2.
  wp_steps. split; [|reflexivity]. apply (cstep_trans 0 0 _ _ _ H1 H2).
Qed.

Lemma CN_getCachedComplex_spec (c : CN.t (F:=F)) :
  cn_ok c ->
  wp CN.getCachedComplex c
    (fun wt c' => cstep (-2) c c' /\ is_cached wt = true) tolerated.
Proof.
  intros Hok. unfold CN.getCachedComplex. wp_steps. cn_simpl.
  pose proof Hok as (Hpool & [Hav Hnext] & Hcnt). destruct (Hav _ H0) as [ka ->].
  assert (Hok1 : cn_ok (CN.set_cacheCount (fun n => n - 2) c)).
  { split; [exact Hpool|]. split; [split; assumption|]. cn_simpl. lia. }
  wp_use CN_next_shape; [exact Hok1 | eauto | | auto].
  intros n c1 [-> Hn]. wp_steps. destruct (Hn _ H1) as [kb ->].
  wp_use CN_next_shape; [exact Hok1 | eauto | | auto].
  intros n2 c1 [-> Hn2]. wp_steps. split; [|reflexivity].
  split; [|split; [apply pool_le_refl | cn_simpl; lia]].
  split; [exact Hpool|]. split; [split; [exact Hn2|exact Hnext]|]. cn_simpl. lia.
Qed.

Lemma CN_getCachedComplex2_spec vr vi (c : CN.t (F:=F)) :
  cn_ok c ->
  wp (CN.getCachedComplex2 vr vi) c
    (fun wt c' => cstep (-2) c c' /\ is_cached wt = true) tolerated.
Proof.
  intros Hok. unfold CN.getCachedComplex2. wp_steps. cn_simpl.
  pose proof Hok as (Hpool & [Hav Hnext] & Hcnt). destruct (Hav _ H0) as [ka ->].
  assert (Hok1 : cn_ok (CN.set_cacheCount (fun n => n - 2) c)).
  { split; [exact Hpool|]. split; [split; assumption|]. cn_simpl. lia. }
  assert (Hst1 : cstep (-2) c (CN.set_cacheCount (fun n => n - 2) c)).
  { split; [exact Hok1|]. split; [apply pool_le_refl | cn_simpl; lia]. }
  wp_use CN_next_shape; [exact Hok1 | eauto | | auto].
  intros n c1 [-> Hn]. wp_steps. destruct (Hn _ H1) as [kb ->].
  wp_use CN_set_val_cached; [exact Hok1| |auto]. intros _ c2 H2.
  wp_use CN_set_val_cached; [apply H2| |auto]. intros _ c3 H3.
  pose proof (cstep_trans _ _ _ _ _ Hst1 (cstep_trans _ _ _ _ _ H2 H3)) as H13.
  wp_use CN_next_shape; [apply H3 | eauto | | auto].
  intros n2 c4 [-> Hn2]. wp_steps. split; [|reflexivity].
  destruct H13 as ((Hp3 & [Hav3 Hnext3] & Hcnt3) & Hle & Hcnt').
  split; [|split; [exact Hle | exact Hcnt']].
  split; [exact Hp3|]. split; [split; [exact Hn2|exact Hnext3]|exact Hcnt3].
Qed.

Lemma CN_getCachedComplexCV_spec v (c : CN.t (F:=F)) :
  cn_ok c ->
  wp (CN.getCachedComplexCV v) c
    (fun wt c' => cstep (-2) c c' /\ is_cached wt = true) tolerated.
Proof. apply CN_getCachedComplex2_spec. Qed.

Lemma CN_binopCached_spec f a b (c : CN.t (F:=F)) :
  cn_ok c ->
  wp (cc <- CN.getCachedComplex ;; CN.binop f cc a b ;;; ret cc) c
    (fun wt c' => cstep (-2) c c' /\ is_cached wt = true) tolerated.
Proof.
  intros Hok.
  wp_use CN_getCachedComplex_spec; [exact Hok| |auto]. intros wt c1 [H1 Hwt].
  wp_use CN_binop_cached; [apply H1|exact Hwt| |auto]. intros _ c2 H2.
  wp_steps. split; [|exact Hwt]. apply (cstep_trans _ _ _ _ _ H1 H2).
Qed.

Lemma CN_addCached_spec a b (c : CN.t (F:=F)) :
  cn_ok c ->
  wp (CN.addCached a b) c (fun wt c' => cstep (-2) c c' /\ is_cached wt = true) tolerated.
Proof. apply CN_binopCached_spec. Qed.

Lemma CN_mulCached_spec a b (c : CN.t (F:=F)) :
  cn_ok c ->
  wp (CN.mulCached a b) c (fun wt c' => cstep (-2) c c' /\ is_cached wt = true) tolerated.
Proof. apply CN_binopCached_spec. Qed.

Lemma CN_releaseCached_spec wt (c : CN.t (F:=F)) :
  cn_ok c -> is_cached wt = true -> CN.cacheCount c + 2 <= CN.CACHE_SIZE ->
  wp (CN.releaseCached wt) c (fun _ c' => cstep 2 c c') tolerated.
Proof.
  intros Hok Hwt Hcnt. destruct (is_cached_not_static _ Hwt) as [Hz Ho].
  apply is_cached_inv in Hwt as (a & b & ->).
  unfold CN.releaseCached, CN.cne, CN.ceq.
  rewrite !bool_decide_eq_false_2 by assumption. cbn [negb].
  unfold CN.set_next, CN.untagged, CN.entry_ref. cn_simpl.
  assert (Href : forall k n, (if CN.cache_valid k then Some 0 else None) = Some n ->
            CN.cache_valid k = true /\ (n =? 0) = true).
  { intros k n Hk. destruct (CN.cache_valid k); [|discriminate].
    injection Hk as <-. auto. }
  wp_steps; cn_simpl;
    repeat match goal with
           | H : true = false |- _ => discriminate H
           | H : (if CN.cache_valid _ then Some 0 else None) = Some _ |- _ =>
               apply Href in H; destruct H as [? ?]
           | H : (?n =? 0) = true, H' : (?n =? 0) = false |- _ =>
               rewrite H in H'; discriminate H'
           end.
  match goal with H : CN.cache_valid b = true |- _ => rewrite H end.
  wp_steps; cn_simpl.
  - destruct Hok as (Hpool & [Hav Hnext] & _).
    split; [|split; [apply pool_le_refl | cn_simpl; lia]].
    split; [exact Hpool|]. split; [split|cn_simpl; lia]; cn_simpl.
    + intros x [= <-]. eauto.
    + intros k x Hk. destruct (CN.Cache_Avail c) as [y|] eqn:Hy.
      * destruct (decide (k = b)) as [->|Hne].
        -- rewrite lookup_insert_eq in Hk. injection Hk as <-. eauto.
        -- rewrite lookup_insert_ne in Hk by congruence. eauto.
      * destruct (decide (k = b)) as [->|Hne].
        -- rewrite lookup_delete_eq in Hk. discriminate.
        -- rewrite lookup_delete_ne in Hk by congruence. eauto.
  - match goal with H : (_ <=? _) = false |- _ => apply Z.leb_gt in H; lia end.
Qed.

Lemma CN_lookupVal_spec v (c : CN.t (F:=F)) :
  cn_ok c ->
  wp (CN.lookupVal v) c (fun x c' => cstep 0 c c' /\ comp_ok c' x) tolerated.
Proof.
  intros (Hpool & Hshape & Hcnt). unfold CN.lookupVal, CN.in_pool.
  apply wp_bind, wp_zoom.
  eapply wp_mono; [apply CT_lookup_ok, Hpool | cbv beta | auto].
  intros q pl (Hok & Hle & Hw). wp_steps. cn_simpl.
  split; [split; [split; [exact Hok|split; [exact Hshape|exact Hcnt]]|]|].
  - split; [exact Hle | cn_simpl; lia].
  - split; [exact Hw|]. cn_simpl.
    intros ->. rewrite bool_decide_eq_true_2 by reflexivity. apply andb_false_r.
Qed.

Lemma CN_lookup2_spec vr vi (c : CN.t (F:=F)) :
  cn_ok c ->
  wp (CN.lookup2 vr vi) c (fun wt c' => cstep 0 c c' /\ interned c' wt) tolerated.
Proof.
  intros Hok. unfold CN.lookup2.
  wp_use CN_lookupVal_spec; [exact Hok| |auto]. intros xr c1 [H1 Hr].
  wp_use CN_lookupVal_spec; [apply H1| |auto]. intros xi c2 [H2 Hi].
  wp_steps. split; [apply (cstep_trans 0 0 _ _ _ H1 H2)|].
  split; [|exact Hi]. cn_simpl. unfold comp_ok in *.
  destruct (CN.aligned xr); [|contradiction]. destruct Hr as [Hw Hz].
  split; [|exact Hz]. apply H2, Hw.
Qed.

Lemma CN_lookup_spec wt (c : CN.t (F:=F)) :
  cn_ok c ->
  wp (CN.lookup wt) c (fun wt' c' => cstep 0 c c' /\ interned c' wt') tolerated.
Proof.
  intros Hok. unfold CN.lookup.
  wp_use CN_value_of_spec; [|auto]. intros v c1 (-> & _).
  apply CN_lookup2_spec, Hok.
Qed.

Lemma CN_lookupCV_spec v (c : CN.t (F:=F)) :
  cn_ok c ->
  wp (CN.lookupCV v) c (fun wt' c' => cstep 0 c c' /\ interned c' wt') tolerated.
Proof. apply CN_lookup2_spec. Qed.

End CNDiscipline.
Set Default Proof Using "Type".

(** ** The discipline of the weights in the package *)

Section PackageDiscipline.
Context {F : Type} {ops : FpOps F} {laws : WF.FpLaws (F:=F)} {params : Params F}.
Context (zero_not_null : zero_target <> nullptr).
Import WF Package.
Set Default Proof Using "All".

Implicit Types (s : Package.t (F:=F)) (k : Kind).

Lemma cn_set_uniqueTable k u s : cn (set_uniqueTable k u s) = cn s.
Proof. destruct k; reflexivity. Qed.

Lemma uniqueTable_set_same k u s : uniqueTable k (set_uniqueTable k u s) = u.
Proof. destruct k; reflexivity. Qed.

Lemma uniqueTable_set_other k u s :
  uniqueTable (other k) (set_uniqueTable k u s) = uniqueTable (other k) s.
Proof. destruct k; reflexivity. Qed.

Lemma uniqueTable_set_cn k f s : uniqueTable k (set_cn f s) = uniqueTable k s.
Proof. destruct k; reflexivity. Qed.

Lemma set_cn_same s : set_cn (fun _ => cn s) s = s.
Proof. destruct s; reflexivity. Qed.

Lemma set_uniqueTable_same k s : set_uniqueTable k (uniqueTable k s) s = s.
Proof. destruct k, s; reflexivity. Qed.

Lemma edge_ok_le (c c' : CN.t (F:=F)) ed :
  pool_le (CN.pool c) (CN.pool c') -> edge_ok c ed -> edge_ok c' ed.
Proof. intros Hle [Hp Hw]. split; [exact Hp|]. eapply interned_le; eauto. Qed.

Lemma nodes_but_cn k a s c' :
  pool_le (CN.pool (cn s)) (CN.pool c') ->
  nodes_but k a s -> nodes_but k a (set_cn (fun _ => c') s).
Proof.
  intros Hle H a' n Ha Hn. rewrite uniqueTable_set_cn in Hn.
  eapply Forall_impl; [eapply H; eauto|]. intros ed. apply edge_ok_le. exact Hle.
Qed.

Lemma tables_ok_cn s c' :
  pool_le (CN.pool (cn s)) (CN.pool c') ->
  tables_ok s -> tables_ok (set_cn (fun _ => c') s).
Proof.
  intros Hle (Ht & Hi & Hs). split; [|split; [|exact Hs]].
  - intros j ent Hj. eapply interned_le; [exact Hle|]. apply (Ht j ent Hj).
  - eapply Forall_impl; [exact Hi|]. intros ed. apply interned_le, Hle.
Qed.

Lemma inv_but_cn k a s c' d :
  inv_but k a s -> cstep d (cn s) c' -> inv_but k a (set_cn (fun _ => c') s).
Proof.
  intros (Hc & Hn & Ho & Ht) (Hok & Hle & _).
  split; [exact Hok|]. split; [|split].
  - apply nodes_but_cn; assumption.
  - apply nodes_but_cn; assumption.
  - apply tables_ok_cn; assumption.
Qed.

Lemma pstep_refl s : pstep 0 s s.
Proof. split; [apply pool_le_refl | lia]. Qed.

Lemma pstep_trans d1 d2 s1 s2 s3 :
  pstep d1 s1 s2 -> pstep d2 s2 s3 -> pstep (d1 + d2) s1 s3.
Proof. intros [H1 H2] [H3 H4]. split; [eapply pool_le_trans; eauto | lia]. Qed.

Lemma pstep_eq d d' s s' : pstep d s s' -> d = d' -> pstep d' s s'.
Proof. intros H <-. exact H. Qed.

(** Lifting a fact about the complex numbers to the package. *)
Lemma lift_cn {A} (m : M (CN.t (F:=F)) A) d (R : A -> CN.t (F:=F) -> Prop) k a s :
  inv_but k a s ->
  wp m (cn s) (fun r c' => cstep d (cn s) c' /\ R r c') tolerated ->
  wp (in_cn m) s
    (fun r s' => inv_but k a s' /\ pstep d s s' /\ cn_only s s' /\ R r (cn s'))
    tolerated.
Proof.
  intros Hinv Hm. unfold in_cn. apply wp_zoom.
  eapply wp_mono; [exact Hm | cbv beta | auto].
  intros r c' [Hstep HR].
  split; [apply (inv_but_cn _ _ _ _ _ Hinv Hstep)|].
  split; [split; apply Hstep|]. split; [reflexivity | exact HR].
Qed.

Lemma lift_cn_same {A} (m : M (CN.t (F:=F)) A) (R : A -> Prop) s :
  wp m (cn s) (fun r c' => c' = cn s /\ R r) tolerated ->
  wp (in_cn m) s (fun r s' => s' = s /\ R r) tolerated.
Proof.
  intros Hm. unfold in_cn. apply wp_zoom.
  eapply wp_mono; [exact Hm | cbv beta | auto].
  intros r c' [-> HR]. rewrite set_cn_same. auto.
Qed.

Lemma cn_only_uts k s s' : cn_only s s' -> uniqueTable k s' = uniqueTable k s.
Proof. intros ->. apply uniqueTable_set_cn. Qed.

Lemma cand_cn_only k a s s' es : cn_only s s' -> cand k a s es -> cand k a s' es.
Proof. intros H (n & Hn & He). exists n. rewrite (cn_only_uts _ _ _ H). auto. Qed.

(** *** Reads and writes of nodes *)

Lemma UT_node_same k ptr (u : UniqueTable.t) :
  wp (UniqueTable.node k ptr) u
    (fun n u' => u' = u /\ UniqueTable.node_at k u ptr = Some n) tolerated.
Proof. unfold UniqueTable.node. wp_steps. auto. Qed.

Lemma UT_update_spec k a f (u : UniqueTable.t) :
  wp (UniqueTable.update k (nodeP a) f) u
    (fun _ u' => exists n, UniqueTable.node_at k u (nodeP a) = Some n /\
                           u' = UniqueTable.set_heap (<[a := f n]>) u)
    tolerated.
Proof.
  unfold UniqueTable.update.
  wp_use UT_node_same; [|auto]. intros n u' [-> Hn]. wp_steps. eauto.
Qed.

Lemma lift_ut {A} (m : M UniqueTable.t A) (R : A -> UniqueTable.t -> Prop) k s :
  wp m (uniqueTable k s) R tolerated ->
  wp (in_ut k m) s (fun r s' => s' = set_uniqueTable k (uniqueTable k s') s /\
                                R r (uniqueTable k s')) tolerated.
Proof.
  intros Hm. unfold in_ut. apply wp_zoom.
  eapply wp_mono; [exact Hm | cbv beta | auto].
  intros r u' HR. rewrite uniqueTable_set_same. auto.
Qed.

Lemma lift_ut_same {A} (m : M UniqueTable.t A) (R : A -> Prop) k s :
  wp m (uniqueTable k s) (fun r u' => u' = uniqueTable k s /\ R r) tolerated ->
  wp (in_ut k m) s (fun r s' => s' = s /\ R r) tolerated.
Proof.
  intros Hm. unfold in_ut. apply wp_zoom.
  eapply wp_mono; [exact Hm | cbv beta | auto].
  intros r u' [-> HR]. rewrite set_uniqueTable_same. auto.
Qed.

Lemma P_node_same k ptr s :
  wp (node k ptr) s
    (fun n s' => s' = s /\ UniqueTable.node_at k (uniqueTable k s) ptr = Some n) tolerated.
Proof. unfold node. apply lift_ut_same. apply UT_node_same. Qed.

Lemma ut_only_cn k a s s' : ut_only k a s s' -> cn s' = cn s.
Proof. intros [-> _]. apply cn_set_uniqueTable. Qed.

Lemma ut_only_pstep k a s s' : ut_only k a s s' -> pstep 0 s s'.
Proof. intros H. unfold pstep. rewrite (ut_only_cn _ _ _ _ H). split; [apply pool_le_refl|lia]. Qed.

Lemma ut_only_other k a s s' :
  ut_only k a s s' -> uniqueTable (other k) s' = uniqueTable (other k) s.
Proof. intros [-> _]. apply uniqueTable_set_other. Qed.

Lemma ut_only_weaken k a s s' : ut_only k None s s' -> ut_only k a s s'.
Proof. intros [H1 H2]. split; [exact H1|]. intros a' _. apply H2. discriminate. Qed.

Lemma ut_only_tables k a s s' : ut_only k a s s' -> tables_ok s -> tables_ok s'.
Proof.
  intros [Hs _] Ht. rewrite Hs. unfold tables_ok in *. rewrite cn_set_uniqueTable.
  destruct k; exact Ht.
Qed.

Lemma inv_but_ut k a s s' : inv_but k a s -> ut_only k a s s' -> inv_but k a s'.
Proof.
  intros (Hc & Hn & Ho & Ht) Hut. pose proof (ut_only_cn _ _ _ _ Hut) as Hcn.
  split; [rewrite Hcn; exact Hc|]. split; [|split].
  - intros a' n Ha Hn'. rewrite Hcn. destruct Hut as [_ Hheap].
    rewrite (Hheap a' Ha) in Hn'. eapply Hn; eauto.
  - intros a' n Ha Hn'. rewrite Hcn.
    rewrite (ut_only_other _ _ _ _ Hut) in Hn'. eapply Ho; eauto.
  - eapply ut_only_tables; eauto.
Qed.

Lemma cand_ut_only k a a0 s s' es :
  ut_only k a0 s s' -> Some a <> a0 -> cand k a s es -> cand k a s' es.
Proof.
  intros [_ Hheap] Hne (n & Hn & He). exists n. rewrite (Hheap a Hne). auto.
Qed.

Lemma cand_node k a s es n :
  cand k a s es -> UniqueTable.node_at k (uniqueTable k s) (nodeP a) = Some n -> e n = es.
Proof.
  intros (n0 & Hn0 & He) Hn. cbn in Hn. destruct (UniqueTable.allocated _ _); [|discriminate].
  rewrite Hn0 in Hn. cbn in Hn. injection Hn as <-. exact He.
Qed.

Lemma cand_unique k a s es es' : cand k a s es -> cand k a s es' -> es = es'.
Proof. intros (n & Hn & <-) (n' & Hn' & <-). congruence. Qed.

Lemma P_edge_at_cand k a j s es :
  cand k a s es ->
  wp (edge_at k (nodeP a) j) s (fun x s' => s' = s /\ es !! j = Some x) tolerated.
Proof.
  intros Hc. unfold edge_at.
  wp_use P_node_same; [|auto]. intros n s' [-> Hn].
  rewrite (cand_node _ _ _ _ _ Hc Hn). wp_steps. auto.
Qed.

(** The edges of the nodes that are not under construction. *)
Lemma P_edge_at_ok k a0 ptr j s :
  nodes_but k a0 s -> (forall a, ptr = nodeP a -> Some a <> a0) ->
  wp (edge_at k ptr j) s
    (fun x s' => s' = s /\ (ptr = terminal \/ edge_ok (cn s) x)) tolerated.
Proof.
  intros Hn Hne. unfold edge_at.
  wp_use P_node_same; [|auto]. intros n s' [-> Hnode]. wp_steps.
  split; [reflexivity|]. destruct ptr as [| |q]; [discriminate|auto|]. right.
  cbn in Hnode. destruct (UniqueTable.allocated _ _); [|discriminate].
  destruct (UniqueTable.heap (uniqueTable k s) !! q) as [n0|] eqn:Hh; cbn in Hnode.
  - injection Hnode as <-. specialize (Hn q n0 (Hne q eq_refl) Hh).
    rewrite Forall_forall in Hn. apply Hn. eapply list_elem_of_lookup_2; eauto.
  - injection Hnode as <-. cbn in *. rewrite lookup_nil in H. discriminate.
Qed.

Lemma P_update_cand k a f s :
  wp (in_ut k (UniqueTable.update k (nodeP a) f)) s
    (fun _ s' => ut_only k (Some a) s s' /\
       exists n, UniqueTable.node_at k (uniqueTable k s) (nodeP a) = Some n /\
                 UniqueTable.heap (uniqueTable k s') !! a = Some (f n))
    tolerated.
Proof.
  eapply wp_mono; [apply lift_ut, UT_update_spec | cbv beta | auto].
  intros _ s' (Hs & n & Hn & Hu). split; [split; [exact Hs|]|].
  - intros a' Ha. rewrite Hu. cbn. apply lookup_insert_ne. congruence.
  - exists n. split; [exact Hn|]. rewrite Hu. cbn. apply lookup_insert_eq.
Qed.

Lemma P_set_edge_cand k a j x s es :
  cand k a s es ->
  wp (set_edge k (nodeP a) j x) s
    (fun _ s' => ut_only k (Some a) s s' /\ cand k a s' (<[j := x]> es)) tolerated.
Proof.
  intros Hc. unfold set_edge.
  eapply wp_mono; [apply P_update_cand | cbv beta | auto].
  intros _ s' (Hut & n & Hn & Hh). split; [exact Hut|].
  eexists. split; [exact Hh|]. cbn. rewrite (cand_node _ _ _ _ _ Hc Hn). reflexivity.
Qed.

Lemma P_set_weight_cand k a j wt s es x :
  cand k a s es -> es !! j = Some x ->
  wp (set_weight k (nodeP a) j wt) s
    (fun _ s' => ut_only k (Some a) s s' /\ cand k a s' (<[j := mkEdge (p x) wt]> es))
    tolerated.
Proof.
  intros Hc Hx. unfold set_weight.
  wp_use P_edge_at_cand; [exact Hc| |auto]. intros x' s' [-> Hx'].
  assert (x' = x) as -> by congruence.
  apply P_set_edge_cand, Hc.
Qed.

Lemma P_returnNode_spec k a s :
  wp (returnNode k (nodeP a)) s (fun _ s' => ut_only k None s s') tolerated.
Proof.
  unfold returnNode.
  eapply wp_mono; [apply lift_ut | cbv beta | auto].
  { unfold UniqueTable.returnNode. wp_steps.
    instantiate (1 := fun _ u' => UniqueTable.heap u' = UniqueTable.heap (uniqueTable k s)).
    reflexivity. }
  intros _ s' [Hs Hh]. split; [exact Hs|]. intros a' _. rewrite Hh. reflexivity.
Qed.

(** The node under construction is done. *)
Lemma inv_but_close k a s es :
  inv_but k (Some a) s -> cand k a s es -> Forall (edge_ok (cn s)) es -> inv_but k None s.
Proof.
  intros (Hc & Hn & Ho & Ht) (n & Hn' & He) Hes. split; [exact Hc|]. split; [|auto].
  intros a' n' _ Ha'. destruct (decide (a' = a)) as [->|Hne].
  - rewrite Hn' in Ha'. injection Ha' as <-. rewrite He. exact Hes.
  - eapply Hn; eauto. congruence.
Qed.

Lemma inv_but_open k a s : inv_but k None s -> inv_but k a s.
Proof.
  intros (Hc & Hn & Ho & Ht). split; [exact Hc|]. split; [|auto].
  intros a' n' _ Ha'. eapply Hn; [discriminate | exact Ha'].
Qed.

Lemma inv_swap k s : inv_but k None s <-> inv s.
Proof.
  unfold inv. destruct k; [tauto|]. unfold inv_but. cbn. tauto.
Qed.

(** *** Steps of [normalize] *)

Lemma nst_cn {A} (m : M (CN.t (F:=F)) A) dd (R : A -> CN.t (F:=F) -> Prop) k a s0 d es s :
  nst k a s0 d es s ->
  wp m (cn s) (fun r c' => cstep dd (cn s) c' /\ R r c') tolerated ->
  wp (in_cn m) s
    (fun r s' => nst k a s0 (d + dd) es s' /\ ple s s' /\ R r (cn s')) tolerated.
Proof.
  intros (Hinv & Hst & Hc) Hm.
  eapply wp_mono; [apply (lift_cn m dd R _ _ _ Hinv Hm) | cbv beta | auto].
  intros r s' (Hinv' & Hst' & Hco & HR). split; [|split; [apply Hst'|exact HR]].
  split; [exact Hinv'|]. split; [eapply pstep_trans; eauto|].
  eapply cand_cn_only; eauto.
Qed.

Lemma ple_refl s : ple s s.
Proof. apply pool_le_refl. Qed.

Lemma ple_trans s1 s2 s3 : ple s1 s2 -> ple s2 s3 -> ple s1 s3.
Proof. apply pool_le_trans. Qed.

Lemma ple_eq s s' : cn s' = cn s -> ple s s'.
Proof. unfold ple. intros ->. apply pool_le_refl. Qed.

Lemma interned_ple s s' wt : ple s s' -> interned (cn s) wt -> interned (cn s') wt.
Proof. apply interned_le. Qed.

Lemma edge_ok_ple s s' ed : ple s s' -> edge_ok (cn s) ed -> edge_ok (cn s') ed.
Proof. apply edge_ok_le. Qed.

Lemma nst_ut k a s0 d es es' s s' :
  nst k a s0 d es s -> ut_only k (Some a) s s' -> cand k a s' es' -> nst k a s0 d es' s'.
Proof.
  intros (Hinv & Hst & Hc) Hut Hc'. split; [eapply inv_but_ut; eauto|].
  split; [|exact Hc']. eapply pstep_eq; [eapply pstep_trans; [exact Hst|]|].
  - eapply ut_only_pstep; eauto.
  - lia.
Qed.

Lemma nst_edge_at k a s0 d es s j :
  nst k a s0 d es s ->
  wp (edge_at k (nodeP a) j) s (fun x s' => s' = s /\ es !! j = Some x) tolerated.
Proof. intros (_ & _ & Hc). apply P_edge_at_cand, Hc. Qed.

Lemma nst_set_edge k a s0 d es s j x :
  nst k a s0 d es s ->
  wp (set_edge k (nodeP a) j x) s
    (fun _ s' => nst k a s0 d (<[j := x]> es) s' /\ cn s' = cn s) tolerated.
Proof.
  intros Hn. pose proof Hn as (_ & _ & Hc).
  eapply wp_mono; [apply P_set_edge_cand, Hc | cbv beta | auto].
  intros _ s' [Hut Hc']. split; [eapply nst_ut; eauto | eapply ut_only_cn; eauto].
Qed.

Lemma nst_set_weight k a s0 d es s j x wt :
  nst k a s0 d es s -> es !! j = Some x ->
  wp (set_weight k (nodeP a) j wt) s
    (fun _ s' => nst k a s0 d (<[j := mkEdge (p x) wt]> es) s' /\ cn s' = cn s) tolerated.
Proof.
  intros Hn Hx. pose proof Hn as (_ & _ & Hc).
  eapply wp_mono; [eapply P_set_weight_cand; eauto | cbv beta | auto].
  intros _ s' [Hut Hc']. split; [eapply nst_ut; eauto | eapply ut_only_cn; eauto].
Qed.

Lemma nst_returnNode k a s0 d es s :
  nst k a s0 d es s ->
  wp (returnNode k (nodeP a)) s (fun _ s' => nst k a s0 d es s' /\ cn s' = cn s) tolerated.
Proof.
  intros Hn. pose proof Hn as (_ & _ & Hc).
  eapply wp_mono; [apply P_returnNode_spec | cbv beta | auto].
  intros _ s' Hut. split; [| eapply ut_only_cn; eauto].
  eapply nst_ut; [exact Hn | apply ut_only_weaken, Hut |].
  destruct Hc as (n & Hn' & He). exists n. destruct Hut as [_ Hh].
  rewrite Hh by discriminate. auto.
Qed.

Lemma nst_cn_ok k a s0 d es s : nst k a s0 d es s -> cn_ok (cn s).
Proof. intros (Hinv & _). apply Hinv. Qed.

Lemma nst_count k a s0 d es s :
  nst k a s0 d es s -> CN.cacheCount (cn s) = CN.cacheCount (cn s0) + d.
Proof. intros (_ & Hst & _). apply Hst. Qed.

Lemma nst_le k a s0 d es s :
  nst k a s0 d es s -> pool_le (CN.pool (cn s0)) (CN.pool (cn s)).
Proof. intros (_ & Hst & _). apply Hst. Qed.

Lemma nst_eq k a s0 d d' es es' s :
  nst k a s0 d es s -> d = d' -> es = es' -> nst k a s0 d' es' s.
Proof. intros H <- <-. exact H. Qed.

Lemma nst_release k a s0 d es s wt :
  nst k a s0 d es s -> is_cached wt = true ->
  CN.cacheCount (cn s0) + d + 2 <= CN.CACHE_SIZE ->
  wp (in_cn (CN.releaseCached wt)) s
    (fun _ s' => nst k a s0 (d + 2) es s' /\ ple s s') tolerated.
Proof.
  intros Hn Hwt Hb.
  eapply wp_mono; [apply (nst_cn _ 2 (fun _ _ => True) _ _ _ _ _ _ Hn) | cbv beta | auto].
  - eapply wp_mono; [apply CN_releaseCached_spec | cbv beta | auto].
    + eapply nst_cn_ok; eauto.
    + exact Hwt.
    + rewrite (nst_count _ _ _ _ _ _ Hn). exact Hb.
    + auto.
  - tauto.
Qed.

Lemma nst_lookup2 k a s0 d es s vr vi :
  nst k a s0 d es s ->
  wp (in_cn (CN.lookup2 vr vi)) s
    (fun wt s' => nst k a s0 d es s' /\ ple s s' /\ interned (cn s') wt) tolerated.
Proof.
  intros Hn.
  eapply wp_mono; [eapply (nst_cn _ 0); [exact Hn|]; apply CN_lookup2_spec | cbv beta | auto].
  - eapply nst_cn_ok; eauto.
  - intros wt s' (H1 & H2 & H3). split; [|auto]. eapply nst_eq; eauto. lia.
Qed.

Lemma nst_lookup k a s0 d es s wt :
  nst k a s0 d es s ->
  wp (in_cn (CN.lookup wt)) s
    (fun wt' s' => nst k a s0 d es s' /\ ple s s' /\ interned (cn s') wt') tolerated.
Proof.
  intros Hn.
  eapply wp_mono; [eapply (nst_cn _ 0); [exact Hn|]; apply CN_lookup_spec | cbv beta | auto].
  - eapply nst_cn_ok; eauto.
  - intros wt' s' (H1 & H2 & H3). split; [|auto]. eapply nst_eq; eauto. lia.
Qed.

Lemma nst_binop k a s0 d es s f res x y :
  nst k a s0 d es s -> is_cached res = true ->
  wp (in_cn (CN.binop f res x y)) s
    (fun _ s' => nst k a s0 d es s' /\ ple s s') tolerated.
Proof.
  intros Hn Hres.
  eapply wp_mono; [apply (nst_cn _ 0 (fun _ _ => True) _ _ _ _ _ _ Hn) | cbv beta | auto].
  - eapply wp_mono; [apply CN_binop_cached | cbv beta | auto].
    + eapply nst_cn_ok; eauto.
    + exact Hres.
    + auto.
  - intros _ s' (H1 & H2 & _). split; [|exact H2]. eapply nst_eq; eauto. lia.
Qed.

Lemma nst_temp k a s0 d es s :
  nst k a s0 d es s ->
  wp (in_cn CN.getTempCachedComplex) s
    (fun wt s' => s' = s /\ is_cached wt = true) tolerated.
Proof.
  intros Hn. apply lift_cn_same.
  eapply wp_mono; [apply CN_getTempCachedComplex_spec; eapply nst_cn_ok; eauto | cbv beta | auto].
  auto.
Qed.

Lemma P_equalsZero_spec wt s :
  wp (in_cn (CN.equalsZero wt)) s
    (fun b s' => s' = s /\ (b = false -> wt <> CN.ZERO) /\
                 (cn_ok (cn s) -> interned (cn s) wt -> b = true -> wt = CN.ZERO))
    tolerated.
Proof.
  apply (lift_cn_same _ (fun b => (b = false -> wt <> CN.ZERO) /\
                 (cn_ok (cn s) -> interned (cn s) wt -> b = true -> wt = CN.ZERO))).
  apply CN_equalsZero_spec.
Qed.

Lemma P_equalsOne_same wt s :
  wp (in_cn (CN.equalsOne wt)) s (fun _ s' => s' = s) tolerated.
Proof.
  eapply wp_mono; [apply (lift_cn_same _ (fun _ => True)) | cbv beta | auto].
  - eapply wp_mono; [apply CN_equalsOne_same | cbv beta | auto]. auto.
  - tauto.
Qed.

Lemma P_mag2_same wt s :
  wp (in_cn (CN.mag2 wt)) s (fun _ s' => s' = s) tolerated.
Proof.
  eapply wp_mono; [apply (lift_cn_same _ (fun _ => True)) | cbv beta | auto].
  - eapply wp_mono; [apply CN_mag2_same | cbv beta | auto]. auto.
  - tauto.
Qed.

Lemma P_val_same x s :
  wp (in_cn (CN.val x)) s (fun _ s' => s' = s) tolerated.
Proof.
  eapply wp_mono; [apply (lift_cn_same _ (fun _ => True)) | cbv beta | auto].
  - eapply wp_mono; [apply CN_val_spec | cbv beta | auto]. tauto.
  - tauto.
Qed.

Lemma P_get_val_same x s :
  wp (in_cn (CN.get_val x)) s (fun _ s' => s' = s) tolerated.
Proof.
  eapply wp_mono; [apply (lift_cn_same _ (fun _ => True)) | cbv beta | auto].
  - eapply wp_mono; [apply CN_get_val_same | cbv beta | auto]. auto.
  - tauto.
Qed.

Lemma P_value_of_same wt s :
  wp (in_cn (CN.value_of wt)) s (fun _ s' => s' = s) tolerated.
Proof.
  eapply wp_mono; [apply (lift_cn_same _ (fun _ => True)) | cbv beta | auto].
  - eapply wp_mono; [apply CN_value_of_spec | cbv beta | auto]. tauto.
  - tauto.
Qed.

Lemma holding_insert (es : list Edge) j x x' :
  es !! j = Some x -> holding (<[j := x']> es) = holding es - holds (w x) + holds (w x').
Proof.
  revert j. induction es as [|y es IH]; intros j Hj; [discriminate|].
  destruct j as [|j]; cbn in Hj.
  - injection Hj as ->. change (holds (w x') + holding es = holds (w x) + holding es - holds (w x) + holds (w x')). lia.
  - change (holds (w y) + holding (<[j := x']> es) = holds (w y) + holding es - holds (w x) + holds (w x')).
    rewrite (IH j Hj). lia.
Qed.

Lemma holds_nonneg wt : 0 <= holds wt.
Proof. unfold holds. destruct (is_cached wt); lia. Qed.

Lemma holding_nonneg (es : list Edge) : 0 <= holding es.
Proof.
  induction es as [|y es IH]; [cbn; lia|].
  change (0 <= holds (w y) + holding es). pose proof (holds_nonneg (w y)). lia.
Qed.

Lemma holding_lookup (es : list Edge) j x : es !! j = Some x -> holds (w x) <= holding es.
Proof.
  revert j. induction es as [|y es IH]; intros j Hj; [discriminate|].
  change (holds (w x) <= holds (w y) + holding es).
  destruct j as [|j]; cbn in Hj.
  - injection Hj as ->. pose proof (holding_nonneg es). lia.
  - specialize (IH j Hj). pose proof (holds_nonneg (w y)). lia.
Qed.

Lemma holds_zero : holds (w zero) = 0.
Proof. reflexivity. Qed.

Lemma wkind_holds cached (c : CN.t (F:=F)) wt :
  wkind cached c wt -> wt <> CN.ZERO -> cached = true -> is_cached wt = true.
Proof. intros H Hne ->. destruct H as [->|H]; [contradiction|exact H]. Qed.

(** One round of the first loop of [normalize]. *)
Lemma nst_clean_step k a s0 d es s j x (z cached : bool) :
  nst k a s0 d es s -> es !! j = Some x ->
  wkind cached (cn s) (w x) ->
  (cached = false -> z = true -> w x = CN.ZERO) ->
  CN.cacheCount (cn s0) + d + holds (w x) <= CN.CACHE_SIZE ->
  wp (ej <- edge_at k (nodeP a) j ;;
      when (z && CN.cne (w ej) CN.ZERO)
        (in_cn (CN.releaseCached (w ej)) ;;; set_edge k (nodeP a) j zero)) s
    (fun _ s' => nst k a s0 (d + holds (w x) - holds (w (clean z x)))
                   (<[j := clean z x]> es) s')
    tolerated.
Proof.
  intros Hn Hx Hk Hz Hb.
  wp_use nst_edge_at; [exact Hn| |auto]. intros x' s' [-> Hx'].
  assert (x' = x) as -> by congruence. unfold clean.
  destruct (z && CN.cne (w x) CN.ZERO) eqn:Hc; cbn [when].
  - apply andb_prop in Hc as [-> Hne]. unfold CN.cne, CN.ceq in Hne.
    apply negb_true_iff, bool_decide_eq_false in Hne.
    destruct cached; [|exfalso; auto].
    pose proof (wkind_holds _ _ _ Hk Hne eq_refl) as Hcw.
    rewrite (holds_cached _ Hcw) in *.
    wp_use nst_release; [exact Hn|exact Hcw|lia| |auto]. intros _ s1 [H1 _].
    wp_use nst_set_edge; [exact H1| |auto]. intros _ s2 [H2 _].
    eapply nst_eq; eauto. rewrite holds_zero. lia.
  - wp_steps. eapply nst_eq; eauto; [lia|]. symmetry. apply list_insert_id, Hx.
Qed.

Lemma vpivot_spec a s0 d s y0 y1 (z0 z1 : bool) :
  nst Vec a s0 d [y0; y1] s -> p y0 <> nullptr -> p y1 <> nullptr ->
  wp (vpivot (nodeP a) [z0; z1]) s
    (fun acc s' => s' = s /\
       fst (fst acc) = if negb z0 then Some 0%nat else if negb z1 then Some 1%nat else None)
    tolerated.
Proof.
  intros Hn H0 H1. unfold vpivot. cbn [fold_each].
  apply wp_bind.
  wp_use nst_edge_at; [exact Hn| |auto]. intros x s' [-> Hx]. injection Hx as <-.
  rewrite (bool_decide_eq_false_2 _ H0). cbn [orb lookup_total list_lookup_total].
  assert (Hstep1 : forall acc,
            wp (ej <- edge_at Vec (nodeP a) 1;;
                (if bool_decide (p ej = nullptr) || ([z0; z1] !!! 1%nat)
                 then ret acc
                 else m <- in_cn (CN.mag2 (w ej));;
                      match fst (fst acc) with
                      | Some _ => ret (fst (fst acc), fadd (snd (fst acc)) m, snd acc)
                      | None => ret (Some 1%nat, m, m)
                      end)) s
              (fun acc' s' => s' = s /\
                 fst (fst acc') = match fst (fst acc) with
                                  | Some i => Some i
                                  | None => if negb z1 then Some 1%nat else None
                                  end) tolerated).
  { intros acc.
    wp_use nst_edge_at; [exact Hn| |auto]. intros x s' [-> Hx]. injection Hx as <-.
    rewrite (bool_decide_eq_false_2 _ H1). cbn [orb lookup_total list_lookup_total].
    destruct z1; cbn.
    - wp_steps. split; [reflexivity|]. destruct (fst (fst acc)); reflexivity.
    - wp_use P_mag2_same; [|auto]. intros m s' ->.
      destruct (fst (fst acc)); wp_steps; auto. }
  destruct z0; cbn [negb].
  - apply wp_ret.
    pose proof (Hstep1 (None, fp0, fp0)) as H. cbn [fst snd] in H.
    apply wp_bind. eapply wp_mono; [exact H|cbv beta|auto].
    intros acc' s' [-> Hacc]. wp_steps. auto.
  - wp_use P_mag2_same; [|auto]. intros m s' ->. apply wp_ret.
    pose proof (Hstep1 (Some 0%nat, m, m)) as H. cbn [fst snd] in H.
    apply wp_bind. eapply wp_mono; [exact H|cbv beta|auto].
    intros acc' s' [-> Hacc]. wp_steps. auto.
Qed.

Lemma clean_nonnull z x : p x <> nullptr -> p (clean z x) <> nullptr.
Proof. unfold clean. destruct (_ && _); auto. Qed.

Lemma clean_true x : w (clean true x) = CN.ZERO.
Proof.
  unfold clean, CN.cne, CN.ceq. cbn [andb].
  destruct (bool_decide_reflect (w x = CN.ZERO)); cbn; auto.
Qed.

Lemma clean_false x : clean false x = x.
Proof. reflexivity. Qed.

Lemma holds_ZERO : holds CN.ZERO = 0.
Proof. reflexivity. Qed.

Lemma holds_ONE : holds CN.ONE = 0.
Proof. reflexivity. Qed.

Lemma edge_ok_zero (c : CN.t (F:=F)) : edge_ok c zero.
Proof. split; [exact zero_not_null | apply interned_ZERO]. Qed.

Lemma wkind_ZERO cached (c : CN.t (F:=F)) : wkind cached c CN.ZERO.
Proof. destruct cached; [left; reflexivity | apply interned_ZERO]. Qed.

Lemma nst_set_val_cached k a s0 d es s j v :
  nst k a s0 d es s ->
  wp (in_cn (CN.set_val (CN.tag (CN.cacheE j) false) v)) s
    (fun _ s' => nst k a s0 d es s' /\ ple s s') tolerated.
Proof.
  intros Hn.
  eapply wp_mono; [apply (nst_cn _ 0 (fun _ _ => True) _ _ _ _ _ _ Hn) | cbv beta | auto].
  - eapply wp_mono; [apply CN_set_val_cached | cbv beta | auto].
    + eapply nst_cn_ok; eauto.
    + auto.
  - intros _ s' (H1 & H2 & _). split; [|exact H2]. eapply nst_eq; eauto. lia.
Qed.

Lemma pair_ok {P : Edge -> Prop} (es : list Edge) am em en :
  length es = 2%nat -> (am < 2)%nat ->
  es !! am = Some em -> es !! ((am + 1) mod 2)%nat = Some en ->
  P em -> P en -> Forall P es.
Proof.
  intros Hlen Ham Hm Hn Pm Pn.
  destruct es as [|u [|v [|? ?]]]; try discriminate.
  destruct am as [|[|?]]; [| |lia]; cbn in Hm, Hn;
    injection Hm as ->; injection Hn as ->; repeat constructor; assumption.
Qed.

Lemma succ_mod_ne am : (am < 2)%nat -> ((am + 1) mod 2)%nat <> am.
Proof. intros H. destruct am as [|[|?]]; [discriminate|discriminate|lia]. Qed.

Lemma clean_ok (c : CN.t (F:=F)) z x : edge_ok c x -> edge_ok c (clean z x).
Proof. unfold clean. destruct (_ && _); [intros _; apply edge_ok_zero | auto]. Qed.

(** An edge of the node gets its interned weight. *)
Lemma nst_intern_edge k a s0 d es s j x wt :
  nst k a s0 d es s -> es !! j = Some x -> p x <> nullptr -> interned (cn s) wt ->
  wp (set_weight k (nodeP a) j wt ;;;
      when (CN.ceq wt CN.ZERO) (set_edge k (nodeP a) j zero)) s
    (fun _ s' => exists x', nst k a s0 d (<[j := x']> es) s' /\
                            edge_ok (cn s') x' /\ cn s' = cn s)
    tolerated.
Proof.
  intros Hn Hx Hp Hw.
  wp_use nst_set_weight; [exact Hn|exact Hx| |auto]. intros _ s1 [Hn1 Hc1].
  destruct (CN.ceq wt CN.ZERO); cbn [when].
  - wp_use nst_set_edge; [exact Hn1| |auto]. intros _ s2 [Hn2 Hc2].
    exists zero. rewrite list_insert_insert_eq in Hn2.
    split; [exact Hn2|]. split; [apply edge_ok_zero | congruence].
  - wp_steps. eexists. split; [exact Hn1|]. split; [|exact Hc1].
    split; [exact Hp | rewrite Hc1; exact Hw].
Qed.

Lemma nst_start k a s es : inv_but k (Some a) s -> cand k a s es -> nst k a s 0 es s.
Proof. intros H1 H2. split; [exact H1|]. split; [apply pstep_refl | exact H2]. Qed.

Lemma wkind_interned (c : CN.t (F:=F)) wt : wkind false c wt -> interned c wt.
Proof. auto. Qed.

Lemma normalizeV_spec a cached s x0 x1 :
  inv_but Vec (Some a) s -> cand Vec a s [x0; x1] ->
  p x0 <> nullptr -> p x1 <> nullptr ->
  wkind cached (cn s) (w x0) -> wkind cached (cn s) (w x1) ->
  CN.cacheCount (cn s) + holding [x0; x1] <= CN.CACHE_SIZE ->
  wp (normalizeV (mkEdge (nodeP a) CN.ONE) cached) s
    (fun r s' => inv_but Vec None s' /\ pstep (holding [x0; x1] - holds (w r)) s s' /\
                 p r <> nullptr /\ wkind cached (cn s') (w r))
    tolerated.
Proof.
  intros Hinv Hcand Hp0 Hp1 Hk0 Hk1 Hb.
  pose proof (nst_start _ _ _ _ Hinv Hcand) as Hn.
  unfold normalizeV. cbn [p w].
  wp_use nst_edge_at; [exact Hn| |auto]. intros y s' [-> Hy]. injection Hy as <-.
  wp_use P_equalsZero_spec; [|auto]. intros z0 s' (-> & Hz0 & Hz0').
  wp_use nst_edge_at; [exact Hn| |auto]. intros y s' [-> Hy]. injection Hy as <-.
  wp_use P_equalsZero_spec; [|auto]. intros z1 s' (-> & Hz1 & Hz1').
  cbn [for_each lookup_total list_lookup_total].
  assert (Hc0 : cached = false -> z0 = true -> w x0 = CN.ZERO).
  { intros -> Hz. apply Hz0'; auto. apply Hinv. }
  assert (Hc1 : cached = false -> z1 = true -> w x1 = CN.ZERO).
  { intros -> Hz. apply Hz1'; auto. apply Hinv. }
  pose proof (holds_nonneg (w x0)) as Hh0. pose proof (holds_nonneg (w x1)) as Hh1.
  change (holding [x0; x1]) with (holds (w x0) + (holds (w x1) + 0)) in *.
  apply wp_bind. apply wp_bind.
  eapply wp_mono; [eapply (nst_clean_step Vec a s 0 [x0; x1] s 0 x0 z0 cached); eauto; lia
                  | cbv beta | auto].
  intros _ s1 Hn1. cbn [insert list_insert] in Hn1.
  apply wp_bind.
  eapply wp_mono; [eapply (nst_clean_step Vec a s _ _ s1 1 x1 z1 cached); eauto | cbv beta | auto].
  { destruct cached; [exact Hk1|]. eapply interned_le; [eapply nst_le; eauto | exact Hk1]. }
  { pose proof (holds_nonneg (w (clean z0 x0))). lia. }
  intros _ s2 Hn2. cbn [insert list_insert] in Hn2. wp_step.
  set (y0 := clean z0 x0) in *. set (y1 := clean z1 x1) in *.
  assert (Hq0 : p y0 <> nullptr) by (apply clean_nonnull, Hp0).
  assert (Hq1 : p y1 <> nullptr) by (apply clean_nonnull, Hp1).
  wp_use vpivot_spec; [exact Hn2|exact Hq0|exact Hq1| |auto].
  intros [[am sum] dv] s3 [-> Ham]. cbn [fst snd] in Ham. subst am.
  set (sel := if negb z0 then Some 0%nat else if negb z1 then Some 1%nat else None).
  assert (Hsel : (z0 = true /\ z1 = true /\ sel = None) \/
            exists am xm xn zn, sel = Some am /\ (am < 2)%nat /\
              [y0; y1] !! am = Some xm /\
              [y0; y1] !! ((am + 1) mod 2)%nat = Some (clean zn xn) /\
              [z0; z1] !!! ((am + 1) mod 2)%nat = zn /\
              w xm <> CN.ZERO /\ wkind cached (cn s) (w xm) /\
              wkind cached (cn s) (w xn) /\ p xm <> nullptr /\ p xn <> nullptr /\
              (zn = false -> w xn <> CN.ZERO) /\
              (cached = false -> zn = true -> w xn = CN.ZERO) /\
              holds (w x0) + holds (w x1) = holds (w xm) + holds (w xn) /\
              holds (w y0) + holds (w y1) = holds (w xm) + holds (w (clean zn xn))).
  { subst sel y0 y1. destruct z0; cbn [negb].
    - destruct z1; cbn [negb]; [left; auto|]. right.
      exists 1%nat, x1, x0, true. cbn. repeat split; auto; lia.
    - right. exists 0%nat, x0, x1, z1. cbn. repeat split; auto; lia. }
  clearbody sel. destruct Hsel as [(-> & -> & ->)|Hsel].
  - (* all edges are zero *)
    assert (Hw0 : w y0 = CN.ZERO) by apply clean_true.
    assert (Hw1 : w y1 = CN.ZERO) by apply clean_true.
    assert (Hfin : forall s', nst Vec a s
              (0 + holds (w x0) - holds (w y0) + holds (w x1) - holds (w y1)) [y0; y1] s' ->
              inv_but Vec None s' /\
              pstep (holds (w x0) + (holds (w x1) + 0) - holds (w zero)) s s' /\
              p zero <> nullptr /\ wkind cached (cn s') (w zero)).
    { intros s' (Hi & Hst & Hc). split; [|split; [|split]].
      - eapply inv_but_close; eauto.
        constructor; [split; [exact Hq0 | rewrite Hw0; apply interned_ZERO]|].
        constructor; [split; [exact Hq1 | rewrite Hw1; apply interned_ZERO]|].
        constructor.
      - eapply pstep_eq; [exact Hst|]. rewrite Hw0, Hw1, holds_zero, holds_ZERO. lia.
      - exact zero_not_null.
      - apply wkind_ZERO. }
    destruct cached.
    + cbn [for_each]. apply wp_bind. apply wp_bind.
      wp_use nst_edge_at; [exact Hn2| |auto]. intros y s' [-> Hy]. injection Hy as <-.
      rewrite (bool_decide_eq_false_2 _ Hq0). cbn [andb when]. wp_step.
      apply wp_bind.
      wp_use nst_edge_at; [exact Hn2| |auto]. intros y s' [-> Hy]. injection Hy as <-.
      rewrite (bool_decide_eq_false_2 _ Hq1). cbn [andb when]. wp_steps.
      apply Hfin, Hn2.
    + rewrite bool_decide_eq_false_2 by discriminate. cbn [negb when].
      wp_use nst_returnNode; [exact Hn2| |auto]. intros _ s' [Hn3 _]. wp_steps.
      apply Hfin, Hn3.
  - destruct Hsel as (am & xm & xn & zn & -> & Ham & Hxm & Hxn & Hzn & Hwm & Hkm & Hkn &
                      Hpm & Hpn & Hnz & Hcz & Hsum & Hsum').
    set (D := 0 + holds (w x0) - holds (w y0) + holds (w x1) - holds (w y1)) in *.
    set (an := ((am + 1) mod 2)%nat) in *.
    assert (Han : an <> am) by (apply succ_mod_ne, Ham).
    wp_use nst_edge_at; [exact Hn2| |auto]. intros y s' [-> Hy].
    assert (y = xm) as -> by congruence.
    (* the weight of the edge to the new node *)
    apply wp_bind.
    apply wp_mono with
      (Q := fun rw s' => nst Vec a s D [y0; y1] s' /\
              match rw with
              | Some rw0 => if cached then rw0 = w xm else interned (cn s') rw0
              | None => cached = false
              end)
      (E := tolerated); [| |auto].
    { destruct cached; cbn [andb].
      - pose proof (wkind_holds _ _ _ Hkm Hwm eq_refl) as Hcm.
        destruct (is_cached_not_static _ Hcm) as [_ Hone].
        unfold CN.cne, CN.ceq. rewrite (bool_decide_eq_false_2 _ Hone). cbn [negb].
        destruct (is_cached_inv _ Hcm) as (ka & kb & Hwxm). rewrite Hwxm. cbn [CN.r CN.i].
        wp_use P_get_val_same; [|auto]. intros vr s' ->.
        wp_use nst_set_val_cached; [exact Hn2| |auto]. intros _ s3 [Hn3 _].
        wp_use P_get_val_same; [|auto]. intros vi s' ->.
        wp_use nst_set_val_cached; [exact Hn3| |auto]. intros _ s4 [Hn4 _].
        wp_steps. auto.
      - wp_use P_val_same; [|auto]. intros vr s' ->.
        wp_use P_val_same; [|auto]. intros vi s' ->.
        wp_use nst_lookup2; [exact Hn2| |auto]. intros rw s3 (Hn3 & _ & Hrw).
        wp_use P_equalsZero_spec; [|auto]. intros z s' (-> & _).
        destruct z; wp_steps; auto. }
    intros rw s3 [Hn3 Hrw].
    assert (Hyok : cached = false -> forall c, pool_le (CN.pool (cn s)) (CN.pool c) ->
              edge_ok c y0 /\ edge_ok c y1).
    { intros -> c Hle. split; apply clean_ok; (split; [assumption|]);
        eapply interned_le; eauto. }
    assert (HD : cached = false -> D = 0 /\ holds (w x0) + holds (w x1) = 0).
    { intros ->. subst D y0 y1.
      rewrite (holds_interned _ _ Hk0), (holds_interned _ _ Hk1).
      destruct (Hyok eq_refl (cn s) (pool_le_refl _)) as [[_ H0] [_ H1]].
      rewrite (holds_interned _ _ H0), (holds_interned _ _ H1). lia. }
    destruct rw as [rw0|].
    2:{ (* the new weight is zero *)
      wp_steps. destruct (HD Hrw) as [HD0 Hh]. destruct Hn3 as (Hi & Hst & Hc).
      split; [|split; [|split]].
      - eapply inv_but_close; eauto.
        destruct (Hyok Hrw (cn s3)) as [H0 H1]; [apply Hst|].
        constructor; [assumption|constructor; [assumption|constructor]].
      - eapply pstep_eq; [exact Hst|]. rewrite holds_zero. lia.
      - exact zero_not_null.
      - apply wkind_ZERO. }
    wp_use nst_lookup2; [exact Hn3| |auto]. intros mw s4 (Hn4 & Hle4 & Hmw).
    apply wp_bind_assoc.
    wp_use nst_intern_edge; [exact Hn4|exact Hy|exact Hpm|exact Hmw| |auto].
    intros _ s5 (em & Hn5 & Hem & Hc5).
    assert (Hxn5 : (<[am := em]> [y0; y1]) !! an = Some (clean zn xn)).
    { rewrite list_lookup_insert_ne by congruence. exact Hxn. }
    rewrite Hzn.
    assert (Hlen : forall j x, length (<[j := x]> (<[am := em]> [y0; y1])) = 2%nat).
    { intros j x. rewrite !length_insert. reflexivity. }
    assert (Hfin : forall s' d' es' em' en',
              nst Vec a s d' es' s' -> ple s5 s' -> length es' = 2%nat ->
              es' !! am = Some em' -> es' !! an = Some en' ->
              edge_ok (cn s') em' -> edge_ok (cn s') en' ->
              d' = holds (w x0) + (holds (w x1) + 0) - holds rw0 ->
              inv_but Vec None s' /\
              pstep (holds (w x0) + (holds (w x1) + 0) - holds rw0) s s' /\
              nodeP a <> nullptr /\ wkind cached (cn s') rw0).
    { intros s' d' es' em' en' (Hi & Hst & Hc) Hle Hl Hm' Hn' Hom Hon ->.
      split; [|split; [exact Hst|split; [discriminate|]]].
      - eapply inv_but_close; eauto. eapply pair_ok; eauto.
      - destruct cached.
        + rewrite Hrw. right. eapply wkind_holds; eauto.
        + eapply interned_ple; [|exact Hrw].
          eapply ple_trans; [exact Hle4|]. eapply ple_trans; [apply ple_eq, Hc5|exact Hle]. }
    assert (Hrw0 : holds rw0 = holds (w xm)).
    { destruct cached; [rewrite Hrw; reflexivity|].
      rewrite (holds_interned _ _ Hrw), (holds_interned _ _ Hkm). reflexivity. }
    assert (HDn : D = holds (w xn) - holds (w (clean zn xn))) by (subst D; lia).
    pose proof (holds_nonneg (w xm)) as Hhm.
    destruct zn; cbn [negb when].
    + wp_steps. cbn [p w].
      eapply (Hfin s5 D _ em (clean true xn)); eauto.
      * apply ple_refl.
      * rewrite length_insert. reflexivity.
      * apply list_lookup_insert_eq. cbn. exact Ham.
      * split; [apply clean_nonnull, Hpn | rewrite clean_true; apply interned_ZERO].
      * rewrite HDn, clean_true, holds_ZERO. lia.
    + rewrite clean_false in *. apply wp_bind.
      wp_use nst_edge_at; [exact Hn5| |auto]. intros y s' [-> Hy'].
      assert (y = xn) as -> by congruence.
      specialize (Hnz eq_refl).
      apply wp_bind.
      apply wp_mono with
        (Q := fun nw s' => nst Vec a s (holds (w xn)) (<[am := em]> [y0; y1]) s' /\
                ple s5 s' /\ interned (cn s') nw)
        (E := tolerated); [| |auto].
      { destruct cached.
        - pose proof (wkind_holds _ _ _ Hkn Hnz eq_refl) as Hcn.
          rewrite (holds_cached _ Hcn) in *.
          wp_use nst_release; [exact Hn5|exact Hcn|lia| |auto]. intros _ s6 [Hn6 Hle6].
          wp_use nst_binop; [exact Hn6|exact Hcn| |auto]. intros _ s7 [Hn7 Hle7].
          wp_use nst_lookup; [exact Hn7| |auto]. intros nw s8 (Hn8 & Hle8 & Hnw).
          split; [eapply nst_eq; eauto; lia|]. split; [|exact Hnw].
          eapply ple_trans; [exact Hle6|]. eapply ple_trans; eauto.
        - wp_use nst_temp; [exact Hn5| |auto]. intros c s' [-> Hc].
          wp_use nst_binop; [exact Hn5|exact Hc| |auto]. intros _ s7 [Hn7 Hle7].
          wp_use nst_lookup; [exact Hn7| |auto]. intros nw s8 (Hn8 & Hle8 & Hnw).
          rewrite (holds_interned _ _ Hkn) in *.
          split; [eapply nst_eq; eauto; lia|]. split; [|exact Hnw].
          eapply ple_trans; eauto. }
      intros nw s6 (Hn6 & Hle6 & Hnw).
      wp_whole nst_intern_edge; [exact Hn6|exact Hxn5|exact Hpn|exact Hnw| |auto].
      intros _ s7 (en & Hn7 & Hen & Hc7). wp_steps. cbn [p w].
      eapply (Hfin s7 _ _ em en); eauto.
      * eapply ple_trans; [exact Hle6 | apply ple_eq, Hc7].
      * rewrite list_lookup_insert_ne by congruence. apply list_lookup_insert_eq. cbn. exact Ham.
      * apply list_lookup_insert_eq. rewrite length_insert. cbn.
        subst an. destruct am as [|[|?]]; cbn; lia.
      * eapply edge_ok_ple; [|exact Hem]. eapply ple_trans; [exact Hle6 | apply ple_eq, Hc7].
      * lia.
Qed.

Lemma elem_of_0123 j : j ∈ [0; 1; 2; 3]%nat <-> (j < 4)%nat.
Proof.
  rewrite !elem_of_cons, elem_of_nil. lia.
Qed.

Lemma mpivot_spec a s (es : list Edge) (zs : list bool) :
  cand Mat a s es ->
  wp (mpivot (nodeP a) zs) s
    (fun acc s' => s' = s /\
       match fst (fst acc) with
       | None => forall j, (j < 4)%nat -> zs !!! j = true
       | Some i => (i < 4)%nat /\ zs !!! i = false /\
                   exists y, es !! i = Some y /\ snd acc = w y
       end)
    tolerated.
Proof.
  intros Hc. unfold mpivot.
  eapply wp_mono;
    [apply wp_fold_each with
       (I := fun done acc s' => s' = s /\
          match fst (fst acc) with
          | None => forall j, j ∈ done -> zs !!! j = true
          | Some i => (i < 4)%nat /\ zs !!! i = false /\
                      exists y, es !! i = Some y /\ snd acc = w y
          end) (E := tolerated)
    | cbv beta | auto].
  - split; [reflexivity|]. cbn. intros j Hj. inversion Hj.
  - intros done j rest [[am mx] mc] s1 Hl [-> Hacc]. cbn [fst snd] in *.
    assert (Hj : (j < 4)%nat).
    { apply elem_of_0123. rewrite Hl. apply elem_of_app. right. left. }
    destruct (zs !!! j) eqn:Hz.
    + wp_steps. split; [reflexivity|]. cbn [fst snd]. destruct am; [exact Hacc|].
      intros j' Hj'. apply elem_of_app in Hj' as [Hj'|Hj']; [auto|].
      apply list_elem_of_singleton in Hj'. subst j'. exact Hz.
    + wp_use P_edge_at_cand; [exact Hc| |auto]. intros y s' [-> Hy].
      wp_use P_mag2_same; [|auto]. intros mag s' ->.
      destruct am as [i|].
      * destruct (fltb _ _); wp_steps; (split; [reflexivity|]); cbn [fst snd]; eauto.
      * wp_steps. split; [reflexivity|]. cbn [fst snd]. eauto.
  - intros acc s' [-> Hacc]. split; [reflexivity|].
    destruct (fst (fst acc)); [exact Hacc|]. intros j Hj. apply Hacc, elem_of_0123, Hj.
Qed.

Lemma holding_ok (c : CN.t (F:=F)) (es : list Edge) :
  Forall (edge_ok c) es -> holding es = 0.
Proof.
  induction 1 as [|x l Hx _ IH]; [reflexivity|].
  change (holds (w x) + holding l = 0). rewrite (holds_interned _ _ (proj2 Hx)). lia.
Qed.

Lemma Forall4 {P : Edge -> Prop} (es : list Edge) :
  length es = 4%nat ->
  (forall j x, (j < 4)%nat -> es !! j = Some x -> P x) -> Forall P es.
Proof.
  intros Hlen H. destruct es as [|u0 [|u1 [|u2 [|u3 [|? ?]]]]]; try discriminate.
  repeat constructor.
  - apply (H 0%nat); [lia|reflexivity].
  - apply (H 1%nat); [lia|reflexivity].
  - apply (H 2%nat); [lia|reflexivity].
  - apply (H 3%nat); [lia|reflexivity].
Qed.

Lemma normalizeM_spec a cached s x0 x1 x2 x3 :
  let es0 := [x0; x1; x2; x3] in
  inv_but Mat (Some a) s -> cand Mat a s es0 ->
  Forall (fun x => p x <> nullptr /\ wkind cached (cn s) (w x)) es0 ->
  CN.cacheCount (cn s) + holding es0 <= CN.CACHE_SIZE ->
  wp (normalizeM (mkEdge (nodeP a) CN.ONE) cached) s
    (fun r s' => inv_but Mat None s' /\ pstep (holding es0 - holds (w r)) s s' /\
                 p r <> nullptr /\ wkind cached (cn s') (w r))
    tolerated.
Proof.
  intros es0 Hinv Hcand Hes Hb.
  pose proof (nst_start _ _ _ _ Hinv Hcand) as Hn.
  unfold normalizeM. cbn [p w map_each].
  (* the zero flags *)
  assert (Hflag : forall j x (Q : bool -> t -> Prop),
            es0 !! j = Some x ->
            (forall z, (z = false -> w x <> CN.ZERO) ->
                       (cached = false -> z = true -> w x = CN.ZERO) -> Q z s) ->
            wp (ej <- edge_at Mat (nodeP a) j ;; in_cn (CN.equalsZero (w ej))) s Q tolerated).
  { intros j x Q Hx HQ.
    wp_use nst_edge_at; [exact Hn| |auto]. intros y s' [-> Hy].
    assert (y = x) as -> by congruence.
    wp_whole P_equalsZero_spec; [|auto]. intros z s' (-> & Hz & Hz').
    apply HQ; [exact Hz|]. intros -> Hzt. apply Hz'; auto; [apply Hinv|].
    rewrite Forall_forall in Hes. apply (Hes x). eapply list_elem_of_lookup_2; eauto. }
  apply wp_bind. apply wp_bind. apply (Hflag 0%nat x0); [reflexivity|]. intros z0 Hz0 Hc0.
  apply wp_bind. apply wp_bind. apply (Hflag 1%nat x1); [reflexivity|]. intros z1 Hz1 Hc1.
  apply wp_bind. apply wp_bind. apply (Hflag 2%nat x2); [reflexivity|]. intros z2 Hz2 Hc2.
  apply wp_bind. apply wp_bind. apply (Hflag 3%nat x3); [reflexivity|]. intros z3 Hz3 Hc3.
  wp_step. clear Hflag.
  assert (Hkind : forall j x s', es0 !! j = Some x -> ple s s' ->
            p x <> nullptr /\ wkind cached (cn s') (w x)).
  { intros j x s' Hx Hle. rewrite Forall_forall in Hes.
    destruct (Hes x) as [Hp Hk]; [eapply list_elem_of_lookup_2; eauto|].
    split; [exact Hp|]. destruct cached; [exact Hk|]. eapply interned_ple; eauto. }
  set (y0 := clean z0 x0). set (y1 := clean z1 x1).
  set (y2 := clean z2 x2). set (y3 := clean z3 x3).
  set (es1 := [y0; y1; y2; y3]). set (zs := [z0; z1; z2; z3]).
  pose proof (holds_nonneg (w x0)) as Hh0. pose proof (holds_nonneg (w x1)) as Hh1.
  pose proof (holds_nonneg (w x2)) as Hh2. pose proof (holds_nonneg (w x3)) as Hh3.
  pose proof (holds_nonneg (w y0)) as Hg0. pose proof (holds_nonneg (w y1)) as Hg1.
  pose proof (holds_nonneg (w y2)) as Hg2. pose proof (holds_nonneg (w y3)) as Hg3.
  assert (HH0 : holding es0 = holds (w x0) + holds (w x1) + holds (w x2) + holds (w x3)).
  { subst es0. cbn. lia. }
  assert (HH1 : holding es1 = holds (w y0) + holds (w y1) + holds (w y2) + holds (w y3)).
  { subst es1. cbn. lia. }
  (* the first loop *)
  apply wp_bind. cbn [for_each lookup_total list_lookup_total].
  apply wp_mono with (Q := fun _ s' => nst Mat a s (holding es0 - holding es1) es1 s')
                     (E := tolerated); [| |auto].
  { apply wp_bind.
    eapply wp_mono; [eapply (nst_clean_step Mat a s 0 es0 s 0 x0 z0 cached); eauto
                    | cbv beta | auto].
    { apply (Hkind 0%nat); [reflexivity | apply ple_refl]. }
    { lia. }
    intros _ s1 Hn1. cbn [insert list_insert es0] in Hn1. apply wp_bind.
    eapply wp_mono; [eapply (nst_clean_step Mat a s _ _ s1 1 x1 z1 cached); eauto
                    | cbv beta | auto].
    { apply (Hkind 1%nat); [reflexivity | eapply nst_le; eauto]. }
    { fold y0. lia. }
    intros _ s2 Hn2. cbn [insert list_insert] in Hn2. apply wp_bind.
    eapply wp_mono; [eapply (nst_clean_step Mat a s _ _ s2 2 x2 z2 cached); eauto
                    | cbv beta | auto].
    { apply (Hkind 2%nat); [reflexivity | eapply nst_le; eauto]. }
    { fold y0 y1. lia. }
    intros _ s3 Hn3. cbn [insert list_insert] in Hn3. apply wp_bind.
    eapply wp_mono; [eapply (nst_clean_step Mat a s _ _ s3 3 x3 z3 cached); eauto
                    | cbv beta | auto].
    { apply (Hkind 3%nat); [reflexivity | eapply nst_le; eauto]. }
    { fold y0 y1 y2. lia. }
    intros _ s4 Hn4. cbn [insert list_insert] in Hn4. wp_step.
    eapply nst_eq; eauto. fold y0 y1 y2 y3. lia. }
  intros _ s1 Hn1.
  wp_use mpivot_spec; [apply Hn1| |auto]. intros [[am mx] maxc] s' [-> Hpiv].
  cbn [fst snd] in Hpiv. fold zs in Hpiv |- *.
  assert (Hy : forall j y, es1 !! j = Some y ->
            exists x, es0 !! j = Some x /\ y = clean (zs !!! j) x).
  { intros j y Hj. subst es1 es0 zs.
    destruct j as [|[|[|[|?]]]]; cbn in Hj |- *; try discriminate;
      injection Hj as <-; eauto. }
  destruct am as [am|].
  2:{ (* all edges are zero *)
    assert (Hzero : forall j y, es1 !! j = Some y -> p y <> nullptr /\ w y = CN.ZERO).
    { intros j y Hj. destruct (Hy j y Hj) as (x & Hx & ->).
      assert (Hlt : (j < 4)%nat) by (apply lookup_lt_Some in Hx; exact Hx).
      rewrite (Hpiv j Hlt). split; [|apply clean_true].
      apply clean_nonnull. eapply Hkind; [exact Hx|apply ple_refl]. }
    assert (HZ : holding es1 = 0).
    { rewrite HH1.
      destruct (Hzero 0%nat y0 eq_refl) as [_ ->]. destruct (Hzero 1%nat y1 eq_refl) as [_ ->].
      destruct (Hzero 2%nat y2 eq_refl) as [_ ->]. destruct (Hzero 3%nat y3 eq_refl) as [_ ->].
      reflexivity. }
    assert (Hfin : forall s', nst Mat a s (holding es0 - holding es1) es1 s' ->
              inv_but Mat None s' /\ pstep (holding es0 - holds (w zero)) s s' /\
              p zero <> nullptr /\ wkind cached (cn s') (w zero)).
    { intros s' (Hi & Hst & Hc). split; [|split; [|split]].
      - eapply inv_but_close; eauto. apply Forall4; [reflexivity|].
        intros j y _ Hj. destruct (Hzero j y Hj) as [Hp Hw].
        split; [exact Hp | rewrite Hw; apply interned_ZERO].
      - eapply pstep_eq; [exact Hst|]. rewrite HZ, holds_zero. lia.
      - exact zero_not_null.
      - apply wkind_ZERO. }
    destruct cached.
    - apply wp_bind.
      do 4 (apply wp_bind; wp_use nst_edge_at; [exact Hn1| |auto];
            let y := fresh "y" in let Hj := fresh "Hj" in
            intros y ? [-> Hj]; destruct (Hzero _ _ Hj) as [_ ->];
            unfold CN.cne, CN.ceq; rewrite bool_decide_eq_true_2 by reflexivity;
            cbn [negb when]; wp_step).
      wp_steps. apply Hfin, Hn1.
    - rewrite bool_decide_eq_false_2 by discriminate. cbn [negb when].
      wp_use nst_returnNode; [exact Hn1| |auto]. intros _ s' [Hn2 _]. wp_steps.
      apply Hfin, Hn2. }
  destruct Hpiv as (Ham & Hzam & ym & Hym & ->).
  destruct (Hy _ _ Hym) as (xm & Hxm & Hymx). rewrite Hzam, clean_false in Hymx. subst ym.
  destruct (Hkind _ _ s Hxm (ple_refl _)) as [Hpm Hkm].
  assert (Hwm : w xm <> CN.ZERO).
  { subst es0 zs. destruct am as [|[|[|[|?]]]]; cbn in Hxm, Hzam; try discriminate;
      injection Hxm as <-; auto. }
  apply wp_bind.
  eapply wp_mono;
    [apply wp_fold_each with
       (I := fun done rw s' => exists d es,
          nst Mat a s d es s' /\ length es = 4%nat /\
          d + holding es + holds rw = holding es0 /\
          (forall j x, j ∈ done -> es !! j = Some x -> edge_ok (cn s') x) /\
          (forall j, j ∉ done -> es !! j = es1 !! j) /\
          rw = if bool_decide (am ∈ done) then w xm else CN.ONE) (E := tolerated)
    | cbv beta | auto].
  - exists (holding es0 - holding es1), es1. split; [exact Hn1|]. split; [reflexivity|].
    split; [rewrite holds_ONE; lia|]. split; [|split].
    + intros j x Hj. inversion Hj.
    + reflexivity.
    + rewrite bool_decide_eq_false_2; [reflexivity|]. intros Hj. inversion Hj.
  - intros done j rest rw s2 Hl (d & es & Hn2 & Hlen & Hpot & Hdone & Hrest & Hrw).
    assert (Hj4 : (j < 4)%nat).
    { apply elem_of_0123. rewrite Hl. apply elem_of_app. right. left. }
    assert (Hjd : j ∉ done).
    { assert (Hnd : NoDup (done ++ j :: rest)).
      { rewrite <- Hl. repeat constructor; rewrite ?elem_of_cons, ?elem_of_nil; lia. }
      apply NoDup_app in Hnd as (_ & Hnd & _). intros Hin. apply (Hnd j Hin). left. }
    destruct (lookup_lt_is_Some_2 es1 j) as [yj Hyj]; [cbn; lia|].
    pose proof Hyj as Hesj. rewrite <- (Hrest j Hjd) in Hesj.
    destruct (Hy _ _ Hyj) as (xj & Hxj & Hyjx).
    destruct (Hkind _ _ s2 Hxj (nst_le _ _ _ _ _ _ Hn2)) as [Hpj Hkj].
    assert (Hpyj : p yj <> nullptr) by (rewrite Hyjx; apply clean_nonnull, Hpj).
    assert (Hfin : forall s3 d' x' rw',
              nst Mat a s d' (<[j := x']> es) s3 -> ple s2 s3 -> edge_ok (cn s3) x' ->
              d' + holds rw' = d + holds (w yj) + holds rw ->
              rw' = (if bool_decide (am ∈ done ++ [j]) then w xm else CN.ONE) ->
              exists d es,
                nst Mat a s d es s3 /\ length es = 4%nat /\
                d + holding es + holds rw' = holding es0 /\
                (forall j0 x, j0 ∈ done ++ [j] -> es !! j0 = Some x -> edge_ok (cn s3) x) /\
                (forall j0, j0 ∉ done ++ [j] -> es !! j0 = es1 !! j0) /\
                rw' = if bool_decide (am ∈ done ++ [j]) then w xm else CN.ONE).
    { intros s3 d' x' rw' Hn3 Hle Hx' Hd' Hrw'. exists d', (<[j := x']> es).
      split; [exact Hn3|]. split; [rewrite length_insert; exact Hlen|].
      split; [|split; [|split; [|exact Hrw']]].
      - rewrite (holding_insert _ _ _ _ Hesj), (holds_interned _ _ (proj2 Hx')). lia.
      - intros j0 x Hj0 Hx0. destruct (decide (j0 = j)) as [->|Hne].
        + rewrite list_lookup_insert_eq in Hx0 by lia. injection Hx0 as <-. exact Hx'.
        + rewrite list_lookup_insert_ne in Hx0 by congruence.
          apply elem_of_app in Hj0 as [Hj0|Hj0].
          * eapply edge_ok_ple; [exact Hle|]. eapply Hdone; eauto.
          * apply list_elem_of_singleton in Hj0. contradiction.
      - intros j0 Hj0. rewrite list_lookup_insert_ne.
        + apply Hrest. intros Hin. apply Hj0, elem_of_app. auto.
        + intros ->. apply Hj0, elem_of_app. right. left. }
    assert (Hmem : j <> am -> bool_decide (am ∈ done ++ [j]) = bool_decide (am ∈ done)).
    { intros Hne. apply bool_decide_ext. rewrite elem_of_app.
      rewrite list_elem_of_singleton. intuition congruence. }
    destruct (bool_decide_reflect (j = am)) as [->|Hjam].
    + (* the edge of the maximum *)
      assert (yj = xm) as -> by congruence.
      rewrite (bool_decide_eq_false_2 _ Hjd) in Hrw. subst rw.
      unfold CN.ceq. rewrite bool_decide_eq_true_2 by reflexivity.
      assert (Hret : wp (if cached then ret (w xm) else ret (w xm)) s2
                (fun rw0 s' => rw0 = w xm /\ s' = s2) tolerated).
      { destruct cached; wp_steps; auto. }
      wp_use Hret; [|auto]. intros rw0 s' [-> ->].
      wp_use nst_set_weight; [exact Hn2|exact Hesj| |auto]. intros _ s3 [Hn3 Hcn3].
      wp_steps. eapply (Hfin _ _ _ _ Hn3).
      * apply ple_eq, Hcn3.
      * split; [exact Hpyj | apply interned_ONE].
      * rewrite holds_ONE. lia.
      * rewrite bool_decide_eq_true_2; [reflexivity|]. apply elem_of_app. right. left.
    + destruct (zs !!! j) eqn:Hzj.
      * (* an edge with a weight near zero *)
        assert (Hwj : w yj = CN.ZERO) by (rewrite Hyjx; apply clean_true).
        wp_use nst_edge_at; [exact Hn2| |auto]. intros y s' [-> Hy'].
        assert (y = yj) as -> by congruence. rewrite Hwj.
        unfold CN.cne, CN.ceq. rewrite bool_decide_eq_true_2 by reflexivity.
        rewrite andb_false_r. cbn [when]. do 2 wp_step.
        wp_use nst_set_edge; [exact Hn2| |auto]. intros _ s3 [Hn3 Hcn3].
        wp_steps. eapply (Hfin _ _ _ _ Hn3).
        -- apply ple_eq, Hcn3.
        -- apply edge_ok_zero.
        -- rewrite Hwj, holds_ZERO. lia.
        -- rewrite Hrw, Hmem by exact Hjam. reflexivity.
      * (* the other edges *)
        rewrite clean_false in Hyjx. subst yj.
        assert (Hwj : w xj <> CN.ZERO).
        { subst es0 zs. destruct j as [|[|[|[|?]]]]; cbn in Hxj, Hzj; try discriminate;
            injection Hxj as <-; auto. }
        wp_use nst_edge_at; [exact Hn2| |auto]. intros y s' [-> Hy'].
        assert (y = xj) as -> by congruence.
        apply wp_bind.
        apply wp_mono with
          (Q := fun _ s' => nst Mat a s (d + holds (w xj)) es s' /\ ple s2 s')
          (E := tolerated); [| |auto].
        { destruct cached; cbn [andb negb].
          - pose proof (wkind_holds _ _ _ Hkj Hwj eq_refl) as Hcj.
            destruct (is_cached_not_static _ Hcj) as [_ Hone].
            unfold CN.cne, CN.ceq. rewrite (bool_decide_eq_false_2 _ Hone). cbn [negb when].
            rewrite (holds_cached _ Hcj) in *.
            pose proof (holding_lookup _ _ _ Hesj) as Hge.
            rewrite (holds_cached _ Hcj) in Hge.
            pose proof (holds_nonneg rw).
            wp_whole nst_release; [exact Hn2|exact Hcj|lia| |auto]. auto.
          - cbn [when]. wp_steps. rewrite (holds_interned _ _ Hkj).
            split; [eapply nst_eq; eauto; lia | apply ple_refl]. }
        intros _ s3 [Hn3 Hle3].
        wp_use P_equalsOne_same; [|auto]. intros isOne s' ->.
        apply wp_bind.
        apply wp_mono with
          (Q := fun _ s' => exists wj, nst Mat a s (d + holds (w xj))
                                         (<[j := mkEdge (p xj) wj]> es) s' /\ ple s3 s')
          (E := tolerated); [| |auto].
        { destruct isOne; cbn [when].
          - wp_whole nst_set_weight; [exact Hn3|exact Hesj| |auto].
            intros _ s4 [Hn4 Hcn4]. exists CN.ONE. split; [exact Hn4 | apply ple_eq, Hcn4].
          - wp_steps. exists (w xj). split; [|apply ple_refl].
            eapply nst_eq; eauto. symmetry. apply list_insert_id.
            rewrite Hesj. destruct xj; reflexivity. }
        intros _ s4 (wj & Hn4 & Hle4).
        assert (Hesj4 : (<[j := mkEdge (p xj) wj]> es) !! j = Some (mkEdge (p xj) wj)).
        { apply list_lookup_insert_eq. lia. }
        wp_use nst_edge_at; [exact Hn4| |auto]. intros y s' [-> Hy4].
        assert (y = mkEdge (p xj) wj) as -> by congruence. cbn [w p].
        wp_use nst_temp; [exact Hn4| |auto]. intros c s' [-> Hc].
        wp_use nst_binop; [exact Hn4|exact Hc| |auto]. intros _ s5 [Hn5 Hle5].
        wp_use nst_lookup; [exact Hn5| |auto]. intros nw s6 (Hn6 & Hle6 & Hnw).
        wp_use nst_set_weight; [exact Hn6|exact Hesj4| |auto]. intros _ s7 [Hn7 Hcn7].
        rewrite list_insert_insert_eq in Hn7. cbn [p] in Hn7.
        wp_steps. eapply (Hfin _ _ _ _ Hn7).
        -- eapply ple_trans; [exact Hle3|]. eapply ple_trans; [exact Hle4|].
           eapply ple_trans; [exact Hle5|]. eapply ple_trans; [exact Hle6|].
           apply ple_eq, Hcn7.
        -- split; [exact Hpyj | rewrite Hcn7; exact Hnw].
        -- lia.
        -- rewrite Hrw, Hmem by exact Hjam. reflexivity.
  - intros rw s2 (d & es & Hn2 & Hlen & Hpot & Hdone & _ & Hrw). wp_steps. cbn [p w].
    rewrite bool_decide_eq_true_2 in Hrw by (apply elem_of_0123, Ham). subst rw.
    destruct Hn2 as (Hi & Hst & Hc).
    assert (Hall : Forall (edge_ok (cn s2)) es).
    { apply Forall4; [exact Hlen|]. intros j x Hj Hx. eapply Hdone; eauto.
      apply elem_of_0123, Hj. }
    split; [eapply inv_but_close; eauto|]. split; [|split; [discriminate|]].
    + eapply pstep_eq; [exact Hst|].
      pose proof (holding_ok _ _ Hall). lia.
    + destruct cached.
      * right. eapply wkind_holds; eauto.
      * eapply interned_ple; [apply Hst | exact Hkm].
Qed.

Lemma normalize_spec k a cached s es :
  inv_but k (Some a) s -> cand k a s es ->
  Z.of_nat (length es) = arity k ->
  Forall (fun x => p x <> nullptr /\ wkind cached (cn s) (w x)) es ->
  CN.cacheCount (cn s) + holding es <= CN.CACHE_SIZE ->
  wp (normalize k (mkEdge (nodeP a) CN.ONE) cached) s
    (fun r s' => inv_but k None s' /\ pstep (holding es - holds (w r)) s s' /\
                 p r <> nullptr /\ wkind cached (cn s') (w r))
    tolerated.
Proof.
  intros Hinv Hc Hlen Hes Hb. destruct k; cbn [normalize].
  - destruct es as [|x0 [|x1 [|? ?]]];
      try (exfalso; cbn [length] in Hlen; unfold arity, RADIX in Hlen; lia).
    apply Forall_cons in Hes as [[Hp0 Hk0] Hes]. apply Forall_cons in Hes as [[Hp1 Hk1] _].
    apply normalizeV_spec; assumption.
  - destruct es as [|x0 [|x1 [|x2 [|x3 [|? ?]]]]];
      try (exfalso; cbn [length] in Hlen; unfold arity, NEDGE in Hlen; lia).
    apply normalizeM_spec; assumption.
Qed.

(** *** The unique table *)

Lemma UT_assert_successors_same k lvl (edges : list Edge) (u : UniqueTable.t) :
  wp (UniqueTable.assert_successors k lvl edges) u (fun _ u' => u' = u) tolerated.
Proof.
  induction edges as [|ed edges IH]; cbn [UniqueTable.assert_successors]; [wp_steps; auto|].
  wp_use UT_node_same; [|auto]. intros c u' [-> _]. wp_steps. exact IH.
Qed.

Lemma UT_search_spec k ed keep chain (u : UniqueTable.t) :
  (exists a, p ed = nodeP a) ->
  wp (UniqueTable.search k ed keep chain) u
    (fun r u' => UniqueTable.heap u' = UniqueTable.heap u /\
                 UniqueTable.tables u' = UniqueTable.tables u /\
                 forall r', r = Some r' -> w r' = w ed /\ p r' <> nullptr)
    tolerated.
Proof.
  intros [a Hp].
  revert u. induction chain as [|q rest IH]; intros u; cbn [UniqueTable.search].
  - wp_steps. repeat split; intros; discriminate.
  - wp_use UT_node_same; [|auto]. intros n u' [-> Hn].
    wp_use UT_node_same; [|auto]. intros qn u' [-> Hqn].
    destruct (bool_decide (e n = e qn)).
    + apply wp_bind.
      apply wp_mono with
        (Q := fun _ u' => UniqueTable.heap u' = UniqueTable.heap u /\
                          UniqueTable.tables u' = UniqueTable.tables u)
        (E := tolerated); [| |auto].
      { destruct (negb (bool_decide (p ed = nodeP q)) && negb keep); cbn [when].
        - rewrite Hp. unfold UniqueTable.returnNode. wp_steps. auto.
        - wp_steps. auto. }
      intros _ u1 [Hh Ht]. wp_steps.
      wp_use UT_node_same; [|auto]. intros qn' u2 [-> _].
      wp_use UT_node_same; [|auto]. intros n' u2 [-> _]. wp_steps.
      wp_use UT_assert_successors_same; [|auto]. intros _ u2 ->. wp_steps.
      cbn. split; [exact Hh|]. split; [exact Ht|].
      intros r' [= <-]. split; [reflexivity | discriminate].
    + wp_steps. wp_use IH; [|auto]. cbn. auto.
Qed.

Lemma UT_lookup_spec k ed keep (u : UniqueTable.t) :
  wp (UniqueTable.lookup k ed keep) u
    (fun r u' => UniqueTable.heap u' = UniqueTable.heap u /\ w r = w ed /\
                 (p ed <> nullptr -> p r <> nullptr))
    tolerated.
Proof.
  unfold UniqueTable.lookup.
  wp_use UT_node_same; [|auto]. intros n u' [-> Hn].
  destruct (v n =? -1) eqn:Hv; [wp_steps; auto|].
  assert (Hp : exists a, p ed = nodeP a).
  { destruct (p ed); [discriminate| |eauto]. cbn in Hn. injection Hn as <-.
    destruct k; discriminate. }
  wp_steps. wp_use UT_assert_successors_same; [|auto]. intros _ u1 ->.
  unfold UniqueTable.bucket. wp_steps.
  destruct (_ && _); wp_steps.
  wp_use UT_search_spec; [exact Hp| |auto]. cbn. intros found u1 (Hh & Ht & Hr).
  destruct found as [r|].
  - wp_steps. destruct (Hr r eq_refl) as [Hw Hpr]. auto.
  - destruct Hp as [a Hp]. rewrite Hp. unfold UniqueTable.set_bucket. wp_steps. cbn.
    repeat split; auto. rewrite Hp. discriminate.
Qed.

Lemma UT_getNode_spec k (u : UniqueTable.t) :
  wp (UniqueTable.getNode k) u
    (fun ptr u' => exists r, ptr = nodeP r /\
       (forall a', a' <> r -> UniqueTable.heap u' !! a' = UniqueTable.heap u !! a') /\
       exists n, UniqueTable.heap u' !! r = Some n /\
                 e n = e (default freshNode (UniqueTable.heap u !! r)))
    tolerated.
Proof.
  unfold UniqueTable.getNode. wp_steps.
  assert (Hupd : forall r (u1 : UniqueTable.t),
            UniqueTable.heap u1 = UniqueTable.heap u ->
            wp (UniqueTable.update k (nodeP r)
                  (fun n => mkNode (e n) 0 (v n) (symm n) (ident n))) u1
              (fun _ u' =>
                 (forall a', a' <> r -> UniqueTable.heap u' !! a' = UniqueTable.heap u !! a') /\
                 exists n, UniqueTable.heap u' !! r = Some n /\
                           e n = e (default freshNode (UniqueTable.heap u !! r)))
              tolerated).
  { intros r u1 Hh.
    wp_whole UT_update_spec; [|auto]. intros _ u' (n & Hn & ->). cbn. split.
    - intros a' Ha. rewrite lookup_insert_ne by congruence. rewrite Hh. reflexivity.
    - eexists. split; [apply lookup_insert_eq|]. cbn.
      cbn in Hn. destruct (UniqueTable.allocated _ _); [|discriminate].
      injection Hn as <-. rewrite Hh. reflexivity. }
  destruct (UniqueTable.available u) as [|r rest]; wp_steps.
  - wp_use Hupd; [reflexivity| |auto]. intros _ u' H. wp_steps. eauto.
  - wp_use Hupd; [reflexivity| |auto]. intros _ u' H. wp_steps. eauto.
Qed.

(** *** [makeDDNode] *)

Lemma inv_ut k a s s' : inv s -> ut_only k a s s' -> inv_but k a s'.
Proof.
  intros Hinv Hut. eapply inv_but_ut; [|exact Hut]. apply inv_but_open, inv_swap, Hinv.
Qed.

Lemma inv_ut_none k s s' : inv s -> ut_only k None s s' -> inv s'.
Proof. intros Hinv Hut. apply (inv_swap k). eapply inv_ut; eauto. Qed.

(** Writing the flags of a node. *)
Lemma P_set_flags_spec b f s :
  (forall n, e (f n) = e n) -> inv s ->
  wp (set_flags (nodeP b) f) s (fun _ s' => inv s' /\ cn s' = cn s) tolerated.
Proof.
  intros Hf Hinv. unfold set_flags.
  wp_whole P_update_cand; [|auto]. intros _ s' (Hut & n & Hn & Hh).
  split; [|eapply ut_only_cn; eauto].
  apply (inv_swap Mat). eapply (inv_but_close Mat b s' (e n)).
  - eapply inv_ut; eauto.
  - eexists. split; [exact Hh | apply Hf].
  - rewrite (ut_only_cn _ _ _ _ Hut).
    cbn in Hn. destruct (UniqueTable.allocated _ _); [|discriminate].
    destruct (UniqueTable.heap (mUniqueTable s) !! b) as [n0|] eqn:Hb; cbn in Hn;
      injection Hn as <-.
    + apply (inv_swap Mat) in Hinv. destruct Hinv as (_ & Hnodes & _).
      eapply Hnodes; [discriminate | exact Hb].
    + constructor.
Qed.

Lemma P_edge_at_inv k ptr j s :
  inv s ->
  wp (edge_at k ptr j) s
    (fun x s' => s' = s /\ (ptr = terminal \/ edge_ok (cn s) x)) tolerated.
Proof.
  intros Hinv. apply (P_edge_at_ok k None); [|discriminate].
  apply (inv_swap k) in Hinv. apply Hinv.
Qed.

Lemma checkSpecialMatrices_spec tr ptr s :
  preserving tr -> inv s ->
  wp (checkSpecialMatrices tr ptr) s (fun _ s' => inv s' /\ pstep 0 s s') tolerated.
Proof.
  intros Htr Hinv. unfold checkSpecialMatrices.
  wp_use P_node_same; [|auto]. intros n s' [-> Hn].
  destruct (v n =? -1) eqn:Hv; [wp_steps; split; [exact Hinv|apply pstep_refl]|].
  assert (Hptr : exists b, ptr = nodeP b).
  { destruct ptr; [discriminate| |eauto]. cbn in Hn. injection Hn as <-. discriminate. }
  destruct Hptr as [b ->].
  wp_use P_set_flags_spec; [reflexivity|exact Hinv| |auto]. intros _ s1 [Hinv1 Hc1].
  assert (Hst1 : pstep 0 s s1).
  { unfold pstep. rewrite Hc1. split; [apply pool_le_refl|lia]. }
  assert (Hdone : forall s', inv s' /\ pstep 0 s s' ->
            wp (ret tt) s' (fun _ s'' => inv s'' /\ pstep 0 s s'') tolerated).
  { intros s' H. wp_steps. exact H. }
  wp_use P_edge_at_inv; [exact Hinv1| |auto]. intros e0 s' [-> He0].
  wp_use P_node_same; [|auto]. intros c0 s' [-> _].
  destruct (negb (symm c0)); [apply Hdone; auto|].
  wp_use P_edge_at_inv; [exact Hinv1| |auto]. intros e3 s' [-> He3].
  wp_use P_node_same; [|auto]. intros c3 s' [-> _].
  destruct (negb (symm c3)); [apply Hdone; auto|].
  wp_use P_edge_at_inv; [exact Hinv1| |auto]. intros e1 s' [-> He1].
  destruct He1 as [He1|He1]; [discriminate|].
  wp_use Htr; [exact Hinv1|exact He1| |auto]. intros t1 s2 (Hinv2 & Hst2 & _).
  assert (Hst12 : pstep 0 s s2) by apply (pstep_trans 0 0 _ _ _ Hst1 Hst2).
  wp_use P_edge_at_inv; [exact Hinv2| |auto]. intros e2 s' [-> He2].
  destruct (negb (bool_decide (t1 = e2))); [apply Hdone; auto|].
  wp_use P_set_flags_spec; [reflexivity|exact Hinv2| |auto]. intros _ s3 [Hinv3 Hc3].
  assert (Hst3 : pstep 0 s s3).
  { destruct Hst12 as [Hle Hcnt]. unfold pstep. rewrite Hc3. auto. }
  wp_use P_edge_at_inv; [exact Hinv3| |auto]. intros e0' s' [-> _].
  wp_use P_node_same; [|auto]. intros c0' s' [-> _].
  wp_use P_edge_at_inv; [exact Hinv3| |auto]. intros e1' s' [-> _].
  wp_use P_edge_at_inv; [exact Hinv3| |auto]. intros e2' s' [-> _].
  wp_use P_edge_at_inv; [exact Hinv3| |auto]. intros e3' s' [-> _].
  destruct (_ || _); [apply Hdone; auto|].
  wp_use P_node_same; [|auto]. intros c3' s' [-> _].
  destruct (negb (ident c3')); [apply Hdone; auto|].
  wp_whole P_set_flags_spec; [reflexivity|exact Hinv3| |auto]. intros _ s4 [Hinv4 Hc4].
  split; [exact Hinv4|]. destruct Hst3 as [Hle Hcnt]. unfold pstep. rewrite Hc4. auto.
Qed.

Lemma assert_children_same k var edges s :
  wp (assert_children k var edges) s (fun _ s' => s' = s) tolerated.
Proof.
  unfold assert_children.
  eapply wp_mono;
    [apply wp_for_each with (I := fun _ s' => s' = s) (E := tolerated) | cbv beta | auto].
  - reflexivity.
  - intros done j rest s' _ ->. wp_steps.
    wp_use P_node_same; [|auto]. intros c s' [-> _]. wp_steps. reflexivity.
  - auto.
Qed.

Lemma assert_level_same k var ed s :
  wp (assert_level k var ed) s (fun _ s' => s' = s) tolerated.
Proof.
  unfold assert_level.
  wp_use P_node_same; [|auto]. intros c s' [-> _]. wp_steps. reflexivity.
Qed.

Lemma P_getNode_spec k s :
  wp (in_ut k (UniqueTable.getNode k)) s
    (fun ptr s' => exists r, ptr = nodeP r /\ ut_only k (Some r) s s')
    tolerated.
Proof.
  eapply wp_mono; [apply lift_ut, UT_getNode_spec | cbv beta | auto].
  intros ptr s' (Hs & r & -> & Hh & _). exists r. split; [reflexivity|].
  split; [exact Hs|]. intros a' Ha. apply Hh. congruence.
Qed.

Lemma P_lookup_spec k ed keep s :
  wp (in_ut k (UniqueTable.lookup k ed keep)) s
    (fun r s' => ut_only k None s s' /\ w r = w ed /\ (p ed <> nullptr -> p r <> nullptr))
    tolerated.
Proof.
  eapply wp_mono; [apply lift_ut, UT_lookup_spec | cbv beta | auto].
  intros r s' (Hs & Hh & Hw & Hp). split; [|auto].
  split; [exact Hs|]. intros a' _. rewrite Hh. reflexivity.
Qed.

Lemma makeDDNode_with_spec tr k var edges cached s :
  preserving tr -> inv s ->
  Z.of_nat (length edges) = arity k ->
  Forall (fun x => p x <> nullptr /\ wkind cached (cn s) (w x)) edges ->
  CN.cacheCount (cn s) + holding edges <= CN.CACHE_SIZE ->
  wp (makeDDNode_with tr k var edges cached) s
    (fun r s' => inv s' /\ pstep (holding edges - holds (w r)) s s' /\
                 p r <> nullptr /\ wkind cached (cn s') (w r))
    tolerated.
Proof.
  intros Htr Hinv Hlen Hes Hb. unfold makeDDNode_with.
  wp_use P_getNode_spec; [|auto]. intros ptr s1 (r & -> & Hut1).
  wp_use P_update_cand; [|auto]. intros _ s2 (Hut2 & n & _ & Hh2).
  pose proof (ut_only_cn _ _ _ _ Hut1) as Hc1. pose proof (ut_only_cn _ _ _ _ Hut2) as Hc2.
  assert (Hinv2 : inv_but k (Some r) s2).
  { eapply inv_but_ut; [|exact Hut2]. eapply inv_ut; eauto. }
  assert (Hcand : cand k r s2 edges) by (eexists; split; [exact Hh2|reflexivity]).
  wp_use P_node_same; [|auto]. intros n' s' [-> _]. wp_steps.
  wp_use assert_children_same; [|auto]. intros _ s' ->.
  wp_use normalize_spec; [exact Hinv2|exact Hcand|exact Hlen| | | |auto].
  { rewrite Hc2, Hc1. exact Hes. }
  { rewrite Hc2, Hc1. exact Hb. }
  intros ed s3 (Hinv3 & Hst3 & Hp3 & Hk3).
  assert (Hst : forall s', cn s' = cn s3 -> pstep (holding edges - holds (w ed)) s s').
  { intros s' Hc. destruct Hst3 as [Hle Hcnt]. unfold pstep. rewrite Hc, <- Hc1, <- Hc2. auto. }
  wp_use assert_level_same; [|auto]. intros _ s' ->.
  wp_use P_lookup_spec; [|auto]. intros l s4 (Hut4 & Hw4 & Hp4).
  pose proof (ut_only_cn _ _ _ _ Hut4) as Hc4.
  assert (Hinv4 : inv s4).
  { apply (inv_swap k). eapply inv_but_ut; eauto. }
  wp_use assert_level_same; [|auto]. intros _ s' ->.
  apply wp_bind.
  apply wp_mono with (Q := fun _ s' => inv s' /\ pstep 0 s4 s') (E := tolerated); [| |auto].
  { destruct k; [wp_steps; split; [exact Hinv4|apply pstep_refl]|].
    destruct (bool_decide (p l = p ed)); cbn [when].
    - apply checkSpecialMatrices_spec; assumption.
    - wp_steps. split; [exact Hinv4|apply pstep_refl]. }
  intros _ s5 [Hinv5 Hst5]. wp_steps. rewrite Hw4.
  split; [exact Hinv5|]. split; [|split; [auto|]].
  - eapply pstep_eq; [eapply pstep_trans; [apply (Hst s4 Hc4) | exact Hst5]|]. lia.
  - destruct cached; [exact Hk3|]. eapply interned_le; [|exact Hk3].
    rewrite <- Hc4. apply Hst5.
Qed.

(** *** Steps between two operations *)

Lemma I_cn {A} (m : M (CN.t (F:=F)) A) dd (R : A -> CN.t (F:=F) -> Prop) s :
  inv s ->
  wp m (cn s) (fun r c' => cstep dd (cn s) c' /\ R r c') tolerated ->
  wp (in_cn m) s (fun r s' => inv s' /\ pstep dd s s' /\ R r (cn s')) tolerated.
Proof.
  intros Hinv Hm.
  eapply wp_mono; [apply (lift_cn m dd R Vec None s Hinv Hm) | cbv beta | auto].
  intros r s' (H1 & H2 & _ & H4). auto.
Qed.

Lemma inv_cn_ok s : inv s -> cn_ok (cn s).
Proof. intros H. apply H. Qed.

Lemma I_temp s :
  inv s ->
  wp (in_cn CN.getTempCachedComplex) s
    (fun wt s' => s' = s /\ is_cached wt = true) tolerated.
Proof.
  intros Hinv. apply lift_cn_same.
  eapply wp_mono; [apply CN_getTempCachedComplex_spec, inv_cn_ok, Hinv | cbv beta | auto].
  auto.
Qed.

Lemma I_binop f res x y s :
  inv s -> is_cached res = true ->
  wp (in_cn (CN.binop f res x y)) s (fun _ s' => inv s' /\ pstep 0 s s') tolerated.
Proof.
  intros Hinv Hres.
  eapply wp_mono; [apply (I_cn _ 0 (fun _ _ => True) _ Hinv) | cbv beta | auto].
  - eapply wp_mono; [apply CN_binop_cached | cbv beta | auto];
      [apply inv_cn_ok, Hinv | exact Hres | auto].
  - tauto.
Qed.

Lemma I_lookup wt s :
  inv s ->
  wp (in_cn (CN.lookup wt)) s
    (fun r s' => inv s' /\ pstep 0 s s' /\ interned (cn s') r) tolerated.
Proof.
  intros Hinv. apply (I_cn _ 0 (fun r c' => interned c' r)); [exact Hinv|].
  apply CN_lookup_spec, inv_cn_ok, Hinv.
Qed.

Lemma I_lookup2 vr vi s :
  inv s ->
  wp (in_cn (CN.lookup2 vr vi)) s
    (fun r s' => inv s' /\ pstep 0 s s' /\ interned (cn s') r) tolerated.
Proof.
  intros Hinv. apply (I_cn _ 0 (fun r c' => interned c' r)); [exact Hinv|].
  apply CN_lookup2_spec, inv_cn_ok, Hinv.
Qed.

Lemma I_release wt s :
  inv s -> is_cached wt = true -> CN.cacheCount (cn s) + 2 <= CN.CACHE_SIZE ->
  wp (in_cn (CN.releaseCached wt)) s (fun _ s' => inv s' /\ pstep 2 s s') tolerated.
Proof.
  intros Hinv Hwt Hb.
  eapply wp_mono; [apply (I_cn _ 2 (fun _ _ => True) _ Hinv) | cbv beta | auto].
  - eapply wp_mono; [apply CN_releaseCached_spec | cbv beta | auto];
      [apply inv_cn_ok, Hinv | exact Hwt | exact Hb | auto].
  - tauto.
Qed.

Lemma I_getCachedCV v s :
  inv s ->
  wp (in_cn (CN.getCachedComplexCV v)) s
    (fun r s' => inv s' /\ pstep (-2) s s' /\ is_cached r = true) tolerated.
Proof.
  intros Hinv.
  eapply wp_mono; [apply (I_cn _ (-2) (fun r _ => is_cached r = true) _ Hinv) | cbv beta | auto].
  - apply CN_getCachedComplexCV_spec, inv_cn_ok, Hinv.
  - tauto.
Qed.

Lemma I_mulCached x y s :
  inv s ->
  wp (in_cn (CN.mulCached x y)) s
    (fun r s' => inv s' /\ pstep (-2) s s' /\ is_cached r = true) tolerated.
Proof.
  intros Hinv.
  eapply wp_mono; [apply (I_cn _ (-2) (fun r _ => is_cached r = true) _ Hinv) | cbv beta | auto].
  - apply CN_mulCached_spec, inv_cn_ok, Hinv.
  - tauto.
Qed.

Lemma I_addCached x y s :
  inv s ->
  wp (in_cn (CN.addCached x y)) s
    (fun r s' => inv s' /\ pstep (-2) s s' /\ is_cached r = true) tolerated.
Proof.
  intros Hinv.
  eapply wp_mono; [apply (I_cn _ (-2) (fun r _ => is_cached r = true) _ Hinv) | cbv beta | auto].
  - apply CN_addCached_spec, inv_cn_ok, Hinv.
  - tauto.
Qed.

Lemma P_equalsZero_same wt s :
  wp (in_cn (CN.equalsZero wt)) s (fun _ s' => s' = s) tolerated.
Proof. wp_whole P_equalsZero_spec; [|auto]. tauto. Qed.

(** *** [transpose] *)

Lemma lookupUnary_interned a s :
  inv s -> interned (cn s) (w (ComputeTable.lookupUnary a (matrixTranspose s))).
Proof.
  intros (_ & _ & _ & Ht & _).
  unfold ComputeTable.lookupUnary, ComputeTable.lookup.
  destruct (matrixTranspose s !! slot_edge a) as [[[k1 k2] res]|] eqn:Hs;
    [|apply interned_ZERO].
  destruct (_ && _); [|apply interned_ZERO]. apply (Ht _ _ Hs).
Qed.

Lemma inv_set_matrixTranspose a r s :
  inv s -> interned (cn s) (w r) ->
  inv (set_matrixTranspose (ComputeTable.insertUnary a r) s).
Proof.
  intros (Hc & Hv & Hm & Ht & Hrest) Hr.
  split; [exact Hc|]. split; [exact Hv|]. split; [exact Hm|]. split; [|exact Hrest].
  change (map_Forall (fun _ ent => interned (cn s) (w (snd ent)))
            (ComputeTable.insert (fun x _ => slot_edge x) a a r (matrixTranspose s))).
  apply (ct_insert_Forall (fun ent => interned (cn s) (w (snd ent)))); [exact Hr|exact Ht].
Qed.

Lemma transpose_spec fuel : preserving (transpose fuel).
Proof.
  induction fuel as [|fuel IH]; intros s a Hinv Ha; cbn [transpose]; [exact I|].
  assert (Hret : forall x s', inv s' /\ pstep 0 s s' /\ edge_ok (cn s') x ->
            wp (ret x) s' (fun r s'' => inv s'' /\ pstep 0 s s'' /\ edge_ok (cn s'') r)
              tolerated).
  { intros x s' H. wp_steps. exact H. }
  pose proof (pstep_refl s) as Hst0.
  destruct (bool_decide (p a = nullptr) || isTerminal a) eqn:Hterm; [apply Hret; auto|].
  apply orb_false_elim in Hterm as [_ Hterm]. unfold isTerminal in Hterm.
  apply bool_decide_eq_false in Hterm.
  wp_use P_node_same; [|auto]. intros n s' [-> _].
  destruct (symm n); [apply Hret; auto|]. wp_step. wp_step.
  destruct (negb (bool_decide (p _ = nullptr))) eqn:Hhit.
  { apply Hret. split; [exact Hinv|]. split; [exact Hst0|]. split.
    - apply negb_true_iff, bool_decide_eq_false in Hhit. exact Hhit.
    - apply lookupUnary_interned, Hinv. }
  apply wp_bind.
  eapply wp_mono;
    [apply wp_map_each with
       (I := fun done ys s' => inv s' /\ pstep 0 s s' /\ length ys = length done /\
                               Forall (edge_ok (cn s')) ys) (E := tolerated)
    | cbv beta | auto].
  - split; [exact Hinv|]. split; [exact Hst0|]. split; [reflexivity|constructor].
  - intros done j rest ys s1 _ (Hinv1 & Hst1 & Hlen & Hys).
    wp_use P_edge_at_inv; [exact Hinv1| |auto]. intros x s' [-> Hx].
    destruct Hx as [Hx|Hx]; [contradiction|].
    wp_whole IH; [exact Hinv1|exact Hx| |auto]. intros r s2 (Hinv2 & Hst2 & Hr).
    split; [exact Hinv2|]. split; [apply (pstep_trans 0 0 _ _ _ Hst1 Hst2)|].
    split; [rewrite !length_app, Hlen; reflexivity|].
    apply Forall_app. split; [|constructor; [exact Hr|constructor]].
    eapply Forall_impl; [exact Hys|]. intros y. apply edge_ok_le, Hst2.
  - intros edges s1 (Hinv1 & Hst1 & Hlen & Hes).
    wp_use P_node_same; [|auto]. intros n' s' [-> _].
    pose proof (holding_ok _ _ Hes) as Hhold.
    wp_use (makeDDNode_with_spec (transpose fuel) Mat); [exact IH|exact Hinv1| | | | |auto].
    { rewrite Hlen. reflexivity. }
    { eapply Forall_impl; [exact Hes|]. intros y [Hp Hw]. auto. }
    { rewrite Hhold. pose proof (inv_cn_ok _ Hinv1) as (_ & _ & Hcnt). lia. }
    intros r s2 (Hinv2 & Hst2 & Hpr & Hkr).
    rewrite Hhold, (holds_interned _ _ Hkr) in Hst2.
    wp_use I_temp; [exact Hinv2| |auto]. intros c s' [-> Hc].
    wp_use I_binop; [exact Hinv2|exact Hc| |auto]. intros _ s3 [Hinv3 Hst3].
    wp_use I_lookup; [exact Hinv3| |auto]. intros rw s4 (Hinv4 & Hst4 & Hrw).
    wp_steps. split; [apply inv_set_matrixTranspose; assumption|].
    split; [|split; [exact Hpr|exact Hrw]].
    eapply pstep_eq; [eapply pstep_trans; [exact Hst1|];
                      eapply pstep_trans; [exact Hst2|];
                      eapply pstep_trans; [exact Hst3|exact Hst4]|]. lia.
Qed.

Lemma makeDDNode_spec fuel k var edges cached s :
  inv s ->
  Z.of_nat (length edges) = arity k ->
  Forall (fun x => p x <> nullptr /\ wkind cached (cn s) (w x)) edges ->
  CN.cacheCount (cn s) + holding edges <= CN.CACHE_SIZE ->
  wp (makeDDNode fuel k var edges cached) s
    (fun r s' => inv s' /\ pstep (holding edges - holds (w r)) s s' /\
                 p r <> nullptr /\ wkind cached (cn s') (w r))
    tolerated.
Proof. apply makeDDNode_with_spec, transpose_spec. Qed.

(** [makeDDNode] of the builders: edges as the nodes hold them. *)
Lemma makeDDNode_ok fuel k var edges s :
  inv s ->
  Z.of_nat (length edges) = arity k ->
  Forall (edge_ok (cn s)) edges ->
  wp (makeDDNode fuel k var edges false) s
    (fun r s' => inv s' /\ pstep 0 s s' /\ edge_ok (cn s') r)
    tolerated.
Proof.
  intros Hinv Hlen Hes. pose proof (holding_ok _ _ Hes) as Hh.
  wp_whole makeDDNode_spec; [exact Hinv|exact Hlen| | | |auto].
  - eapply Forall_impl; [exact Hes|]. intros y [Hp Hw]. auto.
  - rewrite Hh. pose proof (inv_cn_ok _ Hinv) as (_ & _ & Hcnt). lia.
  - intros r s' (Hinv' & Hst & Hp & Hk). split; [exact Hinv'|].
    rewrite Hh, (holds_interned _ _ Hk) in Hst. split; [exact Hst|]. split; assumption.
Qed.

(** *** Identity matrices *)

Lemma idTable_spec q s :
  wp (idTable q) s
    (fun r s' => s' = s /\ IdTable s !! Z.to_nat q = Some r) tolerated.
Proof. unfold idTable. wp_steps. destruct (q <? 0); wp_steps. auto. Qed.

Lemma inv_idTable s j ed : inv s -> IdTable s !! j = Some ed -> interned (cn s) (w ed).
Proof.
  intros (_ & _ & _ & _ & Hid & _) Hj. rewrite Forall_forall in Hid. apply Hid.
  eapply list_elem_of_lookup_2; eauto.
Qed.

Lemma set_idTable_spec q ed s :
  inv s -> interned (cn s) (w ed) ->
  wp (set_idTable q ed) s
    (fun _ s' => inv s' /\ pstep 0 s s' /\ IdTable s' !! Z.to_nat q = Some ed) tolerated.
Proof.
  intros Hinv Hed. unfold set_idTable. wp_steps.
  destruct (_ && _) eqn:Hrange; wp_steps.
  apply andb_prop in Hrange as [H0 H1]. apply Z.leb_le in H0. apply Z.ltb_lt in H1.
  destruct Hinv as (Hc & Hv & Hm & Ht & Hid & Hrest).
  split; [|split; [split; [apply pool_le_refl|cbn; lia]|]].
  - split; [exact Hc|]. split; [exact Hv|]. split; [exact Hm|]. split; [exact Ht|].
    split; [|exact Hrest]. cbn. apply Forall_insert; assumption.
  - cbn. apply list_lookup_insert_eq. lia.
Qed.

Lemma edge_ok_one (c : CN.t (F:=F)) : edge_ok c one.
Proof. split; [discriminate | apply interned_ONE]. Qed.

Lemma identity_block_ok (c : CN.t (F:=F)) ed :
  edge_ok c ed -> Forall (edge_ok c) (identity_block ed).
Proof.
  intros H. unfold identity_block.
  repeat (constructor; [first [exact H | apply edge_ok_zero]|]). constructor.
Qed.

Lemma makeIdent_spec fuel lsq msq s :
  inv s ->
  wp (makeIdent fuel lsq msq) s
    (fun r s' => inv s' /\ pstep 0 s s' /\ edge_ok (cn s') r) tolerated.
Proof.
  intros Hinv. unfold makeIdent. pose proof (pstep_refl s) as Hst0.
  destruct (msq <? 0); [wp_steps; split; [exact Hinv|split; [exact Hst0|apply edge_ok_one]]|].
  apply wp_bind.
  apply wp_mono with
    (Q := fun (hit : bool) s' => s' = s /\
            (hit = true -> exists id, IdTable s !! Z.to_nat msq = Some id /\ p id <> nullptr))
    (E := tolerated); [| |auto].
  { destruct (lsq =? 0).
    - wp_use idTable_spec; [|auto]. intros id s' [-> Hid]. wp_steps.
      split; [reflexivity|]. intros Hhit. exists id. split; [exact Hid|].
      apply negb_true_iff, bool_decide_eq_false in Hhit. exact Hhit.
    - wp_steps. split; [reflexivity|discriminate]. }
  intros hit s' [-> Hhit]. destruct hit.
  { destruct (Hhit eq_refl) as (id & Hid & Hp).
    wp_whole idTable_spec; [|auto]. intros r s' [-> Hr].
    assert (r = id) as -> by congruence.
    split; [exact Hinv|]. split; [exact Hst0|]. split; [exact Hp|].
    eapply inv_idTable; eauto. }
  clear Hhit. apply wp_bind.
  apply wp_mono with
    (Q := fun (below : bool) s' => s' = s /\
            (below = true ->
             exists id, IdTable s !! Z.to_nat (msq - 1) = Some id /\ p id <> nullptr))
    (E := tolerated); [| |auto].
  { destruct (1 <=? msq).
    - wp_use idTable_spec; [|auto]. intros id s' [-> Hid]. wp_steps.
      split; [reflexivity|]. intros Hhit. exists id. split; [exact Hid|].
      apply negb_true_iff, bool_decide_eq_false in Hhit. exact Hhit.
    - wp_steps. split; [reflexivity|discriminate]. }
  intros below s' [-> Hbelow]. destruct below.
  { destruct (Hbelow eq_refl) as (id & Hid & Hp).
    wp_use idTable_spec; [|auto]. intros r s' [-> Hr].
    assert (r = id) as -> by congruence.
    wp_use makeDDNode_ok; [exact Hinv|reflexivity| | |auto].
    { apply identity_block_ok. split; [exact Hp|]. eapply inv_idTable; eauto. }
    intros ed s1 (Hinv1 & Hst1 & Hed).
    wp_use set_idTable_spec; [exact Hinv1|apply Hed| |auto]. intros _ s2 (Hinv2 & Hst2 & Hset).
    wp_whole idTable_spec; [|auto]. intros r' s' [-> Hr'].
    assert (r' = ed) as -> by congruence.
    split; [exact Hinv2|]. split; [apply (pstep_trans 0 0 _ _ _ Hst1 Hst2)|].
    eapply edge_ok_le; [apply Hst2|exact Hed]. }
  clear Hbelow. unfold buildIdent.
  wp_use makeDDNode_ok; [exact Hinv|reflexivity|apply identity_block_ok, edge_ok_one| |auto].
  intros ed s1 (Hinv1 & Hst1 & Hed).
  apply wp_bind.
  eapply wp_mono;
    [apply wp_fold_each with
       (I := fun _ ed s' => inv s' /\ pstep 0 s s' /\ edge_ok (cn s') ed) (E := tolerated)
    | cbv beta | auto].
  - auto.
  - intros done j rest ed' s' _ (Hinv' & Hst' & Hed').
    wp_whole makeDDNode_ok; [exact Hinv'|reflexivity|apply identity_block_ok, Hed'| |auto].
    intros r s2 (Hinv2 & Hst2 & Hr). split; [exact Hinv2|].
    split; [apply (pstep_trans 0 0 _ _ _ Hst' Hst2)|exact Hr].
  - intros ed' s2 (Hinv2 & Hst2 & Hed2).
    destruct (lsq =? 0); cbn [when].
    + wp_use set_idTable_spec; [exact Hinv2|apply Hed2| |auto].
      intros _ s3 (Hinv3 & Hst3 & _). wp_steps.
      split; [exact Hinv3|]. split; [apply (pstep_trans 0 0 _ _ _ Hst2 Hst3)|].
      eapply edge_ok_le; [apply Hst3|exact Hed2].
    + wp_steps. auto.
Qed.

End PackageDiscipline.
Set Default Proof Using "Type".

(** ** The nodes in use *)

Section Liveness.
Context {F : Type} {ops : FpOps F} {params : Params F}.
Context (zero_terminal : zero_target = terminal).
Import WF Package.
Set Default Proof Using "All".

Implicit Types (s : Package.t (F:=F)) (k : Kind) (u : UniqueTable.t).

Ltac ut_simpl :=
  unfold UniqueTable.set_heap, UniqueTable.set_available, UniqueTable.set_tables,
    UniqueTable.set_hits, UniqueTable.set_collisions, UniqueTable.set_lookups,
    UniqueTable.set_nodeCount, UniqueTable.set_peakNodeCount in *;
  cbn [UniqueTable.heap UniqueTable.available UniqueTable.chunks UniqueTable.tables
       UniqueTable.nvars] in *.

Lemma anyF_I (f : failure) : anyF f.
Proof. exact I. Qed.

Lemma wp_any {S A} (m : M S A) (s : S) : wp m s (fun _ _ => True) anyF.
Proof. unfold wp. destruct (m s); exact I. Qed.

Lemma uniqueTable_set_same' k u s : uniqueTable k (set_uniqueTable k u s) = u.
Proof. destruct k; reflexivity. Qed.

(** *** Steps that leave the unique tables alone *)

Lemma L_node k ptr s : wp (node k ptr) s (fun _ s' => s' = s) anyF.
Proof.
  unfold node, in_ut, UniqueTable.node. apply wp_zoom. wp_steps.
  destruct k, s; reflexivity.
Qed.

Lemma L_edge_at k ptr j s : wp (edge_at k ptr j) s (fun _ s' => s' = s) anyF.
Proof.
  unfold edge_at. wp_use L_node; [|auto]. intros n s' ->. wp_steps. reflexivity.
Qed.

Lemma ldead_cn k r s0 s c :
  ldead k r s0 s -> ldead k r s0 (set_cn (fun _ => c) s).
Proof.
  intros ((c0 & u0 & Hs) & Hrel & Htab & Hnd). subst s.
  split; [exists c, u0; destruct k; reflexivity|].
  destruct k; cbn in *; auto.
Qed.

Lemma lstate_cn k r T s0 s c :
  lstate k r T s0 s -> lstate k r T s0 (set_cn (fun _ => c) s).
Proof.
  intros (Hd & Hl & es & Hc & HT). split; [apply ldead_cn, Hd|].
  split; [destruct k; exact Hl|]. exists es. split; [|exact HT].
  destruct Hc as (n & Hn & He). exists n. destruct k; auto.
Qed.

Lemma L_in_cn {A} (m : M (CN.t (F:=F)) A) k r T s0 s :
  lstate k r T s0 s -> wp (in_cn m) s (fun _ s' => lstate k r T s0 s') anyF.
Proof.
  intros H. unfold in_cn. apply wp_zoom. unfold wp.
  destruct (m (cn s)) as [x c|f c]; [|exact I]. apply lstate_cn, H.
Qed.

Lemma L_in_cn_dead {A} (m : M (CN.t (F:=F)) A) k r s0 s :
  ldead k r s0 s -> wp (in_cn m) s (fun _ s' => ldead k r s0 s') anyF.
Proof.
  intros H. unfold in_cn. apply wp_zoom. unfold wp.
  destruct (m (cn s)) as [x c|f c]; [|exact I]. apply ldead_cn, H.
Qed.

(** *** Writes of the node under construction *)

Lemma ldead_heap k r s0 s f :
  ldead k r s0 s ->
  ldead k r s0 (set_uniqueTable k (UniqueTable.set_heap (<[r := f]>) (uniqueTable k s)) s).
Proof.
  intros ((c0 & u0 & Hs) & (Hh & Hl) & Htab & Hnd).
  split; [subst s; eexists c0, _; destruct k; reflexivity|].
  rewrite uniqueTable_set_same'. ut_simpl. split; [split|auto].
  - intros a' Ha. etrans; [apply lookup_insert_ne; congruence | apply Hh, Ha].
  - intros a' Ha. rewrite <- (Hl a' Ha). unfold live, UniqueTable.allocated. ut_simpl.
    reflexivity.
Qed.

End Liveness.
Set Default Proof Using "Type".

(** ** The Toffoli table *)

Section Toffoli.
Import ToffoliTable.

Lemma hash_foldl_range (ctrls : list Control) (key : Z) :
  0 <= key < 2 ^ 64 ->
  0 <= foldl (fun key c =>
                match type c with
                | pos => size_t (key * unsigned (29 * qubit c))
                | neg => size_t (key * unsigned (71 * qubit c))
                end) key ctrls < 2 ^ 64.
Proof.
  revert key. induction ctrls as [|c ctrls IH]; intros key Hk; cbn [foldl]; [exact Hk|].
  apply IH. destruct (type c); unfold size_t; apply Z.mod_pos_bound; lia.
Qed.

(** X4.  The slot that [hash] computes is an index of the table
    ([std::array<Entry, NBUCKET>]), for every target and every set of
    controls. *)
Theorem toffoli_hash_in_table (ctrls : list Control) (tgt : Z) :
  0 <= hash ctrls tgt < NBUCKET.
Proof.
  unfold hash, MASK, NBUCKET.
  match goal with |- 0 <= Z.land ?k _ < _ => set (key := k) end.
  assert (Hk : 0 <= key < 2 ^ 64).
  { apply hash_foldl_range. pose proof (Z.mod_pos_bound tgt 256). lia. }
  change (2048 - 1) with (Z.ones 11). rewrite Z.land_ones by lia.
  pose proof (Z.mod_pos_bound key (2 ^ 11)). lia.
Qed.

Lemma hash_foldl_0 (ctrls : list Control) :
  foldl (fun key c =>
           match type c with
           | pos => size_t (key * unsigned (29 * qubit c))
           | neg => size_t (key * unsigned (71 * qubit c))
           end) 0 ctrls = 0.
Proof.
  induction ctrls as [|c ctrls IH]; cbn [foldl]; [reflexivity|].
  destruct (type c); exact IH.
Qed.

Lemma hash_foldl_control_0 (ctrls : list Control) (c : Control) (key : Z) :
  c ∈ ctrls -> qubit c = 0 ->
  foldl (fun key c =>
           match type c with
           | pos => size_t (key * unsigned (29 * qubit c))
           | neg => size_t (key * unsigned (71 * qubit c))
           end) key ctrls = 0.
Proof.
  intros Hin Hq. revert key. induction ctrls as [|c' ctrls IH]; intros key.
  - inversion Hin.
  - cbn [foldl]. apply elem_of_cons in Hin as [<-|Hin]; [|apply IH, Hin].
    rewrite Hq. change (unsigned (29 * 0)) with 0. change (unsigned (71 * 0)) with 0.
    rewrite Z.mul_0_r. change (size_t 0) with 0.
    destruct (type c); apply hash_foldl_0.
Qed.

(** X5.  The key starts from the target and is multiplied by a multiple of
    every control qubit: a gate with the target qubit 0, or with a control
    on qubit 0, goes to slot 0, whatever its other qubits are. *)
Theorem toffoli_hash_qubit_0 (ctrls : list Control) (tgt : Z) :
  tgt = 0 \/ (exists c, c ∈ ctrls /\ qubit c = 0) ->
  hash ctrls tgt = 0.
Proof.
  intros [->|(c & Hin & Hq)]; unfold hash.
  - change (0 mod 256) with 0. rewrite hash_foldl_0. reflexivity.
  - rewrite (hash_foldl_control_0 ctrls c _ Hin Hq). reflexivity.
Qed.

Lemma toffoli_hash_qubit_0_witness :
  (exists c, c ∈ [mkControl 3 pos; mkControl 0 neg] /\ qubit c = 0) /\
  hash [mkControl 3 pos; mkControl 0 neg] 5 = 0.
Proof.
  assert (H : exists c, c ∈ [mkControl 3 pos; mkControl 0 neg] /\ qubit c = 0).
  { exists (mkControl 0 neg). split; [|reflexivity]. apply elem_of_cons. right.
    apply elem_of_cons. left. reflexivity. }
  split; [exact H|]. apply (toffoli_hash_qubit_0 _ 5). right. exact H.
Defined.

(** X1.  What was inserted last for a gate is found: [lookup] after [insert]
    with the same qubit count, controls and target returns the inserted
    edge (an edge with a null node pointer cannot be told from a miss), and
    counts a hit. *)
Theorem toffoli_lookup_insert (nq : Z) (ctrls : list Control) (tgt : Z) (ed : Edge) (s : t) :
  p ed <> nullptr ->
  fst (lookup nq ctrls tgt (insert nq ctrls tgt ed s)) = ed /\
  hits (snd (lookup nq ctrls tgt (insert nq ctrls tgt ed s))) = hits s + 1 /\
  lookups (snd (lookup nq ctrls tgt (insert nq ctrls tgt ed s))) = lookups s + 1.
Proof.
  intros Hp. unfold lookup, insert. cbn [table hits lookups count].
  rewrite lookup_insert_eq. cbn [e n target controls].
  rewrite (bool_decide_eq_false_2 _ Hp), !Z.eqb_refl.
  rewrite bool_decide_eq_true_2 by reflexivity. cbn. auto.
Qed.

Lemma toffoli_lookup_insert_witness :
  let ed := mkEdge terminal CN.ONE in
  let cs := [mkControl 1 pos; mkControl 2 neg] in
  p ed <> nullptr /\ fst (lookup 3 cs 0 (insert 3 cs 0 ed empty)) = ed.
Proof.
  intros ed cs. split; [discriminate|].
  apply (toffoli_lookup_insert 3 cs 0 ed empty). discriminate.
Defined.

(** X2.  [lookup] never returns the edge of another gate: a result with a node
    pointer is the edge of the entry in the slot, and that entry was
    inserted for the same qubit count, controls and target.  The table is
    never changed by a lookup. *)
Theorem toffoli_lookup_sound (nq : Z) (ctrls : list Control) (tgt : Z) (s : t) :
  table (snd (lookup nq ctrls tgt s)) = table s /\
  (p (fst (lookup nq ctrls tgt s)) <> nullptr ->
   exists entry, table s !! hash ctrls tgt = Some entry /\
                 n entry = nq /\ controls entry = ctrls /\ target entry = tgt /\
                 e entry = fst (lookup nq ctrls tgt s)).
Proof.
  unfold lookup. destruct (table s !! hash ctrls tgt) as [entry|] eqn:He; cbn.
  2: { split; [reflexivity|]. intros H. contradiction. }
  destruct (bool_decide (p (e entry) = nullptr)) eqn:Hp; cbn;
    [split; [reflexivity|]; intros H; contradiction|].
  destruct (Z.eqb_spec (n entry) nq) as [Hn|Hn]; cbn;
    [|split; [reflexivity|]; intros H; contradiction].
  destruct (Z.eqb_spec (target entry) tgt) as [Ht|Ht]; cbn;
    [|split; [reflexivity|]; intros H; contradiction].
  destruct (bool_decide (controls entry = ctrls)) eqn:Hc; cbn;
    [|split; [reflexivity|]; intros H; contradiction].
  split; [reflexivity|]. intros _. exists entry.
  apply bool_decide_eq_true_1 in Hc. auto.
Qed.

(** X3.  The table is direct-mapped: an insertion for another gate that goes to
    the same slot evicts the entry, and the lookup of the evicted gate
    misses (returns the edge with the null node pointer). *)
Theorem toffoli_insert_evicts (nq nq' : Z) (ctrls ctrls' : list Control) (tgt tgt' : Z)
    (ed : Edge) (s : t) :
  hash ctrls' tgt' = hash ctrls tgt ->
  (nq', ctrls', tgt') <> (nq, ctrls, tgt) ->
  fst (lookup nq ctrls tgt (insert nq' ctrls' tgt' ed s)) = mkEdge nullptr CN.ZERO.
Proof.
  intros Hh Hne. unfold lookup, insert. cbn [table hits lookups count].
  rewrite Hh, lookup_insert_eq. cbn [e n target controls].
  destruct (bool_decide (p ed = nullptr)); [reflexivity|].
  destruct (Z.eqb_spec nq' nq) as [->|]; cbn; [|reflexivity].
  destruct (Z.eqb_spec tgt' tgt) as [->|]; cbn; [|reflexivity].
  destruct (bool_decide (ctrls' = ctrls)) eqn:Hc; cbn; [|reflexivity].
  apply bool_decide_eq_true_1 in Hc. subst. contradiction.
Qed.

Lemma toffoli_insert_evicts_witness :
  let ed := mkEdge terminal CN.ONE in
  hash [mkControl 1 pos] 0 = hash [] 0 /\
  (2, [mkControl 1 pos], 0) <> (2, @nil Control, 0) /\
  fst (lookup 2 [] 0 (insert 2 [mkControl 1 pos] 0 ed (insert 2 [] 0 ed empty)))
  = mkEdge nullptr CN.ZERO.
Proof.
  intros ed. split; [reflexivity|]. split; [discriminate|].
  apply (toffoli_insert_evicts 2 2 [] [mkControl 1 pos] 0 0 ed); [reflexivity | discriminate].
Defined.

End Toffoli.

(** ** The float pool: the free list and the reference counts *)

Section PoolRoundTrips.
Context {F : Type} {ops : FpOps F}.
Import ComplexTable.

(** The contents of a chunk entry, value-initialised when it was never
    written. *)
Definition stored (s : t (F:=F)) (c i : Z) : Entry :=
  default (mkEntry fp0 0) (mem s !! (c, i)).

Lemma chunk_valid_set_mem f (s : t (F:=F)) c i :
  chunk_valid (set_mem f s) c i = chunk_valid s c i.
Proof. reflexivity. Qed.



Lemma bind_Ok {S A B} (m : M S A) (k : A -> M S B) s a s1 :
  m s = Ok a s1 -> bind m k s = k a s1.
Proof. intros H. unfold bind. rewrite H. reflexivity. Qed.

Lemma read_Ok (q : EntryPtr) (s : t (F:=F)) en :
  entry_at s q = Some en -> read q s = Ok en s.
Proof. intros H. unfold read, bind, get, deref. rewrite H. reflexivity. Qed.

Lemma write_Ok c i (en : Entry (F:=F)) (s : t (F:=F)) :
  chunk_valid s c i = true ->
  write (chunkE c i) en s = Ok tt (set_mem (<[(c, i) := en]>) s).
Proof. intros H. unfold write, bind, get. rewrite H. reflexivity. Qed.

Lemma entry_at_chunk (s : t (F:=F)) c i :
  chunk_valid s c i = true -> entry_at s (chunkE c i) = Some (stored s c i).
Proof. intros H. cbn [entry_at]. rewrite H. reflexivity. Qed.

(** X7.  [decRef] undoes [incRef]: for an entry of a chunk whose count is below
    the maximum, the two calls return and leave every entry of the pool as
    it was. *)
Theorem CT_decRef_after_incRef (c i : Z) (s : t (F:=F)) :
  chunk_valid s c i = true ->
  0 <= refCount (stored s c i) < REFCOUNT_MAX ->
  exists s', (incRef (Some (chunkE c i)) ;;; decRef (Some (chunkE c i))) s = Ok tt s' /\
             (forall q, entry_at s' q = entry_at s q) /\
             table s' = table s /\ available s' = available s /\ count s' = count s.
Proof.
  intros Hv Hr. unfold incRef, decRef. cbn [static].
  set (s1 := set_mem (<[(c, i) := mkEntry (value (stored s c i))
                                    (refCount (stored s c i) + 1)]>) s).
  assert (H1 : (e0 <- read (chunkE c i) ;;
                (if refCount e0 =? REFCOUNT_MAX then ret tt
                 else write (chunkE c i) (mkEntry (value e0) (refCount e0 + 1)))) s
               = Ok tt s1).
  { rewrite (bind_Ok _ _ _ _ _ (read_Ok _ _ _ (entry_at_chunk s c i Hv))).
    destruct (Z.eqb_spec (refCount (stored s c i)) REFCOUNT_MAX) as [|_]; [lia|].
    apply write_Ok, Hv. }
  rewrite (bind_Ok _ _ _ _ _ H1).
  assert (Hv1 : chunk_valid s1 c i = true) by exact Hv.
  rewrite (bind_Ok _ _ _ _ _ (read_Ok _ _ _ (entry_at_chunk s1 c i Hv1))).
  assert (Hst : stored s1 c i =
                mkEntry (value (stored s c i)) (refCount (stored s c i) + 1)).
  { unfold stored, s1. cbn [mem set_mem]. rewrite lookup_insert_eq. reflexivity. }
  rewrite Hst. cbn [refCount value].
  destruct (Z.ltb_spec 0 (refCount (stored s c i) + 1)) as [_|]; [|lia].
  unfold bind at 1. cbn [assert ret]. rewrite (write_Ok _ _ _ _ Hv1).
  eexists. split; [reflexivity|].
  replace (refCount (stored s c i) + 1 - 1) with (refCount (stored s c i)) by lia.
  subst s1. split; [|auto]. intros q.
  destruct q as [| |c' i']; cbn [entry_at]; try reflexivity.
  rewrite !chunk_valid_set_mem. destruct (chunk_valid s c' i'); [|reflexivity].
  cbn [mem set_mem]. f_equal. destruct (decide ((c', i') = (c, i))) as [[= -> ->]|Hne].
  - rewrite lookup_insert_eq. cbn. unfold stored. destruct (mem s !! (c, i)) as [[v r]|];
      reflexivity.
  - rewrite !lookup_insert_ne by congruence. reflexivity.
Qed.

(** X8.  At the maximum the count saturates: [incRef] leaves the pool as it is,
    and the static entries are never counted. *)
Theorem CT_incRef_saturates (q : EntryPtr) (s : t (F:=F)) (en : Entry) :
  entry_at s q = Some en ->
  static q = true \/ refCount en = REFCOUNT_MAX ->
  incRef (Some q) s = Ok tt s.
Proof.
  intros Hq Hs. unfold incRef. destruct (static q) eqn:Hst; [reflexivity|].
  destruct Hs as [|Hmax]; [discriminate|].
  rewrite (bind_Ok _ _ _ _ _ (read_Ok _ _ _ Hq)), Hmax. reflexivity.
Qed.

End PoolRoundTrips.

Section PoolRoundTripsRun.
Import ComplexTable Scenario.


Lemma CT_decRef_after_incRef_witness :
  chunk_valid fresh_pool 0 0 = true /\
  0 <= refCount (stored fresh_pool 0 0) < REFCOUNT_MAX /\
  exists s', (incRef (Some (chunkE 0 0)) ;;; decRef (Some (chunkE 0 0))) fresh_pool
             = Ok tt s' /\
             (forall q, entry_at s' q = entry_at fresh_pool q) /\
             table s' = table fresh_pool /\ available s' = available fresh_pool /\
             count s' = count fresh_pool.
Proof.
  split; [reflexivity|]. split; [vm_compute; split; [discriminate | reflexivity]|].
  apply (CT_decRef_after_incRef 0 0 fresh_pool); [reflexivity|].
  vm_compute. split; [discriminate | reflexivity].
Defined.

Lemma CT_incRef_saturates_witness :
  entry_at fresh_pool oneE = Some oneEntry /\
  incRef (Some oneE) fresh_pool = Ok tt fresh_pool.
Proof.
  split; [reflexivity|].
  apply (CT_incRef_saturates oneE fresh_pool oneEntry); [reflexivity | left; reflexivity].
Defined.

End PoolRoundTripsRun.

(** ** The float pool: one entry for one number *)

Section PoolLookup.
Context {F : Type} {ops : FpOps F}.
Import ComplexTable.

(** The part of the pool that a lookup depends on: everything but the
    statistics. *)
Definition core_eq (s1 s2 : t (F:=F)) : Prop :=
  table s1 = table s2 /\ mem s1 = mem s2 /\ available s1 = available s2 /\
  chunks s1 = chunks s2 /\ chunkID s1 = chunkID s2 /\ chunkIt s1 = chunkIt s2 /\
  allocationSize s1 = allocationSize s2.

Definition agreeing {A} (r1 r2 : result (t (F:=F)) A) : Prop :=
  match r1, r2 with
  | Ok a t1, Ok b t2 => a = b /\ core_eq t1 t2
  | Err f1 _, Err f2 _ => f1 = f2
  | _, _ => False
  end.

(** [m] does the same on pools that differ in the statistics only. *)
Definition agree {A} (m : M (t (F:=F)) A) : Prop :=
  forall s1 s2, core_eq s1 s2 -> agreeing (m s1) (m s2).

Lemma core_eq_refl s : core_eq s s.
Proof. repeat split. Qed.

Lemma agree_ret {A} (a : A) : agree (ret a).
Proof. intros s1 s2 H. split; [reflexivity | exact H]. Qed.

Lemma agree_fail {A} f : agree (fail f : M t A).
Proof. intros s1 s2 H. reflexivity. Qed.

Lemma agree_assert a b : agree (assert a b).
Proof. intros s1 s2 H. destruct b; cbn; auto. Qed.

Lemma agree_bind {A B} (m : M t A) (k : A -> M t B) :
  agree m -> (forall a, agree (k a)) -> agree (bind m k).
Proof.
  intros Hm Hk s1 s2 H. specialize (Hm s1 s2 H). unfold bind.
  destruct (m s1) as [a t1|f1 t1], (m s2) as [b t2|f2 t2]; cbn in Hm; try contradiction.
  - destruct Hm as [-> Ht]. apply Hk, Ht.
  - exact Hm.
Qed.

Lemma agree_modify (f : t -> t) :
  (forall s1 s2, core_eq s1 s2 -> core_eq (f s1) (f s2)) -> agree (modify f).
Proof. intros Hf s1 s2 H. split; [reflexivity | apply Hf, H]. Qed.

Lemma agree_reading {A B} (f : t -> A) (k : A -> M t B) :
  (forall s1 s2, core_eq s1 s2 -> f s1 = f s2) -> (forall a, agree (k a)) ->
  agree (s <- get ;; k (f s)).
Proof.
  intros Hf Hk s1 s2 H. unfold bind, get. rewrite (Hf s1 s2 H). apply Hk, H.
Qed.

Lemma entry_at_core s1 s2 q : core_eq s1 s2 -> entry_at s1 q = entry_at s2 q.
Proof.
  intros (_ & Hm & _ & Hc & _). destruct q; cbn [entry_at]; try reflexivity.
  unfold chunk_valid. rewrite Hm, Hc. reflexivity.
Qed.

Lemma agree_read q : agree (read q).
Proof.
  unfold read. apply (agree_reading (fun s => entry_at s q) (fun o => deref o)).
  - intros s1 s2 H. apply entry_at_core, H.
  - intros [en|]; [apply agree_ret | apply agree_fail].
Qed.

Lemma agree_write q en : agree (write q en).
Proof.
  destruct q as [| |c i]; cbn [write]; try apply agree_fail.
  apply (agree_reading (fun s => chunk_valid s c i)
           (fun b : bool => if b then modify (set_mem (<[(c, i) := en]>))
                            else fail Segfault)).
  - intros s1 s2 (_ & _ & _ & Hc & _). unfold chunk_valid. rewrite Hc. reflexivity.
  - intros [|]; [|apply agree_fail]. apply agree_modify.
    intros s1 s2 (H1 & H2 & H3 & H4 & H5 & H6 & H7).
    unfold core_eq, set_mem. cbn [table mem available chunks chunkID chunkIt allocationSize].
    rewrite H2. repeat split; auto.
Qed.

Lemma agree_counter (f : t -> t) :
  (forall s, core_eq s (f s)) -> agree (modify f).
Proof.
  intros Hf. apply agree_modify. intros s1 s2 H.
  destruct (Hf s1) as (A1 & A2 & A3 & A4 & A5 & A6 & A7).
  destruct (Hf s2) as (B1 & B2 & B3 & B4 & B5 & B6 & B7).
  destruct H as (H1 & H2 & H3 & H4 & H5 & H6 & H7).
  repeat split; congruence.
Qed.

Lemma agree_find_chain chain (val : F) : agree (find_chain chain val).
Proof.
  induction chain as [|q rest IH]; cbn [find_chain]; [apply agree_ret|].
  apply agree_bind; [apply agree_read|]. intros en.
  destruct (fltb _ _).
  - apply agree_bind; [apply agree_counter; intros s; repeat split|].
    intros _. apply agree_ret.
  - apply agree_bind; [apply agree_counter; intros s; repeat split|].
    intros _. exact IH.
Qed.

Lemma agree_find key (val : F) : agree (find key val).
Proof.
  unfold find. apply agree_bind; [apply agree_counter; intros s; repeat split|].
  intros _. apply (agree_reading (fun s => bucket s key) (fun chain => find_chain chain val)).
  - intros s1 s2 (Ht & _). unfold bucket. rewrite Ht. reflexivity.
  - intros chain. apply agree_find_chain.
Qed.

Lemma agree_hash (val : F) : agree (hash val).
Proof.
  unfold hash. apply agree_bind; [apply agree_assert|]. intros _. apply agree_ret.
Qed.

Lemma get_bind {S B} (k : S -> M S B) (s : S) : bind get k s = k s s.
Proof. reflexivity. Qed.

Lemma put_bind {S B} (s0 : S) (k : unit -> M S B) (s : S) : bind (put s0) k s = k tt s0.
Proof. reflexivity. Qed.

Lemma agree_getEntry : agree getEntry.
Proof.
  intros s1 s2 H. pose proof H as (H1 & H2 & H3 & H4 & H5 & H6 & H7).
  unfold getEntry. rewrite !get_bind. rewrite <- H3.
  destruct (available s1) as [|entry rest] eqn:Hav.
  - rewrite <- H4, <- H5, <- H6.
    destruct (chunkIt s1 =? default 0 (chunks s1 !! Z.to_nat (chunkID s1)));
      cbn; rewrite <- ?H1, <- ?H2, <- ?H4, <- ?H5, <- ?H6, <- ?H7;
      (split; [reflexivity | repeat split; cbn; auto; congruence]).
  - rewrite !put_bind.
    assert (Hc : core_eq (set_available (fun _ => rest) s1)
                         (set_available (fun _ => rest) s2)) by (repeat split; auto).
    revert Hc. generalize (set_available (fun _ => rest) s1)
                          (set_available (fun _ => rest) s2).
    change (agree (e <- read entry ;; write entry (mkEntry (value e) 0) ;;; ret entry)).
    apply agree_bind; [apply agree_read|]. intros en.
    apply agree_bind; [apply agree_write|]. intros _. apply agree_ret.
Qed.

Lemma agree_lookup (val : F) : agree (lookup val).
Proof.
  unfold lookup. apply agree_bind; [apply agree_assert|]. intros _.
  destruct (fltb (fabs val) tolerance); [apply agree_ret|].
  destruct (fltb (fabs (fsub val fp1)) tolerance); [apply agree_ret|].
  apply agree_bind; [apply agree_counter; intros s; repeat split|]. intros _.
  apply agree_bind; [apply agree_hash|]. intros key.
  apply agree_bind; [apply agree_find|]. intros [q|]; [apply agree_ret|].
  apply agree_bind.
  { destruct (fleb fp0 (fsub val tolerance)); [|apply agree_ret].
    apply agree_bind; [apply agree_hash|]. intros lowerKey.
    destruct (negb (lowerKey =? key)); [apply agree_find | apply agree_ret]. }
  intros [q|]; [apply agree_ret|].
  apply agree_bind; [apply agree_hash|]. intros upperKey.
  apply agree_bind.
  { destruct (negb (upperKey =? key)); [apply agree_find | apply agree_ret]. }
  intros [q|]; [apply agree_ret|].
  apply agree_bind; [apply agree_getEntry|]. intros entry.
  apply agree_bind; [apply agree_read|]. intros en.
  apply agree_bind; [apply agree_write|]. intros _.
  apply agree_bind.
  { apply agree_modify. intros s1 s2 (H1 & H2 & H3 & H4 & H5 & H6 & H7).
    unfold core_eq, set_table.
    cbn [table mem available chunks chunkID chunkIt allocationSize].
    rewrite H1. repeat split; auto. }
  intros _. apply agree_bind; [apply agree_counter; intros s; repeat split|]. intros _.
  apply agree_bind; [apply agree_counter; intros s; repeat split|]. intros _.
  apply agree_ret.
Qed.


Lemma core_eq_trans s1 s2 s3 : core_eq s1 s2 -> core_eq s2 s3 -> core_eq s1 s3.
Proof.
  intros (A1 & A2 & A3 & A4 & A5 & A6 & A7) (B1 & B2 & B3 & B4 & B5 & B6 & B7).
  repeat split; congruence.
Qed.

Lemma CT_find_chain_core chain (val : F) s :
  wp (find_chain chain val) s (fun _ s' => core_eq s s') WF.anyF.
Proof.
  revert s. induction chain as [|q rest IH]; intros s; cbn [find_chain].
  - wp_steps. apply core_eq_refl.
  - wp_use CT_read_spec; [|auto]. intros en s' [-> _].
    destruct (fltb _ _); wp_steps; [repeat split|].
    wp_use IH; [|auto]. intros r s' H. exact H.
Qed.

Lemma CT_find_core key (val : F) s :
  wp (find key val) s (fun _ s' => core_eq s s') WF.anyF.
Proof.
  unfold find. wp_steps. wp_use CT_find_chain_core; [|auto]. intros r s' H. exact H.
Qed.

Lemma CT_write_valid (q : EntryPtr) (en : Entry (F:=F)) s :
  wp (write q en) s
    (fun _ s' => exists c j, q = chunkE c j /\ chunk_valid s c j = true /\
                             s' = set_mem (<[(c, j) := en]>) s)
    WF.anyF.
Proof.
  unfold write. destruct q as [| |c j]; try exact I. wp_steps.
  destruct (chunk_valid s c j) eqn:Hv; wp_steps. eauto.
Qed.

Lemma CT_getEntry_table (s : t (F:=F)) :
  wp getEntry s (fun _ s' => table s' = table s) WF.anyF.
Proof.
  unfold getEntry. wp_steps. destruct (available s) as [|entry rest].
  - wp_steps. destruct (_ =? _); wp_steps; reflexivity.
  - wp_steps. wp_use CT_read_spec; [|auto]. intros en s' [-> _].
    wp_use CT_write_valid; [|auto]. intros _ s' (c & j & _ & _ & ->). wp_steps.
    reflexivity.
Qed.

(** What a lookup that returns has done: nothing but counting (the number
    is near 0 or 1, or its entry was found), or it has written the number
    to a new entry at the head of the bucket of the number. *)
Lemma CT_lookup_kinds (val : F) s :
  wp (lookup val) s
    (fun q s' =>
       core_eq s s' \/
       (exists rest rc, table s' !! hash_key val = Some (q :: rest) /\
                        entry_at s' q = Some (mkEntry val rc)) /\
       fisnan val = false /\ fltb (fabs val) tolerance = false /\
       fltb (fabs (fsub val fp1)) tolerance = false /\ fleb fp0 val = true)
    WF.anyF.
Proof.
  unfold lookup. apply wp_bind, wp_assert; [|intros; exact I]. intros Hnan. cbv beta.
  apply negb_true_iff in Hnan.
  destruct (fltb (fabs val) tolerance) eqn:Hz; [apply wp_ret; left; apply core_eq_refl|].
  destruct (fltb (fabs (fsub val fp1)) tolerance) eqn:Ho;
    [apply wp_ret; left; apply core_eq_refl|].
  apply wp_bind, wp_modify. unfold hash at 1.
  apply wp_bind, wp_bind, wp_assert; [|intros; exact I]. intros Hpos. apply wp_ret. cbv beta.
  set (s0 := set_lookups Z.succ s).
  assert (H0 : core_eq s s0) by (repeat split).
  wp_use CT_find_core; [|auto]. intros r1 s1 H1.
  pose proof (core_eq_trans _ _ _ H0 H1) as H01.
  destruct r1 as [q|]; cbv iota; [apply wp_ret; left; exact H01|].
  apply wp_bind.
  apply wp_mono with (Q := fun _ s2 => core_eq s s2) (E := WF.anyF); [| |auto].
  { destruct (fleb fp0 (fsub val tolerance)).
    - unfold hash. wp_steps. destruct (negb (_ =? _)).
      + wp_whole CT_find_core; [|auto]. intros r s2 H2.
        exact (core_eq_trans _ _ _ H01 H2).
      + wp_steps. exact H01.
    - wp_steps. exact H01. }
  cbv beta. intros r2 s2 H2.
  destruct r2 as [q|]; cbv iota; [apply wp_ret; left; exact H2|].
  unfold hash at 1. apply wp_bind, wp_bind, wp_assert; [|intros; exact I]. intros _.
  apply wp_ret. cbv beta.
  apply wp_bind.
  apply wp_mono with (Q := fun _ s3 => core_eq s s3) (E := WF.anyF); [| |auto].
  { destruct (negb (_ =? _)).
    - wp_whole CT_find_core; [|auto]. intros r s3 H3. exact (core_eq_trans _ _ _ H2 H3).
    - wp_steps. exact H2. }
  cbv beta. intros r3 s3 H3.
  destruct r3 as [q|]; cbv iota; [apply wp_ret; left; exact H3|].
  wp_use CT_getEntry_table; [|auto]. intros entry s4 H4.
  wp_use CT_read_spec; [|auto]. intros en s5 [-> _].
  wp_use CT_write_valid; [|auto]. intros _ s5 (c & j & -> & Hv & ->).
  wp_steps. right. split; [|auto].
  eexists _, _. split.
  - cbn [table set_table set_mem set_count set_peakCount]. apply lookup_insert_eq.
  - cbn [entry_at]. change (chunk_valid _ c j) with (chunk_valid s4 c j). rewrite Hv.
    cbn [mem set_table set_mem set_count set_peakCount]. rewrite lookup_insert_eq.
    reflexivity.
Qed.

(** X9.  One entry for one number: when [lookup(v)] has returned an entry, the
    next [lookup(v)] returns and yields the same entry. *)
Theorem CT_lookup_again (val : F) (s : t (F:=F)) :
  fltb (fabs (fsub val val)) tolerance = true ->
  wp (lookup val) s (fun q s' => exists s'', lookup val s' = Ok q s'') WF.anyF.
Proof.
  intros Hself. unfold wp. destruct (lookup val s) as [q s'|f s'] eqn:E; [|exact I].
  destruct (wp_Ok _ _ _ _ _ _ (CT_lookup_kinds val s) E) as [Hcore|(Hnew & Hnan & Hz & Ho & Hp)].
  - pose proof (agree_lookup val s s' Hcore) as H. rewrite E in H.
    destruct (lookup val s') as [q' s''|f' s'']; [|contradiction].
    destruct H as [-> _]. eauto.
  - destruct Hnew as (rest & rc & Hb & Hq).
    assert (H : wp (lookup val) s' (fun q' _ => q' = q) (fun _ => False)).
    { unfold lookup. rewrite Hnan, Hz, Ho. cbn [negb].
      apply wp_bind, wp_assert; [|discriminate]. intros _. cbv beta.
      apply wp_bind, wp_modify. unfold hash at 1. rewrite Hp.
      apply wp_bind, wp_bind, wp_assert; [|discriminate]. intros _.
      apply wp_ret. cbv beta.
      unfold find. apply wp_bind, wp_bind, wp_modify, wp_bind, wp_get.
      unfold bucket. cbn [table set_probes set_lookups]. rewrite Hb. cbn [default find_chain].
      unfold read. apply wp_bind, wp_bind, wp_get.
      change (entry_at _ q) with (entry_at s' q). rewrite Hq.
      apply wp_ret. cbn [value]. rewrite Hself.
      apply wp_bind, wp_modify, wp_ret, wp_ret. reflexivity. }
    apply wp_total in H. destruct H as (q' & s'' & Hl & ->). eauto.
Qed.

End PoolLookup.

Section PoolLookupRun.
Import ComplexTable Scenario.

Lemma CT_lookup_again_witness :
  fltb (fabs (fsub (1 # 3) (1 # 3))) tolerance = true /\
  wp (lookup (1 # 3)) fresh_pool
    (fun q s' => exists s'', lookup (1 # 3) s' = Ok q s'') WF.anyF.
Proof.
  split; [reflexivity|]. apply (CT_lookup_again (1 # 3)%Q fresh_pool). reflexivity.
Defined.

End PoolLookupRun.

(** ** The float pool: garbage collection *)

Section PoolCollection.
Context {F : Type} {ops : FpOps F}.
Import ComplexTable.

Let noF : failure -> Prop := fun _ => False.

(** The entry that [q] points to has a reference count other than 0. *)
Definition referenced (s : t (F:=F)) (q : EntryPtr) : bool :=
  match entry_at s q with
  | Some en => negb (refCount en =? 0)
  | None => false
  end.

Definition kept_in (s : t (F:=F)) (key : Z) : list EntryPtr :=
  List.filter (referenced s) (bucket s key).

Definition dropped_from (s : t (F:=F)) (key : Z) : list EntryPtr :=
  List.filter (fun q => negb (referenced s q)) (bucket s key).

Lemma referenced_same_chunks s s' q :
  same_chunks s s' -> referenced s' q = referenced s q.
Proof. intros H. unfold referenced. rewrite (entry_at_same_chunks _ _ _ H). reflexivity. Qed.

Lemma same_chunks_refl (s : t (F:=F)) : same_chunks s s.
Proof. split; reflexivity. Qed.

Lemma same_chunks_trans (s1 s2 s3 : t (F:=F)) :
  same_chunks s1 s2 -> same_chunks s2 s3 -> same_chunks s1 s3.
Proof. intros [A1 A2] [B1 B2]. split; congruence. Qed.

Lemma CT_collect_chain_spec chain (s : t (F:=F)) :
  Forall (fun q => is_Some (entry_at s q)) chain ->
  wp (collect_chain chain) s
    (fun r s' =>
       fst r = List.filter (referenced s) chain /\
       snd r = Z.of_nat (length (List.filter (fun q => negb (referenced s q)) chain)) /\
       same_chunks s s' /\ table s' = table s /\
       available s' =
         rev (List.filter (fun q => negb (referenced s q)) chain) ++ available s)
    noF.
Proof.
  revert s. induction chain as [|q rest IH]; intros s Hall; cbn [collect_chain].
  - wp_steps. repeat split.
  - inversion Hall as [|? ? [en Hq] Hrest]; subst.
    unfold read. apply wp_bind, wp_bind, wp_get. rewrite Hq. apply wp_ret. cbv beta.
    assert (Href : referenced s q = negb (refCount en =? 0)).
    { unfold referenced. rewrite Hq. reflexivity. }
    cbn [List.filter]. rewrite Href.
    destruct (refCount en =? 0) eqn:Hr; cbn [negb].
    + unfold returnEntry. apply wp_bind, wp_modify.
      set (s1 := set_available (fun l => q :: l) s).
      assert (Hs1 : same_chunks s s1) by (split; reflexivity).
      wp_use IH; [ | | auto].
      * eapply Forall_impl; [exact Hrest|]. intros q' Hq'. cbn beta.
        rewrite (entry_at_same_chunks _ _ _ Hs1). exact Hq'.
      * intros r s' (H1 & H2 & H3 & H4 & H5). apply wp_ret. cbn [fst snd].
        split; [rewrite H1; apply List.filter_ext; intros x;
                apply (referenced_same_chunks _ _ _ Hs1)|].
        assert (He : List.filter (fun q0 => negb (referenced s1 q0)) rest =
                     List.filter (fun q0 => negb (referenced s q0)) rest).
        { apply List.filter_ext. intros x. rewrite (referenced_same_chunks _ _ _ Hs1).
          reflexivity. }
        rewrite He in H2, H5.
        split; [rewrite H2; cbn [length]; lia|].
        split; [exact (same_chunks_trans _ _ _ Hs1 H3)|].
        split; [rewrite H4; reflexivity|].
        rewrite H5. cbn [rev]. rewrite <- app_assoc. reflexivity.
    + wp_use IH; [exact Hrest | | auto].
      intros r s' (H1 & H2 & H3 & H4 & H5). apply wp_ret. cbn [fst snd].
      split; [rewrite H1; reflexivity|]. auto.
Qed.

(** The entries that stay in the buckets [keys], and those that go. *)
Definition kept_count (s : t (F:=F)) (keys : list Z) : Z :=
  foldr (fun key n => Z.of_nat (length (kept_in s key)) + n) 0 keys.

Definition dropped_count (s : t (F:=F)) (keys : list Z) : Z :=
  foldr (fun key n => Z.of_nat (length (dropped_from s key)) + n) 0 keys.

Lemma bucket_set_table_same (s : t (F:=F)) key chain :
  bucket (set_table (fun tb => match chain with
                               | [] => delete key tb
                               | e0 :: l => <[key := e0 :: l]> tb
                               end) s) key = chain.
Proof.
  unfold bucket. cbn [table set_table]. destruct chain as [|q l].
  - rewrite lookup_delete_eq. reflexivity.
  - rewrite lookup_insert_eq. reflexivity.
Qed.

Lemma bucket_set_table_other (s : t (F:=F)) key key' chain :
  key' <> key ->
  bucket (set_table (fun tb => match chain with
                               | [] => delete key tb
                               | e0 :: l => <[key := e0 :: l]> tb
                               end) s) key' = bucket s key'.
Proof.
  intros Hne. unfold bucket. cbn [table set_table]. destruct chain as [|q l].
  - rewrite lookup_delete_ne by congruence. reflexivity.
  - rewrite lookup_insert_ne by congruence. reflexivity.
Qed.

Lemma count_up_elem a n x : a <= x < a + Z.of_nat n -> x ∈ count_up a n.
Proof.
  revert a. induction n as [|n IH]; intros a H; cbn [count_up]; [lia|].
  destruct (decide (x = a)) as [->|Hne]; [left|].
  right. apply IH. lia.
Qed.

Lemma count_from_elem a n x : a <= x < a + n -> x ∈ count_from a n.
Proof. intros H. unfold count_from. apply count_up_elem. lia. Qed.

Lemma count_up_NoDup a n : NoDup (count_up a n).
Proof.
  revert a. induction n as [|n IH]; intros a; cbn [count_up]; constructor; [|apply IH].
  intros H%count_up_range. lia.
Qed.

Lemma counts_same (s s1 : t (F:=F)) keys :
  same_chunks s s1 -> (forall key, key ∈ keys -> bucket s1 key = bucket s key) ->
  kept_count s1 keys = kept_count s keys /\ dropped_count s1 keys = dropped_count s keys /\
  forall key, key ∈ keys -> kept_in s1 key = kept_in s key.
Proof.
  intros Hs Hb.
  assert (Hk : forall key, key ∈ keys -> kept_in s1 key = kept_in s key).
  { intros key Hin. unfold kept_in. rewrite (Hb key Hin). apply List.filter_ext.
    intros q. apply referenced_same_chunks, Hs. }
  assert (Hd : forall key, key ∈ keys -> dropped_from s1 key = dropped_from s key).
  { intros key Hin. unfold dropped_from. rewrite (Hb key Hin). apply List.filter_ext.
    intros q. rewrite (referenced_same_chunks _ _ _ Hs). reflexivity. }
  split; [|split; [|exact Hk]].
  - induction keys as [|key keys IH]; cbn [kept_count foldr]; [reflexivity|].
    fold (kept_count s1 keys) (kept_count s keys).
    rewrite Hk by left. rewrite IH; [reflexivity| | |]; intros; first [apply Hb | apply Hk | apply Hd]; right; assumption.
  - induction keys as [|key keys IH]; cbn [dropped_count foldr]; [reflexivity|].
    fold (dropped_count s1 keys) (dropped_count s keys).
    rewrite Hd by left. rewrite IH; [reflexivity| | |]; intros; first [apply Hb | apply Hk | apply Hd]; right; assumption.
Qed.

Lemma CT_collect_buckets_spec keys (s : t (F:=F)) :
  NoDup keys -> Inv.pool_safe s ->
  wp (collect_buckets keys) s
    (fun cr s' =>
       (forall key, key ∈ keys -> bucket s' key = kept_in s key) /\
       (forall key, key ∉ keys -> bucket s' key = bucket s key) /\
       same_chunks s s' /\
       fst cr = dropped_count s keys /\ snd cr = kept_count s keys)
    noF.
Proof.
  revert s. induction keys as [|key keys IH]; intros s Hnd Hs; cbn [collect_buckets].
  - wp_steps. split; [intros key H; inversion H|]. repeat split.
  - apply NoDup_cons in Hnd as [Hnotin Hnd]. wp_steps.
    assert (Hc : Forall (fun q => is_Some (entry_at s q)) (bucket s key)).
    { unfold bucket. destruct (table s !! key) as [chain|] eqn:Hc; cbn; [|constructor].
      exact (Hs _ _ Hc). }
    wp_use CT_collect_chain_spec; [exact Hc | | auto].
    intros r s1 (Hr1 & Hr2 & Hs1 & Ht1 & _). wp_steps.
    match goal with |- wp _ ?st _ _ => set (s2 := st) end.
    assert (Hs2 : same_chunks s s2) by (destruct Hs1; split; assumption).
    assert (Hb2 : forall key', key' <> key -> bucket s2 key' = bucket s key').
    { intros key' Hne. unfold s2. rewrite bucket_set_table_other by exact Hne.
      unfold bucket. rewrite Ht1. reflexivity. }
    assert (Hbk : bucket s2 key = kept_in s key).
    { unfold s2. rewrite bucket_set_table_same. exact Hr1. }
    wp_use IH; [exact Hnd | | | auto].
    + eapply pool_safe_same; [exact Hs2|]. unfold s2. cbn [table set_table]. rewrite Ht1.
      assert (Hfr : Forall (fun q => is_Some (entry_at s q)) (fst r)).
      { rewrite Hr1. apply Forall_forall. intros q Hq%list_elem_of_In.
        apply List.filter_In in Hq as [Hq _]. apply list_elem_of_In in Hq.
        rewrite Forall_forall in Hc. auto. }
      destruct (fst r) as [|q0 l0] eqn:Hfst.
      * apply map_Forall_delete. exact Hs.
      * apply map_Forall_insert_2; [exact Hfr | exact Hs].
    + intros cr s' (H1 & H2 & H3 & H4 & H5). wp_steps. cbn [fst snd].
      destruct (counts_same s s2 keys Hs2) as (Hk & Hd & Hki).
      { intros key' Hin. apply Hb2. intros ->. contradiction. }
      split; [|split; [|split; [|split]]].
      * intros key' [->|Hin]%elem_of_cons.
        -- rewrite (H2 key Hnotin). exact Hbk.
        -- rewrite (H1 key' Hin). apply Hki, Hin.
      * intros key' Hn. rewrite not_elem_of_cons in Hn. destruct Hn as [Hne Hn].
        rewrite (H2 key' Hn). apply Hb2, Hne.
      * exact (same_chunks_trans _ _ _ Hs2 H3).
      * rewrite H4, Hr2, Hd. cbn [dropped_count foldr]. fold (dropped_count s keys).
        unfold dropped_from. lia.
      * rewrite H5, Hr1, Hk. cbn [kept_count foldr]. fold (kept_count s keys).
        unfold kept_in. lia.
Qed.

(** X10.  A run of the garbage collection (forced, or with the count at
    the limit, on a pool that holds entries) returns the number of entries
    with reference count 0 that were on the chains, and leaves in every
    bucket the entries with a reference count other than 0, in their order;
    no entry is altered, and the count of the pool is the number of entries
    that stay. *)
Theorem CT_garbageCollect_keeps_referenced (force : bool) (s : t (F:=F)) :
  Inv.pool_safe s ->
  force = true \/ gcLimit s <= count s ->
  count s <> 0 ->
  exists s',
    garbageCollect force s = Ok (dropped_count s (count_from 0 NBUCKET)) s' /\
    (forall key, 0 <= key < NBUCKET -> bucket s' key = kept_in s key) /\
    (forall q, entry_at s' q = entry_at s q) /\
    count s' = kept_count s (count_from 0 NBUCKET).
Proof.
  intros Hs Hrun Hcount.
  assert (H : wp (garbageCollect force) s
                (fun n s' =>
                   n = dropped_count s (count_from 0 NBUCKET) /\
                   (forall key, 0 <= key < NBUCKET -> bucket s' key = kept_in s key) /\
                   (forall q, entry_at s' q = entry_at s q) /\
                   count s' = kept_count s (count_from 0 NBUCKET)) noF).
  { unfold garbageCollect. wp_steps.
    assert (Hgo : negb force && (count s <? gcLimit s) || (count s =? 0) = false).
    { destruct (Z.eqb_spec (count s) 0) as [|_]; [contradiction|].
      rewrite orb_false_r. destruct Hrun as [->|Hl]; [reflexivity|].
      destruct (Z.ltb_spec (count s) (gcLimit s)); [lia|]. apply andb_false_r. }
    rewrite Hgo.
    match goal with |- wp _ ?st _ _ => set (s1 := st) end.
    assert (Hs1 : same_chunks s s1) by (split; reflexivity).
    wp_use CT_collect_buckets_spec; [apply count_up_NoDup | | | auto].
    - eapply pool_safe_same; [exact Hs1 | exact Hs].
    - intros cr s2 (H1 & H2 & H3 & H4 & H5). wp_steps.
      destruct (counts_same s s1 (count_from 0 NBUCKET) Hs1) as (Hk & Hd & Hki);
        [reflexivity|].
      split; [rewrite H4; exact Hd|]. split; [|split].
      + intros key Hkey. unfold bucket at 1. cbn [table].
        fold (bucket s2 key). rewrite H1; [apply Hki|]; apply count_from_elem; lia.
      + intros q. rewrite <- (entry_at_same_chunks s s1 q Hs1).
        rewrite <- (entry_at_same_chunks s1 s2 q H3).
        destruct q; cbn [entry_at]; reflexivity.
      + cbn [count]. rewrite H5. exact Hk. }
  apply wp_total in H. destruct H as (n & s' & Hg & -> & H). eauto.
Qed.

End PoolCollection.

Section PoolCollectionRun.
Import ComplexTable Scenario.

Lemma CT_garbageCollect_keeps_referenced_witness :
  let s := CN.pool (Package.cn busy_package) in
  Inv.pool_safe s /\ count s <> 0 /\
  exists s',
    garbageCollect true s = Ok (dropped_count s (count_from 0 NBUCKET)) s' /\
    (forall key, 0 <= key < NBUCKET -> bucket s' key = kept_in s key) /\
    (forall q, entry_at s' q = entry_at s q) /\
    count s' = kept_count s (count_from 0 NBUCKET).
Proof.
  intros s.
  assert (Hs : Inv.pool_safe s) by (unfold Inv.pool_safe; by_compute).
  assert (Hc : count s <> 0) by (vm_compute; discriminate).
  split; [exact Hs|]. split; [exact Hc|].
  apply (CT_garbageCollect_keeps_referenced true s Hs); [left; reflexivity | exact Hc].
Defined.

End PoolCollectionRun.

(** ** The cache lane of complex numbers *)

Section CacheLane.
Context {F : Type} {ops : FpOps F}.
Import CN.

(** The first two entries of the free chain of the cache lane are [a] and
    [b]. *)
Definition cache_head (s : t (F:=F)) (a b : Z) : Prop :=
  Cache_Avail s = Some (cacheE a) /\ cacheNext s !! a = Some (cacheE b) /\
  cache_valid a = true /\ cache_valid b = true.

Lemma next_Ok (s : t (F:=F)) k :
  cache_valid k = true -> next (cacheE k) s = Ok (cacheNext s !! k) s.
Proof. intros H. unfold next. rewrite H. reflexivity. Qed.

Lemma getCachedComplex_Ok (s : t (F:=F)) a b :
  cache_head s a b -> 2 <= cacheCount s ->
  getCachedComplex s =
  Ok (mkComplex (tag (cacheE a) false) (tag (cacheE b) false))
     (set_Cache_Avail (fun _ => cacheNext s !! b) (set_cacheCount (fun n => n - 2) s)).
Proof.
  intros (Ha & Hn & Hva & Hvb) Hc. unfold getCachedComplex.
  rewrite get_bind. destruct (Z.leb_spec 2 (cacheCount s)) as [_|]; [|lia].
  unfold bind at 1. cbn [assert ret]. unfold bind at 1. unfold modify at 1.
  rewrite Ha. unfold bind at 1. cbn [deref ret].
  rewrite (bind_Ok _ _ _ _ _ (next_Ok _ a Hva)). cbn [cacheNext set_cacheCount].
  rewrite Hn. unfold bind at 1. cbn [deref ret].
  rewrite (bind_Ok _ _ _ _ _ (next_Ok _ b Hvb)). reflexivity.
Qed.

(** X11.  The cache lane is a stack: [releaseCached(c)] right after
    [c = getCachedComplex()] passes its assertions and puts the package of
    complex numbers back into the state before the two calls (the same
    chain, the same head, the same count). *)
Theorem CN_release_after_get (s : t (F:=F)) (a b : Z) :
  cache_head s a b -> 2 <= cacheCount s <= CACHE_SIZE ->
  (c <- getCachedComplex ;; releaseCached c ;;; ret c) s =
  Ok (mkComplex (tag (cacheE a) false) (tag (cacheE b) false)) s.
Proof.
  intros Hh Hc. pose proof Hh as (Ha & Hn & Hva & Hvb).
  rewrite (bind_Ok _ _ _ _ _ (getCachedComplex_Ok s a b Hh (proj1 Hc))).
  set (c := mkComplex (tag (cacheE a) false) (tag (cacheE b) false)).
  set (s1 := set_Cache_Avail _ _).
  assert (H : wp (releaseCached c) s1 (fun _ s' => s' = s) (fun _ => False)).
  { unfold releaseCached, set_next, untagged, cne, ceq, c.
    cbn [r i negative aligned entry_ref].
    rewrite !bool_decide_eq_false_2 by discriminate.
    repeat (cbn [entry_ref negb Z.eqb]; rewrite ?Hva, ?Hvb; cbn [deref]; wp_step; cbv beta);
      try discriminate.
    - destruct s as [pl cv cn av cc]. unfold s1 in *. cbn in *.
      assert (Hcn : match cn !! b with
                    | Some n => <[b := n]> cn
                    | None => delete b cn
                    end = cn).
      { destruct (cn !! b) as [x|] eqn:Hb; [apply insert_id | apply delete_id]; exact Hb. }
      unfold set_cacheCount, set_Cache_Avail, set_cacheNext.
      cbn [pool cacheVal cacheNext Cache_Avail cacheCount].
      rewrite Hcn, <- Ha. f_equal. lia.
    - unfold s1 in *. cbn in *.
      match goal with H : (_ <=? _) = false |- _ => apply Z.leb_gt in H end. lia. }
  apply wp_total in H. destruct H as ([] & s' & Hr & ->).
  rewrite (bind_Ok _ _ _ _ _ Hr). reflexivity.
Qed.

(** X12.  A temporary is not taken from the cache lane: the call of
    [getTempCachedComplex] changes nothing, the count included, and the pair
    of entries it returns is the pair that the next [getCachedComplex]
    hands out. *)
Theorem CN_temp_is_next_cached (s : t (F:=F)) (a b : Z) :
  cache_head s a b -> 2 <= cacheCount s ->
  getTempCachedComplex s =
    Ok (mkComplex (tag (cacheE a) false) (tag (cacheE b) false)) s /\
  exists s', getCachedComplex s =
               Ok (mkComplex (tag (cacheE a) false) (tag (cacheE b) false)) s' /\
             cacheCount s' = cacheCount s - 2.
Proof.
  intros Hh Hc. pose proof Hh as (Ha & Hn & Hva & Hvb). split.
  - unfold getTempCachedComplex. rewrite get_bind.
    destruct (Z.leb_spec 2 (cacheCount s)) as [_|]; [|lia].
    unfold bind at 1. cbn [assert ret]. rewrite Ha. unfold bind at 1. cbn [deref ret].
    rewrite (bind_Ok _ _ _ _ _ (next_Ok _ a Hva)). rewrite Hn. reflexivity.
  - eexists. split; [apply getCachedComplex_Ok; assumption|]. reflexivity.
Qed.

End CacheLane.

Section CacheLaneRun.
Import CN Scenario.

Definition busy_cn : CN.t (F:=Q) := Package.cn busy_package.

Lemma busy_cn_head : cache_head busy_cn 2 3.
Proof. repeat split; vm_compute; reflexivity. Qed.

Lemma CN_release_after_get_witness :
  cache_head busy_cn 2 3 /\ 2 <= cacheCount busy_cn <= CACHE_SIZE /\
  (c <- getCachedComplex ;; releaseCached c ;;; ret c) busy_cn =
  Ok (mkComplex (tag (cacheE 2) false) (tag (cacheE 3) false)) busy_cn.
Proof.
  assert (Hc : 2 <= cacheCount busy_cn <= CACHE_SIZE) by (vm_compute; split; discriminate).
  split; [exact busy_cn_head|]. split; [exact Hc|].
  apply (CN_release_after_get busy_cn 2 3 busy_cn_head Hc).
Defined.

Lemma CN_temp_is_next_cached_witness :
  cache_head busy_cn 2 3 /\ 2 <= cacheCount busy_cn /\
  getTempCachedComplex busy_cn =
    Ok (mkComplex (tag (cacheE 2) false) (tag (cacheE 3) false)) busy_cn /\
  exists s', getCachedComplex busy_cn =
               Ok (mkComplex (tag (cacheE 2) false) (tag (cacheE 3) false)) s' /\
             cacheCount s' = cacheCount busy_cn - 2.
Proof.
  assert (Hc : 2 <= cacheCount busy_cn) by (vm_compute; discriminate).
  split; [exact busy_cn_head|]. split; [exact Hc|].
  apply (CN_temp_is_next_cached busy_cn 2 3 busy_cn_head Hc).
Defined.

End CacheLaneRun.

(** ** The unique tables: the free list and the sharing of nodes *)

Section UniqueNodes.
Context {F : Type} {ops : FpOps F} {params : Params F}.
Import UniqueTable.

Let noF : failure -> Prop := fun _ => False.

Lemma UT_node_Ok k ptr (s : t) n : node_at k s ptr = Some n -> node k ptr s = Ok n s.
Proof. intros H. unfold node. rewrite get_bind, H. reflexivity. Qed.


(** The fields that the sharing of nodes is about. *)
Definition ut_core (s s' : t) : Prop :=
  nvars s' = nvars s /\ tables s' = tables s /\ heap s' = heap s /\
  available s' = available s /\ chunks s' = chunks s.

Lemma node_at_core k s s' ptr : ut_core s s' -> node_at k s' ptr = node_at k s ptr.
Proof.
  intros (_ & _ & Hh & _ & Hc). destruct ptr; cbn; try reflexivity.
  unfold allocated. rewrite Hh, Hc. reflexivity.
Qed.

(** A walk along a chain that holds no node with the edges of the
    candidate finds nothing. *)
Lemma UT_search_miss k ed keep chain (s : t) n :
  node_at k s (p ed) = Some n ->
  Forall (fun q => exists qn, node_at k s (nodeP q) = Some qn /\ e qn <> e n) chain ->
  wp (search k ed keep chain) s (fun r s' => r = None /\ ut_core s s') noF.
Proof.
  intros Hn. revert s Hn. induction chain as [|q rest IH]; intros s Hn Hall;
    cbn [search].
  - wp_steps. split; [reflexivity|]. repeat split.
  - inversion Hall as [|? ? (qn & Hq & Hne) Hrest]; subst.
    unfold node at 1. apply wp_bind, wp_bind, wp_get. rewrite Hn. apply wp_ret. cbv beta.
    unfold node at 1. apply wp_bind, wp_bind, wp_get. rewrite Hq. apply wp_ret. cbv beta.
    rewrite bool_decide_eq_false_2 by congruence.
    apply wp_bind, wp_modify.
    set (s1 := set_collisions Z.succ s).
    assert (H1 : ut_core s s1) by (repeat split).
    eapply wp_mono; [apply (IH s1) | cbv beta | auto].
    + rewrite (node_at_core _ _ _ _ H1). exact Hn.
    + eapply Forall_impl; [exact Hrest|]. intros q' (qn' & Hq' & Hne'). exists qn'.
      rewrite (node_at_core _ _ _ _ H1). auto.
    + intros r s' [-> (A1 & A2 & A3 & A4 & A5)]. split; [reflexivity|].
      repeat split; assumption.
Qed.

(** The assertions on the successors pass when the successors are one
    level below the node or terminal. *)
Lemma UT_assert_successors_ok k lvl (edges : list Edge) (s0 s : t) :
  heap s = heap s0 -> chunks s = chunks s0 ->
  Forall (fun ed => exists c, node_at k s0 (p ed) = Some c /\ (v c = lvl - 1 \/ v c = -1))
    edges ->
  wp (assert_successors k lvl edges) s (fun _ s' => s' = s) noF.
Proof.
  intros Hh Hc Hall. induction Hall as [|ed edges (c & Hn & Hlv) _ IH];
    cbn [assert_successors]; [apply wp_ret; reflexivity|].
  assert (Hn' : node_at k s (p ed) = Some c).
  { rewrite <- Hn. destruct (p ed); cbn [node_at]; try reflexivity.
    unfold allocated. rewrite Hh, Hc. reflexivity. }
  unfold node at 1. apply wp_bind, wp_bind, wp_get. rewrite Hn'. apply wp_ret. cbv beta.
  apply wp_bind.
  assert (Hb : (v c =? lvl - 1) || (v c =? -1) = true).
  { destruct Hlv as [-> | ->]; [rewrite Z.eqb_refl; reflexivity|].
    rewrite (Z.eqb_refl (-1)). apply orb_true_r. }
  rewrite Hb. apply wp_ret. exact IH.
Qed.

(** X14.  Nodes are shared: when a node at [a] went into the unique table
    (no node of its chain has its edges), the lookup of another node at
    [b] with the same edges and the same variable returns the node at [a]
    with the weight it was called with, and puts the node at [b] on the
    free list; the successors of the nodes are one level below them or
    terminal, as the assertions of [lookup] demand. *)
Theorem UT_lookup_shares (k : Kind) (wa wb : CN.Complex) (a b : Z) (s : t) (na nb : Node) :
  a <> b ->
  node_at k s (nodeP a) = Some na -> node_at k s (nodeP b) = Some nb ->
  e nb = e na -> v nb = v na -> 0 <= v na < nvars s ->
  Forall (fun ed => exists c, node_at k s (p ed) = Some c /\ (v c = v na - 1 \/ v c = -1))
    (e na) ->
  Forall (fun q => exists qn, node_at k s (nodeP q) = Some qn /\ e qn <> e na)
    (default [] (tables s !! (v na, hash na))) ->
  exists s1 s2,
    lookup k (mkEdge (nodeP a) wa) false s = Ok (mkEdge (nodeP a) wa) s1 /\
    lookup k (mkEdge (nodeP b) wb) false s1 = Ok (mkEdge (nodeP a) wb) s2 /\
    available s2 = b :: available s /\ heap s2 = heap s /\
    tables s2 = <[(v na, hash na) := a :: default [] (tables s !! (v na, hash na))]>
                  (tables s).
Proof.
  intros Hab Ha Hb He Hv Hlvl Hsucc Hmiss.
  assert (Hv1 : (v na =? -1) = false) by (apply Z.eqb_neq; lia).
  assert (H1 : wp (lookup k (mkEdge (nodeP a) wa) false) s
                 (fun r s1 => r = mkEdge (nodeP a) wa /\
                    nvars s1 = nvars s /\ heap s1 = heap s /\ chunks s1 = chunks s /\
                    available s1 = available s /\
                    tables s1 = <[(v na, hash na) :=
                                    a :: default [] (tables s !! (v na, hash na))]>
                                  (tables s)) noF).
  { unfold lookup. cbn [p]. unfold node at 1. apply wp_bind, wp_bind, wp_get.
    rewrite Ha. apply wp_ret. cbv beta. rewrite Hv1.
    apply wp_bind, wp_modify. set (s0 := set_lookups Z.succ s).
    assert (H0 : ut_core s s0) by (repeat split).
    wp_use (UT_assert_successors_ok k (v na) (e na) s s0);
      [reflexivity|reflexivity|exact Hsucc| |auto]. intros _ s' ->.
    wp_use UT_bucket_spec; [exact Hlvl | | auto]. intros chain s' [-> ->].
    change (tables s0) with (tables s).
    wp_use (UT_search_miss k (mkEdge (nodeP a) wa) false); [ | | | auto].
    - cbn [p]. rewrite (node_at_core _ _ _ _ H0). exact Ha.
    - eapply Forall_impl; [exact Hmiss|]. intros q (qn & Hq & Hne). exists qn.
      rewrite (node_at_core _ _ _ _ H0). auto.
    - intros r s1 [-> (A1 & A2 & A3 & A4 & A5)]. unfold set_bucket. wp_steps.
      split; [reflexivity|]. cbn. rewrite A1, A2, A3, A4, A5. repeat split. }
  apply wp_total in H1. destruct H1 as (r1 & s1 & Hr1 & -> & B1 & B2 & B3 & B4 & B5).
  assert (Ha1 : node_at k s1 (nodeP a) = Some na).
  { rewrite <- Ha. cbn [node_at]. unfold allocated. rewrite B2, B3. reflexivity. }
  assert (Hb1 : node_at k s1 (nodeP b) = Some nb).
  { rewrite <- Hb. cbn [node_at]. unfold allocated. rewrite B2, B3. reflexivity. }
  assert (Hh : hash nb = hash na) by (unfold hash; rewrite He; reflexivity).
  assert (H2 : wp (lookup k (mkEdge (nodeP b) wb) false) s1
                 (fun r s2 => r = mkEdge (nodeP a) wb /\
                    available s2 = b :: available s1 /\ heap s2 = heap s1 /\
                    tables s2 = tables s1) noF).
  { unfold lookup. cbn [p]. unfold node at 1. apply wp_bind, wp_bind, wp_get.
    rewrite Hb1. apply wp_ret. cbv beta. rewrite Hv, Hv1, Hh.
    apply wp_bind, wp_modify. set (s0 := set_lookups Z.succ s1).
    rewrite He.
    wp_use (UT_assert_successors_ok k (v na) (e na) s s0);
      [exact B2|exact B3|exact Hsucc| |auto]. intros _ s' ->.
    wp_use UT_bucket_spec; [change (nvars s0) with (nvars s1); lia | | auto].
    intros chain s' [-> ->]. change (tables s0) with (tables s1).
    rewrite B5, lookup_insert_eq. unfold default at 1. cbn [from_option id search p].
    apply wp_bind.
    unfold node at 1. apply wp_bind, wp_bind, wp_get.
    change (node_at k s0 (nodeP b)) with (node_at k s1 (nodeP b)). rewrite Hb1.
    apply wp_ret. cbv beta.
    unfold node at 1. apply wp_bind, wp_bind, wp_get.
    change (node_at k s0 (nodeP a)) with (node_at k s1 (nodeP a)). rewrite Ha1.
    apply wp_ret. cbv beta.
    rewrite (bool_decide_eq_true_2 _ He).
    rewrite bool_decide_eq_false_2 by congruence. cbn [negb andb when].
    unfold returnNode. wp_steps.
    set (s3 := set_hits Z.succ (set_available (fun l => b :: l) s0)).
    unfold node at 1. apply wp_bind, wp_get.
    change (node_at k s3 (nodeP a)) with (node_at k s1 (nodeP a)). rewrite Ha1.
    apply wp_ret. cbv beta.
    unfold node at 1. apply wp_bind, wp_bind, wp_get.
    change (node_at k s3 (nodeP b)) with (node_at k s1 (nodeP b)). rewrite Hb1.
    apply wp_ret. cbv beta.
    rewrite Hv, Z.eqb_refl, He. apply wp_bind, wp_ret.
    wp_use (UT_assert_successors_ok k (v na) (e na) s s3);
      [exact B2|exact B3|exact Hsucc| |auto]. intros _ s' ->.
    wp_steps. cbn [w].
    split; [reflexivity|]. split; [reflexivity|]. split; [reflexivity|]. exact B5. }
  apply wp_total in H2. destruct H2 as (r2 & s2 & Hr2 & -> & C1 & C2 & C3).
  exists s1, s2. split; [exact Hr1|]. split; [exact Hr2|].
  rewrite C1, C2, C3, B4, B2, B5. repeat split.
Qed.

End UniqueNodes.

Section UniqueNodesRun.
Import UniqueTable Scenario.


Definition twin_node : Node := mkNode twin_edges 0 0 false false.

Lemma UT_lookup_shares_witness :
  node_at Vec twin_table (nodeP 0) = Some twin_node /\
  node_at Vec twin_table (nodeP 1) = Some twin_node /\
  Forall (fun ed => exists c, node_at Vec twin_table (p ed) = Some c /\
                              (v c = v twin_node - 1 \/ v c = -1)) (e twin_node) /\
  exists s1 s2,
    lookup Vec (mkEdge (nodeP 0) CN.ONE) false twin_table = Ok (mkEdge (nodeP 0) CN.ONE) s1 /\
    lookup Vec (mkEdge (nodeP 1) CN.ONE) false s1 = Ok (mkEdge (nodeP 0) CN.ONE) s2 /\
    available s2 = 1 :: available twin_table.
Proof.
  assert (H0 : node_at Vec twin_table (nodeP 0) = Some twin_node) by (vm_compute; reflexivity).
  assert (H1 : node_at Vec twin_table (nodeP 1) = Some twin_node) by (vm_compute; reflexivity).
  assert (Hne : 0 <> 1) by discriminate.
  assert (Hl : 0 <= v twin_node < nvars twin_table)
    by (split; [vm_compute; discriminate | vm_compute; reflexivity]).
  assert (E : tables twin_table !! (v twin_node, hash twin_node) = None)
    by (vm_compute; reflexivity).
  assert (Hm : Forall (fun q => exists qn, node_at Vec twin_table (nodeP q) = Some qn /\
                                           e qn <> e twin_node)
                 (default [] (tables twin_table !! (v twin_node, hash twin_node)))).
  { generalize E. generalize (tables twin_table !! (v twin_node, hash twin_node)).
    intros o ->. constructor. }
  assert (Hs : Forall (fun ed => exists c, node_at Vec twin_table (p ed) = Some c /\
                                           (v c = v twin_node - 1 \/ v c = -1))
                 (e twin_node)).
  { change (e twin_node) with [Package.one; Package.zero (F:=Q)].
    constructor; [|constructor; [|constructor]];
      (exists (terminalNode Vec); split; [reflexivity|right; reflexivity]). }
  destruct (UT_lookup_shares Vec CN.ONE CN.ONE 0 1 twin_table twin_node twin_node
              Hne H0 H1 eq_refl eq_refl Hl Hs Hm) as (s1 & s2 & A & B & C & _).
  exact (conj H0 (conj H1 (conj Hs (ex_intro _ s1 (ex_intro _ s2 (conj A (conj B C))))))).
Defined.

End UniqueNodesRun.

(** ** Well-formed states: checked, and kept by the builders *)

Section Checks.
Context {F : Type} {ops : FpOps F} {params : Params F}.
Import WF WFcheck.

Lemma forallb_map_to_list `{Countable K} {V} (f : K * V -> bool) (m : gmap K V) k x :
  forallb f (map_to_list m) = true -> m !! k = Some x -> f (k, x) = true.
Proof.
  intros Hf Hk. rewrite forallb_forall in Hf. apply Hf.
  apply list_elem_of_In, elem_of_map_to_list. exact Hk.
Qed.

Lemma forallb_elem {A} (f : A -> bool) (l : list A) x :
  forallb f l = true -> x ∈ l -> f x = true.
Proof. intros Hf Hx. rewrite forallb_forall in Hf. apply Hf, list_elem_of_In, Hx. Qed.

Lemma written_b_sound (pl : ComplexTable.t (F:=F)) q : written_b pl q = true -> written pl q.
Proof. destruct q; cbn; [auto|auto|]. apply bool_decide_eq_true_1. Qed.

Lemma pool_ok_b_sound (pl : ComplexTable.t (F:=F)) : pool_ok_b pl = true -> pool_ok pl.
Proof.
  unfold pool_ok_b. intros [H1 H2]%andb_prop. split.
  - intros k en Hk. pose proof (forallb_map_to_list _ _ _ _ H1 Hk) as H. cbn in H.
    apply negb_true_iff in H. exact H.
  - intros key chain q Hc Hq. pose proof (forallb_map_to_list _ _ _ _ H2 Hc) as H. cbn in H.
    apply written_b_sound. eapply forallb_elem; eauto.
Qed.

Lemma is_cacheE_sound x : is_cacheE x = true -> exists a, x = CN.cacheE a.
Proof. destruct x; [discriminate|eauto]. Qed.

Lemma cn_ok_b_sound (c : CN.t (F:=F)) : cn_ok_b c = true -> cn_ok c.
Proof.
  unfold cn_ok_b, cache_shape_b.
  intros [[Hp [Ha Hn]%andb_prop]%andb_prop Hc%Z.leb_le]%andb_prop.
  split; [apply pool_ok_b_sound, Hp|]. split; [|exact Hc]. split.
  - intros x Hx. rewrite Hx in Ha. apply is_cacheE_sound, Ha.
  - intros k x Hx. apply is_cacheE_sound. exact (forallb_map_to_list _ _ _ _ Hn Hx).
Qed.

Lemma comp_ok_b_sound (c : CN.t (F:=F)) x : comp_ok_b c x = true -> comp_ok c x.
Proof.
  unfold comp_ok_b, comp_ok. destruct (CN.aligned x) as [q|]; [|discriminate].
  intros [Hw Hz]%andb_prop. split; [apply written_b_sound, Hw|].
  intros ->. rewrite bool_decide_eq_true_2 in Hz by reflexivity.
  cbn in Hz. apply negb_true_iff in Hz. exact Hz.
Qed.

Lemma interned_b_sound (c : CN.t (F:=F)) wt : interned_b c wt = true -> interned c wt.
Proof. intros [H1 H2]%andb_prop. split; apply comp_ok_b_sound; assumption. Qed.

Lemma edge_ok_b_sound (c : CN.t (F:=F)) ed : edge_ok_b c ed = true -> edge_ok c ed.
Proof.
  intros [H1 H2]%andb_prop. split; [|apply interned_b_sound, H2].
  apply negb_true_iff, bool_decide_eq_false in H1. exact H1.
Qed.

Lemma edges_ok_b_sound (c : CN.t (F:=F)) (es : list Edge) :
  forallb (edge_ok_b c) es = true -> Forall (edge_ok c) es.
Proof.
  intros H. apply Forall_forall. intros x Hx. apply edge_ok_b_sound.
  eapply forallb_elem; eauto.
Qed.

Lemma nodes_ok_b_sound k (s : Package.t (F:=F)) : nodes_ok_b k s = true -> nodes_ok k s.
Proof.
  intros H a n _ Hn. apply edges_ok_b_sound.
  exact (forallb_map_to_list _ _ _ _ H Hn).
Qed.

Lemma stripped_b_sound {R} (tb : ComputeTable.t Edge Edge R) :
  stripped_b tb = true -> stripped tb.
Proof.
  intros H k ent Hk. pose proof (forallb_map_to_list _ _ _ _ H Hk) as [H1 H2]%andb_prop.
  cbn in H1, H2. split; eapply bool_decide_eq_true_1; eassumption.
Qed.

Lemma tables_ok_b_sound (s : Package.t (F:=F)) : tables_ok_b s = true -> tables_ok s.
Proof.
  unfold tables_ok_b.
  intros [[[[Ht Hi]%andb_prop Hm]%andb_prop Hmv]%andb_prop Hip]%andb_prop.
  split; [|split; [|split; [|split]]]; try (apply stripped_b_sound; assumption).
  - intros k ent Hk. apply interned_b_sound. exact (forallb_map_to_list _ _ _ _ Ht Hk).
  - apply Forall_forall. intros x Hx. apply interned_b_sound.
    exact (forallb_elem (fun ed => interned_b (Package.cn s) (w ed)) _ _ Hi Hx).
Qed.

Lemma inv_b_sound (s : Package.t (F:=F)) : inv_b s = true -> inv s.
Proof.
  unfold inv_b. intros [[[Hc Hv]%andb_prop Hm]%andb_prop Ht]%andb_prop.
  split; [apply cn_ok_b_sound, Hc|]. split; [apply nodes_ok_b_sound, Hv|].
  split; [apply nodes_ok_b_sound, Hm|apply tables_ok_b_sound, Ht].
Qed.

End Checks.

(** The exact rationals satisfy the laws that the arguments use. *)
#[export] Instance QLaws : WF.FpLaws (F:=Q).
Proof.
  split.
  - intros v.
    change (match (Qabs (- v) ?= Qtol)%Q with Lt => true | _ => false end =
            match (Qabs v ?= Qtol)%Q with Lt => true | _ => false end).
    rewrite (Qcompare_comp _ _ (Qabs_opp v) _ _ (Qeq_refl Qtol)). reflexivity.
  - reflexivity.
Qed.

Lemma busy_package_inv : WF.inv Scenario.busy_package.
Proof. apply inv_b_sound. vm_compute. reflexivity. Qed.

Lemma held_package_inv : WF.inv Scenario.held_package.
Proof. apply inv_b_sound. vm_compute. reflexivity. Qed.

Section Builders.
Context {F : Type} {ops : FpOps F} {laws : WF.FpLaws (F:=F)} {params : Params F}.
Context (zero_not_null : zero_target <> nullptr).
Import WF Package.

(** X15.  [ComplexTable::lookup] keeps the pool well-formed: if no number of
    the pool is within the tolerance of zero and the chains hold written
    entries, this is so again when [lookup(val)] returns; no entry is
    lost, and the entry returned is a static entry or a written entry of a
    chunk.  (A number within the tolerance of zero is answered with the
    static zero entry and never stored.) *)
Theorem CT_lookup_keeps_pool (val : F) (s : ComplexTable.t (F:=F)) :
  pool_ok s ->
  wp (ComplexTable.lookup val) s
    (fun q s' => pool_ok s' /\ (forall q0, written s q0 -> written s' q0) /\ written s' q)
    tolerated.
Proof. intros Hok. wp_whole CT_lookup_ok; [exact Hok|auto|]. auto. Qed.

Set Default Proof Using "All".

(** X16.  [makeDDNode] of the builders (cached = false) keeps the package
    well-formed: called in a well-formed state with as many edges as the
    node has, each with a non-null node pointer and an interned weight, it
    leaves, whenever it returns, a well-formed state with the same
    [cacheCount] and every pool entry still there, and returns an edge with
    a non-null node pointer and an interned weight.  It fails none of the
    assertions on the cache lane. *)
Theorem makeDDNode_keeps_wellformed fuel k var edges s :
  inv s ->
  Z.of_nat (length edges) = arity k ->
  Forall (edge_ok (cn s)) edges ->
  wp (makeDDNode fuel k var edges false) s
    (fun r s' => inv s' /\
                 CN.cacheCount (cn s') = CN.cacheCount (cn s) /\
                 (forall wt, interned (cn s) wt -> interned (cn s') wt) /\
                 edge_ok (cn s') r)
    tolerated.
Proof.
  intros Hinv Hlen Hes.
  wp_whole (makeDDNode_ok zero_not_null); [exact Hinv|exact Hlen|exact Hes| |auto].
  intros r s' (Hinv' & [Hle Hc] & Hr). split; [exact Hinv'|].
  split; [lia|]. split; [|exact Hr].
  intros wt Hwt. eapply interned_le; eauto.
Qed.

(** X17.  [makeDDNode] of the operators (cached = true) settles the cache
    lane: called with edges whose weights are ZERO or cached weights, it
    releases every cached weight but the one it returns.  Whenever it
    returns, [cacheCount] has grown by two for each cached operand weight,
    less two if the weight of the result is cached; the state is
    well-formed again and the weight of the result is ZERO or cached. *)
Theorem makeDDNode_settles_cache fuel k var edges s :
  inv s ->
  Z.of_nat (length edges) = arity k ->
  Forall (fun x => p x <> nullptr /\ held (w x)) edges ->
  CN.cacheCount (cn s) + holding edges <= CN.CACHE_SIZE ->
  wp (makeDDNode fuel k var edges true) s
    (fun r s' => inv s' /\
                 CN.cacheCount (cn s') = CN.cacheCount (cn s) + holding edges - holds (w r) /\
                 p r <> nullptr /\ held (w r))
    tolerated.
Proof.
  intros Hinv Hlen Hes Hcnt.
  wp_whole (makeDDNode_spec zero_not_null); [exact Hinv|exact Hlen|exact Hes|exact Hcnt| |auto].
  intros r s' (Hinv' & [Hle Hc] & Hp & Hr). split; [exact Hinv'|].
  split; [lia|]. split; assumption.
Qed.

(** X18.  [transpose] keeps the package well-formed: for an edge with a
    non-null node pointer and an interned weight in a well-formed state, it
    leaves, whenever it returns, a well-formed state with the same
    [cacheCount], and returns such an edge again. *)
Theorem transpose_keeps_wellformed fuel a s :
  inv s -> edge_ok (cn s) a ->
  wp (transpose fuel a) s
    (fun r s' => inv s' /\ CN.cacheCount (cn s') = CN.cacheCount (cn s) /\
                 edge_ok (cn s') r)
    tolerated.
Proof.
  intros Hinv Ha. pose proof (transpose_spec zero_not_null fuel s a Hinv Ha) as H.
  eapply wp_mono; [exact H| |auto].
  intros r s' (Hinv' & [Hle Hc] & Hr). split; [exact Hinv'|]. split; [lia|exact Hr].
Qed.

(** X19.  [makeIdent] keeps the package well-formed, whatever the qubits:
    in a well-formed state it leaves, whenever it returns, a well-formed
    state with the same [cacheCount] (the entries it writes to [IdTable]
    have interned weights), and returns an edge with a non-null node
    pointer and an interned weight. *)
Theorem makeIdent_keeps_wellformed fuel lsq msq s :
  inv s ->
  wp (makeIdent fuel lsq msq) s
    (fun r s' => inv s' /\ CN.cacheCount (cn s') = CN.cacheCount (cn s) /\
                 edge_ok (cn s') r)
    tolerated.
Proof.
  intros Hinv. pose proof (makeIdent_spec zero_not_null fuel lsq msq s Hinv) as H.
  eapply wp_mono; [exact H| |auto].
  intros r s' (Hinv' & [Hle Hc] & Hr). split; [exact Hinv'|]. split; [lia|exact Hr].
Qed.

End Builders.
Set Default Proof Using "Type".

Section BuildersRun.
Import WF Package Scenario.

Lemma QParams_zero_not_null : zero_target (Params:=QParams) <> nullptr.
Proof. discriminate. Qed.

Lemma fresh_pool_ok : pool_ok fresh_pool.
Proof. apply pool_ok_b_sound. vm_compute. reflexivity. Qed.

Lemma CT_lookup_keeps_pool_witness :
  pool_ok fresh_pool /\
  wp (ComplexTable.lookup (1 # 3)%Q) fresh_pool
    (fun q s' => pool_ok s' /\ (forall q0, written fresh_pool q0 -> written s' q0) /\
                 written s' q)
    tolerated.
Proof.
  split; [exact fresh_pool_ok|].
  exact (CT_lookup_keeps_pool (1 # 3)%Q fresh_pool fresh_pool_ok).
Defined.

Lemma twin_edges_ok : Forall (edge_ok (cn busy_package)) twin_edges.
Proof. apply edges_ok_b_sound. vm_compute. reflexivity. Qed.

Lemma makeDDNode_keeps_wellformed_witness :
  zero_target (Params:=QParams) <> nullptr /\
  inv busy_package /\
  Z.of_nat (length twin_edges) = arity Vec /\
  Forall (edge_ok (cn busy_package)) twin_edges /\
  wp (makeDDNode 10 Vec 0 twin_edges false) busy_package
    (fun r s' => inv s' /\
                 CN.cacheCount (cn s') = CN.cacheCount (cn busy_package) /\
                 (forall wt, interned (cn busy_package) wt -> interned (cn s') wt) /\
                 edge_ok (cn s') r)
    tolerated.
Proof.
  split; [exact QParams_zero_not_null|]. split; [exact busy_package_inv|].
  split; [reflexivity|]. split; [exact twin_edges_ok|].
  exact (makeDDNode_keeps_wellformed QParams_zero_not_null 10 Vec 0 twin_edges busy_package
           busy_package_inv eq_refl twin_edges_ok).
Defined.

Lemma held_edges_held : Forall (fun x => p x <> nullptr /\ held (w x)) held_edges.
Proof.
  repeat (constructor; [split; [discriminate | right; reflexivity]|]). constructor.
Qed.

Lemma held_package_room :
  CN.cacheCount (cn held_package) + holding held_edges <= CN.CACHE_SIZE.
Proof. vm_compute. discriminate. Qed.

Lemma makeDDNode_settles_cache_witness :
  zero_target (Params:=QParams) <> nullptr /\
  inv held_package /\
  Z.of_nat (length held_edges) = arity Vec /\
  Forall (fun x => p x <> nullptr /\ held (w x)) held_edges /\
  CN.cacheCount (cn held_package) + holding held_edges <= CN.CACHE_SIZE /\
  wp (makeDDNode 10 Vec 0 held_edges true) held_package
    (fun r s' => inv s' /\
                 CN.cacheCount (cn s') =
                   CN.cacheCount (cn held_package) + holding held_edges - holds (w r) /\
                 p r <> nullptr /\ held (w r))
    tolerated.
Proof.
  split; [exact QParams_zero_not_null|]. split; [exact held_package_inv|].
  split; [reflexivity|]. split; [exact held_edges_held|]. split; [exact held_package_room|].
  exact (makeDDNode_settles_cache QParams_zero_not_null 10 Vec 0 held_edges held_package
           held_package_inv eq_refl held_edges_held held_package_room).
Defined.

Lemma lopsided_package_inv : inv lopsided_package.
Proof. apply inv_b_sound. vm_compute. reflexivity. Qed.

Lemma lopsided_ok : edge_ok (cn lopsided_package) lopsided.
Proof. apply edge_ok_b_sound. vm_compute. reflexivity. Qed.

Lemma lopsided_transposed :
  returned (transpose 10 lopsided lopsided_package) = Some (mkEdge (nodeP 1) CN.ONE) /\
  matrixTranspose lopsided_package = ∅ /\
  matrixTranspose (final_state (transpose 10 lopsided lopsided_package)) !! 128
    = Some (lopsided, lopsided, mkEdge (nodeP 1) CN.ONE).
Proof.
  split; [vm_compute; reflexivity|]. split; vm_compute; reflexivity.
Qed.

Lemma transpose_keeps_wellformed_witness :
  zero_target (Params:=QParams) <> nullptr /\
  inv lopsided_package /\ edge_ok (cn lopsided_package) lopsided /\
  wp (transpose 10 lopsided) lopsided_package
    (fun r s' => inv s' /\ CN.cacheCount (cn s') = CN.cacheCount (cn lopsided_package) /\
                 edge_ok (cn s') r)
    tolerated /\
  returned (transpose 10 lopsided lopsided_package) = Some (mkEdge (nodeP 1) CN.ONE) /\
  matrixTranspose lopsided_package = ∅ /\
  matrixTranspose (final_state (transpose 10 lopsided lopsided_package)) !! 128
    = Some (lopsided, lopsided, mkEdge (nodeP 1) CN.ONE).
Proof.
  split; [exact QParams_zero_not_null|]. split; [exact lopsided_package_inv|].
  split; [exact lopsided_ok|]. split; [|exact lopsided_transposed].
  exact (transpose_keeps_wellformed QParams_zero_not_null 10 lopsided lopsided_package
           lopsided_package_inv lopsided_ok).
Defined.

Lemma makeIdent_keeps_wellformed_witness :
  zero_target (Params:=QParams) <> nullptr /\
  inv busy_package /\
  wp (makeIdent 10 0 2) busy_package
    (fun r s' => inv s' /\ CN.cacheCount (cn s') = CN.cacheCount (cn busy_package) /\
                 edge_ok (cn s') r)
    tolerated.
Proof.
  split; [exact QParams_zero_not_null|]. split; [exact busy_package_inv|].
  exact (makeIdent_keeps_wellformed QParams_zero_not_null 10 0 2 busy_package
           busy_package_inv).
Defined.

End BuildersRun.

(** ** The builders of the states *)

Section States.
Context {F : Type} {ops : FpOps F} {params : Params F}.
Import Package.

Lemma fold_each_ext {S A} (l : list nat) (f g : A -> nat -> M S A) (a : A) (s : S) :
  (forall a j s, j ∈ l -> f a j s = g a j s) ->
  fold_each l f a s = fold_each l g a s.
Proof.
  revert a s. induction l as [|j l IH]; intros a s H; cbn [fold_each]; [reflexivity|].
  unfold bind. rewrite (H a j s) by left.
  destruct (g a j s) as [a' s'|]; [|reflexivity].
  apply IH. intros a0 j0 s0 Hj. apply H. right. exact Hj.
Qed.

(** X20.  The basis state of zeros is the zero state: [makeBasisState] with
    enough designators, those of the qubits up to [mostSignificantQubit]
    all [BasisStates::zero], runs as [makeZeroState] does (the same result
    or failure, the same state after it); so does the overload for a
    bitset with no bit set. *)
Theorem makeBasisState_of_zeros fuel msq (state : list BasisStates) (s : t (F:=F)) :
  size_t (msq + 1) <= Z.of_nat (length state) ->
  (forall q, (q < Z.to_nat (msq mod 256 + 1))%nat -> state !! q = Some bs_zero) ->
  makeBasisState fuel msq state s = makeZeroState fuel msq s /\
  forall n, makeBasisStateBits fuel msq (replicate n false) s = makeZeroState fuel msq s.
Proof.
  intros Hlen Hz. split.
  - unfold makeBasisState, makeZeroState.
    destruct (Z.ltb_spec (Z.of_nat (length state)) (size_t (msq + 1))) as [|_]; [lia|].
    cbn [when]. unfold bind at 1. cbn [ret].
    apply fold_each_ext. intros a j s0 Hj.
    apply elem_of_seq in Hj. rewrite (Hz j) by lia. reflexivity.
  - intros n. unfold makeBasisStateBits, makeZeroState.
    apply fold_each_ext. intros a j s0 _.
    destruct (replicate n false !! j) as [b|] eqn:Hb; [|reflexivity].
    apply lookup_replicate in Hb as [-> _]. reflexivity.
Qed.

End States.

Section StatesWellFormed.
Context {F : Type} {ops : FpOps F} {laws : WF.FpLaws (F:=F)} {params : Params F}.
Context (zero_not_null : zero_target <> nullptr).
Import WF Package.
Set Default Proof Using "All".

Lemma state_node_ok fuel var (s0 s : t (F:=F)) (x y : Edge) :
  inv s -> pstep 0 s0 s -> edge_ok (cn s) x -> edge_ok (cn s) y ->
  wp (makeDDNode fuel Vec var [x; y] false) s
    (fun r s' => inv s' /\ pstep 0 s0 s' /\ edge_ok (cn s') r) tolerated.
Proof.
  intros Hinv Hst Hx Hy.
  wp_whole (makeDDNode_ok zero_not_null); [exact Hinv|reflexivity| | |auto].
  - constructor; [exact Hx|constructor; [exact Hy|constructor]].
  - intros r s' (Hinv' & Hst' & Hr). split; [exact Hinv'|].
    split; [apply (pstep_trans zero_not_null 0 0 _ _ _ Hst Hst')|exact Hr].
Qed.

Lemma state_pair_ok fuel var (s0 s : t (F:=F)) (f : Edge) a1 a2 b1 b2 :
  inv s -> pstep 0 s0 s -> edge_ok (cn s) f ->
  wp (a <- in_cn (CN.lookup2 a1 a2) ;;
      b <- in_cn (CN.lookup2 b1 b2) ;;
      makeDDNode fuel Vec var [mkEdge (p f) a; mkEdge (p f) b] false) s
    (fun r s' => inv s' /\ pstep 0 s0 s' /\ edge_ok (cn s') r) tolerated.
Proof.
  intros Hinv Hst [Hp _].
  wp_use (I_lookup2 zero_not_null); [exact Hinv| |auto]. intros a s1 (Hinv1 & Hst1 & Ha).
  wp_use (I_lookup2 zero_not_null); [exact Hinv1| |auto]. intros b s2 (Hinv2 & Hst2 & Hb).
  apply state_node_ok; [exact Hinv2| | |].
  - apply (pstep_trans zero_not_null 0 0 _ _ _ Hst), (pstep_trans zero_not_null 0 0 _ _ _ Hst1 Hst2).
  - split; [exact Hp|]. eapply (interned_ple zero_not_null); [apply Hst2|exact Ha].
  - split; [exact Hp|exact Hb].
Qed.

(** X21.  The builders of the states keep the package well-formed:
    [makeZeroState] and [makeBasisState], called in a well-formed state,
    leave a well-formed state whenever they return, with [cacheCount]
    unchanged, and return an edge with a non-null node pointer and an
    interned weight; they fail none of the assertions on the cache
    lane. *)
Theorem state_builders_keep_wellformed fuel msq (state : list BasisStates) (s : t (F:=F)) :
  inv s ->
  wp (makeZeroState fuel msq) s
    (fun r s' => inv s' /\ CN.cacheCount (cn s') = CN.cacheCount (cn s) /\
                 edge_ok (cn s') r) tolerated /\
  wp (makeBasisState fuel msq state) s
    (fun r s' => inv s' /\ CN.cacheCount (cn s') = CN.cacheCount (cn s) /\
                 edge_ok (cn s') r) tolerated.
Proof.
  intros Hinv. pose proof (pstep_refl zero_not_null s) as Hst0.
  assert (Hpost : forall (r : Edge) s',
            inv s' /\ pstep 0 s s' /\ edge_ok (cn s') r ->
            inv s' /\ CN.cacheCount (cn s') = CN.cacheCount (cn s) /\ edge_ok (cn s') r).
  { intros r s' (Hi & [_ Hc] & Hr). split; [exact Hi|]. split; [lia|exact Hr]. }
  split.
  - unfold makeZeroState.
    eapply wp_mono;
      [apply wp_fold_each with
         (I := fun _ f s' => inv s' /\ pstep 0 s s' /\ edge_ok (cn s') f) (E := tolerated)
      | cbv beta; exact Hpost | auto].
    + split; [exact Hinv|]. split; [exact Hst0|apply (edge_ok_one zero_not_null)].
    + intros done j rest f s' _ (Hinv' & Hst' & Hf).
      apply state_node_ok; [exact Hinv'|exact Hst'|exact Hf|apply (edge_ok_zero zero_not_null)].
  - unfold makeBasisState. apply wp_bind.
    destruct (_ <? _); cbn [when]; [wp_steps|]. wp_steps.
    eapply wp_mono;
      [apply wp_fold_each with
         (I := fun _ f s' => inv s' /\ pstep 0 s s' /\ edge_ok (cn s') f) (E := tolerated)
      | cbv beta; exact Hpost | auto].
    + split; [exact Hinv|]. split; [exact Hst0|apply (edge_ok_one zero_not_null)].
    + intros done j rest f s' _ (Hinv' & Hst' & Hf).
      apply wp_bind. destruct (state !! j) as [st|]; [apply wp_ret|exact I]. destruct st.
      * apply state_node_ok; [exact Hinv'|exact Hst'|exact Hf|apply (edge_ok_zero zero_not_null)].
      * apply state_node_ok; [exact Hinv'|exact Hst'|apply (edge_ok_zero zero_not_null)|exact Hf].
      * apply state_pair_ok; assumption.
      * apply state_pair_ok; assumption.
      * apply state_pair_ok; assumption.
      * apply state_pair_ok; assumption.
Qed.

End StatesWellFormed.
Set Default Proof Using "Type".

Section StatesRun.
Import WF Package Scenario.

Lemma makeBasisState_of_zeros_witness :
  size_t (1 + 1) <= Z.of_nat (length [bs_zero; bs_zero]) /\
  (forall q, (q < Z.to_nat (1 mod 256 + 1))%nat -> [bs_zero; bs_zero] !! q = Some bs_zero) /\
  makeBasisState 10 1 [bs_zero; bs_zero] busy_package = makeZeroState 10 1 busy_package /\
  forall n, makeBasisStateBits 10 1 (replicate n false) busy_package
            = makeZeroState 10 1 busy_package.
Proof.
  assert (H1 : size_t (1 + 1) <= Z.of_nat (length [bs_zero; bs_zero])).
  { vm_compute. discriminate. }
  assert (H2 : forall q, (q < Z.to_nat (1 mod 256 + 1))%nat ->
                 [bs_zero; bs_zero] !! q = Some bs_zero).
  { intros q Hq. destruct q as [|[|q]]; [reflexivity|reflexivity|].
    change (Z.to_nat (1 mod 256 + 1)) with 2%nat in Hq. lia. }
  split; [exact H1|]. split; [exact H2|].
  exact (makeBasisState_of_zeros 10 1 [bs_zero; bs_zero] busy_package H1 H2).
Defined.

Lemma state_builders_keep_wellformed_witness :
  zero_target (Params:=QParams) <> nullptr /\
  inv busy_package /\
  wp (makeZeroState 10 1) busy_package
    (fun r s' => inv s' /\ CN.cacheCount (cn s') = CN.cacheCount (cn busy_package) /\
                 edge_ok (cn s') r) tolerated /\
  wp (makeBasisState 10 1 [bs_plus; bs_one]) busy_package
    (fun r s' => inv s' /\ CN.cacheCount (cn s') = CN.cacheCount (cn busy_package) /\
                 edge_ok (cn s') r) tolerated.
Proof.
  split; [exact QParams_zero_not_null|]. split; [exact busy_package_inv|].
  exact (state_builders_keep_wellformed QParams_zero_not_null 10 1 [bs_plus; bs_one]
           busy_package busy_package_inv).
Defined.

End StatesRun.

(** ** What addition and multiplication leave as it is *)

Section Frames.
Context {F : Type} {ops : FpOps F} {params : Params F}.
Import Package Frame.

Lemma beside_add_refl (s : t (F:=F)) : beside_add s s.
Proof. repeat split. Qed.

Lemma beside_add_trans (s1 s2 s3 : t (F:=F)) :
  beside_add s1 s2 -> beside_add s2 s3 -> beside_add s1 s3.
Proof.
  unfold beside_add. intros H12 H23. intuition congruence.
Qed.

Lemma beside_multiply_refl (s : t (F:=F)) : beside_multiply s s.
Proof. repeat split. Qed.

Lemma beside_multiply_trans (s1 s2 s3 : t (F:=F)) :
  beside_multiply s1 s2 -> beside_multiply s2 s3 -> beside_multiply s1 s3.
Proof.
  unfold beside_multiply. intros H12 H23. intuition congruence.
Qed.

(** X22.  An addition keeps to its own tables: whenever [add] returns, the
    number of qubits, the tables of the products (matrix, matrix-vector,
    inner and Kronecker), of the conjugate transposes, of the Toffoli
    gates and of the noise operations, and [IdTable] are as they were at
    the call; [add] changes the complex numbers, the unique tables, its
    compute tables and the table of the transposes at most. *)
Theorem add_keeps_to_its_tables fuel k x y (s : t (F:=F)) :
  wp (add fuel k x y) s (fun _ s' => beside_add s s') WF.anyF.
Proof.
  revert s. apply add_framed.
  - apply beside_add_refl.
  - apply beside_add_trans.
  - intros s c. repeat split.
  - intros k0 u s. destruct k0; repeat split.
  - intros f s. repeat split.
  - intros k0 f s. destruct k0; repeat split.
Qed.

(** X23.  A multiplication keeps to its own tables: whenever [multiply]
    returns, the number of qubits and the tables of the inner products, of
    the Kronecker products, of the conjugate transposes, of the Toffoli
    gates and of the noise operations are as they were at the call. *)
Theorem multiply_keeps_to_its_tables fuel k x y (s : t (F:=F)) :
  wp (multiply fuel k x y) s (fun _ s' => beside_multiply s s') WF.anyF.
Proof.
  revert s. apply multiply_framed.
  - apply beside_multiply_refl.
  - apply beside_multiply_trans.
  - intros s c. repeat split.
  - intros k0 u s. destruct k0; repeat split.
  - intros f s. repeat split.
  - intros k0 f s. destruct k0; repeat split.
  - intros f s. repeat split.
  - intros k0 a b ke s. destruct k0; repeat split.
Qed.

End Frames.
